(** * Double-double arithmetic of klang's float128 tools

    The two C programs [tools/float128_benchmark.c] and
    [tools/float128_bitcompare.c] implement double-double arithmetic on
    top of IEEE-754 binary64.  The C type [double] is embedded as the
    standard library's [spec_float] at precision 53 and maximal exponent
    1024, the operators [+], [-] and [*] as [SFadd], [SFsub] and [SFmul]
    (round to nearest, ties to even, no contraction of [a*b+c] into a
    fused operation), and every C function as a Rocq function of the same
    name.

    The conversions between half precision and [float] of
    [tools/float16_spotcheck.c] work on bit patterns only; they are
    embedded as functions on integers.

    Exact values are measured on the grid of binary64: every finite
    double is an integer multiple of [2^-1074], and [Zval x] is that
    integer.  Sums of doubles are therefore integers, and products are
    integers counted in units of [2^-2148]. *)

From Stdlib Require Import ZArith Lia Bool.
From Stdlib Require Import SpecFloat.

Local Open Scope Z_scope.

(** ** Rounding on the integer grid *)

Module Grid.

(** Exponent of the last place of [z], counted from the grid unit. *)
Definition cexp (z : Z) : Z := Z.max 0 (Z.log2 (Z.abs z) - 52).

(** Nearest integer to [m / P], ties to the even quotient. *)
Definition rne_q (m P : Z) : Z :=
  let q := m / P in
  match 2 * (m mod P) ?= P with
  | Lt => q
  | Eq => if Z.even q then q else q + 1
  | Gt => q + 1
  end.

(** Round to nearest even at 53 significant bits. *)
Definition RN (z : Z) : Z := rne_q z (2 ^ cexp z) * 2 ^ cexp z.

(** Rounding of the dyadic number [m * 2^e], [0 <= m], where [e] may be
    negative (finer than the grid); the result is an integer of the grid. *)
Definition rndE (m e : Z) : Z :=
  let c := Z.max 0 (Z.log2 m + e - 52) in
  if c <=? e then m * 2 ^ e else rne_q m (2 ^ (c - e)) * 2 ^ c.

(** Signed version of [rndE]: the rounding of [m / 2^k]. *)
Definition RNdiv (m k : Z) : Z := Z.sgn m * rndE (Z.abs m) (- k).

(** Membership in the format: at most 53 significant bits. *)
Definition fmt (z : Z) : Prop := (2 ^ cexp z | z).

Definition fmtb (z : Z) : bool := z mod 2 ^ cexp z =? 0.

End Grid.

Import Grid.

(** ** Binary64 as [spec_float] *)

Definition double := spec_float.

Definition fadd : double -> double -> double := SFadd 53 1024.
Definition fsub : double -> double -> double := SFsub 53 1024.
Definition fmul : double -> double -> double := SFmul 53 1024.
Definition fneg : double -> double := SFopp.

Definition is_finite (x : double) : bool :=
  match x with
  | S754_zero _ | S754_finite _ _ _ => true
  | _ => false
  end.

(** The sign bit; a NaN counts as positive. *)
Definition sign (x : double) : bool :=
  match x with
  | S754_zero s | S754_infinity s | S754_finite s _ _ => s
  | S754_nan => false
  end.

(** A well-formed double: the mantissa is canonical and the exponent in
    range, as for every value of the C type. *)
Definition valid (x : double) : Prop := valid_binary 53 1024 x = true.

(** A finite double as an integer count of [2^-1074]. *)
Definition Zval (x : double) : Z :=
  match x with
  | S754_finite s m e => cond_Zopp s (Zpos m) * 2 ^ (e + 1074)
  | _ => 0
  end.

(** The double of sign [s] and magnitude [z], for [z] in the format. *)
Definition SFofZ (s : bool) (z : Z) : double :=
  match z with
  | Zpos _ =>
      let c := cexp z in
      if c <=? 2045 then S754_finite s (Z.to_pos (z / 2 ^ c)) (c - 1074)
      else S754_infinity s
  | _ => S754_zero s
  end.

(** The double nearest to the grid integer [z]; an exact zero is [+0]. *)
Definition SFround (z : Z) : double :=
  if z =? 0 then S754_zero false else SFofZ (z <? 0) (RN (Z.abs z)).

(** First grid integer that no finite double reaches: [2^1024 / 2^-1074]. *)
Definition OVF : Z := 2 ^ 2098.


(** Modelled from the spec: the C library's [fma], which is not part of
    the repository; the specification requires a correctly rounded fused
    multiply-add, [a * b + c] with one final rounding (IEEE-754
    fusedMultiplyAdd). *)
Definition ffma (x y z : double) : double :=
  match x, y with
  | S754_nan, _ | _, S754_nan => S754_nan
  | S754_infinity _, S754_zero _ | S754_zero _, S754_infinity _ => S754_nan
  | S754_infinity sx, S754_infinity sy
  | S754_infinity sx, S754_finite sy _ _
  | S754_finite sx _ _, S754_infinity sy =>
      match z with
      | S754_nan => S754_nan
      | S754_infinity sz => if Bool.eqb (xorb sx sy) sz then z else S754_nan
      | _ => S754_infinity (xorb sx sy)
      end
  | S754_finite sx _ _, S754_zero sy
  | S754_zero sx, S754_finite sy _ _
  | S754_zero sx, S754_zero sy =>
      match z with
      | S754_zero sz =>
          if Bool.eqb (xorb sx sy) sz then z else S754_zero false
      | _ => z
      end
  | S754_finite sx mx ex, S754_finite sy my ey =>
      match z with
      | S754_nan => S754_nan
      | S754_infinity _ => z
      | S754_zero _ =>
          binary_round 53 1024 (xorb sx sy) (mx * my) (ex + ey)
      | S754_finite sz mz ez =>
          let e := Z.min (ex + ey) ez in
          binary_normalize 53 1024
            (cond_Zopp (xorb sx sy) (Zpos (fst (shl_align (mx * my) (ex + ey) e)))
             + cond_Zopp sz (Zpos (fst (shl_align mz ez e))))
            e false
      end
  end.

(** ** The C sources

    [tools/float128_benchmark.c]: the split-based error-free product and
    the double-double operators. *)

Record dd_real := mk_dd { hi : double; lo : double }.

Module Benchmark.

(** [#define SPLIT_CONST 134217729.0], that is [2^27 + 1]. *)
Definition SPLIT_CONST : double := S754_finite false 4503599660924928 (-25).

Definition split_double (a : double) : double * double :=
  let temp := fmul SPLIT_CONST a in
  let a_hi := fsub temp (fsub temp a) in
  let a_lo := fsub a a_hi in
  (a_hi, a_lo).

Definition two_sum (a b : double) : dd_real :=
  let s := fadd a b in
  let v := fsub s a in
  let err := fadd (fsub a (fsub s v)) (fsub b v) in
  mk_dd s err.

Definition quick_two_sum (a b : double) : dd_real :=
  let s := fadd a b in
  let err := fsub b (fsub s a) in
  mk_dd s err.

Definition two_prod (a b : double) : dd_real :=
  let p := fmul a b in
  let '(a_hi, a_lo) := split_double a in
  let '(b_hi, b_lo) := split_double b in
  let err :=
    fadd (fadd (fadd (fsub (fmul a_hi b_hi) p) (fmul a_hi b_lo))
               (fmul a_lo b_hi))
         (fmul a_lo b_lo) in
  mk_dd p err.

Definition dd_add (a b : dd_real) : dd_real :=
  let s := two_sum (hi a) (hi b) in
  let lo_sum := fadd (fadd (lo a) (lo b)) (lo s) in
  quick_two_sum (hi s) lo_sum.

Definition dd_add_d (a : dd_real) (b : double) : dd_real :=
  let s := two_sum (hi a) b in
  let lo_sum := fadd (lo a) (lo s) in
  quick_two_sum (hi s) lo_sum.

Definition dd_mul_d (a : dd_real) (b : double) : dd_real :=
  let p := two_prod (hi a) b in
  let lo_term := fadd (fmul (lo a) b) (lo p) in
  quick_two_sum (hi p) lo_term.

Definition dd_mul (a b : dd_real) : dd_real :=
  let p := two_prod (hi a) (hi b) in
  let result := p in
  let t1 := two_prod (hi a) (lo b) in
  let result := dd_add result t1 in
  let t2 := two_prod (lo a) (hi b) in
  let result := dd_add result t2 in
  let t3 := two_prod (lo a) (lo b) in
  let result := dd_add result t3 in
  result.

Definition dd_to_double (a : dd_real) : double := fadd (hi a) (lo a).

Definition dd_from_double (x : double) : dd_real := mk_dd x (S754_zero false).

End Benchmark.

(** [tools/float128_bitcompare.c]: the same sums, the product by a fused
    multiply-add. *)

Module Bitcompare.

Definition two_sum (a b : double) : dd_real :=
  let s := fadd a b in
  let v := fsub s a in
  let e := fadd (fsub a (fsub s v)) (fsub b v) in
  mk_dd s e.

Definition quick_two_sum (a b : double) : dd_real :=
  let s := fadd a b in
  let e := fsub b (fsub s a) in
  mk_dd s e.

Definition two_prod (a b : double) : dd_real :=
  let p := fmul a b in
  let e := ffma a b (fneg p) in
  mk_dd p e.

Definition dd_add (a b : dd_real) : dd_real :=
  let s := two_sum (hi a) (hi b) in
  let e := fadd (fadd (lo a) (lo b)) (lo s) in
  quick_two_sum (hi s) e.

Definition dd_mul (a b : dd_real) : dd_real :=
  let p := two_prod (hi a) (hi b) in
  let p_lo := fadd (lo p) (fadd (fmul (hi a) (lo b)) (fmul (lo a) (hi b))) in
  quick_two_sum (hi p) p_lo.

Definition dd_from_double (d : double) : dd_real := mk_dd d (S754_zero false).

End Bitcompare.

(** [tools/float128_benchmark.c], the functions exported for Kotlin: a
    double-double goes in as two doubles, and the two parts of the result,
    which the C functions store through two pointers, come back as a
    pair. *)

Definition compute_double_double_sum (a_hi a_lo b_hi b_lo : double)
  : double * double :=
  let a := mk_dd a_hi a_lo in
  let b := mk_dd b_hi b_lo in
  let result := Benchmark.dd_add a b in
  (hi result, lo result).


Definition compute_double_double_to_double (hi lo : double) : double :=
  let x := mk_dd hi lo in
  Benchmark.dd_to_double x.

(** The body of the compensated (Kahan) summation loop of
    [test_summation]: one more term [small] is added to the running sum
    [k_sum] with the running compensation [k_c]. *)
Definition kahan_step (small : double) (st : double * double)
  : double * double :=
  let '(k_sum, k_c) := st in
  let y := fsub small k_c in
  let t := fadd k_sum y in
  let k_c := fsub (fsub t k_sum) y in
  let k_sum := t in
  (k_sum, k_c).

(** [tools/float16_spotcheck.c]: conversions between half precision,
    kept in a [uint16_t], and [float].  Both functions move a [float]
    through [memcpy] only, so a [float] is represented by its 32-bit
    pattern. *)

Module Float16.

Definition u16 (z : Z) : Z := z mod 2 ^ 16.
Definition u32 (z : Z) : Z := z mod 2 ^ 32.

(** The loop [while ((m & 0x400) == 0) { m <<= 1; e--; }]. *)
Fixpoint normalize (fuel : nat) (m e : Z) : option (Z * Z) :=
  match fuel with
  | O => None
  | S fuel' =>
      if Z.land m 1024 =? 0
      then normalize fuel' (u32 (Z.shiftl m 1)) (e - 1)
      else Some (m, e)
  end.

Definition f16_to_f32 (fuel : nat) (h : Z) : option Z :=
  let sign := u32 (Z.land (Z.shiftr h 15) 1) in
  let exp := u32 (Z.land (Z.shiftr h 10) 31) in
  let mant := u32 (Z.land h 1023) in
  if exp =? 31 then
    let f32_exp := 255 in
    let f32_mant := if negb (mant =? 0) then Z.shiftl 1 22 else 0 in
    Some (Z.lor (Z.lor (u32 (Z.shiftl sign 31)) (u32 (Z.shiftl f32_exp 23)))
                f32_mant)
  else if exp =? 0 then
    if mant =? 0 then Some (u32 (Z.shiftl sign 31))
    else
      match normalize fuel mant (-14) with
      | None => None
      | Some (m, e) =>
          let m := Z.land m 1023 in
          let f32_exp := u32 (e + 127) in
          let f32_mant := u32 (Z.shiftl m 13) in
          Some (Z.lor (Z.lor (u32 (Z.shiftl sign 31))
                             (u32 (Z.shiftl f32_exp 23)))
                      f32_mant)
      end
  else
    let f32_exp := u32 (exp - 15 + 127) in
    let f32_mant := u32 (Z.shiftl mant 13) in
    Some (Z.lor (Z.lor (u32 (Z.shiftl sign 31)) (u32 (Z.shiftl f32_exp 23)))
                f32_mant).

Definition f32_to_f16 (bits : Z) : Z :=
  let sign := Z.land (Z.shiftr bits 31) 1 in
  let exp := Z.land (Z.shiftr bits 23) 255 in
  let mant := Z.land bits 8388607 in
  if exp =? 255 then
    u16 (Z.lor (Z.lor (u32 (Z.shiftl sign 15)) 31744)
               (if negb (mant =? 0) then 512 else 0))
  else if (exp =? 0) && (mant =? 0) then u16 (u32 (Z.shiftl sign 15))
  else
    let new_exp := exp - 127 + 15 in
    if new_exp >=? 31 then u16 (Z.lor (u32 (Z.shiftl sign 15)) 31744)
    else if new_exp <=? 0 then u16 (u32 (Z.shiftl sign 15))
    else
      let new_mant := Z.shiftr mant 13 in
      let round_bit := Z.land (Z.shiftr mant 12) 1 in
      let sticky := Z.land mant 4095 in
      if negb (round_bit =? 0)
         && (negb (sticky =? 0) || negb (Z.land new_mant 1 =? 0))
      then
        let new_mant := u32 (new_mant + 1) in
        if new_mant >? 1023 then
          let new_mant := 0 in
          let new_exp := new_exp + 1 in
          if new_exp >=? 31 then u16 (Z.lor (u32 (Z.shiftl sign 15)) 31744)
          else u16 (Z.lor (Z.lor (u32 (Z.shiftl sign 15))
                                 (u32 (Z.shiftl new_exp 10)))
                          new_mant)
        else u16 (Z.lor (Z.lor (u32 (Z.shiftl sign 15))
                               (u32 (Z.shiftl new_exp 10)))
                        new_mant)
      else u16 (Z.lor (Z.lor (u32 (Z.shiftl sign 15))
                             (u32 (Z.shiftl new_exp 10)))
                      new_mant).

End Float16.

(** A finite half as an integer count of [2^-24], a finite float as an
    integer count of [2^-149]. *)
Definition half_value (h : Z) : Z :=
  let sign := Z.land (Z.shiftr h 15) 1 in
  let exp := Z.land (Z.shiftr h 10) 31 in
  let mant := Z.land h 1023 in
  let v := if exp =? 0 then mant else (1024 + mant) * 2 ^ (exp - 1) in
  if sign =? 0 then v else - v.

Definition float_value (bits : Z) : Z :=
  let sign := Z.land (Z.shiftr bits 31) 1 in
  let exp := Z.land (Z.shiftr bits 23) 255 in
  let mant := Z.land bits 8388607 in
  let v := if exp =? 0 then mant else (8388608 + mant) * 2 ^ (exp - 1) in
  if sign =? 0 then v else - v.

(** [f] holds on the [n] integers from [start] on. *)
Fixpoint forall_range (f : Z -> bool) (n : nat) (start : Z) : bool :=
  match n with
  | O => true
  | S n' => f start && forall_range f n' (start + 1)
  end.

(** What the normalization loop of [f16_to_f32] has to return for the
    mantissa [m] of a subnormal half. *)
Definition check_normalize (m : Z) : bool :=
  match Float16.normalize 11 m (-14) with
  | Some (m', e') =>
      (1024 <=? m') && (m' <? 2048) && (-24 <=? e') && (e' <=? -15)
      && (m' =? m * 2 ^ (-14 - e'))
  | None => false
  end.

(** ** Notions of the specification *)

(** Half a unit in the last place of [h], on the grid: a pair [(h, l)] is
    normalized when [|l| <= ulp(h) / 2]. *)
Definition normalized (h l : double) : Prop :=
  2 * Z.abs (Zval l) <= 2 ^ cexp (Zval h).

Definition normalizedb (h l : double) : bool :=
  2 * Z.abs (Zval l) <=? 2 ^ cexp (Zval h).

Definition dd_finite (a : dd_real) : bool := is_finite (hi a) && is_finite (lo a).

Definition dd_valid (a : dd_real) : Prop := valid (hi a) /\ valid (lo a).

(** ** The split-based product on the grid

    The same sequence of roundings as [split_double] and [two_prod], on
    integers and with exact integer products; [C] is [2^27 + 1]. *)

Module GridProd.

Definition C : Z := 134217729.

Record split_trace := mk_split { sp_g : Z; sp_d : Z; sp_h : Z; sp_l : Z }.

Definition splitZ (a : Z) : split_trace :=
  let g := RN (C * a) in
  let d := RN (g - a) in
  let h := RN (g - d) in
  let l := RN (a - h) in
  mk_split g d h l.

Record prod_trace := mk_prod {
  pr_p : Z; pr_q1 : Z; pr_r1 : Z; pr_q2 : Z; pr_r2 : Z;
  pr_q3 : Z; pr_r3 : Z; pr_q4 : Z; pr_e : Z }.

(** The roundings of [two_prod] after the two splits, from the exact
    product [ab] and the four halves. *)
Definition prodZ (ab ah al bh bl : Z) : prod_trace :=
  let p := RN ab in
  let q1 := RN (ah * bh) in
  let r1 := RN (q1 - p) in
  let q2 := RN (ah * bl) in
  let r2 := RN (r1 + q2) in
  let q3 := RN (al * bh) in
  let r3 := RN (r2 + q3) in
  let q4 := RN (al * bl) in
  let e := RN (r3 + q4) in
  mk_prod p q1 r1 q2 r2 q3 r3 q4 e.

Definition two_prodZ (a b : Z) : prod_trace :=
  prodZ (a * b) (sp_h (splitZ a)) (sp_l (splitZ a))
        (sp_h (splitZ b)) (sp_l (splitZ b)).

End GridProd.

(** The contract of an error-free sum: [hi] is the rounded sum and
    [hi + lo] is the exact sum. *)
Definition exact_sum_pair (a b : double) (r : dd_real) : Prop :=
  is_finite (hi r) = true /\ is_finite (lo r) = true /\
  Zval (hi r) = RN (Zval a + Zval b) /\
  Zval (hi r) + Zval (lo r) = Zval a + Zval b.

(** The contract of an error-free product; the exact product of two grid
    integers counts units of [2^-2148]. *)
Definition exact_prod_pair (a b : double) (r : dd_real) : Prop :=
  is_finite (hi r) = true /\ is_finite (lo r) = true /\
  Zval (hi r) = RNdiv (Zval a * Zval b) 1074 /\
  (Zval (hi r) + Zval (lo r)) * 2 ^ 1074 = Zval a * Zval b.

(** What the split-based product needs beyond a finite product: neither
    multiplication by [SPLIT_CONST] overflows, nor the partial product of
    the two high halves. *)
Definition split_safe (a b : double) : Prop :=
  is_finite (fmul Benchmark.SPLIT_CONST a) = true /\
  is_finite (fmul Benchmark.SPLIT_CONST b) = true /\
  is_finite (fmul (fst (Benchmark.split_double a))
                  (fst (Benchmark.split_double b))) = true.

(** A finite pair that satisfies the invariant of the specification. *)
Definition dd_normalized (r : dd_real) : Prop :=
  is_finite (hi r) = true /\ is_finite (lo r) = true /\
  normalized (hi r) (lo r).

(** No overflow in a sum by [two_sum] followed by a renormalization with
    result [r]: the sum [a + b], the difference [s - a] inside [two_sum]
    and the high part of [r] are finite. *)
Definition sum_safe (a b : double) (r : dd_real) : Prop :=
  is_finite (fadd a b) = true /\
  is_finite (fsub (fadd a b) a) = true /\
  is_finite (hi r) = true.

(** The product [a * b] is finite and its exact value is on the grid:
    nothing is lost to underflow. *)
Definition product_fits (a b : double) : Prop :=
  is_finite (fmul a b) = true /\ (2 ^ 1074 | Zval a * Zval b).

Definition prod_safe (a b : double) : Prop :=
  product_fits a b /\ split_safe a b.

(** What the split-based product needs to stay finite: a finite product,
    and neither a split nor the product of the two high halves
    overflows. *)
Definition prod_finite (a b : double) : Prop :=
  is_finite (fmul a b) = true /\ split_safe a b.

(** The four products and the three sums of [dd_mul] in the benchmark
    stay finite. *)
Definition mul_finite (A B : dd_real) : Prop :=
  let p0 := Benchmark.two_prod (hi A) (hi B) in
  let t1 := Benchmark.two_prod (hi A) (lo B) in
  let r1 := Benchmark.dd_add p0 t1 in
  let t2 := Benchmark.two_prod (lo A) (hi B) in
  let r2 := Benchmark.dd_add r1 t2 in
  let t3 := Benchmark.two_prod (lo A) (lo B) in
  prod_finite (hi A) (hi B) /\ prod_finite (hi A) (lo B) /\
  prod_finite (lo A) (hi B) /\ prod_finite (lo A) (lo B) /\
  sum_safe (hi p0) (hi t1) r1 /\ sum_safe (hi r1) (hi t2) r2 /\
  sum_safe (hi r2) (hi t3) (Benchmark.dd_add r2 t3).

(** ** Doubles used as inputs *)

Module Inputs.

Definition pzero : double := S754_zero false.
Definition nzero : double := S754_zero true.

(** [1.0] and the double nearest to [1e-16]. *)
Definition one : double := S754_finite false 4503599627370496 (-52).
Definition eps16 : double := S754_finite false 8112963841460668 (-106).

(** [DBL_MAX] and [-3 * 2^970]. *)
Definition dbl_max : double := S754_finite false 9007199254740991 971.
Definition m3p970 : double := S754_finite true 6755399441055744 919.

(** [1 + 2^-52] and [2^-53]. *)
Definition one_ulp : double := S754_finite false 4503599627370497 (-52).
Definition half_ulp : double := S754_finite false 4503599627370496 (-105).

(** [2^-600]. *)
Definition p2m600 : double := S754_finite false 4503599627370496 (-652).

(** [0x1.1619396e6bc4dp-985] and [-0x1.3b00af03f2d71p-55]. *)
Definition tiny_a : double := S754_finite false 4892361123871821 (-1037).
Definition tiny_b : double := S754_finite true 5541585584336241 (-107).

(** The double nearest to [0.1]. *)
Definition tenth : double := S754_finite false 7205759403792794 (-56).

(** [(2^53 - 1) * 2^459]: its square is finite, the square of its high
    half is [2^1024]. *)
Definition sqrt_max : double := S754_finite false 9007199254740991 459.

End Inputs.

(** [2^1000] and [2^-1000]. *)
Definition p2p1000 : double := S754_finite false 4503599627370496 948.
Definition p2m1000 : double := S754_finite false 4503599627370496 (-1052).

(** ** Invariant of the right shift of [SpecFloat] *)

Ltac pick_case :=
  solve [ left; repeat split; first [reflexivity|lia]
        | right; left; repeat split; first [reflexivity|lia]
        | right; right; left; repeat split; first [reflexivity|lia]
        | right; right; right; repeat split; first [reflexivity|lia] ].

(** Linear arithmetic with quotients and remainders. *)
Ltac dm := Z.div_mod_to_equations; lia.

(** Divisibility of one closed integer by another, by evaluation. *)
Ltac divide_by_eval :=
  match goal with
  | |- (?d | ?n) => exists (n / d); vm_compute; reflexivity
  end.

(** What the round and sticky bits say about the remainder [m mod 2^n]. *)
Definition shr_inv (m : Z) (n : Z) (rec : shr_record) : Prop :=
  shr_m rec = m / 2 ^ n /\
  ((shr_r rec = false /\ shr_s rec = false /\ m mod 2 ^ n = 0) \/
   (shr_r rec = false /\ shr_s rec = true /\ 0 < 2 * (m mod 2 ^ n) < 2 ^ n) \/
   (shr_r rec = true /\ shr_s rec = false /\ 2 * (m mod 2 ^ n) = 2 ^ n) \/
   (shr_r rec = true /\ shr_s rec = true /\ 2 ^ n < 2 * (m mod 2 ^ n))).


(** * Theory *)

(** ** Nearest quotients *)

Section RneQ.

Variable P : Z.
Hypothesis HP : 0 < P.

Lemma rne_q_cases m :
  let q := m / P in let r := m mod P in
  (2 * r < P /\ rne_q m P = q) \/
  (2 * r = P /\ Z.even q = true /\ rne_q m P = q) \/
  (2 * r = P /\ Z.even q = false /\ rne_q m P = q + 1) \/
  (2 * r > P /\ rne_q m P = q + 1).
Proof.
  intros q r. unfold rne_q. fold q. fold r.
  destruct (Z.compare_spec (2 * r) P) as [E|E|E].
  - destruct (Z.even q) eqn:Eq; [right; left | right; right; left]; auto.
  - left. auto.
  - right. right. right. split; [lia | reflexivity].
Qed.

Lemma rne_q_error m : 2 * Z.abs (rne_q m P * P - m) <= P.
Proof.
  pose proof (Z.div_mod m P ltac:(lia)) as D.
  pose proof (Z.mod_pos_bound m P HP) as B.
  destruct (rne_q_cases m) as [[H1 H2]|[[H1 [_ H2]]|[[H1 [_ H2]]|[H1 H2]]]];
    rewrite H2; nia.
Qed.

Lemma rne_q_nearest m j : Z.abs (rne_q m P * P - m) <= Z.abs (j * P - m).
Proof.
  pose proof (rne_q_error m) as E.
  destruct (Z.eq_dec j (rne_q m P)) as [->|N]; [lia|].
  assert (P <= Z.abs (j * P - rne_q m P * P)) by nia.
  lia.
Qed.

Lemma rne_q_exact j : rne_q (j * P) P = j.
Proof.
  unfold rne_q. rewrite Z.div_mul, Z.mod_mul by lia.
  replace (2 * 0) with 0 by lia.
  destruct (Z.compare_spec 0 P); lia.
Qed.

Lemma rne_q_mono m m' : m <= m' -> rne_q m P <= rne_q m' P.
Proof.
  intros L.
  pose proof (Z.div_mod m P ltac:(lia)) as D.
  pose proof (Z.mod_pos_bound m P HP) as B.
  pose proof (Z.div_mod m' P ltac:(lia)) as D'.
  pose proof (Z.mod_pos_bound m' P HP) as B'.
  assert (Q : m / P <= m' / P) by (apply Z.div_le_mono; lia).
  destruct (Z.eq_dec (m / P) (m' / P)) as [E|N].
  - assert (R : m mod P <= m' mod P) by nia.
    destruct (rne_q_cases m) as [[H1 H2]|[[H1 [V H2]]|[[H1 [V H2]]|[H1 H2]]]];
    destruct (rne_q_cases m') as [[H1' H2']|[[H1' [V' H2']]|[[H1' [V' H2']]|[H1' H2']]]];
      rewrite H2, H2'; try lia; try (rewrite E in V; congruence).
  - destruct (rne_q_cases m) as [[H1 H2]|[[H1 [V H2]]|[[H1 [V H2]]|[H1 H2]]]];
    destruct (rne_q_cases m') as [[H1' H2']|[[H1' [V' H2']]|[[H1' [V' H2']]|[H1' H2']]]];
      rewrite H2, H2'; lia.
Qed.

Lemma rne_q_scale m D : 0 < D -> rne_q (m * D) (P * D) = rne_q m P.
Proof.
  intros HD. unfold rne_q.
  rewrite Z.div_mul_cancel_r by lia.
  rewrite Z.mul_mod_distr_r by lia.
  replace (2 * (m mod P * D)) with (2 * (m mod P) * D) by ring.
  rewrite <- Zmult_compare_compat_r by lia. reflexivity.
Qed.

Lemma rne_q_opp m : rne_q (- m) P = - rne_q m P.
Proof.
  pose proof (Z.div_mod m P ltac:(lia)) as D.
  pose proof (Z.mod_pos_bound m P HP) as B.
  destruct (Z.eq_dec (m mod P) 0) as [Z0|NZ].
  - remember (m / P) as q eqn:Hq.
    assert (H : m = q * P) by lia.
    clear Hq D B Z0. subst m.
    rewrite <- Z.mul_opp_l. now rewrite !rne_q_exact.
  - assert (Q : (- m) / P = - (m / P) - 1).
    { symmetry. apply Z.div_unique with (r := P - m mod P); lia. }
    assert (R : (- m) mod P = P - m mod P).
    { symmetry. apply Z.mod_unique with (q := - (m / P) - 1); lia. }
    assert (V : Z.even (- (m / P) - 1) = negb (Z.even (m / P))).
    { replace (- (m / P) - 1) with (- (m / P + 1)) by lia.
      rewrite Z.even_opp. replace (m / P + 1) with (Z.succ (m / P)) by lia.
      rewrite Z.even_succ. rewrite <- Z.negb_even. reflexivity. }
    destruct (rne_q_cases m) as [[H1 H2]|[[H1 [E H2]]|[[H1 [E H2]]|[H1 H2]]]];
    destruct (rne_q_cases (- m)) as [[H1' H2']|[[H1' [E' H2']]|[[H1' [E' H2']]|[H1' H2']]]];
      rewrite H2, H2'; rewrite ?Q, ?R in *; try lia;
      try (rewrite V, E in E'; discriminate).
Qed.

End RneQ.

(** ** The format of 53-bit integers *)

Section Format.

Lemma pow2_pos k : 0 <= k -> 0 < 2 ^ k.
Proof. intros. apply Z.pow_pos_nonneg; lia. Qed.

Lemma pow2_le a b : a <= b -> 2 ^ a <= 2 ^ b.
Proof. intros. apply Z.pow_le_mono_r; lia. Qed.

Lemma pow2_lt a b : 0 <= b -> a < b -> 2 ^ a < 2 ^ b.
Proof.
  intros Hb L. destruct (Z_lt_le_dec a 0) as [N|N].
  - rewrite (Z.pow_neg_r 2 a N). now apply pow2_pos.
  - apply Z.pow_lt_mono_r; lia.
Qed.

Lemma pow2_divide a b : 0 <= a <= b -> (2 ^ a | 2 ^ b).
Proof.
  intros H. exists (2 ^ (b - a)). rewrite <- Z.pow_add_r by lia.
  f_equal. lia.
Qed.

Lemma cexp_nonneg z : 0 <= cexp z.
Proof. unfold cexp. lia. Qed.

Lemma cexp_opp z : cexp (- z) = cexp z.
Proof. unfold cexp. now rewrite Z.abs_opp. Qed.

Lemma cexp_abs z : cexp (Z.abs z) = cexp z.
Proof. unfold cexp. now rewrite Z.abs_idemp. Qed.

Lemma cexp_mono x y : Z.abs x <= Z.abs y -> cexp x <= cexp y.
Proof.
  intros H. unfold cexp. pose proof (Z.log2_le_mono _ _ H). lia.
Qed.

Lemma cexp_upper z : Z.abs z < 2 ^ (cexp z + 53).
Proof.
  destruct (Z.eq_dec z 0) as [->|N].
  - change (Z.abs 0) with 0. change (cexp 0) with 0. now apply pow2_pos.
  - pose proof (Z.log2_spec (Z.abs z) ltac:(lia)) as [_ U].
    eapply Z.lt_le_trans; [exact U|]. apply pow2_le. unfold cexp. lia.
Qed.

Lemma cexp_lower z : 0 < cexp z -> 2 ^ (cexp z + 52) <= Z.abs z.
Proof.
  intros H. unfold cexp in *.
  assert (0 < Z.abs z).
  { destruct (Z.eq_dec z 0) as [->|]; [simpl in H; lia | lia]. }
  pose proof (Z.log2_spec (Z.abs z) ltac:(lia)) as [L _].
  replace (Z.max 0 (Z.log2 (Z.abs z) - 52) + 52) with (Z.log2 (Z.abs z)) by lia.
  exact L.
Qed.

Lemma cexp_le_of_lt z k : 0 <= k -> Z.abs z < 2 ^ (k + 53) -> cexp z <= k.
Proof.
  intros Hk H. unfold cexp.
  destruct (Z.eq_dec z 0) as [->|N]; [simpl; lia|].
  apply Z.log2_lt_pow2 in H; lia.
Qed.

Lemma cexp_ge_of_le z k : 2 ^ (k + 52) <= Z.abs z -> k <= cexp z.
Proof.
  intros H. unfold cexp.
  destruct (Z_lt_le_dec (k + 52) 0) as [N|N]; [lia|].
  assert (0 < Z.abs z) by (pose proof (pow2_pos (k + 52) N); lia).
  apply Z.log2_le_pow2 in H; lia.
Qed.

Lemma fmt_0 : fmt 0.
Proof. apply Z.divide_0_r. Qed.

Lemma fmt_opp z : fmt z -> fmt (- z).
Proof. unfold fmt. rewrite cexp_opp. apply Z.divide_opp_r. Qed.

Lemma fmt_opp_iff z : fmt (- z) <-> fmt z.
Proof.
  split; [|apply fmt_opp]. intros H. apply fmt_opp in H.
  now rewrite Z.opp_involutive in H.
Qed.

Lemma fmtb_spec z : fmtb z = true <-> fmt z.
Proof.
  unfold fmtb, fmt. rewrite Z.eqb_eq.
  pose proof (pow2_pos _ (cexp_nonneg z)).
  rewrite Z.mod_divide by lia. reflexivity.
Qed.

(** A multiple of [2^k] that is at most [2^(k+53)] is in the format. *)
Lemma fmt_of_divide z k :
  0 <= k -> (2 ^ k | z) -> Z.abs z <= 2 ^ (k + 53) -> fmt z.
Proof.
  intros Hk D B. unfold fmt.
  destruct (Z.eq_dec (Z.abs z) (2 ^ (k + 53))) as [E|N].
  - assert (C : cexp z = k + 1).
    { unfold cexp. rewrite E, Z.log2_pow2 by lia. lia. }
    rewrite C.
    destruct (Z.abs_eq_or_opp z) as [A|A]; rewrite A in E.
    + rewrite E. apply pow2_divide. lia.
    + replace z with (- 2 ^ (k + 53)) by lia.
      apply Z.divide_opp_r, pow2_divide. lia.
  - apply Z.divide_trans with (2 ^ k); [|exact D].
    apply pow2_divide. split; [apply cexp_nonneg|].
    apply cexp_le_of_lt; lia.
Qed.

Lemma fmt_small z : Z.abs z <= 2 ^ 53 -> fmt z.
Proof.
  intros H. apply (fmt_of_divide z 0); try lia.
  apply Z.divide_1_l.
Qed.

Lemma fmt_pow2 k : 0 <= k -> fmt (2 ^ k).
Proof.
  intros Hk. apply (fmt_of_divide _ k Hk); [apply Z.divide_refl|].
  rewrite Z.abs_eq by (apply Z.pow_nonneg; lia). apply pow2_le. lia.
Qed.

Lemma RN_0 : RN 0 = 0.
Proof. reflexivity. Qed.

Lemma RN_opp z : RN (- z) = - RN z.
Proof.
  unfold RN. rewrite cexp_opp.
  rewrite rne_q_opp by (apply pow2_pos, cexp_nonneg). ring.
Qed.

Lemma RN_id z : fmt z -> RN z = z.
Proof.
  intros [j E]. unfold RN. rewrite E at 1.
  rewrite rne_q_exact by (apply pow2_pos, cexp_nonneg). now symmetry.
Qed.

Lemma RN_error z : 2 * Z.abs (RN z - z) <= 2 ^ cexp z.
Proof. apply rne_q_error, pow2_pos, cexp_nonneg. Qed.

Lemma RN_divide z k : 0 <= k -> (2 ^ k | z) -> (2 ^ k | RN z).
Proof.
  intros Hk D. destruct (Z_le_gt_dec k (cexp z)) as [L|G].
  - unfold RN. apply Z.divide_mul_r. apply pow2_divide. lia.
  - rewrite RN_id; [exact D|].
    apply Z.divide_trans with (2 ^ k); [|exact D].
    apply pow2_divide. pose proof (cexp_nonneg z). lia.
Qed.

Lemma RN_abs_le z : Z.abs (RN z) <= 2 ^ (cexp z + 53).
Proof.
  pose proof (cexp_nonneg z) as C. pose proof (pow2_pos _ C) as Pc.
  pose proof (cexp_upper z) as U.
  rewrite Z.pow_add_r in * by lia.
  unfold RN.
  assert (rne_q z (2 ^ cexp z) <= 2 ^ 53).
  { rewrite <- (rne_q_exact (2 ^ cexp z) Pc (2 ^ 53)).
    apply rne_q_mono; lia. }
  assert (- 2 ^ 53 <= rne_q z (2 ^ cexp z)).
  { rewrite <- (rne_q_exact (2 ^ cexp z) Pc (- 2 ^ 53)).
    apply rne_q_mono; lia. }
  nia.
Qed.

Lemma RN_fmt z : fmt (RN z).
Proof.
  apply (fmt_of_divide _ (cexp z)); [apply cexp_nonneg| |apply RN_abs_le].
  unfold RN. apply Z.divide_factor_r.
Qed.

End Format.

Section ShiftRight.

Lemma iter_pos_nat {A} (f : A -> A) p x :
  iter_pos f p x = Nat.iter (Pos.to_nat p) f x.
Proof.
  revert x. induction p as [p IH|p IH|]; intros x.
  - change (iter_pos f p~1 x) with (iter_pos f p (iter_pos f p (f x))).
    rewrite !IH, Pos2Nat.inj_xI.
    rewrite <- Nat.iter_add, <- Nat.iter_succ_r.
    f_equal. lia.
  - change (iter_pos f p~0 x) with (iter_pos f p (iter_pos f p x)).
    rewrite !IH, Pos2Nat.inj_xO.
    rewrite <- Nat.iter_add. f_equal. lia.
  - reflexivity.
Qed.

Lemma shr_1_spec q r s :
  0 <= q ->
  shr_1 (Build_shr_record q r s) = Build_shr_record (q / 2) (Z.odd q) (r || s).
Proof.
  intros Hq. destruct q as [|[p|p|]|p]; try lia; simpl shr_1.
  - reflexivity.
  - f_equal. rewrite Pos2Z.inj_xI.
    apply Z.div_unique with (r := 1); lia.
  - f_equal. rewrite Pos2Z.inj_xO.
    apply Z.div_unique with (r := 0); lia.
  - reflexivity.
Qed.

Lemma shr_inv_0 m : shr_inv m 0 (Build_shr_record m false false).
Proof.
  split; cbn [shr_m shr_r shr_s].
  - now rewrite Z.div_1_r.
  - left. now rewrite Z.mod_1_r.
Qed.

Lemma shr_inv_step m n rec :
  0 <= m -> 0 <= n -> shr_inv m n rec -> shr_inv m (n + 1) (shr_1 rec).
Proof.
  intros Hm Hn [Q C]. destruct rec as [q r s]. cbn [shr_m shr_r shr_s] in Q, C.
  pose proof (pow2_pos n Hn) as Pn.
  assert (Hq : 0 <= q) by (subst q; apply Z.div_pos; lia).
  rewrite shr_1_spec by exact Hq.
  assert (P1 : 2 ^ (n + 1) = 2 * 2 ^ n).
  { rewrite Z.pow_add_r by lia. change (2 ^ 1) with 2. ring. }
  pose proof (Z.div_mod m (2 ^ n) ltac:(lia)) as D.
  pose proof (Z.mod_pos_bound m (2 ^ n) Pn) as B.
  pose proof (Z.div_mod q 2 ltac:(lia)) as D2.
  pose proof (Z.mod_pos_bound q 2 ltac:(lia)) as B2.
  assert (Q' : m / 2 ^ (n + 1) = q / 2).
  { rewrite P1, (Z.mul_comm 2), <- Z.div_div by lia. now rewrite <- Q. }
  assert (R' : m mod 2 ^ (n + 1) = (q mod 2) * 2 ^ n + m mod 2 ^ n).
  { symmetry. apply Z.mod_unique with (q := q / 2); [nia|].
    rewrite P1. rewrite <- Q in D. nia. }
  assert (O : Z.odd q = true /\ q mod 2 = 1 \/ Z.odd q = false /\ q mod 2 = 0).
  { rewrite Zmod_odd. destruct (Z.odd q); auto. }
  split; cbn [shr_m shr_r shr_s]; [now symmetry|].
  rewrite R', P1.
  destruct O as [[O1 O2]|[O1 O2]]; rewrite O1, O2;
    destruct C as [(-> & -> & C)|[(-> & -> & C)|[(-> & -> & C)|(-> & -> & C)]]];
    cbn [orb]; pick_case.
Qed.

Lemma shr_inv_iter m n :
  0 <= m ->
  shr_inv m (Z.of_nat n) (Nat.iter n shr_1 (Build_shr_record m false false)).
Proof.
  intros Hm. induction n as [|n IH].
  - apply shr_inv_0.
  - rewrite Nat2Z.inj_succ, <- Z.add_1_r. simpl Nat.iter.
    apply shr_inv_step; [exact Hm|lia|exact IH].
Qed.

Lemma shr_inv_round m n rec :
  0 <= n -> shr_inv m n rec ->
  round_nearest_even (shr_m rec) (loc_of_shr_record rec) = rne_q m (2 ^ n).
Proof.
  intros Hn [Q C]. destruct rec as [q r s]. cbn [shr_m shr_r shr_s] in *.
  unfold rne_q. rewrite <- Q.
  destruct C as [(-> & -> & C)|[(-> & -> & C)|[(-> & -> & C)|(-> & -> & C)]]];
    cbn [loc_of_shr_record round_nearest_even].
  - rewrite C. pose proof (pow2_pos n Hn).
    destruct (Z.compare_spec (2 * 0) (2 ^ n)); first [lia|reflexivity].
  - destruct (Z.compare_spec (2 * (m mod 2 ^ n)) (2 ^ n)); first [lia|reflexivity].
  - destruct (Z.compare_spec (2 * (m mod 2 ^ n)) (2 ^ n)); first [lia|reflexivity].
  - destruct (Z.compare_spec (2 * (m mod 2 ^ n)) (2 ^ n)); first [lia|reflexivity].
Qed.

(** Shifting right by [n] bits and rounding is [rne_q]. *)
Lemma shr_round m e n :
  0 <= m -> 0 <= n ->
  let '(rec, e') := shr (Build_shr_record m false false) e n in
  e' = e + n /\
  round_nearest_even (shr_m rec) (loc_of_shr_record rec) = rne_q m (2 ^ n).
Proof.
  intros Hm Hn. unfold shr. destruct n as [|p|p]; try lia.
  - split; [lia|]. apply (shr_inv_round m 0); [lia|apply shr_inv_0].
  - split; [reflexivity|]. rewrite iter_pos_nat.
    apply shr_inv_round; [lia|].
    rewrite <- (positive_nat_Z p). apply shr_inv_iter. exact Hm.
Qed.

End ShiftRight.

Section RoundAux.

Lemma digits2_size m : digits2_pos m = Pos.size m.
Proof. induction m as [m IH|m IH|]; simpl; now rewrite ?IH. Qed.

Lemma digits2_log2 m : Zpos (digits2_pos m) = Z.log2 (Zpos m) + 1.
Proof.
  rewrite digits2_size. destruct m as [m|m|]; simpl Pos.size;
    rewrite ?Pos2Z.inj_succ; reflexivity.
Qed.

Lemma Zdigits2_log2 z : 0 < z -> Zdigits2 z = Z.log2 z + 1.
Proof. destruct z; try lia. intros _. apply digits2_log2. Qed.

Lemma fexp_eq x : fexp 53 1024 x = Z.max (x - 53) (-1074).
Proof. reflexivity. Qed.

Lemma shr_nonpos rec e n : n <= 0 -> shr rec e n = (rec, e).
Proof. intros H. destruct n; try reflexivity. lia. Qed.

Lemma log2_pow2_le m k : 0 < m -> m <= 2 ^ k -> 0 <= k ->
  Z.log2 m = k /\ m = 2 ^ k \/ Z.log2 m < k.
Proof.
  intros Hm L Hk. destruct (Z.eq_dec m (2 ^ k)) as [->|N].
  - left. now rewrite Z.log2_pow2.
  - right. apply Z.log2_lt_pow2; lia.
Qed.

(** The rounded mantissa keeps 53 bits, and all of them above the
    smallest exponent. *)
Lemma rne_mantissa_bounds m E :
  0 < m ->
  let c := Z.max 0 (Z.log2 m + E - 52) in
  E <= c ->
  let m2 := rne_q m (2 ^ (c - E)) in
  0 <= m2 <= 2 ^ 53 /\ (0 < c -> 2 ^ 52 <= m2).
Proof.
  intros Hm c Hc m2.
  pose proof (Z.log2_spec m Hm) as [L U].
  pose proof (Z.log2_nonneg m) as L0.
  assert (Hn : 0 <= c - E) by lia.
  pose proof (pow2_pos _ Hn) as Pn.
  split; [split|].
  - unfold m2. rewrite <- (rne_q_exact (2 ^ (c - E)) Pn 0).
    apply rne_q_mono; lia.
  - unfold m2. rewrite <- (rne_q_exact (2 ^ (c - E)) Pn (2 ^ 53)).
    apply rne_q_mono; [lia|].
    rewrite <- Z.pow_add_r by lia.
    apply Z.lt_le_incl, Z.lt_le_trans with (1 := U).
    apply pow2_le. lia.
  - intros C0. unfold m2.
    rewrite <- (rne_q_exact (2 ^ (c - E)) Pn (2 ^ 52)).
    apply rne_q_mono; [lia|].
    rewrite <- Z.pow_add_r by lia.
    apply Z.le_trans with (2 := L). apply pow2_le. lia.
Qed.

Lemma rndE_eq m E :
  0 < m ->
  let c := Z.max 0 (Z.log2 m + E - 52) in
  E <= c -> rndE m E = rne_q m (2 ^ (c - E)) * 2 ^ c.
Proof.
  intros Hm c Hc. unfold rndE. fold c.
  destruct (Z.leb_spec c E) as [L|L]; [|reflexivity].
  assert (c = E) by lia. replace (c - E) with 0 by lia.
  change (2 ^ 0) with 1. rewrite <- (Z.mul_1_r m) at 2.
  rewrite rne_q_exact by lia. congruence.
Qed.

Lemma SFofZ_canonical s m2 c :
  0 <= c -> 0 < m2 < 2 ^ 53 -> (0 < c -> 2 ^ 52 <= m2) ->
  SFofZ s (m2 * 2 ^ c) =
  if c <=? 2045 then S754_finite s (Z.to_pos m2) (c - 1074)
  else S754_infinity s.
Proof.
  intros Hc Hm Hlow.
  pose proof (pow2_pos c Hc) as Pc.
  assert (Hz : 0 < m2 * 2 ^ c) by nia.
  assert (C : cexp (m2 * 2 ^ c) = c).
  { unfold cexp. rewrite Z.abs_eq by lia.
    rewrite Z.log2_mul_pow2 by lia.
    assert (Z.log2 m2 < 53) by (apply Z.log2_lt_pow2; lia).
    destruct (Z.eq_dec c 0) as [->|N]; [lia|].
    assert (52 <= Z.log2 m2) by (apply Z.log2_le_pow2; lia).
    lia. }
  unfold SFofZ. destruct (m2 * 2 ^ c) as [|p|p] eqn:Ep; try lia.
  cbv zeta. rewrite C, <- Ep, Z.div_mul by lia. reflexivity.
Qed.

Lemma SFofZ_carry s c :
  0 <= c ->
  SFofZ s (2 ^ 53 * 2 ^ c) =
  if c + 1 <=? 2045 then S754_finite s (Z.to_pos (2 ^ 52)) (c + 1 - 1074)
  else S754_infinity s.
Proof.
  intros Hc.
  replace (2 ^ 53 * 2 ^ c) with (2 ^ 52 * 2 ^ (c + 1)).
  - apply SFofZ_canonical; lia.
  - rewrite <- !Z.pow_add_r by lia. f_equal. lia.
Qed.

(** The rounding step of [SpecFloat] computes [rndE]. *)
Lemma binary_round_aux_spec s m e :
  let E := e + 1074 in
  E <= Z.max 0 (Z.log2 (Zpos m) + E - 52) ->
  binary_round_aux 53 1024 s (Zpos m) e loc_Exact = SFofZ s (rndE (Zpos m) E).
Proof.
  intros E HE.
  set (c := Z.max 0 (Z.log2 (Zpos m) + E - 52)) in *.
  pose proof (rne_mantissa_bounds (Zpos m) E ltac:(lia) HE) as B.
  rewrite (rndE_eq (Zpos m) E ltac:(lia) HE). fold c in B |- *.
  cbv zeta in B. set (m2 := rne_q (Zpos m) (2 ^ (c - E))) in *.
  unfold binary_round_aux, shr_fexp. cbn [shr_record_of_loc Zdigits2].
  rewrite fexp_eq, digits2_log2.
  assert (N1 : Z.max (Z.log2 (Zpos m) + 1 + e - 53) (-1074) - e = c - E)
    by (unfold c, E; lia).
  rewrite N1.
  pose proof (shr_round (Zpos m) e (c - E) ltac:(lia) ltac:(lia)) as S1.
  destruct (shr _ e (c - E)) as [rec e'].
  destruct S1 as [He' Hr]. rewrite Hr. fold m2.
  assert (Ee : e' = c - 1074) by (unfold E in *; lia).
  clear Hr He' N1. subst e'.
  destruct B as [[B0 B1] B2].
  destruct (Z.eq_dec m2 0) as [Z0|NZ].
  - rewrite Z0. cbn [Zdigits2]. rewrite fexp_eq.
    rewrite shr_nonpos by lia. reflexivity.
  - destruct (Z.eq_dec m2 (2 ^ 53)) as [Ec|Nc].
    + rewrite Ec, SFofZ_carry by lia.
      rewrite fexp_eq, Zdigits2_log2 by lia.
      rewrite Z.log2_pow2 by lia.
      replace (Z.max (53 + 1 + (c - 1074) - 53) (-1074) - (c - 1074)) with 1
        by lia.
      change (shr (Build_shr_record (2 ^ 53) false false) (c - 1074) 1)
        with (shr_1 (Build_shr_record (2 ^ 53) false false), c - 1074 + 1).
      rewrite shr_1_spec by lia. cbn [shr_m].
      change (2 ^ 53 / 2) with (Zpos (Z.to_pos (2 ^ 52))). cbv iota beta.
      replace (c - 1074 + 1) with (c + 1 - 1074) by lia.
      replace (c + 1 - 1074 <=? 1024 - 53) with (c + 1 <=? 2045); [reflexivity|].
      destruct (Z.leb_spec (c + 1) 2045), (Z.leb_spec (c + 1 - 1074) (1024 - 53));
        try reflexivity; lia.
    + rewrite SFofZ_canonical by lia.
      rewrite fexp_eq, Zdigits2_log2 by lia.
      assert (Z.log2 m2 < 53) by (apply Z.log2_lt_pow2; lia).
      rewrite shr_nonpos by lia. cbn [shr_m].
      destruct m2 as [|p|p] eqn:Em; try lia. cbn [Z.to_pos].
      replace (c - 1074 <=? 1024 - 53) with (c <=? 2045); [reflexivity|].
      destruct (Z.leb_spec c 2045), (Z.leb_spec (c - 1074) (1024 - 53));
        try reflexivity; lia.
Qed.

End RoundAux.

Section BinaryRound.

Lemma pos_iter_xO m d : Zpos (Pos.iter xO m d) = Zpos m * 2 ^ Zpos d.
Proof.
  induction d as [|d IH] using Pos.peano_ind.
  - simpl Pos.iter. change (2 ^ 1) with 2. lia.
  - rewrite Pos.iter_succ, Pos2Z.inj_xO, IH, Pos2Z.inj_succ.
    rewrite Z.pow_succ_r by lia. ring.
Qed.

Lemma shl_align_spec mx ex ex' :
  let '(m', e') := shl_align mx ex ex' in
  (ex' < ex -> Zpos m' = Zpos mx * 2 ^ (ex - ex') /\ e' = ex') /\
  (ex <= ex' -> m' = mx /\ e' = ex).
Proof.
  unfold shl_align. destruct (ex' - ex) as [|d|d] eqn:D.
  - split; intros; [lia|auto].
  - split; intros; [lia|auto].
  - split; intros; [|lia]. split; [|reflexivity].
    rewrite pos_iter_xO. f_equal. f_equal. lia.
Qed.

Lemma shl_align_fst mx ex ez :
  ez <= ex -> Zpos (fst (shl_align mx ex ez)) = Zpos mx * 2 ^ (ex - ez).
Proof.
  intros H. pose proof (shl_align_spec mx ex ez) as S.
  destruct (shl_align mx ex ez) as [m' e']. cbn [fst].
  destruct S as [S1 S2]. destruct (Z.eq_dec ez ex) as [->|N].
  - destruct (S2 ltac:(lia)) as [-> _].
    rewrite Z.sub_diag. change (2 ^ 0) with 1. lia.
  - now destruct (S1 ltac:(lia)).
Qed.

Lemma binary_round_spec s m e :
  binary_round 53 1024 s m e = SFofZ s (rndE (Zpos m) (e + 1074)).
Proof.
  unfold binary_round. rewrite fexp_eq, digits2_log2.
  set (E := e + 1074).
  set (c := Z.max 0 (Z.log2 (Zpos m) + E - 52)).
  replace (Z.max (Z.log2 (Zpos m) + 1 + e - 53) (-1074)) with (c - 1074)
    by (unfold c, E; lia).
  pose proof (shl_align_spec m e (c - 1074)) as S.
  destruct (shl_align m e (c - 1074)) as [mz ez].
  destruct S as [S1 S2].
  destruct (Z_lt_le_dec (c - 1074) e) as [L|L].
  - destruct (S1 L) as [Hm ->].
    assert (L2 : Z.log2 (Zpos mz) = Z.log2 (Zpos m) + (e - (c - 1074))).
    { rewrite Hm, Z.log2_mul_pow2 by lia. lia. }
    rewrite binary_round_aux_spec by (rewrite L2; unfold c, E in *; lia).
    f_equal. unfold rndE. rewrite L2. fold E. fold c.
    replace (Z.max 0 (Z.log2 (Zpos m) + (e - (c - 1074)) + (c - 1074 + 1074) - 52))
      with c by (unfold c, E; lia).
    destruct (Z.leb_spec c (c - 1074 + 1074)); [|lia].
    destruct (Z.leb_spec c E); [|unfold E in *; lia].
    rewrite Hm, <- Z.mul_assoc, <- Z.pow_add_r by (unfold c, E in *; lia).
    f_equal. f_equal. unfold E. lia.
  - destruct (S2 L) as [-> ->].
    apply binary_round_aux_spec. fold E. fold c. unfold E in *. lia.
Qed.

Lemma rndE_RN m E : 0 < m -> 0 <= E -> rndE m E = RN (m * 2 ^ E).
Proof.
  intros Hm HE. pose proof (pow2_pos E HE) as PE.
  assert (C : cexp (m * 2 ^ E) = Z.max 0 (Z.log2 m + E - 52)).
  { unfold cexp. rewrite Z.abs_eq by nia.
    rewrite Z.log2_mul_pow2 by lia. lia. }
  unfold rndE. set (c := Z.max 0 (Z.log2 m + E - 52)) in *.
  destruct (Z.leb_spec c E) as [L|L].
  - symmetry. apply RN_id. unfold fmt. rewrite C.
    apply Z.divide_mul_r. apply pow2_divide. unfold c. lia.
  - unfold RN. rewrite C. f_equal.
    replace (2 ^ c) with (2 ^ (c - E) * 2 ^ E)
      by (rewrite <- Z.pow_add_r by lia; f_equal; lia).
    symmetry. apply rne_q_scale; [apply pow2_pos|]; lia.
Qed.

Lemma binary_normalize_spec M e :
  -1074 <= e ->
  binary_normalize 53 1024 M e false = SFround (M * 2 ^ (e + 1074)).
Proof.
  intros He. pose proof (pow2_pos (e + 1074) ltac:(lia)) as PE.
  unfold binary_normalize, SFround. destruct M as [|p|p].
  - reflexivity.
  - rewrite binary_round_spec, rndE_RN by lia.
    destruct (Z.eqb_spec (Zpos p * 2 ^ (e + 1074)) 0); [nia|].
    destruct (Z.ltb_spec (Zpos p * 2 ^ (e + 1074)) 0); [nia|].
    rewrite Z.abs_eq by nia. reflexivity.
  - rewrite binary_round_spec, rndE_RN by lia.
    destruct (Z.eqb_spec (Zneg p * 2 ^ (e + 1074)) 0); [nia|].
    destruct (Z.ltb_spec (Zneg p * 2 ^ (e + 1074)) 0); [|nia].
    rewrite Z.abs_neq by nia.
    replace (- (Zneg p * 2 ^ (e + 1074))) with (Zpos p * 2 ^ (e + 1074)) by lia.
    reflexivity.
Qed.

End BinaryRound.

(** ** Order properties of the rounding *)

Section RoundOrder.

Lemma RN_le_multiple z j : z <= j * 2 ^ cexp z -> RN z <= j * 2 ^ cexp z.
Proof.
  intros H. pose proof (pow2_pos _ (cexp_nonneg z)) as Pc.
  unfold RN. apply Z.mul_le_mono_nonneg_r; [lia|].
  rewrite <- (rne_q_exact (2 ^ cexp z) Pc j). now apply rne_q_mono.
Qed.

Lemma RN_ge_multiple z j : j * 2 ^ cexp z <= z -> j * 2 ^ cexp z <= RN z.
Proof.
  intros H. pose proof (pow2_pos _ (cexp_nonneg z)) as Pc.
  unfold RN. apply Z.mul_le_mono_nonneg_r; [lia|].
  rewrite <- (rne_q_exact (2 ^ cexp z) Pc j) at 1. now apply rne_q_mono.
Qed.

Lemma RN_mono_nonneg x y : 0 <= x -> x <= y -> RN x <= RN y.
Proof.
  intros Hx L.
  assert (Cm : cexp x <= cexp y) by (apply cexp_mono; lia).
  pose proof (cexp_nonneg x) as Cx.
  destruct (Z.eq_dec (cexp x) (cexp y)) as [E|N].
  - unfold RN. rewrite E.
    apply Z.mul_le_mono_nonneg_r; [apply Z.pow_nonneg; lia|].
    apply rne_q_mono; [apply pow2_pos; lia|exact L].
  - set (B := 2 ^ (cexp y + 52)).
    assert (By : B <= y).
    { pose proof (cexp_lower y ltac:(lia)). unfold B. lia. }
    assert (Bx : x < B).
    { destruct (Z_lt_le_dec x B) as [|G]; [assumption|].
      assert (cexp y <= cexp x); [|lia].
      apply cexp_ge_of_le. fold B. lia. }
    apply Z.le_trans with B.
    + replace B with (2 ^ (cexp y + 52 - cexp x) * 2 ^ cexp x).
      * apply RN_le_multiple.
        rewrite <- Z.pow_add_r by lia.
        replace (cexp y + 52 - cexp x + cexp x) with (cexp y + 52) by lia.
        fold B. lia.
      * rewrite <- Z.pow_add_r by lia. unfold B. f_equal. lia.
    + replace B with (2 ^ 52 * 2 ^ cexp y).
      * apply RN_ge_multiple.
        rewrite <- Z.pow_add_r by lia.
        replace (52 + cexp y) with (cexp y + 52) by lia. exact By.
      * rewrite <- Z.pow_add_r by lia. unfold B. f_equal. lia.
Qed.

Lemma RN_mono x y : x <= y -> RN x <= RN y.
Proof.
  intros L. destruct (Z_le_gt_dec 0 x) as [Hx|Hx].
  - now apply RN_mono_nonneg.
  - destruct (Z_le_gt_dec y 0) as [Hy|Hy].
    + assert (H : RN (- y) <= RN (- x)) by (apply RN_mono_nonneg; lia).
      rewrite !RN_opp in H. lia.
    + assert (H1 : RN 0 <= RN y) by (apply RN_mono_nonneg; lia).
      assert (H2 : RN 0 <= RN (- x)) by (apply RN_mono_nonneg; lia).
      rewrite RN_opp in H2. rewrite RN_0 in *. lia.
Qed.

Lemma RN_le_fmt z f : fmt f -> z <= f -> RN z <= f.
Proof. intros F L. rewrite <- (RN_id f F). now apply RN_mono. Qed.

Lemma RN_ge_fmt z f : fmt f -> f <= z -> f <= RN z.
Proof. intros F L. rewrite <- (RN_id f F). now apply RN_mono. Qed.

Lemma RN_abs z : RN (Z.abs z) = Z.abs (RN z).
Proof.
  destruct (Z_le_gt_dec 0 z) as [H|H].
  - rewrite Z.abs_eq by lia.
    pose proof (RN_ge_fmt z 0 fmt_0 H). lia.
  - rewrite Z.abs_neq by lia. rewrite RN_opp.
    pose proof (RN_le_fmt z 0 fmt_0 ltac:(lia)). lia.
Qed.

Lemma RN_pos z : 0 < z -> 0 < RN z.
Proof.
  intros H. assert (1 <= RN z); [|lia].
  apply RN_ge_fmt; [|lia]. apply fmt_small. simpl. lia.
Qed.

Lemma RN_sgn z : Z.sgn (RN z) = Z.sgn z.
Proof.
  destruct (Z.lt_trichotomy z 0) as [H|[->|H]].
  - pose proof (RN_pos (- z) ltac:(lia)) as P. rewrite RN_opp in P. lia.
  - reflexivity.
  - pose proof (RN_pos z H). lia.
Qed.

Lemma RN_nearest_nonneg z f :
  0 <= z -> fmt f -> Z.abs (RN z - z) <= Z.abs (f - z).
Proof.
  intros Hz F. pose proof (cexp_nonneg z) as Cz.
  pose proof (cexp_nonneg f) as Cf.
  pose proof (pow2_pos _ Cz) as Pz.
  destruct (Z_le_gt_dec (cexp z) (cexp f)) as [L|G].
  - destruct F as [j Ej].
    destruct (pow2_divide (cexp z) (cexp f) ltac:(lia)) as [i Ei].
    rewrite Ej, Ei, Z.mul_assoc. apply rne_q_nearest. exact Pz.
  - set (B := 2 ^ (cexp z + 52)).
    assert (Bz : B <= z).
    { pose proof (cexp_lower z ltac:(lia)). unfold B. lia. }
    assert (Bf : Z.abs f < B).
    { pose proof (cexp_upper f) as U.
      eapply Z.lt_le_trans; [exact U|]. apply pow2_le. lia. }
    assert (E : B = 2 ^ 52 * 2 ^ cexp z).
    { rewrite <- Z.pow_add_r by lia. unfold B. f_equal. lia. }
    pose proof (rne_q_nearest (2 ^ cexp z) Pz z (2 ^ 52)) as N.
    fold (RN z) in N. rewrite <- E in N. lia.
Qed.

(** [RN z] is a point of the format nearest to [z]. *)
Lemma RN_nearest z f : fmt f -> Z.abs (RN z - z) <= Z.abs (f - z).
Proof.
  intros F. destruct (Z_le_gt_dec 0 z) as [H|H].
  - now apply RN_nearest_nonneg.
  - pose proof (RN_nearest_nonneg (- z) (- f) ltac:(lia) (fmt_opp f F)) as N.
    rewrite RN_opp in N. lia.
Qed.

Lemma RN_lt_pow2 z k : 0 <= k -> Z.abs z < 2 ^ k -> Z.abs (RN z) <= 2 ^ k.
Proof.
  intros Hk H. rewrite <- RN_abs.
  apply RN_le_fmt; [now apply fmt_pow2|lia].
Qed.

Lemma RN_ge_pow2 z k : 0 <= k -> 2 ^ k <= Z.abs z -> 2 ^ k <= Z.abs (RN z).
Proof.
  intros Hk H. rewrite <- RN_abs.
  apply RN_ge_fmt; [now apply fmt_pow2|lia].
Qed.

End RoundOrder.

(** ** The operations of binary64 on the grid *)

Section Interface.

Lemma valid_finite_iff s m e :
  valid (S754_finite s m e) <->
  -1074 <= e <= 971 /\ Z.max 0 (Z.log2 (Zpos m) + (e + 1074) - 52) = e + 1074.
Proof.
  unfold valid. cbn [valid_binary]. unfold bounded, canonical_mantissa.
  rewrite fexp_eq, digits2_log2, andb_true_iff, Z.eqb_eq, Z.leb_le. lia.
Qed.

Lemma cexp_mant m E :
  0 < m -> 0 <= E -> cexp (m * 2 ^ E) = Z.max 0 (Z.log2 m + E - 52).
Proof.
  intros Hm HE. pose proof (pow2_pos E HE).
  unfold cexp. rewrite Z.abs_eq by nia.
  rewrite Z.log2_mul_pow2 by lia. lia.
Qed.

Lemma Zval_finite s m e :
  Zval (S754_finite s m e) = cond_Zopp s (Zpos m * 2 ^ (e + 1074)).
Proof. destruct s; cbn [Zval cond_Zopp]; lia. Qed.

Lemma cond_Zopp_abs s z : 0 <= z -> Z.abs (cond_Zopp s z) = z.
Proof. destruct s; cbn [cond_Zopp]; lia. Qed.

Lemma Zval_fneg x : Zval (fneg x) = - Zval x.
Proof.
  destruct x as [s|s| |s m e]; try reflexivity.
  cbn [fneg SFopp]. rewrite !Zval_finite. destruct s; cbn [negb cond_Zopp]; lia.
Qed.

Lemma valid_fneg x : valid x -> valid (fneg x).
Proof. destruct x; auto. Qed.

Lemma is_finite_fneg x : is_finite (fneg x) = is_finite x.
Proof. destruct x; reflexivity. Qed.

Lemma Zval_fmt x : valid x -> fmt (Zval x).
Proof.
  destruct x as [s|s| |s m e]; try (intros; apply fmt_0).
  intros V. apply valid_finite_iff in V. destruct V as [Be C].
  rewrite Zval_finite.
  assert (F : fmt (Zpos m * 2 ^ (e + 1074))).
  { unfold fmt. rewrite cexp_mant, C by lia. apply Z.divide_factor_r. }
  destruct s; cbn [cond_Zopp]; [now apply fmt_opp|exact F].
Qed.

Lemma Zval_lt_OVF x : valid x -> Z.abs (Zval x) < OVF.
Proof.
  destruct x as [s|s| |s m e]; try (intros; reflexivity).
  intros V. apply valid_finite_iff in V. destruct V as [Be C].
  rewrite Zval_finite.
  pose proof (pow2_pos (e + 1074) ltac:(lia)) as PE.
  rewrite cond_Zopp_abs by nia.
  apply Z.log2_lt_pow2; [nia|]. rewrite Z.log2_mul_pow2 by lia. lia.
Qed.

Lemma Zval_nonzero s m e : -1074 <= e -> Zval (S754_finite s m e) <> 0.
Proof.
  intros He. rewrite Zval_finite.
  pose proof (pow2_pos (e + 1074) ltac:(lia)).
  destruct s; cbn [cond_Zopp]; nia.
Qed.

Lemma SFofZ_spec s z :
  0 < z -> fmt z ->
  (z < OVF ->
   exists m e, SFofZ s z = S754_finite s m e /\
               valid (S754_finite s m e) /\ Zpos m * 2 ^ (e + 1074) = z) /\
  (OVF <= z -> SFofZ s z = S754_infinity s).
Proof.
  intros Hz [j Ej].
  pose proof (cexp_nonneg z) as Cz. pose proof (pow2_pos _ Cz) as Pc.
  assert (Hj : 0 < j) by nia.
  assert (Q : z / 2 ^ cexp z = j) by (rewrite Ej at 1; apply Z.div_mul; lia).
  unfold SFofZ. destruct z as [|p|p] eqn:Ez; try lia. rewrite <- Ez in *.
  cbv zeta. rewrite Q. split.
  - intros B.
    assert (C : cexp z <= 2045).
    { apply cexp_le_of_lt; [lia|]. rewrite Z.abs_eq by lia. exact B. }
    destruct (Z.leb_spec (cexp z) 2045); [|lia].
    exists (Z.to_pos j), (cexp z - 1074). split; [reflexivity|].
    rewrite Z2Pos.id by lia.
    replace (cexp z - 1074 + 1074) with (cexp z) by lia.
    split; [|lia].
    apply valid_finite_iff. rewrite Z2Pos.id by lia.
    replace (cexp z - 1074 + 1074) with (cexp z) by lia.
    split; [lia|].
    rewrite <- cexp_mant by lia. now rewrite <- Ej.
  - intros B.
    assert (C : 2046 <= cexp z).
    { apply cexp_ge_of_le. rewrite Z.abs_eq by lia. exact B. }
    destruct (Z.leb_spec (cexp z) 2045); [lia|reflexivity].
Qed.

Lemma SFofZ_id s m e :
  valid (S754_finite s m e) ->
  SFofZ s (Zpos m * 2 ^ (e + 1074)) = S754_finite s m e.
Proof.
  intros V. apply valid_finite_iff in V. destruct V as [Be C].
  pose proof (pow2_pos (e + 1074) ltac:(lia)) as PE.
  unfold SFofZ. destruct (Zpos m * 2 ^ (e + 1074)) as [|p|p] eqn:Ez; try nia.
  rewrite <- Ez. cbv zeta. rewrite cexp_mant, C by lia.
  rewrite Z.div_mul by lia.
  destruct (Z.leb_spec (e + 1074) 2045); [|lia].
  cbn [Z.to_pos]. f_equal. lia.
Qed.

Lemma SFround_id x : valid x -> Zval x <> 0 -> SFround (Zval x) = x.
Proof.
  destruct x as [s|s| |s m e]; try (cbn [Zval]; intros; lia).
  intros V NZ. pose proof (Zval_fmt _ V) as F.
  pose proof (valid_finite_iff s m e) as [I _]. specialize (I V).
  pose proof (pow2_pos (e + 1074) ltac:(lia)) as PE.
  unfold SFround. destruct (Z.eqb_spec (Zval (S754_finite s m e)) 0); [lia|].
  rewrite RN_abs, RN_id by exact F.
  rewrite Zval_finite in *. rewrite cond_Zopp_abs by nia.
  replace (cond_Zopp s (Zpos m * 2 ^ (e + 1074)) <? 0) with s.
  - now apply SFofZ_id.
  - destruct s; cbn [cond_Zopp]; symmetry;
      [apply Z.ltb_lt|apply Z.ltb_ge]; nia.
Qed.

Lemma SFround_cases z :
  (z = 0 /\ SFround z = S754_zero false) \/
  (z <> 0 /\ Z.abs (RN z) < OVF /\
   exists m e, SFround z = S754_finite (z <? 0) m e /\
               valid (SFround z) /\ Zval (SFround z) = RN z) \/
  (z <> 0 /\ OVF <= Z.abs (RN z) /\ SFround z = S754_infinity (z <? 0)).
Proof.
  unfold SFround. destruct (Z.eqb_spec z 0) as [E|N]; [left; auto|right].
  assert (P : 0 < RN (Z.abs z)) by (apply RN_pos; lia).
  destruct (SFofZ_spec (z <? 0) (RN (Z.abs z)) P (RN_fmt _)) as [S1 S2].
  rewrite <- RN_abs.
  destruct (Z_lt_le_dec (RN (Z.abs z)) OVF) as [L|L].
  - left. split; [exact N|]. split; [exact L|].
    destruct (S1 L) as (m & e & E1 & V & E2).
    exists m, e. rewrite E1. split; [reflexivity|]. split; [exact V|].
    rewrite Zval_finite, E2, RN_abs.
    destruct (Z.ltb_spec z 0) as [Hz|Hz]; cbn [cond_Zopp].
    + pose proof (RN_le_fmt z 0 fmt_0 ltac:(lia)). lia.
    + pose proof (RN_ge_fmt z 0 fmt_0 Hz). lia.
  - right. split; [exact N|]. split; [exact L|]. now apply S2.
Qed.

Lemma SFround_valid z : valid (SFround z).
Proof.
  destruct (SFround_cases z) as [[_ E]|[(_ & _ & m & e & _ & V & _)|(_ & _ & E)]];
    try assumption; rewrite E; reflexivity.
Qed.

Lemma SFround_finite z : is_finite (SFround z) = true <-> Z.abs (RN z) < OVF.
Proof.
  destruct (SFround_cases z) as [[Z0 E]|[(_ & B & m & e & E & _)|(_ & B & E)]];
    rewrite E; cbn [is_finite].
  - subst z. rewrite RN_0. split; [reflexivity|auto].
  - tauto.
  - split; [discriminate|lia].
Qed.

Lemma SFround_Zval z : is_finite (SFround z) = true -> Zval (SFround z) = RN z.
Proof.
  destruct (SFround_cases z) as [[Z0 E]|[(_ & B & m & e & E & _ & V)|(_ & B & E)]].
  - subst z. reflexivity.
  - intros _. exact V.
  - rewrite E. discriminate.
Qed.

Lemma SFround_not_zero z : z <> 0 -> forall s, SFround z <> S754_zero s.
Proof.
  intros N s.
  destruct (SFround_cases z) as [[Z0 E]|[(_ & B & m & e & E & _)|(_ & B & E)]];
    [lia| |]; rewrite E; discriminate.
Qed.

End Interface.

Section AddSub.

Lemma fsub_fadd x y : fsub x y = fadd x (fneg y).
Proof.
  destruct x as [[]|[]| |sx mx ex], y as [[]|[]| |sy my ey]; try reflexivity.
  unfold fsub, fadd, fneg, SFsub, SFadd, SFopp. f_equal.
  destruct sy; cbn [negb cond_Zopp]; lia.
Qed.

Lemma fadd_finite_finite sx mx ex sy my ey :
  -1074 <= ex -> -1074 <= ey ->
  fadd (S754_finite sx mx ex) (S754_finite sy my ey) =
  SFround (Zval (S754_finite sx mx ex) + Zval (S754_finite sy my ey)).
Proof.
  intros Hx Hy. unfold fadd, SFadd. cbv zeta.
  set (ez := Z.min ex ey).
  rewrite binary_normalize_spec by (unfold ez; lia). f_equal.
  rewrite !shl_align_fst by (unfold ez; lia).
  assert (Px : 2 ^ (ex + 1074) = 2 ^ (ex - ez) * 2 ^ (ez + 1074)).
  { rewrite <- Z.pow_add_r by (unfold ez; lia). f_equal. lia. }
  assert (Py : 2 ^ (ey + 1074) = 2 ^ (ey - ez) * 2 ^ (ez + 1074)).
  { rewrite <- Z.pow_add_r by (unfold ez; lia). f_equal. lia. }
  cbn [Zval]. rewrite Px, Py.
  destruct sx, sy; cbn [cond_Zopp]; ring.
Qed.

Theorem fadd_spec x y :
  valid x -> valid y -> is_finite x = true -> is_finite y = true ->
  (Zval x + Zval y <> 0 -> fadd x y = SFround (Zval x + Zval y)) /\
  (Zval x + Zval y = 0 -> exists s, fadd x y = S754_zero s).
Proof.
  intros Vx Vy Fx Fy.
  destruct x as [sx|sx| |sx mx ex], y as [sy|sy| |sy my ey]; try discriminate.
  - split; [cbn [Zval]; lia|]. intros _.
    destruct sx, sy; eexists; reflexivity.
  - assert (N : Zval (S754_finite sy my ey) <> 0).
    { apply Zval_nonzero. apply valid_finite_iff in Vy. lia. }
    split; [|cbn [Zval] in *; lia].
    intros _. change (Zval (S754_zero sx)) with 0. rewrite Z.add_0_l.
    symmetry. now apply SFround_id.
  - assert (N : Zval (S754_finite sx mx ex) <> 0).
    { apply Zval_nonzero. apply valid_finite_iff in Vx. lia. }
    split; [|cbn [Zval] in *; lia].
    intros _. change (Zval (S754_zero sy)) with 0. rewrite Z.add_0_r.
    symmetry. now apply SFround_id.
  - apply valid_finite_iff in Vx, Vy.
    rewrite fadd_finite_finite by lia. split; [reflexivity|].
    intros ->. exists false. reflexivity.
Qed.

Lemma fadd_valid x y : valid x -> valid y -> valid (fadd x y).
Proof.
  intros Vx Vy.
  destruct x as [sx|sx| |sx mx ex] eqn:Ex, y as [sy|sy| |sy my ey] eqn:Ey;
    try reflexivity; try assumption;
    try (destruct sx, sy; reflexivity).
  apply valid_finite_iff in Vx, Vy.
  rewrite fadd_finite_finite by lia. apply SFround_valid.
Qed.

Lemma fadd_finite_iff x y :
  valid x -> valid y -> is_finite x = true -> is_finite y = true ->
  is_finite (fadd x y) = true <-> Z.abs (RN (Zval x + Zval y)) < OVF.
Proof.
  intros Vx Vy Fx Fy.
  destruct (fadd_spec x y Vx Vy Fx Fy) as [S1 S2].
  destruct (Z.eq_dec (Zval x + Zval y) 0) as [E|N].
  - destruct (S2 E) as [s ->]. rewrite E, RN_0. cbn. split; [reflexivity|auto].
  - rewrite (S1 N). apply SFround_finite.
Qed.

Lemma fadd_Zval x y :
  valid x -> valid y -> is_finite x = true -> is_finite y = true ->
  is_finite (fadd x y) = true ->
  Zval (fadd x y) = RN (Zval x + Zval y).
Proof.
  intros Vx Vy Fx Fy.
  destruct (fadd_spec x y Vx Vy Fx Fy) as [S1 S2].
  destruct (Z.eq_dec (Zval x + Zval y) 0) as [E|N].
  - destruct (S2 E) as [s ->]. now rewrite E, RN_0.
  - rewrite (S1 N). apply SFround_Zval.
Qed.

(** An operand that is not finite never gives a finite sum. *)
Lemma fadd_finite_args x y :
  is_finite (fadd x y) = true -> is_finite x = true /\ is_finite y = true.
Proof.
  destruct x as [[]|[]| |sx mx ex], y as [[]|[]| |sy my ey];
    cbn; intros H; try discriminate; auto.
Qed.

Lemma fsub_valid x y : valid x -> valid y -> valid (fsub x y).
Proof. intros. rewrite fsub_fadd. apply fadd_valid; [|apply valid_fneg]; auto. Qed.

Lemma fsub_finite_iff x y :
  valid x -> valid y -> is_finite x = true -> is_finite y = true ->
  is_finite (fsub x y) = true <-> Z.abs (RN (Zval x - Zval y)) < OVF.
Proof.
  intros Vx Vy Fx Fy. rewrite fsub_fadd.
  rewrite fadd_finite_iff; auto using valid_fneg.
  - now rewrite Zval_fneg.
  - now rewrite is_finite_fneg.
Qed.

Lemma fsub_Zval x y :
  valid x -> valid y -> is_finite x = true -> is_finite y = true ->
  is_finite (fsub x y) = true ->
  Zval (fsub x y) = RN (Zval x - Zval y).
Proof.
  intros Vx Vy Fx Fy. rewrite fsub_fadd. intros F.
  rewrite fadd_Zval; auto using valid_fneg.
  - now rewrite Zval_fneg.
  - now rewrite is_finite_fneg.
Qed.

Lemma fsub_finite_args x y :
  is_finite (fsub x y) = true -> is_finite x = true /\ is_finite y = true.
Proof.
  rewrite fsub_fadd. intros H. apply fadd_finite_args in H.
  now rewrite is_finite_fneg in H.
Qed.

(** A sum is [-0] only when both operands are. *)
Lemma fadd_neg_zero x y :
  valid x -> valid y -> fadd x y = S754_zero true ->
  x = S754_zero true /\ y = S754_zero true.
Proof.
  intros Vx Vy.
  destruct x as [sx|sx| |sx mx ex] eqn:Ex, y as [sy|sy| |sy my ey] eqn:Ey;
    try (destruct sx, sy; cbn; intros H; try discriminate; auto; fail);
    try (cbn; discriminate).
  apply valid_finite_iff in Vx, Vy.
  rewrite fadd_finite_finite by lia. unfold SFround.
  destruct (Z.eqb_spec (Zval (S754_finite sx mx ex) + Zval (S754_finite sy my ey)) 0)
    as [E|N]; [discriminate|].
  intros H. exfalso. revert H.
  fold (SFround (Zval (S754_finite sx mx ex) + Zval (S754_finite sy my ey))).
  replace (SFofZ _ _) with
    (SFround (Zval (S754_finite sx mx ex) + Zval (S754_finite sy my ey))).
  - now apply SFround_not_zero.
  - unfold SFround.
    destruct (Z.eqb_spec (Zval (S754_finite sx mx ex) + Zval (S754_finite sy my ey)) 0);
      [lia|reflexivity].
Qed.

Lemma fsub_neg_zero x y :
  valid x -> valid y -> fsub x y = S754_zero true ->
  x = S754_zero true /\ y = S754_zero false.
Proof.
  intros Vx Vy. rewrite fsub_fadd. intros H.
  apply fadd_neg_zero in H; auto using valid_fneg.
  destruct H as [Hx Hy]. split; [exact Hx|].
  destruct y as [[]|[]| |]; cbn in Hy; try discriminate. reflexivity.
Qed.

End AddSub.

(** ** Error-free transformations on the grid *)

Section ErrorFree.

Lemma fmt_divide_cexp x y : fmt y -> cexp x <= cexp y -> (2 ^ cexp x | y).
Proof.
  intros F L. apply Z.divide_trans with (2 ^ cexp y); [|exact F].
  apply pow2_divide. pose proof (cexp_nonneg x). lia.
Qed.

Lemma fmt_divide_pow y k : fmt y -> 0 <= k <= cexp y -> (2 ^ k | y).
Proof.
  intros F L. apply Z.divide_trans with (2 ^ cexp y); [|exact F].
  now apply pow2_divide.
Qed.

Lemma sterbenz x y : fmt x -> fmt y -> 0 <= x -> x <= y -> y <= 2 * x -> fmt (y - x).
Proof.
  intros Fx Fy Hx L U.
  apply (fmt_of_divide _ (cexp x)); [apply cexp_nonneg| |].
  - apply Z.divide_sub_r; [|exact Fx].
    apply fmt_divide_cexp; [exact Fy|]. apply cexp_mono. lia.
  - pose proof (cexp_upper x). pose proof (cexp_nonneg x).
    assert (2 ^ (cexp x + 53) <= 2 ^ (cexp x + 53)) by lia. lia.
Qed.

Lemma add_error_le a b : fmt a -> Z.abs (a + b - RN (a + b)) <= Z.abs b.
Proof. intros F. pose proof (RN_nearest (a + b) a F). lia. Qed.

Lemma add_error_fmt_aux a b :
  fmt a -> fmt b -> cexp b <= cexp a -> fmt (a + b - RN (a + b)).
Proof.
  intros Fa Fb L. pose proof (cexp_nonneg b) as Cb.
  assert (D : (2 ^ cexp b | a + b)).
  { apply Z.divide_add_r; [now apply fmt_divide_cexp|exact Fb]. }
  apply (fmt_of_divide _ (cexp b) Cb).
  - apply Z.divide_sub_r; [exact D|now apply RN_divide].
  - pose proof (add_error_le a b Fa). pose proof (cexp_upper b). lia.
Qed.

(** The rounding error of a sum of two doubles is a double. *)
Lemma add_error_fmt a b : fmt a -> fmt b -> fmt (a + b - RN (a + b)).
Proof.
  intros Fa Fb. destruct (Z_le_gt_dec (cexp b) (cexp a)) as [L|G].
  - now apply add_error_fmt_aux.
  - replace (a + b) with (b + a) by ring. apply add_error_fmt_aux; auto. lia.
Qed.

Lemma fmt_double a : fmt a -> fmt (2 * a).
Proof.
  intros F. pose proof (cexp_nonneg a) as C.
  apply (fmt_of_divide _ (cexp a + 1)); [lia| |].
  - rewrite Z.pow_add_r by lia. change (2 ^ 1) with 2.
    rewrite (Z.mul_comm _ 2). now apply Z.mul_divide_mono_l.
  - pose proof (cexp_upper a).
    replace (cexp a + 1 + 53) with (Z.succ (cexp a + 53)) by lia.
    rewrite Z.pow_succ_r by lia. lia.
Qed.

Lemma fmt_half a : fmt a -> 0 < cexp a -> exists h, a = 2 * h /\ fmt h.
Proof.
  intros [j E] C. pose proof (cexp_upper a) as U.
  assert (P : 2 ^ cexp a = 2 * 2 ^ (cexp a - 1)).
  { rewrite <- Z.pow_succ_r by lia. f_equal. lia. }
  exists (j * 2 ^ (cexp a - 1)). split; [lia|].
  apply (fmt_of_divide _ (cexp a - 1)); [lia|apply Z.divide_factor_r|].
  replace (cexp a + 53) with (Z.succ (cexp a - 1 + 53)) in U by lia.
  rewrite Z.pow_succ_r in U by lia. lia.
Qed.

Lemma fast_exact_pos a b :
  fmt a -> fmt b -> 0 <= a -> Z.abs b <= a -> fmt (RN (a + b) - a).
Proof.
  intros Fa Fb Ha Hb.
  pose proof (cexp_nonneg a) as Ca. pose proof (cexp_upper a) as Ua.
  destruct (Z_le_gt_dec 0 b) as [Pb|Nb].
  - assert (L : a <= RN (a + b)) by (apply RN_ge_fmt; [exact Fa|lia]).
    assert (U : RN (a + b) <= 2 * a).
    { apply RN_le_fmt; [now apply fmt_double|lia]. }
    apply (fmt_of_divide _ (cexp a) Ca); [|lia].
    apply Z.divide_sub_r; [|exact Fa].
    apply fmt_divide_cexp; [apply RN_fmt|]. apply cexp_mono. lia.
  - destruct (Z_le_gt_dec a (2 * (a + b))) as [H|H].
    + destruct (Z.eq_dec (cexp a) 0) as [C0|C0].
      * rewrite C0 in Ua.
        rewrite RN_id by (apply fmt_small; lia).
        replace (a + b - a) with b by ring. exact Fb.
      * destruct (fmt_half a Fa ltac:(lia)) as (h & Eh & Fh).
        assert (L : h <= RN (a + b)) by (apply RN_ge_fmt; [exact Fh|lia]).
        assert (U : RN (a + b) <= a) by (apply RN_le_fmt; [exact Fa|lia]).
        apply fmt_opp_iff.
        replace (- (RN (a + b) - a)) with (a - RN (a + b)) by ring.
        apply sterbenz; try lia; [apply RN_fmt|exact Fa].
    + assert (F : fmt (a + b)).
      { replace (a + b) with (a - - b) by ring.
        apply sterbenz; try lia; [now apply fmt_opp|exact Fa]. }
      rewrite RN_id by exact F.
      replace (a + b - a) with b by ring. exact Fb.
Qed.

(** Dekker: when [|b| <= |a|], the difference [RN (a + b) - a] is exact. *)
Lemma fast_exact a b :
  fmt a -> fmt b -> Z.abs b <= Z.abs a -> fmt (RN (a + b) - a).
Proof.
  intros Fa Fb H. destruct (Z_le_gt_dec 0 a) as [P|N].
  - apply fast_exact_pos; auto. lia.
  - apply fmt_opp_iff.
    replace (- (RN (a + b) - a)) with (RN (- a + - b) - - a).
    + apply fast_exact_pos; try apply fmt_opp; auto; lia.
    + replace (- a + - b) with (- (a + b)) by ring. rewrite RN_opp. ring.
Qed.

End ErrorFree.

Section TwoSumGrid.

(** Bounds on a multiple of [H] carry over to the multiplier. *)
Lemma multiple_succ_le j c U : 0 < U -> j * U < c * U -> (j + 1) * U <= c * U.
Proof.
  intros PU B. apply Z.mul_lt_mono_pos_r in B; [|exact PU].
  apply Z.mul_le_mono_nonneg_r; lia.
Qed.

Lemma multiple_abs_le j H c :
  0 < H -> Z.abs (j * H) < (c + 1) * H -> Z.abs (j * H) <= c * H.
Proof.
  intros PH B. rewrite Z.abs_mul, (Z.abs_eq H) in * by lia.
  apply Z.mul_lt_mono_pos_r in B; [|exact PH].
  apply Z.mul_le_mono_nonneg_r; lia.
Qed.

Lemma two_sum_aux_pos a b :
  fmt a -> fmt b -> 0 < b -> - b < a < b ->
  let d := a + b - RN (a + b) in
  let n := b - d - RN (b - d) in
  fmt (a + n) /\ fmt (d + n) /\
  (- b <= a + n <= b) /\ (- b <= n <= b) /\ (- b <= d + n <= b).
Proof.
  intros Fa Fb Hb Hab d n.
  assert (Dd : - b <= d <= b).
  { pose proof (add_error_le a b Fa) as E. fold d in E.
    apply Z.abs_le. now rewrite (Z.abs_eq b) in E by lia. }
  assert (T : n = 0 ->
    fmt (a + n) /\ fmt (d + n) /\
    (- b <= a + n <= b) /\ (- b <= n <= b) /\ (- b <= d + n <= b)).
  { intros ->. rewrite !Z.add_0_r. repeat split; try lia; [exact Fa|].
    unfold d. now apply add_error_fmt. }
  pose proof (cexp_nonneg b) as Cb.
  assert (Ub : b < 2 ^ (cexp b + 53)).
  { pose proof (cexp_upper b) as U. now rewrite (Z.abs_eq b) in U by lia. }
  destruct (Z.eq_dec (cexp b) 0) as [C0|C0].
  - apply T. unfold n. rewrite RN_id; [ring|]. apply fmt_small.
    rewrite C0 in Ub. change (2 ^ (0 + 53)) with (2 ^ 53) in Ub.
    assert (C1 : cexp (a + b) <= 1).
    { apply cexp_le_of_lt; [lia|]. apply Z.abs_lt.
      change (2 ^ (1 + 53)) with (2 * 2 ^ 53). lia. }
    assert (P1 : 2 ^ cexp (a + b) <= 2 ^ 1) by (apply pow2_le; lia).
    change (2 ^ 1) with 2 in P1.
    pose proof (RN_error (a + b)) as Ed. apply Z.abs_le.
    assert (Z.abs d <= 1) by (unfold d; lia).
    clear Ed P1 C1 T. lia.
  - assert (Lb : 2 ^ (cexp b + 52) <= b).
    { pose proof (cexp_lower b ltac:(lia)) as L.
      now rewrite (Z.abs_eq b) in L by lia. }
    set (k := cexp b - 1) in *.
    assert (Hk : 0 <= k) by (unfold k; lia).
    set (H := 2 ^ k).
    assert (PH : 0 < H) by (apply pow2_pos; exact Hk).
    assert (PW : forall c, 0 <= c -> 2 ^ (k + c) = 2 ^ c * H).
    { intros c Hc. unfold H. rewrite Z.pow_add_r by lia. ring. }
    assert (PU : 2 ^ cexp b = 2 * H).
    { replace (cexp b) with (k + 1) by (unfold k; lia). now apply PW. }
    assert (PB : 2 ^ (cexp b + 52) = 2 ^ 53 * H).
    { replace (cexp b + 52) with (k + 53) by (unfold k; lia). now apply PW. }
    assert (PB2 : 2 ^ (cexp b + 53) = 2 ^ 54 * H).
    { replace (cexp b + 53) with (k + 54) by (unfold k; lia). now apply PW. }
    assert (PB3 : 2 ^ (cexp b + 1 + 53) = 2 ^ 55 * H).
    { replace (cexp b + 1 + 53) with (k + 55) by (unfold k; lia). now apply PW. }
    pose proof (PW 53 ltac:(lia)) as PK.
    pose proof (PW 52 ltac:(lia)) as PK2.
    rewrite PB in Lb. rewrite PB2 in Ub.
    set (c53 := 2 ^ 53) in *. set (c54 := 2 ^ 54) in *.
    set (c55 := 2 ^ 55) in *. set (c52 := 2 ^ 52) in *.
    assert (K54 : c54 = 2 * c53) by reflexivity.
    assert (K55 : c55 = 4 * c53) by reflexivity.
    assert (K53 : c53 = 2 * c52) by reflexivity.
    assert (K52 : 2 <= c52) by (unfold c52; lia).
    assert (dU : - (2 * H) <= d <= 2 * H).
    { assert (C1 : cexp (a + b) <= cexp b + 1).
      { apply cexp_le_of_lt; [lia|]. rewrite PB3. apply Z.abs_lt. nia. }
      assert (P1 : 2 ^ cexp (a + b) <= 2 ^ (cexp b + 1)) by (apply pow2_le; lia).
      rewrite Z.pow_add_r, PU in P1 by lia. change (2 ^ 1) with 2 in P1.
      pose proof (RN_error (a + b)) as Ed. apply Z.abs_le.
      unfold d. clear - Ed P1. lia. }
    destruct Fb as [jb Ejb]. rewrite PU in Ejb.
    assert (Fb : fmt b) by (exists jb; rewrite PU; exact Ejb).
    assert (Ub' : b + 2 * H <= c54 * H).
    { pose proof (multiple_succ_le jb c53 (2 * H) ltac:(lia)) as M.
      rewrite K54. rewrite K54 in Ub. clear - M Ub Ejb. nia. }
    assert (Lb' : 2 * H <= b) by (clear - Lb K53 K52 PH; nia).
    destruct (Z_le_gt_dec (c53 * H) (Z.abs a)) as [Big|Small].
    + (* [a] and [b] share their last place: [b - d] is exact *)
      assert (Ca : cexp a = cexp b).
      { apply Z.le_antisymm; [apply cexp_mono; lia|].
        apply cexp_ge_of_le. rewrite PB. exact Big. }
      destruct Fa as [ja Eja]. rewrite Ca, PU in Eja.
      assert (Ds : (2 ^ cexp b | RN (a + b))).
      { apply RN_divide; [lia|]. rewrite PU.
        exists (ja + jb). lia. }
      destruct Ds as [js Ejs]. rewrite PU in Ejs.
      apply T. unfold n. rewrite RN_id; [ring|].
      apply (fmt_of_divide _ (cexp b)); [lia| |].
      * rewrite PU. exists (jb - (ja + jb - js)). unfold d. lia.
      * rewrite PB2. apply Z.abs_le. clear - dU Ub' Lb' PH. lia.
    + assert (Sa : - (c53 * H) < a < c53 * H) by (apply Z.abs_lt; lia).
      clear Small.
      assert (Fm : fmt (b - 2 * H)).
      { apply (fmt_of_divide _ (cexp b)); [lia| |].
        - rewrite PU. exists (jb - 1). lia.
        - rewrite PB2. apply Z.abs_le. clear - Ub' Lb' PH. lia. }
      assert (Fp : fmt (b + 2 * H)).
      { apply (fmt_of_divide _ (cexp b)); [lia| |].
        - rewrite PU. exists (jb + 1). lia.
        - rewrite PB2. apply Z.abs_le. clear - Ub' Lb' PH. lia. }
      set (v := RN (b - d)) in *.
      assert (Lv : b - 2 * H <= v) by (apply RN_ge_fmt; [exact Fm|lia]).
      assert (Uv : v <= b + 2 * H) by (apply RN_le_fmt; [exact Fp|lia]).
      assert (Nn : - H <= n <= H).
      { pose proof (RN_nearest (b - d) b Fb) as N1.
        pose proof (RN_nearest (b - d) _ Fm) as N2.
        pose proof (RN_nearest (b - d) _ Fp) as N3.
        fold v in N1, N2, N3. unfold n. clear - N1 N2 N3 dU PH. lia. }
      assert (Dv : (H | v)).
      { apply fmt_divide_pow; [apply RN_fmt|].
        split; [exact Hk|].
        apply cexp_ge_of_le. rewrite PK2. rewrite Z.abs_eq by lia.
        clear - Lv Lb K53 K52 PH. nia. }
      destruct Dv as [jv Ejv].
      assert (Ds : (H | RN (a + b))).
      { destruct (Z_le_gt_dec (c52 * H) (Z.abs a)) as [A1|A1].
        - apply RN_divide; [exact Hk|].
          apply Z.divide_add_r; [|exists (2 * jb); lia].
          apply fmt_divide_pow; [exact Fa|].
          split; [exact Hk|]. apply cexp_ge_of_le. rewrite PK2. exact A1.
        - apply fmt_divide_pow; [apply RN_fmt|].
          split; [exact Hk|].
          apply cexp_ge_of_le. apply RN_ge_pow2; [lia|].
          rewrite PK2.
          assert (A2 : - (c52 * H) < a < c52 * H) by (apply Z.abs_lt; lia).
          rewrite Z.abs_eq by lia. clear - A2 Lb K53. lia. }
      destruct Ds as [js Ejs].
      assert (E1 : a + n = (js - jv) * H) by (unfold n, d; lia).
      assert (E2 : d + n = (2 * jb - jv) * H) by (unfold n; lia).
      assert (B1 : Z.abs (a + n) <= c53 * H).
      { rewrite E1. apply multiple_abs_le; [exact PH|]. rewrite <- E1.
        apply Z.abs_lt. clear - Sa Nn. lia. }
      assert (B1' : - (c53 * H) <= a + n <= c53 * H) by (now apply Z.abs_le).
      assert (B2 : - (2 * H) <= d + n <= 2 * H).
      { unfold n. fold v. clear - Lv Uv. lia. }
      split; [|split; [|split; [|split]]].
      * apply (fmt_of_divide _ k); [exact Hk| |rewrite PK; exact B1].
        exists (js - jv). exact E1.
      * apply (fmt_of_divide _ k); [exact Hk| |].
        -- exists (2 * jb - jv). exact E2.
        -- rewrite PK. apply Z.abs_le. clear - B2 PH K53 K52. nia.
      * clear - B1' Lb. lia.
      * clear - Nn Lb' PH. lia.
      * clear - B2 Lb'. lia.
Qed.

Lemma two_sum_aux a b :
  fmt a -> fmt b -> Z.abs a < Z.abs b ->
  let d := a + b - RN (a + b) in
  let n := b - d - RN (b - d) in
  fmt (a + n) /\ fmt (d + n) /\
  Z.abs (a + n) <= Z.abs b /\ Z.abs n <= Z.abs b /\ Z.abs (d + n) <= Z.abs b.
Proof.
  intros Fa Fb H d n. destruct (Z_le_gt_dec 0 b) as [P|N].
  - rewrite (Z.abs_eq b) in * by lia.
    apply Z.abs_lt in H.
    destruct (two_sum_aux_pos a b Fa Fb ltac:(lia) H) as (F1 & F2 & B1 & B2 & B3).
    rewrite <- !Z.abs_le in *. auto.
  - rewrite (Z.abs_neq b) in * by lia.
    apply Z.abs_lt in H.
    destruct (two_sum_aux_pos (- a) (- b) (fmt_opp _ Fa) (fmt_opp _ Fb)
                ltac:(lia) ltac:(lia)) as (F1 & F2 & B1 & B2 & B3).
    assert (Ed : - a + - b - RN (- a + - b) = - d).
    { replace (- a + - b) with (- (a + b)) by ring. rewrite RN_opp.
      unfold d. ring. }
    rewrite Ed in F1, F2, B1, B2, B3.
    assert (En : - b - - d - RN (- b - - d) = - n).
    { replace (- b - - d) with (- (b - d)) by ring. rewrite RN_opp.
      unfold n. ring. }
    rewrite En in F1, F2, B1, B2, B3.
    replace (- a + - n) with (- (a + n)) in F1, B1 by ring.
    replace (- d + - n) with (- (d + n)) in F2, B3 by ring.
    rewrite fmt_opp_iff in F1, F2.
    repeat split; auto; apply Z.abs_le; lia.
Qed.

(** Knuth's TwoSum on the grid: the six roundings of [two_sum] recover
    the rounding error of the first, and none of the last four exceeds
    the operands. *)
Theorem two_sum_grid a b :
  fmt a -> fmt b ->
  let s := RN (a + b) in
  let v := RN (s - a) in
  let w := RN (s - v) in
  let x := RN (a - w) in
  let y := RN (b - v) in
  let e := RN (x + y) in
  let M := Z.max (Z.abs a) (Z.abs b) in
  e = a + b - s /\
  Z.abs w <= M /\ Z.abs x <= M /\ Z.abs y <= M /\ Z.abs e <= M.
Proof.
  intros Fa Fb s v w x y e M.
  set (d := a + b - s).
  assert (Fd : fmt d) by (unfold d, s; now apply add_error_fmt).
  assert (Dd : Z.abs d <= Z.abs b) by (unfold d, s; now apply add_error_le).
  assert (Ev : v = RN (b - d)) by (unfold v, d; f_equal; ring).
  set (n := b - d - RN (b - d)).
  assert (A : fmt (a + n) /\ fmt (d + n) /\ fmt n /\
              Z.abs (a + n) <= M /\ Z.abs n <= M /\ Z.abs (d + n) <= M).
  { destruct (Z_le_gt_dec (Z.abs b) (Z.abs a)) as [L|G].
    - assert (N0 : n = 0).
      { unfold n. rewrite RN_id; [ring|].
        replace (b - d) with (s - a) by (unfold d; ring).
        unfold s. now apply fast_exact. }
      rewrite N0, !Z.add_0_r. repeat split; auto using fmt_0; unfold M; lia.
    - destruct (two_sum_aux a b Fa Fb ltac:(lia)) as (F1 & F2 & B1 & B2 & B3).
      fold s in F1, F2, B1, B2, B3. fold d in F1, F2, B1, B2, B3.
      fold n in F1, F2, B1, B2, B3.
      repeat split; auto; try (unfold M; lia).
      unfold n. replace (b - d) with (b + - d) by ring.
      apply add_error_fmt; [exact Fb|now apply fmt_opp]. }
  destruct A as (F1 & F2 & F3 & B1 & B2 & B3).
  assert (Ew : w = a + n).
  { unfold w. replace (s - v) with (a + n) by (rewrite Ev; unfold n, d; ring).
    now apply RN_id. }
  assert (Ex : x = - n).
  { unfold x. rewrite Ew. replace (a - (a + n)) with (- n) by ring.
    apply RN_id. now apply fmt_opp. }
  assert (Ey : y = d + n).
  { unfold y. replace (b - v) with (d + n) by (rewrite Ev; unfold n; ring).
    now apply RN_id. }
  assert (Ee : e = d).
  { unfold e. rewrite Ex, Ey. replace (- n + (d + n)) with d by ring.
    now apply RN_id. }
  rewrite Ee, Ew, Ex, Ey. unfold M. repeat split; lia.
Qed.

(** Dekker's Fast2Sum on the grid. *)
Theorem quick_two_sum_grid a b :
  fmt a -> fmt b -> Z.abs b <= Z.abs a ->
  let s := RN (a + b) in
  let t := RN (s - a) in
  let e := RN (b - t) in
  e = a + b - s /\ Z.abs t <= Z.max (Z.abs s) (Z.abs a) /\
  Z.abs e <= Z.abs b.
Proof.
  intros Fa Fb H s t e.
  assert (Et : t = s - a) by (apply RN_id; now apply fast_exact).
  assert (Dd : Z.abs (a + b - s) <= Z.abs b) by (now apply add_error_le).
  assert (Ss : 0 <= a /\ 0 <= s \/ a <= 0 /\ s <= 0).
  { destruct (Z_le_gt_dec 0 a) as [P|N].
    - left. split; [exact P|]. apply RN_ge_fmt; [apply fmt_0|lia].
    - right. split; [lia|]. apply RN_le_fmt; [apply fmt_0|lia]. }
  assert (Ee : e = a + b - s).
  { unfold e. rewrite Et. replace (b - (s - a)) with (a + b - s) by ring.
    apply RN_id. now apply add_error_fmt. }
  rewrite Ee, Et. repeat split; lia.
Qed.

End TwoSumGrid.

(** ** Steps of a computation that stays finite *)

Section Steps.

Lemma fadd_step x y :
  valid x -> valid y -> is_finite x = true -> is_finite y = true ->
  Z.abs (RN (Zval x + Zval y)) < OVF ->
  valid (fadd x y) /\ is_finite (fadd x y) = true /\
  Zval (fadd x y) = RN (Zval x + Zval y).
Proof.
  intros Vx Vy Fx Fy B.
  assert (F : is_finite (fadd x y) = true) by (now apply fadd_finite_iff).
  split; [now apply fadd_valid|]. split; [exact F|]. now apply fadd_Zval.
Qed.

Lemma fsub_step x y :
  valid x -> valid y -> is_finite x = true -> is_finite y = true ->
  Z.abs (RN (Zval x - Zval y)) < OVF ->
  valid (fsub x y) /\ is_finite (fsub x y) = true /\
  Zval (fsub x y) = RN (Zval x - Zval y).
Proof.
  intros Vx Vy Fx Fy B.
  assert (F : is_finite (fsub x y) = true) by (now apply fsub_finite_iff).
  split; [now apply fsub_valid|]. split; [exact F|]. now apply fsub_Zval.
Qed.

Lemma cexp_RN z : cexp z <= cexp (RN z).
Proof.
  destruct (Z.eq_dec (cexp z) 0) as [E|N].
  - rewrite E. apply cexp_nonneg.
  - pose proof (cexp_nonneg z).
    apply cexp_ge_of_le. apply RN_ge_pow2; [lia|].
    apply cexp_lower. lia.
Qed.

Lemma RN_finite_cexp z : Z.abs (RN z) < OVF -> cexp z <= 2045.
Proof.
  intros B. apply cexp_le_of_lt; [lia|].
  destruct (Z_lt_le_dec (Z.abs z) (2 ^ (2045 + 53))) as [L|G]; [exact L|].
  pose proof (RN_ge_pow2 z (2045 + 53) ltac:(lia) G). unfold OVF in B. lia.
Qed.

(** Two finite doubles of the same value are the same double, up to the
    sign of zero. *)
Lemma Zval_inj x y :
  valid x -> valid y -> is_finite x = true -> is_finite y = true ->
  x <> S754_zero true -> y <> S754_zero true ->
  Zval x = Zval y -> x = y.
Proof.
  intros Vx Vy Fx Fy Nx Ny E.
  destruct (Z.eq_dec (Zval x) 0) as [Z0|NZ].
  - assert (Zx : forall t, valid t -> is_finite t = true -> Zval t = 0 ->
                           t <> S754_zero true -> t = S754_zero false).
    { intros [[]|[]| |s m e] V F Z N; try discriminate; try congruence.
      exfalso. revert Z. apply Zval_nonzero.
      apply valid_finite_iff in V. lia. }
    rewrite (Zx x), (Zx y); auto; congruence.
  - rewrite <- (SFround_id x Vx NZ), <- (SFround_id y Vy) by congruence.
    now rewrite E.
Qed.

End Steps.

(** ** The sums of the C sources *)

Section Sums.

Lemma two_sum_same a b : Bitcompare.two_sum a b = Benchmark.two_sum a b.
Proof. reflexivity. Qed.

Lemma quick_two_sum_same a b :
  Bitcompare.quick_two_sum a b = Benchmark.quick_two_sum a b.
Proof. reflexivity. Qed.

Lemma dd_add_same a b : Bitcompare.dd_add a b = Benchmark.dd_add a b.
Proof. reflexivity. Qed.


(** The residual computed by [two_sum] is never [-0]. *)
Lemma two_sum_lo_not_neg_zero a b :
  valid a -> valid b -> lo (Benchmark.two_sum a b) <> S754_zero true.
Proof.
  intros Va Vb H. unfold Benchmark.two_sum in H. cbn [lo] in H.
  assert (Vs : valid (fadd a b)) by (now apply fadd_valid).
  assert (Vv : valid (fsub (fadd a b) a)) by (now apply fsub_valid).
  assert (Vw : valid (fsub (fadd a b) (fsub (fadd a b) a)))
    by (now apply fsub_valid).
  apply fadd_neg_zero in H; [|now apply fsub_valid|now apply fsub_valid].
  destruct H as [Hx Hy].
  apply fsub_neg_zero in Hx; [|assumption|assumption].
  apply fsub_neg_zero in Hy; [|assumption|assumption].
  destruct Hx as [Ea Ew]. destruct Hy as [Eb _].
  subst a b. discriminate Ew.
Qed.

(** [two_sum] on doubles, when the sum and the first difference stay
    finite. *)
Lemma two_sum_sound a b :
  valid a -> valid b -> is_finite a = true -> is_finite b = true ->
  is_finite (fadd a b) = true ->
  is_finite (fsub (fadd a b) a) = true ->
  let r := Benchmark.two_sum a b in
  valid (hi r) /\ valid (lo r) /\ is_finite (lo r) = true /\
  Zval (hi r) = RN (Zval a + Zval b) /\
  Zval (lo r) = Zval a + Zval b - RN (Zval a + Zval b).
Proof.
  intros Va Vb Fa Fb Fs Fv r. unfold r, Benchmark.two_sum. cbn [hi lo].
  set (s := fadd a b) in *. set (v := fsub s a) in *.
  assert (Vs : valid s) by (now apply fadd_valid).
  assert (Zs : Zval s = RN (Zval a + Zval b)) by (now apply fadd_Zval).
  assert (Vv : valid v) by (now apply fsub_valid).
  assert (Zv : Zval v = RN (Zval s - Zval a)) by (now apply fsub_Zval).
  pose proof (two_sum_grid (Zval a) (Zval b) (Zval_fmt a Va) (Zval_fmt b Vb)) as G.
  cbv zeta in G. rewrite <- Zs in G. rewrite <- Zv in G.
  destruct G as (Ge & Bw & Bx & By & Be).
  pose proof (Zval_lt_OVF a Va) as La. pose proof (Zval_lt_OVF b Vb) as Lb.
  assert (LM : Z.max (Z.abs (Zval a)) (Z.abs (Zval b)) < OVF) by lia.
  destruct (fsub_step s v Vs Vv Fs Fv ltac:(lia)) as (Vw & Fw & Zw).
  rewrite <- Zw in Bx, Be, Ge.
  destruct (fsub_step a _ Va Vw Fa Fw ltac:(lia)) as (Vx & Fx & Zx).
  destruct (fsub_step b v Vb Vv Fb Fv ltac:(lia)) as (Vy & Fy & Zy).
  rewrite <- Zx, <- Zy in Ge, Be.
  destruct (fadd_step _ _ Vx Vy Fx Fy ltac:(lia)) as (Ve & Fe & Ze).
  split; [exact Vs|]. split; [exact Ve|]. split; [exact Fe|].
  split; [exact Zs|]. rewrite Ze, Ge, Zs. reflexivity.
Qed.

(** [quick_two_sum] on doubles with [|b| <= |a|]. *)
Lemma quick_two_sum_sound a b :
  valid a -> valid b -> is_finite a = true -> is_finite b = true ->
  Z.abs (Zval b) <= Z.abs (Zval a) ->
  is_finite (fadd a b) = true ->
  let r := Benchmark.quick_two_sum a b in
  valid (hi r) /\ valid (lo r) /\ is_finite (lo r) = true /\
  Zval (hi r) = RN (Zval a + Zval b) /\
  Zval (lo r) = Zval a + Zval b - RN (Zval a + Zval b).
Proof.
  intros Va Vb Fa Fb Hab Fs r. unfold r, Benchmark.quick_two_sum. cbn [hi lo].
  set (s := fadd a b) in *.
  assert (Vs : valid s) by (now apply fadd_valid).
  assert (Zs : Zval s = RN (Zval a + Zval b)) by (now apply fadd_Zval).
  pose proof (quick_two_sum_grid (Zval a) (Zval b) (Zval_fmt a Va)
                (Zval_fmt b Vb) Hab) as G.
  cbv zeta in G. rewrite <- Zs in G. destruct G as (Ge & Bt & Be).
  pose proof (Zval_lt_OVF a Va) as La. pose proof (Zval_lt_OVF b Vb) as Lb.
  pose proof (Zval_lt_OVF s Vs) as Ls.
  destruct (fsub_step s a Vs Va Fs Fa ltac:(lia)) as (Vt & Ft & Zt).
  rewrite <- Zt in Ge, Be.
  destruct (fsub_step b _ Vb Vt Fb Ft ltac:(lia)) as (Ve & Fe & Ze).
  split; [exact Vs|]. split; [exact Ve|]. split; [exact Fe|].
  split; [exact Zs|]. rewrite Ze, Ge, Zs. reflexivity.
Qed.

End Sums.

(** ** Products *)

Section Products.

Lemma rndE_scale m d e :
  0 < m -> 0 <= d -> rndE (m * 2 ^ d) (e - d) = rndE m e.
Proof.
  intros Hm Hd. pose proof (pow2_pos d Hd) as Pd.
  unfold rndE. rewrite Z.log2_mul_pow2 by lia.
  replace (d + Z.log2 m + (e - d) - 52) with (Z.log2 m + e - 52) by lia.
  set (c := Z.max 0 (Z.log2 m + e - 52)).
  assert (Hc : 0 <= c) by (unfold c; lia).
  destruct (Z.leb_spec c (e - d)) as [L1|L1], (Z.leb_spec c e) as [L2|L2];
    try lia.
  - rewrite <- Z.mul_assoc, <- Z.pow_add_r by lia. do 2 f_equal. lia.
  - replace (m * 2 ^ d) with (m * 2 ^ (e - c) * 2 ^ (c - (e - d))).
    + rewrite rne_q_exact by (apply pow2_pos; lia).
      rewrite <- Z.mul_assoc, <- Z.pow_add_r by lia. do 2 f_equal. lia.
    + rewrite <- Z.mul_assoc, <- Z.pow_add_r by lia. do 2 f_equal. lia.
  - f_equal.
    replace (2 ^ (c - (e - d))) with (2 ^ (c - e) * 2 ^ d)
      by (rewrite <- Z.pow_add_r by lia; f_equal; lia).
    apply rne_q_scale; [apply pow2_pos; lia|exact Pd].
Qed.

Lemma rndE_fmt m e : 0 < m -> fmt (rndE m e) /\ 0 <= rndE m e.
Proof.
  intros Hm. unfold rndE.
  set (c := Z.max 0 (Z.log2 m + e - 52)).
  assert (Hc : 0 <= c) by (unfold c; lia).
  destruct (Z.leb_spec c e) as [L|L].
  - pose proof (pow2_pos e ltac:(lia)). split; [|nia].
    unfold fmt. rewrite cexp_mant by lia. fold c.
    apply Z.divide_mul_r. apply pow2_divide. lia.
  - pose proof (rne_mantissa_bounds m e Hm) as B. cbv zeta in B. fold c in B.
    destruct (B ltac:(lia)) as [[B0 B1] _].
    pose proof (pow2_pos c Hc). split; [|nia].
    apply (fmt_of_divide _ c Hc); [apply Z.divide_factor_r|].
    rewrite Z.abs_eq by nia. rewrite Z.pow_add_r by lia.
    rewrite (Z.mul_comm (2 ^ c)). apply Z.mul_le_mono_nonneg_r; lia.
Qed.

Lemma SFofZ_props s z :
  0 <= z -> fmt z ->
  valid (SFofZ s z) /\
  (is_finite (SFofZ s z) = true <-> z < OVF) /\
  (is_finite (SFofZ s z) = true -> Zval (SFofZ s z) = cond_Zopp s z).
Proof.
  intros Hz F. destruct (Z.eq_dec z 0) as [->|N].
  - change (SFofZ s 0) with (S754_zero s). cbn [is_finite Zval].
    split; [reflexivity|]. split; [split; [reflexivity|auto]|].
    destruct s; reflexivity.
  - destruct (SFofZ_spec s z ltac:(lia) F) as [S1 S2].
    destruct (Z_lt_le_dec z OVF) as [L|L].
    + destruct (S1 L) as (m & e & E & V & Em). rewrite E.
      split; [exact V|]. cbn [is_finite]. split; [tauto|].
      intros _. rewrite Zval_finite. now rewrite Em.
    + rewrite (S2 L). split; [reflexivity|]. cbn [is_finite].
      split; [split; [discriminate|lia]|discriminate].
Qed.

Lemma RNdiv_0 k : RNdiv 0 k = 0.
Proof. reflexivity. Qed.

Lemma RNdiv_fmt z k : fmt (RNdiv z k).
Proof.
  unfold RNdiv. destruct (Z.eq_dec z 0) as [->|N]; [apply fmt_0|].
  destruct (rndE_fmt (Z.abs z) (- k) ltac:(lia)) as [F _].
  destruct (Z.sgn_spec z) as [[_ ->]|[[_ ->]|[_ ->]]].
  - now rewrite Z.mul_1_l.
  - apply fmt_0.
  - replace (-1 * rndE (Z.abs z) (- k)) with (- rndE (Z.abs z) (- k)) by ring.
    now apply fmt_opp.
Qed.

(** A product that falls on the grid is rounded by [RN]. *)
Lemma RNdiv_exact t k : 0 <= k -> RNdiv (t * 2 ^ k) k = RN t.
Proof.
  intros Hk. pose proof (pow2_pos k Hk) as Pk.
  destruct (Z.eq_dec t 0) as [->|N]; [reflexivity|].
  unfold RNdiv. rewrite Z.abs_mul, (Z.abs_eq (2 ^ k)) by lia.
  replace (- k) with (0 - k) by lia.
  rewrite rndE_scale by lia. rewrite rndE_RN by lia.
  change (2 ^ 0) with 1. rewrite Z.mul_1_r, RN_abs.
  rewrite Z.sgn_mul, (Z.sgn_pos (2 ^ k)), Z.mul_1_r by lia.
  rewrite <- (RN_sgn t), Z.mul_comm. apply Z.abs_sgn.
Qed.

Lemma fmul_finite_finite sx mx ex sy my ey :
  valid (S754_finite sx mx ex) -> valid (S754_finite sy my ey) ->
  fmul (S754_finite sx mx ex) (S754_finite sy my ey) =
  SFofZ (xorb sx sy)
    (rndE (Z.abs (Zval (S754_finite sx mx ex) * Zval (S754_finite sy my ey)))
          (-1074)).
Proof.
  intros Vx Vy. apply valid_finite_iff in Vx, Vy.
  destruct Vx as [Bx Cx]. destruct Vy as [By Cy].
  unfold fmul, SFmul.
  pose proof (Z.log2_mul_below (Zpos mx) (Zpos my) ltac:(lia) ltac:(lia)) as LM.
  pose proof (Z.log2_nonneg (Zpos mx)). pose proof (Z.log2_nonneg (Zpos my)).
  rewrite binary_round_aux_spec by (rewrite Pos2Z.inj_mul; lia).
  f_equal. rewrite !Zval_finite, Z.abs_mul.
  pose proof (pow2_pos (ex + 1074) ltac:(lia)).
  pose proof (pow2_pos (ey + 1074) ltac:(lia)).
  rewrite !cond_Zopp_abs by nia.
  replace (Zpos mx * 2 ^ (ex + 1074) * (Zpos my * 2 ^ (ey + 1074)))
    with (Zpos (mx * my) * 2 ^ (ex + 1074 + (ey + 1074)))
    by (rewrite Pos2Z.inj_mul, Z.pow_add_r by lia; ring).
  replace (-1074) with (ex + ey + 1074 - (ex + 1074 + (ey + 1074))) by lia.
  rewrite rndE_scale by lia. reflexivity.
Qed.

Lemma fmul_valid x y : valid x -> valid y -> valid (fmul x y).
Proof.
  intros Vx Vy.
  destruct x as [sx|sx| |sx mx ex] eqn:Ex, y as [sy|sy| |sy my ey] eqn:Ey;
    try reflexivity.
  rewrite fmul_finite_finite by assumption.
  apply SFofZ_props; apply rndE_fmt.
  - apply valid_finite_iff in Vx, Vy.
    pose proof (Zval_nonzero sx mx ex ltac:(lia)).
    pose proof (Zval_nonzero sy my ey ltac:(lia)). nia.
  - apply valid_finite_iff in Vx, Vy.
    pose proof (Zval_nonzero sx mx ex ltac:(lia)).
    pose proof (Zval_nonzero sy my ey ltac:(lia)). nia.
Qed.

Lemma fmul_finite_args x y :
  is_finite (fmul x y) = true -> is_finite x = true /\ is_finite y = true.
Proof.
  destruct x as [[]|[]| |sx mx ex], y as [[]|[]| |sy my ey];
    cbn; intros H; try discriminate; auto.
Qed.

Lemma Zval_sign s m e : -1074 <= e ->
  (Zval (S754_finite s m e) <? 0) = s.
Proof.
  intros He. rewrite Zval_finite.
  pose proof (pow2_pos (e + 1074) ltac:(lia)).
  destruct s; cbn [cond_Zopp]; [apply Z.ltb_lt|apply Z.ltb_ge]; nia.
Qed.

Theorem fmul_spec x y :
  valid x -> valid y -> is_finite x = true -> is_finite y = true ->
  (is_finite (fmul x y) = true <->
   Z.abs (RNdiv (Zval x * Zval y) 1074) < OVF) /\
  (is_finite (fmul x y) = true ->
   Zval (fmul x y) = RNdiv (Zval x * Zval y) 1074).
Proof.
  intros Vx Vy Fx Fy.
  destruct x as [sx|sx| |sx mx ex], y as [sy|sy| |sy my ey]; try discriminate;
    try (cbn [Zval]; rewrite ?Z.mul_0_l, ?Z.mul_0_r, RNdiv_0; cbn;
         unfold OVF; split; [split; [lia|reflexivity]|reflexivity]).
  rewrite fmul_finite_finite by assumption.
  set (z := Zval (S754_finite sx mx ex) * Zval (S754_finite sy my ey)).
  assert (NZ : z <> 0).
  { apply valid_finite_iff in Vx, Vy.
    pose proof (Zval_nonzero sx mx ex ltac:(lia)).
    pose proof (Zval_nonzero sy my ey ltac:(lia)). unfold z. nia. }
  destruct (rndE_fmt (Z.abs z) (-1074) ltac:(lia)) as [F P].
  destruct (SFofZ_props (xorb sx sy) _ P F) as (_ & Fi & Zv).
  assert (Sg : cond_Zopp (xorb sx sy) (rndE (Z.abs z) (-1074)) = RNdiv z 1074).
  { unfold RNdiv. change (- (1074)) with (-1074).
    assert (Sz : Z.sgn z = if xorb sx sy then -1 else 1).
    { apply valid_finite_iff in Vx, Vy. unfold z. rewrite !Zval_finite.
      pose proof (pow2_pos (ex + 1074) ltac:(lia)).
      pose proof (pow2_pos (ey + 1074) ltac:(lia)).
      rewrite Z.sgn_mul.
      destruct sx, sy; cbn [xorb cond_Zopp];
        rewrite ?Z.sgn_opp, !Z.sgn_pos by nia; reflexivity. }
    rewrite Sz. destruct (xorb sx sy); cbn [cond_Zopp]; ring. }
  split.
  - rewrite Fi, <- Sg. rewrite cond_Zopp_abs by exact P. reflexivity.
  - intros H. rewrite (Zv H). exact Sg.
Qed.

(** A product on the grid: the value is [RN] of the exact quotient. *)
Lemma fmul_step x y t :
  valid x -> valid y -> is_finite x = true -> is_finite y = true ->
  Zval x * Zval y = t * 2 ^ 1074 ->
  Z.abs (RN t) < OVF ->
  valid (fmul x y) /\ is_finite (fmul x y) = true /\ Zval (fmul x y) = RN t.
Proof.
  intros Vx Vy Fx Fy E B.
  destruct (fmul_spec x y Vx Vy Fx Fy) as [Fi Zv].
  rewrite E, RNdiv_exact in Fi, Zv by lia.
  split; [now apply fmul_valid|]. split; [now apply Fi|].
  apply Zv. now apply Fi.
Qed.

End Products.

(** ** Scaling by powers of two *)

Section Scaling.

Lemma fmt_scale z j : 0 <= j -> fmt z -> fmt (z * 2 ^ j).
Proof.
  intros Hj [m Em]. pose proof (cexp_nonneg z) as C.
  apply (fmt_of_divide _ (cexp z + j)); [lia| |].
  - rewrite Z.pow_add_r by lia. apply Z.mul_divide_mono_r. now exists m.
  - pose proof (cexp_upper z) as U. pose proof (pow2_pos j Hj).
    rewrite Z.abs_mul, (Z.abs_eq (2 ^ j)) by lia.
    replace (cexp z + j + 53) with (cexp z + 53 + j) by lia.
    rewrite Z.pow_add_r by lia. nia.
Qed.

Lemma RN_scale z j : 0 <= j -> RN (z * 2 ^ j) = RN z * 2 ^ j.
Proof.
  intros Hj. pose proof (pow2_pos j Hj) as Pj.
  destruct (Z.eq_dec z 0) as [->|N]; [reflexivity|].
  destruct (Z.eq_dec (cexp z) 0) as [C0|C0].
  - assert (F : fmt z).
    { pose proof (cexp_upper z) as U. rewrite C0 in U.
      apply fmt_small. change (2 ^ (0 + 53)) with (2 ^ 53) in U. lia. }
    rewrite (RN_id z F). apply RN_id. now apply fmt_scale.
  - pose proof (cexp_nonneg z) as Cz.
    assert (L : 0 < Z.abs z) by lia.
    assert (Cs : cexp (z * 2 ^ j) = cexp z + j).
    { unfold cexp in *. rewrite Z.abs_mul, (Z.abs_eq (2 ^ j)) by lia.
      rewrite Z.log2_mul_pow2 by lia. lia. }
    unfold RN. rewrite Cs, Z.pow_add_r by lia.
    rewrite rne_q_scale by (try apply pow2_pos; lia). ring.
Qed.

Lemma fmt_unscale z j : 0 <= j -> fmt (z * 2 ^ j) -> fmt z.
Proof.
  intros Hj F. pose proof (pow2_pos j Hj) as Pj.
  assert (E : RN z * 2 ^ j = z * 2 ^ j).
  { rewrite <- RN_scale by lia. now apply RN_id. }
  apply Z.mul_cancel_r in E; [|lia].
  rewrite <- E. apply RN_fmt.
Qed.

(** A power of two that divides a product splits between the factors. *)
Lemma pow2_divide_mul n x y :
  0 <= n -> (2 ^ n | x * y) ->
  exists i j, 0 <= i /\ 0 <= j /\ i + j = n /\ (2 ^ i | x) /\ (2 ^ j | y).
Proof.
  intros Hn. revert x y. pattern n. apply natlike_ind; [|clear n Hn|exact Hn].
  - intros x y _. exists 0, 0. repeat split; try lia; apply Z.divide_1_l.
  - intros n Hn IH x y D.
    assert (Dn : (2 ^ n | x * y)).
    { apply Z.divide_trans with (2 ^ Z.succ n); [|exact D].
      apply pow2_divide. lia. }
    destruct (IH x y Dn) as (i & j & Hi & Hj & Eij & [x1 Ex] & [y1 Ey]).
    destruct D as [q Eq].
    pose proof (pow2_pos i Hi) as Pi. pose proof (pow2_pos j Hj) as Pj.
    assert (E2 : x1 * y1 = 2 * q).
    { assert (P : 2 ^ i * 2 ^ j = 2 ^ n)
        by (rewrite <- Z.pow_add_r by lia; now rewrite Eij).
      assert (S : 2 ^ Z.succ n = 2 * 2 ^ n) by (apply Z.pow_succ_r; lia).
      pose proof (pow2_pos n Hn) as Pn.
      rewrite S, Ex, Ey, <- P in Eq.
      apply (Z.mul_cancel_r _ _ (2 ^ i * 2 ^ j)); [nia|].
      replace (x1 * y1 * (2 ^ i * 2 ^ j)) with (x1 * 2 ^ i * (y1 * 2 ^ j))
        by ring.
      rewrite Eq. ring. }
    assert (Ev : Z.even (x1 * y1) = true).
    { rewrite E2. apply Z.even_spec. now exists q. }
    rewrite Z.even_mul in Ev. apply orb_true_iff in Ev.
    destruct Ev as [Ev|Ev]; apply Z.even_spec in Ev; destruct Ev as [h Eh].
    + exists (Z.succ i), j. repeat split; try lia.
      * exists h. rewrite Z.pow_succ_r by lia. rewrite Ex, Eh. ring.
      * now exists y1.
    + exists i, (Z.succ j). repeat split; try lia.
      * now exists x1.
      * exists h. rewrite Z.pow_succ_r by lia. rewrite Ey, Eh. ring.
Qed.

End Scaling.

(** ** Veltkamp's split on the grid *)

Section SplitGrid.

Import GridProd.

Lemma pow2_shift e c : 0 <= e -> 0 <= c -> 2 ^ (e + c) = 2 ^ c * 2 ^ e.
Proof. intros. rewrite Z.pow_add_r by lia. ring. Qed.

(** A normalized positive [a]: the high half [h] keeps the 26 leading
    bits, the low half [l = a - h] is at most half a unit of [h]. *)
Lemma split_grid_pos a :
  fmt a -> 2 ^ 52 <= a ->
  let E := 2 ^ cexp a in
  let g := RN (C * a) in
  let d := RN (g - a) in
  let h := RN (g - d) in
  let l := RN (a - h) in
  h + l = a /\ (2 ^ 27 * E | h) /\ 0 < h <= 2 ^ 53 * E /\
  (E | l) /\ - (2 ^ 26 * E) <= l <= 2 ^ 26 * E /\
  2 ^ 52 * E <= a < 2 ^ 53 * E /\
  0 <= d <= g /\ h <= g.
Proof.
  intros F Ha E g d h l.
  pose proof (cexp_nonneg a) as He. set (e := cexp a) in *.
  assert (PE : 0 < E) by (apply pow2_pos; exact He).
  assert (La : 2 ^ 52 * E <= a).
  { destruct (Z.eq_dec e 0) as [E0|E0].
    - unfold E. rewrite E0. change (2 ^ 0) with 1. lia.
    - pose proof (cexp_lower a ltac:(fold e; lia)) as L. fold e in L.
      rewrite pow2_shift, Z.abs_eq in L by lia. exact L. }
  assert (Ua : a < 2 ^ 53 * E).
  { pose proof (cexp_upper a) as U. fold e in U.
    rewrite pow2_shift, Z.abs_eq in U by lia. exact U. }
  destruct F as [Ma EMa]. fold e in EMa. fold E in EMa.
  assert (Ua' : a + E <= 2 ^ 53 * E).
  { pose proof (multiple_succ_le Ma (2 ^ 53) E PE ltac:(lia)). lia. }
  assert (P27 : 2 ^ (e + 27) = 2 ^ 27 * E) by (apply pow2_shift; lia).
  assert (P79 : 2 ^ (e + 79) = 2 ^ 79 * E) by (apply pow2_shift; lia).
  assert (P80 : 2 ^ (e + 80) = 2 ^ 80 * E) by (apply pow2_shift; lia).
  (* the first rounding *)
  assert (Ca : C * a = 2 ^ 27 * a + a) by (unfold C; lia).
  assert (Lg : 2 ^ 79 * E <= g).
  { rewrite <- P79. apply RN_ge_fmt; [apply fmt_pow2; lia|].
    rewrite P79, Ca. lia. }
  assert (Dg : (2 ^ 27 * E | g)).
  { rewrite <- P27. apply fmt_divide_pow; [apply RN_fmt|].
    split; [lia|]. apply cexp_ge_of_le.
    replace (e + 27 + 52) with (e + 79) by lia. rewrite P79. fold g. lia. }
  assert (Eg : - (2 ^ 27 * E) <= g - C * a <= 2 ^ 27 * E).
  { pose proof (RN_error (C * a)) as Er. fold g in Er.
    assert (Cc : cexp (C * a) <= e + 28).
    { apply cexp_le_of_lt; [lia|].
      replace (e + 28 + 53) with (e + 81) by lia.
      rewrite pow2_shift, Z.abs_eq by lia. rewrite Ca. lia. }
    pose proof (pow2_le _ _ Cc) as Pc. rewrite pow2_shift in Pc by lia.
    clear - Er Pc PE. lia. }
  (* the second rounding *)
  assert (Lx : 2 ^ 79 * E <= g - a).
  { destruct (Z.eq_dec a (2 ^ 52 * E)) as [Eq|Ne].
    - assert (Fc : fmt (C * a)).
      { apply (fmt_of_divide _ (e + 27)); [lia| |].
        - rewrite P27. exists (2 ^ 52 + 2 ^ 25). rewrite Eq. unfold C. lia.
        - replace (e + 27 + 53) with (e + 80) by lia.
          rewrite P80, Z.abs_eq, Ca by lia. lia. }
      unfold g. rewrite (RN_id _ Fc), Ca. lia.
    - assert (a >= 2 ^ 52 * E + E).
      { pose proof (multiple_succ_le (2 ^ 52) Ma E PE ltac:(lia)). lia. }
      rewrite Ca in Eg. lia. }
  assert (Ux : g - a <= 2 ^ 80 * E) by (rewrite Ca in Eg; lia).
  assert (Ld : 2 ^ 79 * E <= d).
  { rewrite <- P79. apply RN_ge_fmt; [apply fmt_pow2; lia|]. now rewrite P79. }
  assert (Ud : d <= 2 ^ 80 * E).
  { rewrite <- P80. apply RN_le_fmt; [apply fmt_pow2; lia|]. now rewrite P80. }
  assert (Dd : (2 ^ 27 * E | d)).
  { rewrite <- P27. apply fmt_divide_pow; [apply RN_fmt|].
    split; [lia|]. apply cexp_ge_of_le.
    replace (e + 27 + 52) with (e + 79) by lia. rewrite P79. fold d. lia. }
  assert (Ed : - (2 ^ 26 * E) <= d - (g - a) <= 2 ^ 26 * E).
  { destruct (Z.eq_dec (g - a) (2 ^ 80 * E)) as [Eq|Ne].
    - unfold d. rewrite RN_id; [lia|].
      rewrite Eq, <- P80. apply fmt_pow2. lia.
    - pose proof (RN_error (g - a)) as Er. fold d in Er.
      assert (Cc : cexp (g - a) <= e + 27).
      { apply cexp_le_of_lt; [lia|].
        replace (e + 27 + 53) with (e + 80) by lia.
        rewrite P80, Z.abs_eq by lia. lia. }
      pose proof (pow2_le _ _ Cc) as Pc. rewrite P27 in Pc.
      clear - Er Pc PE. lia. }
  (* the high half is exact *)
  assert (Dy : (2 ^ 27 * E | g - d)) by (now apply Z.divide_sub_r).
  assert (By : 0 < g - d <= 2 ^ 53 * E).
  { destruct Dy as [jy Ejy]. split; [lia|].
    assert (B : Z.abs (jy * (2 ^ 27 * E)) < (2 ^ 26 + 1) * (2 ^ 27 * E)).
    { rewrite <- Ejy. apply Z.abs_lt. split; lia. }
    apply multiple_abs_le in B; [|lia]. rewrite <- Ejy in B.
    apply Z.abs_le in B. lia. }
  assert (Fy : fmt (g - d)).
  { apply (fmt_of_divide _ (e + 27)); [lia|now rewrite P27|].
    replace (e + 27 + 53) with (e + 80) by lia.
    rewrite P80, Z.abs_eq by lia. lia. }
  assert (Eh : h = g - d) by (apply RN_id; exact Fy).
  (* the low half is exact *)
  assert (Fl : fmt (a - h)).
  { rewrite Eh. apply (fmt_of_divide _ e He).
    - fold E. apply Z.divide_sub_r; [now exists Ma|].
      apply Z.divide_trans with (2 ^ 27 * E); [|exact Dy].
      apply Z.divide_factor_r.
    - rewrite pow2_shift by lia. apply Z.abs_le. lia. }
  assert (El : l = a - h) by (apply RN_id; exact Fl).
  assert (Udg : d <= g).
  { unfold d. apply RN_le_fmt; [apply RN_fmt|lia]. }
  rewrite El, Eh.
  split; [ring|]. split; [exact Dy|]. split; [exact By|].
  split.
  { apply Z.divide_sub_r; [now exists Ma|].
    apply Z.divide_trans with (2 ^ 27 * E); [|exact Dy].
    apply Z.divide_factor_r. }
  split; [lia|]. split; [lia|]. split; lia.
Qed.

End SplitGrid.

(** ** Dekker's product on the grid *)

Section DekkerGrid.

Import GridProd.

Lemma mul_bound x y X Y :
  - X <= x <= X -> - Y <= y <= Y -> - (X * Y) <= x * y <= X * Y.
Proof. intros Hx Hy. nia. Qed.

Lemma fmt_lat g k z :
  0 <= g -> 0 <= k -> (2 ^ k * 2 ^ g | z) ->
  - (2 ^ (k + 53) * 2 ^ g) <= z <= 2 ^ (k + 53) * 2 ^ g -> fmt z.
Proof.
  intros Hg Hk D B. apply (fmt_of_divide _ (k + g)); [lia| |].
  - now rewrite Z.pow_add_r by lia.
  - replace (k + g + 53) with (k + 53 + g) by lia.
    rewrite Z.pow_add_r by lia. now apply Z.abs_le.
Qed.

(** The halves of two normalized operands: every partial product and
    every partial sum of [two_prod] is exact. *)
Lemma dekker_core ea eb a b ah al bh bl :
  0 <= ea -> 0 <= eb ->
  let E := 2 ^ ea in
  let F := 2 ^ eb in
  ah + al = a -> bh + bl = b ->
  (2 ^ 27 * E | ah) -> - (2 ^ 53 * E) <= ah <= 2 ^ 53 * E ->
  (E | al) -> - (2 ^ 26 * E) <= al <= 2 ^ 26 * E ->
  (2 ^ 27 * F | bh) -> - (2 ^ 53 * F) <= bh <= 2 ^ 53 * F ->
  (F | bl) -> - (2 ^ 26 * F) <= bl <= 2 ^ 26 * F ->
  2 ^ 52 * E <= Z.abs a < 2 ^ 53 * E ->
  2 ^ 52 * F <= Z.abs b < 2 ^ 53 * F ->
  let t := prodZ (a * b) ah al bh bl in
  pr_e t = a * b - pr_p t /\
  pr_q1 t = ah * bh /\
  2 ^ 104 * (E * F) <= Z.abs (pr_p t) /\
  Z.abs (pr_r1 t) <= 2 ^ 81 * (E * F) /\
  Z.abs (pr_q2 t) <= 2 ^ 79 * (E * F) /\
  Z.abs (pr_r2 t) <= 2 ^ 80 * (E * F) /\
  Z.abs (pr_q3 t) <= 2 ^ 79 * (E * F) /\
  Z.abs (pr_r3 t) <= 2 ^ 53 * (E * F) /\
  Z.abs (pr_q4 t) <= 2 ^ 52 * (E * F) /\
  Z.abs (pr_e t) <= 2 ^ 52 * (E * F).
Proof.
  intros Hea Heb E F Sa Sb Dah Bah Dal Bal Dbh Bbh Dbl Bbl Na Nb t.
  assert (PE : 0 < E) by (apply pow2_pos; exact Hea).
  assert (PF : 0 < F) by (apply pow2_pos; exact Heb).
  set (G := E * F).
  assert (PG : 0 < G) by (unfold G; nia).
  assert (EG : 2 ^ (ea + eb) = G) by (unfold G, E, F; apply Z.pow_add_r; lia).
  assert (Hg : 0 <= ea + eb) by lia.
  destruct Dah as [jh Ejh]. destruct Dal as [jl Ejl].
  destruct Dbh as [kh Ekh]. destruct Dbl as [kl Ekl].
  (* bounds on the exact product and the partial products *)
  assert (Bab : 2 ^ 104 * G <= Z.abs (a * b) < 2 ^ 106 * G).
  { rewrite Z.abs_mul. unfold G.
    replace (2 ^ 104 * (E * F)) with (2 ^ 52 * E * (2 ^ 52 * F)) by ring.
    replace (2 ^ 106 * (E * F)) with (2 ^ 53 * E * (2 ^ 53 * F)) by ring.
    split; [apply Z.mul_le_mono_nonneg; lia|].
    apply Z.mul_lt_mono_nonneg; lia. }
  pose proof (mul_bound ah bh _ _ Bah Bbh) as B1.
  replace (2 ^ 53 * E * (2 ^ 53 * F)) with (2 ^ 106 * G) in B1
    by (unfold G; ring).
  pose proof (mul_bound ah bl _ _ Bah Bbl) as B2.
  replace (2 ^ 53 * E * (2 ^ 26 * F)) with (2 ^ 79 * G) in B2
    by (unfold G; ring).
  pose proof (mul_bound al bh _ _ Bal Bbh) as B3.
  replace (2 ^ 26 * E * (2 ^ 53 * F)) with (2 ^ 79 * G) in B3
    by (unfold G; ring).
  pose proof (mul_bound al bl _ _ Bal Bbl) as B4.
  replace (2 ^ 26 * E * (2 ^ 26 * F)) with (2 ^ 52 * G) in B4
    by (unfold G; ring).
  (* the rounded product *)
  set (p := RN (a * b)).
  assert (Lp : 2 ^ 104 * G <= Z.abs p).
  { rewrite <- EG, <- pow2_shift by lia.
    apply RN_ge_pow2; [lia|]. rewrite pow2_shift, EG by lia. lia. }
  assert (Dp : (2 ^ 52 * 2 ^ (ea + eb) | p)).
  { rewrite <- pow2_shift by lia. apply fmt_divide_pow; [apply RN_fmt|].
    split; [lia|]. apply cexp_ge_of_le.
    replace (ea + eb + 52 + 52) with (ea + eb + 104) by lia.
    rewrite pow2_shift, EG by lia. exact Lp. }
  destruct Dp as [jp Ejp]. rewrite EG in Ejp.
  assert (Er : - (2 ^ 52 * G) <= a * b - p <= 2 ^ 52 * G).
  { pose proof (RN_error (a * b)) as Er. fold p in Er.
    assert (Cc : cexp (a * b) <= ea + eb + 53).
    { apply cexp_le_of_lt; [lia|].
      replace (ea + eb + 53 + 53) with (ea + eb + 106) by lia.
      rewrite pow2_shift, EG by lia. lia. }
    pose proof (pow2_le _ _ Cc) as Pc. rewrite pow2_shift, EG in Pc by lia.
    clear - Er Pc PG. lia. }
  assert (Eab : a * b = ah * bh + ah * bl + al * bh + al * bl)
    by (rewrite <- Sa, <- Sb; ring).
  (* the four partial products are exact *)
  assert (Q1 : RN (ah * bh) = ah * bh).
  { apply RN_id. apply (fmt_lat (ea + eb) 54); [lia|lia| |].
    + rewrite EG. exists (jh * kh). rewrite Ejh, Ekh. unfold G. ring.
    + rewrite EG. change (2 ^ (54 + 53)) with (2 * 2 ^ 106). lia. }
  assert (Q2 : RN (ah * bl) = ah * bl).
  { apply RN_id. apply (fmt_lat (ea + eb) 27); [lia|lia| |].
    + rewrite EG. exists (jh * kl). rewrite Ejh, Ekl. unfold G. ring.
    + rewrite EG. change (2 ^ (27 + 53)) with (2 * 2 ^ 79). lia. }
  assert (Q3 : RN (al * bh) = al * bh).
  { apply RN_id. apply (fmt_lat (ea + eb) 27); [lia|lia| |].
    + rewrite EG. exists (jl * kh). rewrite Ejl, Ekh. unfold G. ring.
    + rewrite EG. change (2 ^ (27 + 53)) with (2 * 2 ^ 79). lia. }
  assert (Q4 : RN (al * bl) = al * bl).
  { apply RN_id. apply (fmt_lat (ea + eb) 0); [lia|lia| |].
    + rewrite EG. exists (jl * kl). rewrite Ejl, Ekl. unfold G. ring.
    + rewrite EG. change (2 ^ (0 + 53)) with (2 * 2 ^ 52). lia. }
  (* and so are the four sums *)
  assert (R1 : RN (ah * bh - p) = ah * bh - p).
  { apply RN_id. apply (fmt_lat (ea + eb) 52); [lia|lia| |].
    + rewrite EG. exists (4 * (jh * kh) - jp).
      rewrite Ejp, Ejh, Ekh. unfold G. ring.
    + rewrite EG. change (2 ^ (52 + 53)) with (2 ^ 105). lia. }
  assert (R2 : RN (ah * bh - p + ah * bl) = ah * bh - p + ah * bl).
  { apply RN_id. apply (fmt_lat (ea + eb) 27); [lia|lia| |].
    + rewrite EG. exists (2 ^ 27 * (jh * kh) - 2 ^ 25 * jp + jh * kl).
      rewrite Ejp, Ejh, Ekh, Ekl. unfold G. ring.
    + rewrite EG. change (2 ^ (27 + 53)) with (2 ^ 80). lia. }
  assert (R3 : RN (ah * bh - p + ah * bl + al * bh)
               = ah * bh - p + ah * bl + al * bh).
  { apply RN_id. apply (fmt_lat (ea + eb) 27); [lia|lia| |].
    + rewrite EG.
      exists (2 ^ 27 * (jh * kh) - 2 ^ 25 * jp + jh * kl + jl * kh).
      rewrite Ejp, Ejh, Ekh, Ekl, Ejl. unfold G. ring.
    + rewrite EG. change (2 ^ (27 + 53)) with (2 ^ 80). lia. }
  assert (R4 : RN (ah * bh - p + ah * bl + al * bh + al * bl) = a * b - p).
  { replace (ah * bh - p + ah * bl + al * bh + al * bl) with (a * b - p)
      by (rewrite Eab; ring).
    apply RN_id. apply (fmt_lat (ea + eb) 0); [lia|lia| |].
    + rewrite EG. change (2 ^ 0) with 1.
      exists (2 ^ 54 * (jh * kh) + 2 ^ 27 * (jh * kl) + 2 ^ 27 * (jl * kh)
              + jl * kl - 2 ^ 52 * jp).
      rewrite Eab, Ejp, Ejh, Ekh, Ekl, Ejl. unfold G. ring.
    + rewrite EG. change (2 ^ (0 + 53)) with (2 * 2 ^ 52). lia. }
  unfold t, prodZ. cbn [pr_p pr_q1 pr_r1 pr_q2 pr_r2 pr_q3 pr_r3 pr_q4 pr_e].
  fold p. rewrite Q1, R1, Q2, R2, Q3, R3, Q4, R4.
  split; [reflexivity|]. split; [reflexivity|]. split; [exact Lp|].
  repeat split; apply Z.abs_le; lia.
Qed.

End DekkerGrid.

(** ** The split and the product for all operands of the format *)

Section ProductGrid.

Import GridProd.

Lemma splitZ_opp a :
  splitZ (- a) =
  mk_split (- sp_g (splitZ a)) (- sp_d (splitZ a))
           (- sp_h (splitZ a)) (- sp_l (splitZ a)).
Proof.
  unfold splitZ. cbn [sp_g sp_d sp_h sp_l].
  replace (C * - a) with (- (C * a)) by ring. rewrite RN_opp.
  replace (- RN (C * a) - - a) with (- (RN (C * a) - a)) by ring.
  rewrite RN_opp.
  replace (- RN (C * a) - - RN (RN (C * a) - a))
    with (- (RN (C * a) - RN (RN (C * a) - a))) by ring.
  rewrite RN_opp.
  replace (- a - - RN (RN (C * a) - RN (RN (C * a) - a)))
    with (- (a - RN (RN (C * a) - RN (RN (C * a) - a)))) by ring.
  rewrite RN_opp. reflexivity.
Qed.

(** Facts on the split of a normalized positive operand. *)
Lemma split_pos_rec x :
  fmt x -> 2 ^ 52 <= x ->
    sp_h (splitZ x) + sp_l (splitZ x) = x /\
    (2 ^ 27 * 2 ^ cexp x | sp_h (splitZ x)) /\
    - (2 ^ 53 * 2 ^ cexp x) <= sp_h (splitZ x) <= 2 ^ 53 * 2 ^ cexp x /\
    (2 ^ cexp x | sp_l (splitZ x)) /\
    - (2 ^ 26 * 2 ^ cexp x) <= sp_l (splitZ x) <= 2 ^ 26 * 2 ^ cexp x /\
    2 ^ 52 * 2 ^ cexp x <= Z.abs x < 2 ^ 53 * 2 ^ cexp x /\
    Z.abs (sp_d (splitZ x)) <= Z.abs (sp_g (splitZ x)) /\
    Z.abs (sp_h (splitZ x)) <= Z.abs (sp_g (splitZ x)) /\
    Z.abs (sp_l (splitZ x)) <= Z.abs x /\
    Z.sgn (sp_h (splitZ x)) = Z.sgn x.
Proof.
  intros Fx Lx.
  pose proof (split_grid_pos x Fx Lx) as H. cbv zeta in H.
  destruct H as (H1 & H2 & H3 & H4 & H5 & H6 & H7 & H8).
  unfold splitZ. cbn [sp_g sp_d sp_h sp_l].
  assert (PE : 0 < 2 ^ cexp x) by (apply pow2_pos, cexp_nonneg).
  split; [exact H1|]. split; [exact H2|]. split; [lia|].
  split; [exact H4|]. split; [exact H5|].
  split; [rewrite Z.abs_eq by lia; exact H6|].
  split; [apply Z.abs_le; lia|]. split; [apply Z.abs_le; lia|].
  split; [apply Z.abs_le; lia|].
  rewrite !Z.sgn_pos by lia. reflexivity.
Qed.

(** Facts on the split of a normalized operand of either sign. *)
Lemma split_grid_norm a :
  fmt a -> 2 ^ 52 <= Z.abs a ->
    sp_h (splitZ a) + sp_l (splitZ a) = a /\
    (2 ^ 27 * 2 ^ cexp a | sp_h (splitZ a)) /\
    - (2 ^ 53 * 2 ^ cexp a) <= sp_h (splitZ a) <= 2 ^ 53 * 2 ^ cexp a /\
    (2 ^ cexp a | sp_l (splitZ a)) /\
    - (2 ^ 26 * 2 ^ cexp a) <= sp_l (splitZ a) <= 2 ^ 26 * 2 ^ cexp a /\
    2 ^ 52 * 2 ^ cexp a <= Z.abs a < 2 ^ 53 * 2 ^ cexp a /\
    Z.abs (sp_d (splitZ a)) <= Z.abs (sp_g (splitZ a)) /\
    Z.abs (sp_h (splitZ a)) <= Z.abs (sp_g (splitZ a)) /\
    Z.abs (sp_l (splitZ a)) <= Z.abs a /\
    Z.sgn (sp_h (splitZ a)) = Z.sgn a.
Proof.
  intros F N. destruct (Z_le_gt_dec 0 a) as [Pa|Na].
  - apply split_pos_rec; [exact F|lia].
  - destruct (split_pos_rec (- a) (fmt_opp a F) ltac:(lia))
      as (H1 & H2 & H3 & H4 & H5 & H6 & H7 & H8 & H9 & H10).
    assert (Eg : sp_g (splitZ (- a)) = - sp_g (splitZ a))
      by (now rewrite splitZ_opp).
    assert (Ed : sp_d (splitZ (- a)) = - sp_d (splitZ a))
      by (now rewrite splitZ_opp).
    assert (Eh : sp_h (splitZ (- a)) = - sp_h (splitZ a))
      by (now rewrite splitZ_opp).
    assert (El : sp_l (splitZ (- a)) = - sp_l (splitZ a))
      by (now rewrite splitZ_opp).
    rewrite Eh, El in H1. rewrite Eh in H2, H3, H8, H10.
    rewrite El in H4, H5, H9. rewrite Eg, Ed in H7. rewrite Eg in H8.
    rewrite cexp_opp in H2, H3, H4, H5, H6.
    rewrite !Z.abs_opp in H6, H7, H8, H9.
    rewrite !Z.sgn_opp in H10.
    apply Z.divide_opp_r in H2, H4. rewrite Z.opp_involutive in H2, H4.
    split; [lia|]. split; [exact H2|]. split; [lia|].
    split; [exact H4|]. split; [lia|]. split; [exact H6|].
    split; [lia|]. split; [lia|]. split; [lia|]. lia.
Qed.

Lemma splitZ_scale a j :
  0 <= j ->
  splitZ (a * 2 ^ j) =
  mk_split (sp_g (splitZ a) * 2 ^ j) (sp_d (splitZ a) * 2 ^ j)
           (sp_h (splitZ a) * 2 ^ j) (sp_l (splitZ a) * 2 ^ j).
Proof.
  intros Hj. unfold splitZ. cbn [sp_g sp_d sp_h sp_l].
  rewrite Z.mul_assoc, RN_scale by lia.
  rewrite <- Z.mul_sub_distr_r, RN_scale by lia.
  rewrite <- Z.mul_sub_distr_r, RN_scale by lia.
  rewrite <- Z.mul_sub_distr_r, RN_scale by lia.
  reflexivity.
Qed.

Lemma prodZ_scale ab ah al bh bl i j :
  0 <= i -> 0 <= j ->
  prodZ (ab * 2 ^ (i + j)) (ah * 2 ^ i) (al * 2 ^ i) (bh * 2 ^ j) (bl * 2 ^ j) =
  mk_prod (pr_p (prodZ ab ah al bh bl) * 2 ^ (i + j))
          (pr_q1 (prodZ ab ah al bh bl) * 2 ^ (i + j))
          (pr_r1 (prodZ ab ah al bh bl) * 2 ^ (i + j))
          (pr_q2 (prodZ ab ah al bh bl) * 2 ^ (i + j))
          (pr_r2 (prodZ ab ah al bh bl) * 2 ^ (i + j))
          (pr_q3 (prodZ ab ah al bh bl) * 2 ^ (i + j))
          (pr_r3 (prodZ ab ah al bh bl) * 2 ^ (i + j))
          (pr_q4 (prodZ ab ah al bh bl) * 2 ^ (i + j))
          (pr_e (prodZ ab ah al bh bl) * 2 ^ (i + j)).
Proof.
  intros Hi Hj.
  assert (M : forall x y, x * 2 ^ i * (y * 2 ^ j) = x * y * 2 ^ (i + j)).
  { intros x y. rewrite Z.pow_add_r by lia. ring. }
  assert (HW : 0 <= i + j) by lia.
  unfold prodZ. cbn [pr_p pr_q1 pr_r1 pr_q2 pr_r2 pr_q3 pr_r3 pr_q4 pr_e].
  rewrite !M.
  rewrite !RN_scale by lia.
  rewrite <- Z.mul_sub_distr_r, RN_scale by lia.
  rewrite <- Z.mul_add_distr_r, RN_scale by lia.
  rewrite <- Z.mul_add_distr_r, RN_scale by lia.
  rewrite <- Z.mul_add_distr_r, RN_scale by lia.
  reflexivity.
Qed.

Lemma two_prodZ_scale a b i j :
  0 <= i -> 0 <= j ->
  two_prodZ (a * 2 ^ i) (b * 2 ^ j) =
  mk_prod (pr_p (two_prodZ a b) * 2 ^ (i + j))
          (pr_q1 (two_prodZ a b) * 2 ^ (i + j))
          (pr_r1 (two_prodZ a b) * 2 ^ (i + j))
          (pr_q2 (two_prodZ a b) * 2 ^ (i + j))
          (pr_r2 (two_prodZ a b) * 2 ^ (i + j))
          (pr_q3 (two_prodZ a b) * 2 ^ (i + j))
          (pr_r3 (two_prodZ a b) * 2 ^ (i + j))
          (pr_q4 (two_prodZ a b) * 2 ^ (i + j))
          (pr_e (two_prodZ a b) * 2 ^ (i + j)).
Proof.
  intros Hi Hj. unfold two_prodZ.
  rewrite !splitZ_scale by lia. cbn [sp_g sp_d sp_h sp_l].
  replace (a * 2 ^ i * (b * 2 ^ j)) with (a * b * 2 ^ (i + j))
    by (rewrite Z.pow_add_r by lia; ring).
  apply prodZ_scale; lia.
Qed.

Lemma abs_scale_le x y W :
  0 < W -> Z.abs (x * W) <= Z.abs (y * W) -> Z.abs x <= Z.abs y.
Proof.
  intros PW H. rewrite !Z.abs_mul, (Z.abs_eq W) in H by lia.
  apply Z.mul_le_mono_pos_r in H; assumption.
Qed.

(** The split of any operand of the format: the halves recombine
    exactly, no intermediate value exceeds the first product, and the
    high half has the sign of the operand. *)
Theorem split_grid a :
  fmt a ->
  sp_h (splitZ a) + sp_l (splitZ a) = a /\
  Z.abs (sp_d (splitZ a)) <= Z.abs (sp_g (splitZ a)) /\
  Z.abs (sp_h (splitZ a)) <= Z.abs (sp_g (splitZ a)) /\
  Z.abs (sp_l (splitZ a)) <= Z.abs a /\
  Z.sgn (sp_h (splitZ a)) = Z.sgn a.
Proof.
  intros F. destruct (Z.eq_dec a 0) as [->|N].
  - repeat split; vm_compute; congruence.
  - assert (F' : fmt (a * 2 ^ 52)) by (apply fmt_scale; [lia|exact F]).
    assert (N' : 2 ^ 52 <= Z.abs (a * 2 ^ 52)).
    { rewrite Z.abs_mul. change (Z.abs (2 ^ 52)) with (2 ^ 52). lia. }
    destruct (split_grid_norm _ F' N')
      as (H1 & _ & _ & _ & _ & _ & H7 & H8 & H9 & H10).
    assert (Eg : sp_g (splitZ (a * 2 ^ 52)) = sp_g (splitZ a) * 2 ^ 52)
      by (now rewrite splitZ_scale by lia).
    assert (Ed : sp_d (splitZ (a * 2 ^ 52)) = sp_d (splitZ a) * 2 ^ 52)
      by (now rewrite splitZ_scale by lia).
    assert (Eh : sp_h (splitZ (a * 2 ^ 52)) = sp_h (splitZ a) * 2 ^ 52)
      by (now rewrite splitZ_scale by lia).
    assert (El : sp_l (splitZ (a * 2 ^ 52)) = sp_l (splitZ a) * 2 ^ 52)
      by (now rewrite splitZ_scale by lia).
    rewrite Eh, El in H1. rewrite Eg, Ed in H7. rewrite Eg, Eh in H8.
    rewrite El in H9. rewrite Eh in H10.
    apply abs_scale_le in H7; [|lia].
    apply abs_scale_le in H8; [|lia].
    apply abs_scale_le in H9; [|lia].
    rewrite !Z.sgn_mul in H10. change (Z.sgn (2 ^ 52)) with 1 in H10.
    split; [lia|]. split; [exact H7|]. split; [exact H8|].
    split; [exact H9|]. lia.
Qed.

(** Dekker's product for all operands of the format: the last rounding
    returns the exact residual of the first, and all intermediate values
    after the first partial product are bounded by the rounded product. *)
Theorem two_prod_grid a b :
  fmt a -> fmt b ->
  pr_p (two_prodZ a b) = RN (a * b) /\
  pr_e (two_prodZ a b) = a * b - pr_p (two_prodZ a b) /\
  pr_q1 (two_prodZ a b) = sp_h (splitZ a) * sp_h (splitZ b) /\
  Z.abs (pr_r1 (two_prodZ a b)) <= Z.abs (pr_p (two_prodZ a b)) /\
  Z.abs (pr_q2 (two_prodZ a b)) <= Z.abs (pr_p (two_prodZ a b)) /\
  Z.abs (pr_r2 (two_prodZ a b)) <= Z.abs (pr_p (two_prodZ a b)) /\
  Z.abs (pr_q3 (two_prodZ a b)) <= Z.abs (pr_p (two_prodZ a b)) /\
  Z.abs (pr_r3 (two_prodZ a b)) <= Z.abs (pr_p (two_prodZ a b)) /\
  Z.abs (pr_q4 (two_prodZ a b)) <= Z.abs (pr_p (two_prodZ a b)) /\
  Z.abs (pr_e (two_prodZ a b)) <= Z.abs (pr_p (two_prodZ a b)).
Proof.
  intros Fa Fb.
  assert (S0 : sp_h (splitZ 0) = 0 /\ sp_l (splitZ 0) = 0)
    by (split; reflexivity).
  destruct S0 as [S1 S2].
  destruct (Z.eq_dec a 0) as [Ea|Na].
  { subst a. unfold two_prodZ, prodZ.
    cbn [pr_p pr_q1 pr_r1 pr_q2 pr_r2 pr_q3 pr_r3 pr_q4 pr_e].
    rewrite S1, S2, !Z.mul_0_l, !RN_0.
    change (0 - 0) with 0. change (0 + 0) with 0. rewrite !RN_0.
    repeat split; reflexivity || apply Z.le_refl. }
  destruct (Z.eq_dec b 0) as [Eb|Nb].
  { subst b. unfold two_prodZ, prodZ.
    cbn [pr_p pr_q1 pr_r1 pr_q2 pr_r2 pr_q3 pr_r3 pr_q4 pr_e].
    rewrite S1, S2, !Z.mul_0_r, !RN_0.
    change (0 - 0) with 0. change (0 + 0) with 0. rewrite !RN_0.
    repeat split; reflexivity || apply Z.le_refl. }
  clear S1 S2.
  assert (Fa' : fmt (a * 2 ^ 52)) by (apply fmt_scale; [lia|exact Fa]).
  assert (Fb' : fmt (b * 2 ^ 52)) by (apply fmt_scale; [lia|exact Fb]).
  assert (Na' : 2 ^ 52 <= Z.abs (a * 2 ^ 52)).
  { rewrite Z.abs_mul. change (Z.abs (2 ^ 52)) with (2 ^ 52). lia. }
  assert (Nb' : 2 ^ 52 <= Z.abs (b * 2 ^ 52)).
  { rewrite Z.abs_mul. change (Z.abs (2 ^ 52)) with (2 ^ 52). lia. }
  destruct (split_grid_norm _ Fa' Na') as (A1 & A2 & A3 & A4 & A5 & A6 & _).
  destruct (split_grid_norm _ Fb' Nb') as (B1 & B2 & B3 & B4 & B5 & B6 & _).
  pose proof (dekker_core _ _ _ _ _ _ _ _ (cexp_nonneg _) (cexp_nonneg _)
                A1 B1 A2 A3 A4 A5 B2 B3 B4 B5 A6 B6) as D.
  cbv zeta in D. fold (two_prodZ (a * 2 ^ 52) (b * 2 ^ 52)) in D.
  set (G := 2 ^ cexp (a * 2 ^ 52) * 2 ^ cexp (b * 2 ^ 52)) in D.
  assert (PG : 0 < G).
  { unfold G. apply Z.mul_pos_pos; apply pow2_pos, cexp_nonneg. }
  set (W := 2 ^ (52 + 52)).
  assert (PW : 0 < W) by (unfold W; lia).
  assert (T := two_prodZ_scale a b 52 52 ltac:(lia) ltac:(lia)). fold W in T.
  assert (Ep : pr_p (two_prodZ (a * 2 ^ 52) (b * 2 ^ 52))
               = pr_p (two_prodZ a b) * W) by (now rewrite T).
  assert (Eq1 : pr_q1 (two_prodZ (a * 2 ^ 52) (b * 2 ^ 52))
               = pr_q1 (two_prodZ a b) * W) by (now rewrite T).
  assert (Er1 : pr_r1 (two_prodZ (a * 2 ^ 52) (b * 2 ^ 52))
               = pr_r1 (two_prodZ a b) * W) by (now rewrite T).
  assert (Eq2 : pr_q2 (two_prodZ (a * 2 ^ 52) (b * 2 ^ 52))
               = pr_q2 (two_prodZ a b) * W) by (now rewrite T).
  assert (Er2 : pr_r2 (two_prodZ (a * 2 ^ 52) (b * 2 ^ 52))
               = pr_r2 (two_prodZ a b) * W) by (now rewrite T).
  assert (Eq3 : pr_q3 (two_prodZ (a * 2 ^ 52) (b * 2 ^ 52))
               = pr_q3 (two_prodZ a b) * W) by (now rewrite T).
  assert (Er3 : pr_r3 (two_prodZ (a * 2 ^ 52) (b * 2 ^ 52))
               = pr_r3 (two_prodZ a b) * W) by (now rewrite T).
  assert (Eq4 : pr_q4 (two_prodZ (a * 2 ^ 52) (b * 2 ^ 52))
               = pr_q4 (two_prodZ a b) * W) by (now rewrite T).
  assert (Ee : pr_e (two_prodZ (a * 2 ^ 52) (b * 2 ^ 52))
               = pr_e (two_prodZ a b) * W) by (now rewrite T).
  clear T.
  destruct D as (D1 & D2 & D3 & D4 & D5 & D6 & D7 & D8 & D9 & D10).
  rewrite Ee, Ep in D1. rewrite Eq1 in D2. rewrite Ep in D3.
  rewrite Er1 in D4. rewrite Eq2 in D5. rewrite Er2 in D6.
  rewrite Eq3 in D7. rewrite Er3 in D8. rewrite Eq4 in D9. rewrite Ee in D10.
  clear Ep Eq1 Er1 Eq2 Er2 Eq3 Er3 Eq4 Ee.
  split; [reflexivity|].
  split.
  { apply (Z.mul_cancel_r _ _ W); [lia|]. rewrite D1. unfold W.
    change (2 ^ (52 + 52)) with (2 ^ 52 * 2 ^ 52). ring. }
  split.
  { apply (Z.mul_cancel_r _ _ W); [lia|]. rewrite D2.
    assert (Eh : sp_h (splitZ (a * 2 ^ 52)) = sp_h (splitZ a) * 2 ^ 52)
      by (now rewrite splitZ_scale by lia).
    assert (Eh' : sp_h (splitZ (b * 2 ^ 52)) = sp_h (splitZ b) * 2 ^ 52)
      by (now rewrite splitZ_scale by lia).
    rewrite Eh, Eh'. unfold W.
    change (2 ^ (52 + 52)) with (2 ^ 52 * 2 ^ 52). ring. }
  split; [apply (abs_scale_le _ _ W PW); clear - D3 D4 PG; lia|].
  split; [apply (abs_scale_le _ _ W PW); clear - D3 D5 PG; lia|].
  split; [apply (abs_scale_le _ _ W PW); clear - D3 D6 PG; lia|].
  split; [apply (abs_scale_le _ _ W PW); clear - D3 D7 PG; lia|].
  split; [apply (abs_scale_le _ _ W PW); clear - D3 D8 PG; lia|].
  split; [apply (abs_scale_le _ _ W PW); clear - D3 D9 PG; lia|].
  apply (abs_scale_le _ _ W PW); clear - D3 D10 PG; lia.
Qed.

End ProductGrid.

(** ** The fused multiply-add *)

Section Fma.

Lemma binary_normalize_gen M e :
  binary_normalize 53 1024 M e false =
  if M =? 0 then S754_zero false
  else SFofZ (M <? 0) (rndE (Z.abs M) (e + 1074)).
Proof.
  destruct M as [|p|p]; [reflexivity| |];
    unfold binary_normalize; rewrite binary_round_spec; reflexivity.
Qed.

(** The double of sign and magnitude given by the rounding of
    [z / 2^1074], [z <> 0]. *)
Lemma SFofZ_RNdiv z :
  z <> 0 ->
  let r := SFofZ (z <? 0) (rndE (Z.abs z) (-1074)) in
  valid r /\
  (is_finite r = true <-> Z.abs (RNdiv z 1074) < OVF) /\
  (is_finite r = true -> Zval r = RNdiv z 1074).
Proof.
  intros NZ r.
  destruct (rndE_fmt (Z.abs z) (-1074) ltac:(lia)) as [F P].
  destruct (SFofZ_props (z <? 0) _ P F) as (V & Fi & Zv). fold r in V, Fi, Zv.
  assert (Sg : cond_Zopp (z <? 0) (rndE (Z.abs z) (-1074)) = RNdiv z 1074).
  { unfold RNdiv. change (- (1074)) with (-1074).
    destruct (Z.ltb_spec z 0); cbn [cond_Zopp].
    - rewrite Z.sgn_neg by lia. ring.
    - rewrite Z.sgn_pos by lia. ring. }
  split; [exact V|]. split.
  - rewrite Fi, <- Sg. rewrite cond_Zopp_abs by exact P. reflexivity.
  - intros H. rewrite (Zv H). exact Sg.
Qed.

Lemma ffma_zero_addend x y sz :
  valid x -> valid y ->
  (exists sx mx ex, x = S754_finite sx mx ex) ->
  (exists sy my ey, y = S754_finite sy my ey) ->
  ffma x y (S754_zero sz) = fmul x y.
Proof.
  intros Vx Vy (sx & mx & ex & ->) (sy & my & ey & ->).
  rewrite fmul_finite_finite by assumption.
  cbn [ffma]. rewrite binary_round_spec. f_equal.
  apply valid_finite_iff in Vx, Vy.
  rewrite !Zval_finite, Z.abs_mul.
  pose proof (pow2_pos (ex + 1074) ltac:(lia)).
  pose proof (pow2_pos (ey + 1074) ltac:(lia)).
  rewrite !cond_Zopp_abs by nia.
  replace (Zpos mx * 2 ^ (ex + 1074) * (Zpos my * 2 ^ (ey + 1074)))
    with (Zpos (mx * my) * 2 ^ (ex + 1074 + (ey + 1074)))
    by (rewrite Pos2Z.inj_mul, Z.pow_add_r by lia; ring).
  replace (-1074) with (ex + ey + 1074 - (ex + 1074 + (ey + 1074))) by lia.
  rewrite rndE_scale by lia. reflexivity.
Qed.

Lemma ffma_finite3 sx mx ex sy my ey sz mz ez :
  valid (S754_finite sx mx ex) -> valid (S754_finite sy my ey) ->
  valid (S754_finite sz mz ez) ->
  let T := Zval (S754_finite sx mx ex) * Zval (S754_finite sy my ey)
           + Zval (S754_finite sz mz ez) * 2 ^ 1074 in
  ffma (S754_finite sx mx ex) (S754_finite sy my ey) (S754_finite sz mz ez) =
  if T =? 0 then S754_zero false
  else SFofZ (T <? 0) (rndE (Z.abs T) (-1074)).
Proof.
  intros Vx Vy Vz T. apply valid_finite_iff in Vx, Vy, Vz.
  cbn [ffma]. cbv zeta. set (e := Z.min (ex + ey) ez).
  rewrite binary_normalize_gen.
  rewrite !shl_align_fst by (unfold e; lia).
  set (M := cond_Zopp (xorb sx sy) (Zpos (mx * my) * 2 ^ (ex + ey - e))
            + cond_Zopp sz (Zpos mz * 2 ^ (ez - e))).
  assert (He : 0 <= e + 2148) by (unfold e; lia).
  pose proof (pow2_pos _ He) as Pe.
  assert (ET : T = M * 2 ^ (e + 2148)).
  { unfold T, M. cbn [Zval].
    replace (2 ^ (ex + 1074) * 1) with (2 ^ (ex + 1074)) by ring.
    assert (P1 : 2 ^ (ex + 1074) * 2 ^ (ey + 1074)
                 = 2 ^ (ex + ey - e) * 2 ^ (e + 2148)).
    { rewrite <- !Z.pow_add_r by (unfold e; lia). f_equal. lia. }
    assert (P2 : 2 ^ (ez + 1074) * 2 ^ 1074 = 2 ^ (ez - e) * 2 ^ (e + 2148)).
    { rewrite <- !Z.pow_add_r by (unfold e; lia). f_equal. lia. }
    rewrite Pos2Z.inj_mul.
    destruct sx, sy, sz; cbn [xorb cond_Zopp]; ring [P1 P2]. }
  assert (Z0 : (M =? 0) = (T =? 0)).
  { destruct (Z.eqb_spec M 0), (Z.eqb_spec T 0); try reflexivity; nia. }
  assert (S0 : (M <? 0) = (T <? 0)).
  { destruct (Z.ltb_spec M 0), (Z.ltb_spec T 0); try reflexivity; nia. }
  rewrite Z0, S0. destruct (Z.eqb_spec T 0) as [E0|N0]; [reflexivity|].
  f_equal. rewrite ET, Z.abs_mul, (Z.abs_eq (2 ^ (e + 2148))) by lia.
  replace (-1074) with (e + 1074 - (e + 2148)) by lia.
  rewrite rndE_scale by nia. reflexivity.
Qed.

Lemma ffma_valid x y z : valid x -> valid y -> valid z -> valid (ffma x y z).
Proof.
  intros Vx Vy Vz.
  destruct x as [sx|sx| |sx mx ex] eqn:Ex, y as [sy|sy| |sy my ey] eqn:Ey;
    try reflexivity;
    try (destruct z as [sz|sz| |sz mz ez]; cbn [ffma]; try reflexivity;
         try assumption;
         destruct (Bool.eqb (xorb sx sy) sz); reflexivity).
  destruct z as [sz|sz| |sz mz ez] eqn:Ez; try reflexivity.
  - rewrite ffma_zero_addend; eauto. now apply fmul_valid.
  - rewrite ffma_finite3 by assumption. cbv zeta.
    match goal with |- context [?T =? 0] => destruct (Z.eqb_spec T 0) as [E0|N0] end;
      [reflexivity|].
    now apply SFofZ_RNdiv.
Qed.

Theorem ffma_spec x y z :
  valid x -> valid y -> valid z ->
  is_finite x = true -> is_finite y = true -> is_finite z = true ->
  let T := Zval x * Zval y + Zval z * 2 ^ 1074 in
  (is_finite (ffma x y z) = true <-> Z.abs (RNdiv T 1074) < OVF) /\
  (is_finite (ffma x y z) = true -> Zval (ffma x y z) = RNdiv T 1074).
Proof.
  intros Vx Vy Vz Fx Fy Fz T.
  assert (Zc : Zval x * Zval y = 0 ->
               (is_finite z = true /\ ffma x y z = z \/
                exists s, ffma x y z = S754_zero s /\ Zval z = 0) ->
    (is_finite (ffma x y z) = true <-> Z.abs (RNdiv T 1074) < OVF) /\
    (is_finite (ffma x y z) = true -> Zval (ffma x y z) = RNdiv T 1074)).
  { intros P0 H. unfold T. rewrite P0, Z.add_0_l, RNdiv_exact by lia.
    rewrite (RN_id _ (Zval_fmt z Vz)).
    pose proof (Zval_lt_OVF z Vz).
    destruct H as [[_ ->]|(s & -> & Z0)].
    - tauto.
    - rewrite Z0. cbn [is_finite Zval].
      split; [split; reflexivity|reflexivity]. }
  destruct x as [sx|sx| |sx mx ex] eqn:Ex, y as [sy|sy| |sy my ey] eqn:Ey;
    try discriminate.
  - apply Zc; [reflexivity|].
    destruct z as [sz|sz| |]; try discriminate; cbn [ffma]; auto.
    right. destruct (Bool.eqb (xorb sx sy) sz); eexists; split; reflexivity.
  - apply Zc; [reflexivity|].
    destruct z as [sz|sz| |]; try discriminate; cbn [ffma]; auto.
    right. destruct (Bool.eqb (xorb sx sy) sz); eexists; split; reflexivity.
  - apply Zc; [cbn [Zval]; ring|].
    destruct z as [sz|sz| |]; try discriminate; cbn [ffma]; auto.
    right. destruct (Bool.eqb (xorb sx sy) sz); eexists; split; reflexivity.
  - destruct z as [sz|sz| |sz mz ez] eqn:Ez; try discriminate.
    + rewrite ffma_zero_addend by eauto.
      unfold T. change (Zval (S754_zero sz)) with 0.
      rewrite Z.mul_0_l, Z.add_0_r. now apply fmul_spec.
    + rewrite ffma_finite3 by assumption. cbv zeta. fold T.
      destruct (Z.eqb_spec T 0) as [E0|N0].
      * rewrite E0, RNdiv_0. cbn [is_finite Zval]. unfold OVF.
        split; [split; [lia|reflexivity]|reflexivity].
      * destruct (SFofZ_RNdiv T N0) as (_ & Fi & Zv). split; assumption.
Qed.

End Fma.

(** * The claims of the specification *)

Import Inputs.

(** ** Signed zeros *)

Section Zeros.

Lemma fadd_pzero_r x : x <> nzero -> fadd x pzero = x.
Proof. destruct x as [[]|[]| |s m e]; intros N; try reflexivity. now elim N. Qed.

Lemma fadd_pzero_l x : x <> nzero -> fadd pzero x = x.
Proof. destruct x as [[]|[]| |s m e]; intros N; try reflexivity. now elim N. Qed.

Lemma fsub_pzero_r x : fsub x pzero = x.
Proof. destruct x as [[]|[]| |s m e]; reflexivity. Qed.

Lemma fadd_zero_not_neg x y :
  y <> nzero -> fadd (fadd x pzero) y = fadd x y.
Proof.
  intros N. destruct x as [[]|[]| |sx mx ex]; try reflexivity.
  destruct y as [[]|[]| |s m e]; try reflexivity. now elim N.
Qed.

Lemma fsub_zero_value x y :
  valid x -> valid y -> is_finite x = true -> is_finite y = true ->
  Zval x = Zval y -> x <> nzero -> fsub x y = pzero.
Proof.
  intros Vx Vy Fx Fy E N.
  assert (F : is_finite (fsub x y) = true).
  { apply fsub_finite_iff; auto. rewrite E, Z.sub_diag, RN_0. reflexivity. }
  assert (Z0 : Zval (fsub x y) = 0).
  { rewrite fsub_Zval by auto. now rewrite E, Z.sub_diag. }
  apply Zval_inj; auto.
  - now apply fsub_valid.
  - reflexivity.
  - intros H. apply fsub_neg_zero in H; auto. now destruct H.
  - discriminate.
Qed.

End Zeros.

(** ** Sums: [two_sum], [quick_two_sum], [dd_add], [dd_add_d] *)

Section SumClaims.

Lemma exact_sum_pair_intro a b r :
  is_finite (hi r) = true -> is_finite (lo r) = true ->
  Zval (hi r) = RN (Zval a + Zval b) ->
  Zval (lo r) = Zval a + Zval b - RN (Zval a + Zval b) ->
  exact_sum_pair a b r.
Proof. intros H1 H2 H3 H4. repeat split; auto. rewrite H3, H4. ring. Qed.

(** Without the ordering of the operands the residual of
    [quick_two_sum] is still finite when [s - a] is. *)
Lemma quick_two_sum_finite a b :
  valid a -> valid b -> is_finite a = true -> is_finite b = true ->
  is_finite (fadd a b) = true ->
  is_finite (fsub (fadd a b) a) = true ->
  is_finite (lo (Benchmark.quick_two_sum a b)) = true.
Proof.
  intros Va Vb Fa Fb Fs Ft. unfold Benchmark.quick_two_sum. cbn [lo].
  set (s := fadd a b) in *. set (t := fsub s a) in *.
  assert (Vs : valid s) by (now apply fadd_valid).
  assert (Zs : Zval s = RN (Zval a + Zval b)) by (now apply fadd_Zval).
  assert (Vt : valid t) by (now apply fsub_valid).
  assert (Zt : Zval t = RN (Zval s - Zval a)) by (now apply fsub_Zval).
  apply fsub_finite_iff; auto.
  pose proof (Zval_lt_OVF s Vs) as Ls. rewrite Zs in Ls.
  pose proof (RN_finite_cexp _ Ls) as C.
  pose proof (RN_error (Zval a + Zval b)) as E.
  assert (P : 2 ^ cexp (Zval a + Zval b) <= 2 ^ 2045) by (now apply pow2_le).
  pose proof (RN_nearest (Zval s - Zval a) (Zval b) (Zval_fmt b Vb)) as N.
  rewrite <- Zt in N. rewrite <- Zs in E.
  assert (B : Z.abs (Zval b - Zval t) < 2 ^ 2046).
  { change (2 ^ 2046) with (2 * 2 ^ 2045). lia. }
  pose proof (RN_lt_pow2 _ 2046 ltac:(lia) B) as R.
  unfold OVF. eapply Z.le_lt_trans; [exact R|]. reflexivity.
Qed.


End SumClaims.

(** C1, as the specification states it, fails: with [a = -3 * 2^970] and
    [b = DBL_MAX] the sum [a + b] is finite, but [s - a] overflows and the
    residual of [two_sum] is NaN. *)
Lemma C1_two_sum_overflow :
  valid m3p970 /\ valid dbl_max /\
  is_finite m3p970 = true /\ is_finite dbl_max = true /\
  is_finite (fadd m3p970 dbl_max) = true /\
  Benchmark.two_sum m3p970 dbl_max =
    mk_dd (S754_finite false 9007199254740990 971) S754_nan /\
  ~ exact_sum_pair m3p970 dbl_max (Benchmark.two_sum m3p970 dbl_max).
Proof.
  repeat split; try reflexivity.
  intros (_ & H & _). vm_compute in H. discriminate H.
Qed.

(** C1 (amended): for finite doubles [a], [b] such that neither [a + b]
    nor the intermediate difference [s - a] overflows, [two_sum a b]
    returns [(s, e)] with [s] the correctly rounded sum and [s + e] equal
    to [a + b] exactly; both sources compute the same pair. *)
Theorem C1_two_sum_exact a b :
  valid a -> valid b -> is_finite a = true -> is_finite b = true ->
  is_finite (fadd a b) = true ->
  is_finite (fsub (fadd a b) a) = true ->
  exact_sum_pair a b (Benchmark.two_sum a b) /\
  exact_sum_pair a b (Bitcompare.two_sum a b).
Proof.
  intros Va Vb Fa Fb Fs Fv.
  destruct (two_sum_sound a b Va Vb Fa Fb Fs Fv) as (_ & _ & F & Zh & Zl).
  assert (E : exact_sum_pair a b (Benchmark.two_sum a b))
    by (apply exact_sum_pair_intro; auto).
  split; [exact E|]. rewrite two_sum_same. exact E.
Qed.

Lemma C1_two_sum_exact_witness :
  valid one /\ valid eps16 /\
  exact_sum_pair one eps16 (Benchmark.two_sum one eps16) /\
  exact_sum_pair one eps16 (Bitcompare.two_sum one eps16).
Proof.
  split; [reflexivity|]. split; [reflexivity|].
  apply (C1_two_sum_exact one eps16); reflexivity.
Defined.




(** C7, as stated, fails in its second half: [a = -3 * 2^970] and
    [b = DBL_MAX] are finite, violate [|a| >= |b|], have a finite sum,
    and the residual returned by [quick_two_sum] is [-infinity]. *)
Lemma C7_quick_two_sum_infinite :
  is_finite m3p970 = true /\ is_finite dbl_max = true /\
  Z.abs (Zval m3p970) < Z.abs (Zval dbl_max) /\
  is_finite (fadd m3p970 dbl_max) = true /\
  Benchmark.quick_two_sum m3p970 dbl_max =
    mk_dd (S754_finite false 9007199254740990 971) (S754_infinity true).
Proof. repeat split; reflexivity. Qed.

(** C7 (amended): for finite [a], [b] with [a + b] not overflowing,
    [quick_two_sum a b] is the exact sum pair when [|a| >= |b|]; without
    that ordering its two results are still finite provided [s - a] does
    not overflow.  The same holds in both sources. *)
Theorem C7_quick_two_sum_contract a b :
  valid a -> valid b -> is_finite a = true -> is_finite b = true ->
  is_finite (fadd a b) = true ->
  (Z.abs (Zval b) <= Z.abs (Zval a) ->
   exact_sum_pair a b (Benchmark.quick_two_sum a b) /\
   exact_sum_pair a b (Bitcompare.quick_two_sum a b)) /\
  (is_finite (fsub (fadd a b) a) = true ->
   is_finite (hi (Benchmark.quick_two_sum a b)) = true /\
   is_finite (lo (Benchmark.quick_two_sum a b)) = true).
Proof.
  intros Va Vb Fa Fb Fs. split.
  - intros H.
    destruct (quick_two_sum_sound a b Va Vb Fa Fb H Fs) as (_ & _ & F & Zh & Zl).
    assert (E : exact_sum_pair a b (Benchmark.quick_two_sum a b))
      by (apply exact_sum_pair_intro; auto).
    split; [exact E|]. rewrite quick_two_sum_same. exact E.
  - intros Ft. split; [exact Fs|]. now apply quick_two_sum_finite.
Qed.

Lemma C7_quick_two_sum_contract_witness :
  valid one /\ valid eps16 /\
  Z.abs (Zval eps16) <= Z.abs (Zval one) /\
  exact_sum_pair one eps16 (Benchmark.quick_two_sum one eps16) /\
  is_finite (lo (Benchmark.quick_two_sum eps16 one)) = true.
Proof.
  split; [reflexivity|]. split; [reflexivity|].
  split; [vm_compute; discriminate|].
  split.
  - apply (C7_quick_two_sum_contract one eps16); try reflexivity.
    vm_compute; discriminate.
  - apply (C7_quick_two_sum_contract eps16 one); reflexivity.
Defined.

(** C8: [dd_add_d A b] is [dd_add A (dd_from_double b)], for all doubles,
    finite or not.  The extra addition [A.lo + 0.0] of [dd_add] can only
    turn [-0] into [+0], and the residual of [two_sum] that is added next
    is never [-0]. *)
Theorem C8_add_scalar_agrees A b :
  valid (hi A) -> valid b ->
  Benchmark.dd_add_d A b = Benchmark.dd_add A (Benchmark.dd_from_double b).
Proof.
  intros VA Vb. unfold Benchmark.dd_add_d, Benchmark.dd_add.
  unfold Benchmark.dd_from_double. cbn [hi lo].
  fold pzero. rewrite fadd_zero_not_neg; [reflexivity|].
  now apply two_sum_lo_not_neg_zero.
Qed.

Lemma C8_add_scalar_agrees_witness :
  valid one /\ valid eps16 /\
  Benchmark.dd_add_d (mk_dd one nzero) eps16 =
  Benchmark.dd_add (mk_dd one nzero) (Benchmark.dd_from_double eps16).
Proof.
  split; [reflexivity|]. split; [reflexivity|].
  apply (C8_add_scalar_agrees (mk_dd one nzero) eps16); reflexivity.
Defined.

Section EmbeddedSum.

(** [dd_add] of two embedded scalars renormalizes the pair of [two_sum],
    which is already normalized. *)
Lemma dd_add_embedded a b :
  valid a -> valid b -> is_finite a = true -> is_finite b = true ->
  is_finite (fadd a b) = true ->
  is_finite (fsub (fadd a b) a) = true ->
  let t := Benchmark.two_sum a b in
  let r := Benchmark.dd_add (Benchmark.dd_from_double a)
                            (Benchmark.dd_from_double b) in
  valid (hi r) /\ is_finite (hi r) = true /\ Zval (hi r) = Zval (hi t) /\
  hi r <> nzero /\ lo r = lo t.
Proof.
  intros Va Vb Fa Fb Fs Fv t r.
  destruct (two_sum_sound a b Va Vb Fa Fb Fs Fv) as (Vs & Ve & Fe & Zs & Ze).
  fold t in Vs, Ve, Fe, Zs, Ze.
  pose proof (two_sum_lo_not_neg_zero a b Va Vb) as Ne. fold t in Ne.
  assert (Fh : is_finite (hi t) = true) by exact Fs.
  assert (Er : r = Benchmark.quick_two_sum (hi t) (lo t)).
  { unfold r, Benchmark.dd_add, Benchmark.dd_from_double. cbn [hi lo].
    fold t. change (fadd (S754_zero false) (S754_zero false)) with pzero.
    now rewrite fadd_pzero_l. }
  rewrite Er. unfold Benchmark.quick_two_sum. cbn [hi lo].
  assert (Zr : RN (Zval (hi t) + Zval (lo t)) = Zval (hi t)).
  { rewrite Zs, Ze.
    replace (RN (Zval a + Zval b) + (Zval a + Zval b - RN (Zval a + Zval b)))
      with (Zval a + Zval b) by ring.
    reflexivity. }
  pose proof (Zval_lt_OVF _ Vs) as Ls.
  destruct (fadd_step _ _ Vs Ve Fh Fe ltac:(rewrite Zr; exact Ls))
    as (Vh & Fh' & Zh).
  rewrite Zr in Zh.
  assert (Nh : fadd (hi t) (lo t) <> nzero).
  { intros H. apply fadd_neg_zero in H; auto. now destruct H. }
  split; [exact Vh|]. split; [exact Fh'|]. split; [exact Zh|].
  split; [exact Nh|].
  rewrite (fsub_zero_value _ _ Vh Vs Fh' Fh Zh Nh). apply fsub_pzero_r.
Qed.

End EmbeddedSum.

(** C10, as stated, fails twice: when [s - a] overflows inside [two_sum]
    the sum of the embedded scalars is [(NaN, NaN)], and for
    [a = b = -0] it is [(+0, +0)] while [two_sum] returns [(-0, +0)]. *)
Lemma C10_embedded_sum_differs :
  is_finite (fadd m3p970 dbl_max) = true /\
  Benchmark.dd_add (Benchmark.dd_from_double m3p970)
                   (Benchmark.dd_from_double dbl_max) =
    mk_dd S754_nan S754_nan /\
  Benchmark.two_sum m3p970 dbl_max =
    mk_dd (S754_finite false 9007199254740990 971) S754_nan /\
  Benchmark.dd_add (Benchmark.dd_from_double nzero)
                   (Benchmark.dd_from_double nzero) = mk_dd pzero pzero /\
  Benchmark.two_sum nzero nzero = mk_dd nzero pzero.
Proof. repeat split; reflexivity. Qed.

(** C10 (amended): for finite [a], [b] such that neither [a + b] nor the
    difference [s - a] inside [two_sum] overflows, the sum of the two
    embedded scalars has the residual of [two_sum a b] as its low part
    and a high part of the same value; it is the very pair of [two_sum]
    unless that pair has high part [-0]; and its [hi + lo] is [a + b]
    exactly. *)
Theorem C10_embedded_sum_exact a b :
  valid a -> valid b -> is_finite a = true -> is_finite b = true ->
  is_finite (fadd a b) = true ->
  is_finite (fsub (fadd a b) a) = true ->
  let r := Benchmark.dd_add (Benchmark.dd_from_double a)
                            (Benchmark.dd_from_double b) in
  (hi (Benchmark.two_sum a b) <> nzero -> r = Benchmark.two_sum a b) /\
  lo r = lo (Benchmark.two_sum a b) /\
  exact_sum_pair a b r.
Proof.
  intros Va Vb Fa Fb Fs Fv r.
  destruct (dd_add_embedded a b Va Vb Fa Fb Fs Fv) as (Vh & Fh & Zh & Nh & El).
  fold r in Vh, Fh, Zh, Nh, El.
  destruct (two_sum_sound a b Va Vb Fa Fb Fs Fv) as (Vs & Ve & Fe & Zs & Ze).
  split; [|split; [exact El|]].
  - intros Ns.
    assert (Eh : hi r = hi (Benchmark.two_sum a b))
      by (apply Zval_inj; auto).
    destruct r as [rh rl]. cbn [hi lo] in *.
    unfold Benchmark.two_sum in *. cbn [hi lo] in *. now rewrite Eh, El.
  - apply exact_sum_pair_intro; auto.
    + now rewrite El.
    + now rewrite Zh.
    + now rewrite El.
Qed.

Lemma C10_embedded_sum_exact_witness :
  valid one /\ valid eps16 /\
  Benchmark.dd_add (Benchmark.dd_from_double one)
                   (Benchmark.dd_from_double eps16) =
  Benchmark.two_sum one eps16.
Proof.
  split; [reflexivity|]. split; [reflexivity|].
  apply (C10_embedded_sum_exact one eps16); try reflexivity.
  vm_compute. discriminate.
Defined.

(** C5, as stated, fails at negative zero: [-0.0 + 0.0] is [+0.0]. *)
Lemma C5_round_trip_neg_zero :
  is_finite nzero = true /\
  Benchmark.dd_to_double (Benchmark.dd_from_double nzero) = pzero /\
  Benchmark.dd_to_double (Benchmark.dd_from_double nzero) <> nzero.
Proof. repeat split; try reflexivity. discriminate. Qed.

(** C5 (amended): [dd_to_double (dd_from_double x)] is [x] itself for
    every finite double [x] other than [-0]; for every finite [x] it is a
    finite double of the same value ([-0] comes back as [+0]). *)
Theorem C5_round_trip x :
  is_finite x = true ->
  (x <> nzero -> Benchmark.dd_to_double (Benchmark.dd_from_double x) = x) /\
  is_finite (Benchmark.dd_to_double (Benchmark.dd_from_double x)) = true /\
  Zval (Benchmark.dd_to_double (Benchmark.dd_from_double x)) = Zval x.
Proof.
  intros F. unfold Benchmark.dd_to_double, Benchmark.dd_from_double.
  cbn [hi lo]. destruct x as [[]|[]| |s m e]; try discriminate;
    repeat split; try reflexivity; intros N; now elim N.
Qed.

Lemma C5_round_trip_witness :
  is_finite eps16 = true /\
  Benchmark.dd_to_double (Benchmark.dd_from_double eps16) = eps16.
Proof.
  split; [reflexivity|].
  apply (C5_round_trip eps16); [reflexivity|discriminate].
Defined.

(** C9: [eps16] is the double nearest to [1e-16] (its distance to
    [10^-16] is at most half of its last place, [2^-107]); adding it to
    [1.0] in double-double and then adding [-1.0] gives back exactly
    [eps16] through [dd_to_double], while the plain double computation
    [(1.0 + 1e-16) - 1.0] is [+0.0]. *)
Theorem C9_cancellation_preserved :
  2 * Z.abs (8112963841460668 * 10 ^ 16 - 2 ^ 106) <= 10 ^ 16 /\
  Benchmark.dd_to_double
    (Benchmark.dd_add_d
       (Benchmark.dd_add (Benchmark.dd_from_double one)
                         (Benchmark.dd_from_double eps16))
       (fneg one)) = eps16 /\
  fsub (fadd one eps16) one = pzero.
Proof.
  split; [vm_compute; discriminate|]. split; reflexivity.
Qed.

(** ** Well-formed results *)

Section Validity.

Lemma quick_two_sum_valid x y :
  valid x -> valid y -> dd_valid (Benchmark.quick_two_sum x y).
Proof.
  intros Vx Vy. unfold Benchmark.quick_two_sum. split; cbn [hi lo].
  - now apply fadd_valid.
  - apply fsub_valid; [exact Vy|]. apply fsub_valid; [|exact Vx].
    now apply fadd_valid.
Qed.

Lemma two_sum_valid a b :
  valid a -> valid b -> dd_valid (Benchmark.two_sum a b).
Proof.
  intros Va Vb. unfold Benchmark.two_sum. split; cbn [hi lo].
  - now apply fadd_valid.
  - repeat first [assumption | apply fadd_valid | apply fsub_valid].
Qed.

Lemma dd_add_valid A B :
  dd_valid A -> dd_valid B -> dd_valid (Benchmark.dd_add A B).
Proof.
  intros [VA1 VA2] [VB1 VB2]. unfold Benchmark.dd_add.
  destruct (two_sum_valid (hi A) (hi B) VA1 VB1) as [V1 V2].
  apply quick_two_sum_valid; [exact V1|].
  repeat first [assumption | apply fadd_valid].
Qed.

Lemma SPLIT_CONST_valid : valid Benchmark.SPLIT_CONST.
Proof. reflexivity. Qed.

Lemma split_double_valid a :
  valid a ->
  valid (fst (Benchmark.split_double a)) /\
  valid (snd (Benchmark.split_double a)).
Proof.
  intros Va. unfold Benchmark.split_double. cbn [fst snd].
  pose proof SPLIT_CONST_valid.
  split; repeat first [assumption | apply fsub_valid | apply fmul_valid].
Qed.

Lemma two_prod_valid a b :
  valid a -> valid b -> dd_valid (Benchmark.two_prod a b).
Proof.
  intros Va Vb. unfold Benchmark.two_prod.
  destruct (split_double_valid a Va) as [Va1 Va2].
  destruct (split_double_valid b Vb) as [Vb1 Vb2].
  destruct (Benchmark.split_double a) as [a_hi a_lo].
  destruct (Benchmark.split_double b) as [b_hi b_lo].
  cbn [fst snd] in *. split; cbn [hi lo];
    repeat first [assumption | apply fadd_valid | apply fsub_valid
                 | apply fmul_valid].
Qed.

Lemma two_prod_fma_valid a b :
  valid a -> valid b -> dd_valid (Bitcompare.two_prod a b).
Proof.
  intros Va Vb. unfold Bitcompare.two_prod. split; cbn [hi lo].
  - now apply fmul_valid.
  - apply ffma_valid; auto. apply valid_fneg. now apply fmul_valid.
Qed.

End Validity.

(** ** Products: [two_prod] *)

Section ProductSound.

Import GridProd.

Lemma Zval_SPLIT_CONST : Zval Benchmark.SPLIT_CONST = C * 2 ^ 1074.
Proof. vm_compute. reflexivity. Qed.

Lemma fmul_finite_Zval x y t :
  valid x -> valid y -> is_finite x = true -> is_finite y = true ->
  Zval x * Zval y = t * 2 ^ 1074 ->
  is_finite (fmul x y) = true ->
  Zval (fmul x y) = RN t /\ Z.abs (RN t) < OVF.
Proof.
  intros Vx Vy Fx Fy E F.
  destruct (fmul_spec x y Vx Vy Fx Fy) as [Fi Zv].
  rewrite E, RNdiv_exact in Fi, Zv by lia.
  split; [now apply Zv|now apply Fi].
Qed.

(** The double-level split computes the grid-level split. *)
Lemma split_double_sound a :
  valid a -> is_finite a = true ->
  is_finite (fmul Benchmark.SPLIT_CONST a) = true ->
  valid (fst (Benchmark.split_double a)) /\
  valid (snd (Benchmark.split_double a)) /\
  is_finite (fst (Benchmark.split_double a)) = true /\
  is_finite (snd (Benchmark.split_double a)) = true /\
  Zval (fst (Benchmark.split_double a)) = sp_h (splitZ (Zval a)) /\
  Zval (snd (Benchmark.split_double a)) = sp_l (splitZ (Zval a)).
Proof.
  intros Va Fa Ft.
  destruct (split_grid (Zval a) (Zval_fmt a Va)) as (_ & Bd & Bh & Bl & _).
  pose proof (Zval_lt_OVF a Va) as Ba.
  unfold splitZ in Bd, Bh, Bl |- *. cbn [sp_g sp_d sp_h sp_l] in Bd, Bh, Bl |- *.
  unfold Benchmark.split_double. cbn [fst snd].
  set (temp := fmul Benchmark.SPLIT_CONST a) in *.
  assert (Vt : valid temp) by (apply fmul_valid; [reflexivity|exact Va]).
  destruct (fmul_finite_Zval Benchmark.SPLIT_CONST a (C * Zval a)
              SPLIT_CONST_valid Va eq_refl Fa) as [Zt Bt].
  { rewrite Zval_SPLIT_CONST. ring. }
  { exact Ft. }
  fold temp in Zt. rewrite <- Zt in Bd, Bh, Bl, Bt |- *.
  destruct (fsub_step temp a Vt Va Ft Fa) as (Vd & Fd & Zd); [lia|].
  rewrite <- Zd in Bh, Bl |- *.
  destruct (fsub_step temp (fsub temp a) Vt Vd Ft Fd) as (Vh & Fh & Zh); [lia|].
  rewrite <- Zh in Bl |- *.
  destruct (fsub_step a (fsub temp (fsub temp a)) Va Vh Fa Fh)
    as (Vl & Fl & Zl); [lia|].
  repeat split; assumption.
Qed.

Lemma fmul_sign x y s :
  valid x -> valid y -> is_finite x = true -> is_finite y = true ->
  fmul x y = S754_zero s -> s = xorb (sign x) (sign y).
Proof.
  intros Vx Vy Fx Fy.
  destruct x as [sx|sx| |sx mx ex], y as [sy|sy| |sy my ey]; try discriminate;
    try (cbn; intros H; injection H as <-; reflexivity).
  rewrite fmul_finite_finite by assumption. cbn [sign].
  unfold SFofZ.
  destruct (rndE _ _) as [|q|q]; try discriminate.
  - intros H; injection H as <-; reflexivity.
  - cbv zeta. destruct (_ <=? _); discriminate.
  - intros H; injection H as <-; reflexivity.
Qed.

Lemma sign_Zval x y :
  valid x -> valid y -> is_finite x = true -> is_finite y = true ->
  Zval x <> 0 -> Z.sgn (Zval x) = Z.sgn (Zval y) -> sign x = sign y.
Proof.
  intros Vx Vy Fx Fy N E.
  destruct x as [sx|sx| |sx mx ex]; try discriminate; [now elim N|].
  destruct y as [sy|sy| |sy my ey]; try discriminate.
  - exfalso. change (Zval (S754_zero sy)) with 0 in E.
    change (Z.sgn 0) with 0 in E.
    apply (proj1 (Z.sgn_null_iff _)) in E. exact (N E).
  - apply valid_finite_iff in Vx, Vy. cbn [sign].
    rewrite <- (Zval_sign sx mx ex), <- (Zval_sign sy my ey) by lia.
    destruct (Z.ltb_spec (Zval (S754_finite sx mx ex)) 0),
             (Z.ltb_spec (Zval (S754_finite sy my ey)) 0); try reflexivity; lia.
Qed.

(** The high half has the sign of the operand, also for the zeros. *)
Lemma split_double_sign a :
  valid a -> is_finite a = true ->
  is_finite (fmul Benchmark.SPLIT_CONST a) = true ->
  sign (fst (Benchmark.split_double a)) = sign a.
Proof.
  intros Va Fa Ft.
  destruct (Z.eq_dec (Zval a) 0) as [Z0|NZ].
  - destruct a as [[]|[]| |s m e]; try discriminate; try reflexivity.
    exfalso. revert Z0. apply Zval_nonzero.
    apply valid_finite_iff in Va. lia.
  - destruct (split_double_sound a Va Fa Ft) as (Vh & _ & Fh & _ & Zh & _).
    destruct (split_grid (Zval a) (Zval_fmt a Va)) as (_ & _ & _ & _ & Sg).
    rewrite <- Zh in Sg. symmetry.
    apply sign_Zval; auto.
Qed.


Lemma prod_unscale x y :
  fmt x -> fmt y -> (2 ^ 1074 | x * y) ->
  exists i j a b,
    0 <= i /\ 0 <= j /\ i + j = 1074 /\
    x = a * 2 ^ i /\ y = b * 2 ^ j /\ fmt a /\ fmt b.
Proof.
  intros Fx Fy D.
  destruct (pow2_divide_mul 1074 x y ltac:(lia) D)
    as (i & j & Hi & Hj & Hij & [a Ea] & [b Eb]).
  exists i, j, a, b. repeat split; try assumption.
  - apply (fmt_unscale a i Hi). now rewrite <- Ea.
  - apply (fmt_unscale b j Hj). now rewrite <- Eb.
Qed.

(** The residual of a product that fits the grid is a double. *)
Lemma prod_error_fmt a b :
  fmt a -> fmt b ->
  fmt (a * b - RN (a * b)) /\
  Z.abs (a * b - RN (a * b)) <= Z.abs (RN (a * b)).
Proof.
  intros Fa Fb.
  destruct (two_prod_grid a b Fa Fb) as (Gp & Ge & _ & _ & _ & _ & _ & _ & _ & G).
  rewrite Ge, Gp in G. split; [|exact G].
  rewrite <- Gp, <- Ge. unfold two_prodZ, prodZ. cbn [pr_e]. apply RN_fmt.
Qed.

(** The split-based product of the benchmark, when the product fits the
    grid and neither the splits nor the first partial product overflow. *)
Theorem two_prod_split_sound a b :
  valid a -> valid b -> is_finite a = true -> is_finite b = true ->
  is_finite (fmul a b) = true ->
  (2 ^ 1074 | Zval a * Zval b) ->
  split_safe a b ->
  exact_prod_pair a b (Benchmark.two_prod a b) /\
  lo (Benchmark.two_prod a b) <> S754_zero true.
Proof.
  intros Va Vb Fa Fb Fp D (Sa & Sb & Fq1).
  destruct (prod_unscale _ _ (Zval_fmt a Va) (Zval_fmt b Vb) D)
    as (i & j & a' & b' & Hi & Hj & Hij & Ea & Eb & Fa' & Fb').
  destruct (split_double_sound a Va Fa Sa) as (Vah & Val & Fah & Fal & Zah & Zal).
  destruct (split_double_sound b Vb Fb Sb) as (Vbh & Vbl & Fbh & Fbl & Zbh & Zbl).
  pose proof (split_double_sign a Va Fa Sa) as Sga.
  pose proof (split_double_sign b Vb Fb Sb) as Sgb.
  unfold exact_prod_pair, Benchmark.two_prod.
  destruct (Benchmark.split_double a) as [a_hi a_lo].
  destruct (Benchmark.split_double b) as [b_hi b_lo].
  cbn [fst snd] in *. cbn [hi lo].
  assert (Eah : sp_h (splitZ (Zval a)) = sp_h (splitZ a') * 2 ^ i)
    by (now rewrite Ea, splitZ_scale by lia).
  assert (Eal : sp_l (splitZ (Zval a)) = sp_l (splitZ a') * 2 ^ i)
    by (now rewrite Ea, splitZ_scale by lia).
  assert (Ebh : sp_h (splitZ (Zval b)) = sp_h (splitZ b') * 2 ^ j)
    by (now rewrite Eb, splitZ_scale by lia).
  assert (Ebl : sp_l (splitZ (Zval b)) = sp_l (splitZ b') * 2 ^ j)
    by (now rewrite Eb, splitZ_scale by lia).
  rewrite Eah in Zah. rewrite Eal in Zal. rewrite Ebh in Zbh. rewrite Ebl in Zbl.
  clear Eah Eal Ebh Ebl.
  pose proof (two_prod_grid a' b' Fa' Fb') as G.
  unfold two_prodZ, prodZ in G.
  cbn [pr_p pr_q1 pr_r1 pr_q2 pr_r2 pr_q3 pr_r3 pr_q4 pr_e] in G.
  set (ah := sp_h (splitZ a')) in *. set (al := sp_l (splitZ a')) in *.
  set (bh := sp_h (splitZ b')) in *. set (bl := sp_l (splitZ b')) in *.
  destruct G as (_ & Ge & _ & G1 & G2 & G3 & G4 & G5 & G6 & _).
  assert (M : forall x y, x * 2 ^ i * (y * 2 ^ j) = x * y * 2 ^ 1074).
  { intros x y. rewrite <- Hij, Z.pow_add_r by lia. ring. }
  assert (Eab : Zval a * Zval b = a' * b' * 2 ^ 1074) by (rewrite Ea, Eb; apply M).
  (* the rounded product *)
  destruct (fmul_finite_Zval a b (a' * b') Va Vb Fa Fb Eab Fp) as [Zp Bp].
  assert (Vp : valid (fmul a b)) by (now apply fmul_valid).
  set (p := fmul a b) in *.
  rewrite <- Zp in Bp, Ge, G1, G2, G3, G4, G5, G6.
  (* the first partial product and the subtraction of [p] *)
  destruct (fmul_finite_Zval a_hi b_hi (ah * bh) Vah Vbh Fah Fbh) as [Zq1 _];
    [rewrite Zah, Zbh; apply M|exact Fq1|].
  assert (Vq1 : valid (fmul a_hi b_hi)) by (now apply fmul_valid).
  set (q1 := fmul a_hi b_hi) in *.
  rewrite <- Zq1 in Ge, G1, G3, G5.
  destruct (fsub_step q1 p Vq1 Vp Fq1 Fp) as (Vr1 & Fr1 & Zr1);
    [clear - G1 Bp; lia|].
  set (r1 := fsub q1 p) in *.
  rewrite <- Zr1 in Ge, G3, G5.
  (* the cross products *)
  destruct (fmul_step a_hi b_lo (ah * bl) Vah Vbl Fah Fbl) as (Vq2 & Fq2 & Zq2);
    [rewrite Zah, Zbl; apply M|clear - G2 Bp; lia|].
  set (q2 := fmul a_hi b_lo) in *.
  rewrite <- Zq2 in Ge, G3, G5.
  destruct (fadd_step r1 q2 Vr1 Vq2 Fr1 Fq2) as (Vr2 & Fr2 & Zr2);
    [clear - G3 Bp; lia|].
  set (r2 := fadd r1 q2) in *.
  rewrite <- Zr2 in Ge, G5.
  destruct (fmul_step a_lo b_hi (al * bh) Val Vbh Fal Fbh) as (Vq3 & Fq3 & Zq3);
    [rewrite Zal, Zbh; apply M|clear - G4 Bp; lia|].
  set (q3 := fmul a_lo b_hi) in *.
  rewrite <- Zq3 in Ge, G5.
  destruct (fadd_step r2 q3 Vr2 Vq3 Fr2 Fq3) as (Vr3 & Fr3 & Zr3);
    [clear - G5 Bp; lia|].
  set (r3 := fadd r2 q3) in *.
  rewrite <- Zr3 in Ge.
  (* the last product and the residual *)
  destruct (fmul_step a_lo b_lo (al * bl) Val Vbl Fal Fbl) as (Vq4 & Fq4 & Zq4);
    [rewrite Zal, Zbl; apply M|clear - G6 Bp; lia|].
  set (q4 := fmul a_lo b_lo) in *.
  rewrite <- Zq4 in Ge.
  assert (Be : Z.abs (a' * b' - Zval p) < OVF).
  { destruct (prod_error_fmt a' b' Fa' Fb') as [_ B]. rewrite <- Zp in B.
    clear - B Bp. lia. }
  destruct (fadd_step r3 q4 Vr3 Vq4 Fr3 Fq4) as (Ve & Fe & Ze);
    [rewrite Ge; exact Be|].
  split.
  - split; [exact Fp|]. split; [exact Fe|]. split.
    + rewrite Eab, RNdiv_exact by lia. exact Zp.
    + rewrite Ze, Ge, Eab. ring.
  - intros H.
    apply fadd_neg_zero in H; [|exact Vr3|exact Vq4]. destruct H as [H _].
    apply fadd_neg_zero in H; [|exact Vr2|exact Vq3]. destruct H as [H _].
    apply fadd_neg_zero in H; [|exact Vr1|exact Vq2]. destruct H as [H _].
    apply fsub_neg_zero in H; [|exact Vq1|exact Vp]. destruct H as [H1 H2].
    apply fmul_sign in H1; [|assumption..].
    apply fmul_sign in H2; [|assumption..].
    rewrite Sga, Sgb in H1. rewrite <- H2 in H1. discriminate.
Qed.


(** An exact cancellation in the fused multiply-add gives [+0]. *)
Lemma ffma_cancel a b z :
  valid a -> valid b -> valid z ->
  is_finite a = true -> is_finite b = true -> is_finite z = true ->
  Zval a * Zval b + Zval z * 2 ^ 1074 = 0 ->
  (Zval a * Zval b = 0 -> z = fneg (fmul a b)) ->
  ffma a b z <> S754_zero true.
Proof.
  intros Va Vb Vz Fa Fb Fz T0 Ez.
  destruct a as [sa|sa| |sa ma ea], b as [sb|sb| |sb mb eb]; try discriminate.
  - rewrite (Ez eq_refl). destruct sa, sb; discriminate.
  - rewrite (Ez eq_refl). destruct sa, sb; discriminate.
  - rewrite Ez by (cbn [Zval]; ring). destruct sa, sb; discriminate.
  - assert (Na : Zval (S754_finite sa ma ea) <> 0).
    { apply Zval_nonzero. apply valid_finite_iff in Va. lia. }
    assert (Nb : Zval (S754_finite sb mb eb) <> 0).
    { apply Zval_nonzero. apply valid_finite_iff in Vb. lia. }
    destruct z as [sz|sz| |sz mz ez]; try discriminate.
    + exfalso. change (Zval (S754_zero sz)) with 0 in T0.
      rewrite Z.mul_0_l, Z.add_0_r in T0.
      apply Z.eq_mul_0 in T0. tauto.
    + rewrite ffma_finite3 by assumption. cbv zeta.
      rewrite T0. discriminate.
Qed.

(** The product by a fused multiply-add, when the product fits the
    grid. *)
Theorem two_prod_fma_sound a b :
  valid a -> valid b -> is_finite a = true -> is_finite b = true ->
  is_finite (fmul a b) = true ->
  (2 ^ 1074 | Zval a * Zval b) ->
  exact_prod_pair a b (Bitcompare.two_prod a b) /\
  lo (Bitcompare.two_prod a b) <> S754_zero true.
Proof.
  intros Va Vb Fa Fb Fp D.
  destruct (prod_unscale _ _ (Zval_fmt a Va) (Zval_fmt b Vb) D)
    as (i & j & a' & b' & Hi & Hj & Hij & Ea & Eb & Fa' & Fb').
  assert (Eab : Zval a * Zval b = a' * b' * 2 ^ 1074).
  { rewrite Ea, Eb, <- Hij, Z.pow_add_r by lia. ring. }
  destruct (fmul_finite_Zval a b (a' * b') Va Vb Fa Fb Eab Fp) as [Zp Bp].
  assert (Vp : valid (fmul a b)) by (now apply fmul_valid).
  destruct (prod_error_fmt a' b' Fa' Fb') as [Fe Be].
  unfold exact_prod_pair, Bitcompare.two_prod. cbn [hi lo].
  assert (Vz : valid (fneg (fmul a b))) by (now apply valid_fneg).
  assert (Fz : is_finite (fneg (fmul a b)) = true)
    by (now rewrite is_finite_fneg).
  assert (ET : Zval a * Zval b + Zval (fneg (fmul a b)) * 2 ^ 1074
               = (a' * b' - RN (a' * b')) * 2 ^ 1074).
  { rewrite Zval_fneg, Zp, Eab. ring. }
  pose proof (ffma_spec a b (fneg (fmul a b)) Va Vb Vz Fa Fb Fz) as S.
  cbv zeta in S. rewrite ET, RNdiv_exact, (RN_id _ Fe) in S by lia.
  destruct S as [Fi Zv].
  assert (Ff : is_finite (ffma a b (fneg (fmul a b))) = true).
  { apply Fi. clear - Be Bp. lia. }
  split.
  - split; [exact Fp|]. split; [exact Ff|]. split.
    + rewrite Eab, RNdiv_exact by lia. exact Zp.
    + rewrite (Zv Ff), Zp, Eab. ring.
  - intros H. pose proof (Zv Ff) as Ze. rewrite H in Ze.
    change (Zval (S754_zero true)) with 0 in Ze.
    revert H. apply ffma_cancel; auto.
    rewrite ET, <- Ze. ring.
Qed.

End ProductSound.

(** C2, as the specification states it, fails in two ways.  The product
    of [2^-600] by itself underflows: nothing overflows, yet both
    realizations return [(0, 0)] for the exact product [2^-1200].  And for
    [a = b = (2^53 - 1) * 2^459] the product and both splits are finite,
    but the partial product of the high halves is [2^1024], so the
    residual of the split-based realization is infinite. *)
Lemma C2_two_prod_inexact :
  valid p2m600 /\ is_finite p2m600 = true /\
  is_finite (fmul p2m600 p2m600) = true /\ split_safe p2m600 p2m600 /\
  Benchmark.two_prod p2m600 p2m600 = mk_dd pzero pzero /\
  Bitcompare.two_prod p2m600 p2m600 = mk_dd pzero pzero /\
  Zval p2m600 * Zval p2m600 <> 0 /\
  ~ exact_prod_pair p2m600 p2m600 (Benchmark.two_prod p2m600 p2m600) /\
  ~ exact_prod_pair p2m600 p2m600 (Bitcompare.two_prod p2m600 p2m600) /\
  valid sqrt_max /\ is_finite (fmul sqrt_max sqrt_max) = true /\
  is_finite (fmul Benchmark.SPLIT_CONST sqrt_max) = true /\
  is_finite (fst (Benchmark.split_double sqrt_max)) = true /\
  is_finite (snd (Benchmark.split_double sqrt_max)) = true /\
  lo (Benchmark.two_prod sqrt_max sqrt_max) = S754_infinity false /\
  ~ exact_prod_pair sqrt_max sqrt_max (Benchmark.two_prod sqrt_max sqrt_max).
Proof.
  repeat split; try reflexivity.
  - vm_compute. discriminate.
  - intros (_ & _ & _ & H). vm_compute in H. discriminate H.
  - intros (_ & _ & _ & H). vm_compute in H. discriminate H.
  - intros (_ & H & _). vm_compute in H. discriminate H.
Qed.

(** C2 (amended): for finite doubles [a], [b] whose product does not
    overflow and whose exact product is a multiple of [2^-1074] (nothing
    is lost to underflow), the FMA-based [two_prod] returns [(p, e)] with
    [p] the correctly rounded product and [p + e] equal to [a * b]
    exactly; the split-based [two_prod] does so as well when, in addition,
    the two multiplications by [SPLIT_CONST] and the partial product
    [a_hi * b_hi] do not overflow. *)
Theorem C2_two_prod_exact a b :
  valid a -> valid b -> is_finite a = true -> is_finite b = true ->
  is_finite (fmul a b) = true ->
  (2 ^ 1074 | Zval a * Zval b) ->
  exact_prod_pair a b (Bitcompare.two_prod a b) /\
  (split_safe a b -> exact_prod_pair a b (Benchmark.two_prod a b)).
Proof.
  intros Va Vb Fa Fb Fp D. split.
  - now apply two_prod_fma_sound.
  - intros S. now apply two_prod_split_sound.
Qed.

Lemma C2_two_prod_exact_witness :
  valid tenth /\ is_finite (fmul tenth tenth) = true /\
  (2 ^ 1074 | Zval tenth * Zval tenth) /\ split_safe tenth tenth /\
  exact_prod_pair tenth tenth (Bitcompare.two_prod tenth tenth) /\
  exact_prod_pair tenth tenth (Benchmark.two_prod tenth tenth).
Proof.
  assert (D : (2 ^ 1074 | Zval tenth * Zval tenth)).
  { exists (Zval tenth * Zval tenth / 2 ^ 1074). vm_compute. reflexivity. }
  assert (S : split_safe tenth tenth) by (repeat split; reflexivity).
  destruct (C2_two_prod_exact tenth tenth eq_refl eq_refl eq_refl eq_refl
              eq_refl D) as [H1 H2].
  split; [reflexivity|]. split; [reflexivity|]. split; [exact D|].
  split; [exact S|]. split; [exact H1|]. exact (H2 S).
Defined.

(** C4, as the specification states it, fails.  For
    [a = b = (2^53 - 1) * 2^459] the product and both splits are finite
    and the fused multiply-add returns the residual exactly, but the
    partial product of the high halves overflows and the split-based
    residual is infinite.  For [a = 0x1.1619396e6bc4dp-985] and
    [b = -0x1.3b00af03f2d71p-55] nothing overflows, the product is
    subnormal, and the two residuals differ. *)
Lemma C4_two_prod_differ :
  valid sqrt_max /\ is_finite (fmul sqrt_max sqrt_max) = true /\
  is_finite (fmul Benchmark.SPLIT_CONST sqrt_max) = true /\
  is_finite (fst (Benchmark.split_double sqrt_max)) = true /\
  is_finite (snd (Benchmark.split_double sqrt_max)) = true /\
  exact_prod_pair sqrt_max sqrt_max (Bitcompare.two_prod sqrt_max sqrt_max) /\
  Benchmark.two_prod sqrt_max sqrt_max <> Bitcompare.two_prod sqrt_max sqrt_max /\
  valid tiny_a /\ valid tiny_b /\ split_safe tiny_a tiny_b /\
  is_finite (fmul tiny_a tiny_b) = true /\
  dd_finite (Benchmark.two_prod tiny_a tiny_b) = true /\
  dd_finite (Bitcompare.two_prod tiny_a tiny_b) = true /\
  Benchmark.two_prod tiny_a tiny_b <> Bitcompare.two_prod tiny_a tiny_b.
Proof.
  repeat split; try reflexivity; vm_compute; discriminate.
Qed.

(** C4 (amended): for finite doubles [a], [b] whose product does not
    overflow and whose exact product is a multiple of [2^-1074] (so that
    the residual is a double and the fused multiply-add returns it
    exactly), and for which neither the two multiplications by
    [SPLIT_CONST] nor the partial product [a_hi * b_hi] overflow, the
    split-based and the FMA-based [two_prod] return the same pair, bit
    for bit. *)
Theorem C4_two_prod_equivalent a b :
  valid a -> valid b -> is_finite a = true -> is_finite b = true ->
  is_finite (fmul a b) = true ->
  (2 ^ 1074 | Zval a * Zval b) ->
  split_safe a b ->
  Benchmark.two_prod a b = Bitcompare.two_prod a b.
Proof.
  intros Va Vb Fa Fb Fp D S.
  destruct (two_prod_split_sound a b Va Vb Fa Fb Fp D S)
    as [(_ & F1 & _ & X1) N1].
  destruct (two_prod_fma_sound a b Va Vb Fa Fb Fp D)
    as [(_ & F2 & _ & X2) N2].
  destruct (two_prod_valid a b Va Vb) as [_ V1].
  destruct (two_prod_fma_valid a b Va Vb) as [_ V2].
  assert (Eh : hi (Benchmark.two_prod a b) = hi (Bitcompare.two_prod a b)).
  { unfold Benchmark.two_prod, Bitcompare.two_prod.
    destruct (Benchmark.split_double a), (Benchmark.split_double b).
    reflexivity. }
  assert (El : lo (Benchmark.two_prod a b) = lo (Bitcompare.two_prod a b)).
  { apply Zval_inj; try assumption.
    rewrite Eh in X1. rewrite <- X2 in X1.
    apply Z.mul_cancel_r in X1; lia. }
  destruct (Benchmark.two_prod a b) as [h1 l1].
  destruct (Bitcompare.two_prod a b) as [h2 l2].
  cbn [hi lo] in Eh, El. now subst.
Qed.

Lemma C4_two_prod_equivalent_witness :
  valid tenth /\ is_finite (fmul tenth tenth) = true /\
  (2 ^ 1074 | Zval tenth * Zval tenth) /\ split_safe tenth tenth /\
  Benchmark.two_prod tenth tenth = Bitcompare.two_prod tenth tenth.
Proof.
  assert (D : (2 ^ 1074 | Zval tenth * Zval tenth)).
  { exists (Zval tenth * Zval tenth / 2 ^ 1074). vm_compute. reflexivity. }
  assert (S : split_safe tenth tenth) by (repeat split; reflexivity).
  split; [reflexivity|]. split; [reflexivity|]. split; [exact D|].
  split; [exact S|].
  exact (C4_two_prod_equivalent tenth tenth eq_refl eq_refl eq_refl eq_refl
           eq_refl D S).
Defined.

(** ** Normalization: [dd_add], [dd_add_d], [dd_mul_d], [dd_mul] *)

(** *** Renormalization of operands that are not ordered *)

Section FastGeneral.

Lemma RN_abs_le_fmt z f : fmt f -> Z.abs z <= f -> Z.abs (RN z) <= f.
Proof.
  intros F B. apply Z.abs_le. apply Z.abs_le in B. split.
  - apply RN_ge_fmt; [now apply fmt_opp|lia].
  - apply RN_le_fmt; [exact F|lia].
Qed.

(** Fast2Sum when the first operand is the smaller one but a multiple
    of the unit in the last place of the second. *)
Lemma fast_exact_unit_pos a b :
  fmt a -> fmt b -> 0 < b -> Z.abs a < b -> (2 ^ cexp b | a) ->
  fmt (RN (a + b) - a) /\
  Z.abs (RN (a + b) - a) <= Z.max (Z.abs (RN (a + b))) b.
Proof.
  intros Fa Fb Hb Hab D.
  pose proof (cexp_nonneg b) as Cb.
  set (u := 2 ^ cexp b) in *.
  assert (PU : 0 < u) by (apply pow2_pos; exact Cb).
  assert (Ub : b < 2 ^ 53 * u).
  { pose proof (cexp_upper b) as U. rewrite pow2_shift in U by lia.
    fold u in U. lia. }
  assert (Dab : (u | a + b)) by (apply Z.divide_add_r; [exact D|exact Fb]).
  destruct (Z_le_gt_dec 0 a) as [Pa|Na].
  - assert (L : b <= RN (a + b)) by (apply RN_ge_fmt; [exact Fb|lia]).
    assert (U : RN (a + b) <= 2 * b).
    { apply RN_le_fmt; [now apply fmt_double|lia]. }
    assert (Ds : (u | RN (a + b))) by (apply RN_divide; assumption).
    assert (Er : Z.abs (RN (a + b) - (a + b)) <= u).
    { pose proof (RN_error (a + b)) as E.
      assert (Cc : cexp (a + b) <= cexp b + 1).
      { apply cexp_le_of_lt; [lia|].
        replace (cexp b + 1 + 53) with (cexp b + 54) by lia.
        rewrite pow2_shift by lia. fold u. lia. }
      pose proof (pow2_le _ _ Cc) as Pc. rewrite pow2_shift in Pc by lia.
      fold u in Pc. clear - E Pc. lia. }
    assert (Bu : b + u <= 2 ^ 53 * u).
    { destruct Fb as [j Ej]. fold u in Ej.
      pose proof (multiple_succ_le j (2 ^ 53) u PU ltac:(lia)). lia. }
    split.
    + apply (fmt_of_divide _ (cexp b) Cb).
      * fold u. apply Z.divide_sub_r; assumption.
      * rewrite pow2_shift by lia. fold u. clear - Er Bu L Pa Hab. lia.
    + clear - L Pa Hab. lia.
  - assert (F : fmt (a + b)).
    { apply (fmt_of_divide _ (cexp b) Cb); [exact Dab|].
      rewrite pow2_shift by lia. fold u. lia. }
    rewrite (RN_id _ F). replace (a + b - a) with b by ring.
    split; [exact Fb|lia].
Qed.

Lemma fast_exact_unit a b :
  fmt a -> fmt b -> (2 ^ cexp b | a) ->
  fmt (RN (a + b) - a) /\
  Z.abs (RN (a + b) - a) <=
    Z.max (Z.abs (RN (a + b))) (Z.max (Z.abs a) (Z.abs b)).
Proof.
  intros Fa Fb D.
  destruct (Z_le_gt_dec (Z.abs b) (Z.abs a)) as [O|O].
  - pose proof (fast_exact a b Fa Fb O) as F. split; [exact F|].
    pose proof (quick_two_sum_grid a b Fa Fb O) as G. cbv zeta in G.
    destruct G as (_ & B & _). rewrite (RN_id _ F) in B. lia.
  - destruct (Z_le_gt_dec 0 b) as [P|N].
    + destruct (fast_exact_unit_pos a b Fa Fb ltac:(lia) ltac:(lia) D)
        as [F B].
      split; [exact F|lia].
    + destruct (fast_exact_unit_pos (- a) (- b) (fmt_opp a Fa) (fmt_opp b Fb)
                  ltac:(lia) ltac:(lia)) as [F B].
      { rewrite cexp_opp. now apply Z.divide_opp_r. }
      replace (- a + - b) with (- (a + b)) in F, B by ring.
      rewrite RN_opp in F, B.
      replace (- RN (a + b) - - a) with (- (RN (a + b) - a)) in F, B by ring.
      apply (proj1 (fmt_opp_iff _)) in F. split; [exact F|lia].
Qed.

(** [quick_two_sum] on the grid under either condition. *)
Theorem quick_two_sum_unit_grid a b :
  fmt a -> fmt b -> Z.abs b <= Z.abs a \/ (2 ^ cexp b | a) ->
  RN (b - RN (RN (a + b) - a)) = a + b - RN (a + b) /\
  Z.abs (RN (RN (a + b) - a)) <=
    Z.max (Z.abs (RN (a + b))) (Z.max (Z.abs a) (Z.abs b)) /\
  Z.abs (a + b - RN (a + b)) <= Z.abs b.
Proof.
  intros Fa Fb H.
  assert (X : fmt (RN (a + b) - a) /\
              Z.abs (RN (a + b) - a) <=
                Z.max (Z.abs (RN (a + b))) (Z.max (Z.abs a) (Z.abs b))).
  { destruct H as [O|D]; [|now apply fast_exact_unit].
    pose proof (fast_exact a b Fa Fb O) as F. split; [exact F|].
    pose proof (quick_two_sum_grid a b Fa Fb O) as G. cbv zeta in G.
    destruct G as (_ & B & _). rewrite (RN_id _ F) in B. lia. }
  destruct X as [F B]. rewrite (RN_id _ F).
  replace (b - (RN (a + b) - a)) with (a + b - RN (a + b)) by ring.
  rewrite RN_id by (now apply add_error_fmt).
  split; [reflexivity|]. split; [exact B|]. now apply add_error_le.
Qed.

Lemma quick_two_sum_unit_sound a b :
  valid a -> valid b -> is_finite a = true -> is_finite b = true ->
  Z.abs (Zval b) <= Z.abs (Zval a) \/ (2 ^ cexp (Zval b) | Zval a) ->
  is_finite (fadd a b) = true ->
  valid (hi (Benchmark.quick_two_sum a b)) /\
  valid (lo (Benchmark.quick_two_sum a b)) /\
  is_finite (lo (Benchmark.quick_two_sum a b)) = true /\
  Zval (hi (Benchmark.quick_two_sum a b)) = RN (Zval a + Zval b) /\
  Zval (lo (Benchmark.quick_two_sum a b))
    = Zval a + Zval b - RN (Zval a + Zval b).
Proof.
  intros Va Vb Fa Fb Hab Fs. unfold Benchmark.quick_two_sum. cbn [hi lo].
  set (s := fadd a b) in *.
  assert (Vs : valid s) by (now apply fadd_valid).
  assert (Zs : Zval s = RN (Zval a + Zval b)) by (now apply fadd_Zval).
  destruct (quick_two_sum_unit_grid (Zval a) (Zval b) (Zval_fmt a Va)
              (Zval_fmt b Vb) Hab) as (Ge & Bt & Be).
  rewrite <- Zs in Ge, Bt, Be.
  pose proof (Zval_lt_OVF a Va) as La. pose proof (Zval_lt_OVF b Vb) as Lb.
  pose proof (Zval_lt_OVF s Vs) as Ls.
  destruct (fsub_step s a Vs Va Fs Fa ltac:(lia)) as (Vt & Ft & Zt).
  rewrite <- Zt in Ge.
  destruct (fsub_step b _ Vb Vt Fb Ft) as (Ve & Fe & Ze).
  { rewrite Ge. lia. }
  split; [exact Vs|]. split; [exact Ve|]. split; [exact Fe|].
  split; [exact Zs|]. rewrite Ze, Ge, Zs. reflexivity.
Qed.

Lemma quick_two_sum_unit_normalized x y :
  valid x -> valid y -> is_finite x = true -> is_finite y = true ->
  Z.abs (Zval y) <= Z.abs (Zval x) \/ (2 ^ cexp (Zval y) | Zval x) ->
  is_finite (fadd x y) = true ->
  dd_normalized (Benchmark.quick_two_sum x y).
Proof.
  intros Vx Vy Fx Fy O Fs.
  destruct (quick_two_sum_unit_sound x y Vx Vy Fx Fy O Fs)
    as (_ & _ & Fl & Zh & Zl).
  split; [exact Fs|]. split; [exact Fl|].
  unfold normalized. rewrite Zh, Zl.
  pose proof (RN_error (Zval x + Zval y)) as E.
  pose proof (pow2_le _ _ (cexp_RN (Zval x + Zval y))) as P.
  lia.
Qed.

End FastGeneral.

(** *** The operands that [dd_add] hands to its renormalization *)

Section AddOrder.

Lemma add_order_aux x y la lb :
  fmt x -> fmt y -> cexp y <= cexp x ->
  2 * Z.abs la <= 2 ^ cexp x -> 2 * Z.abs lb <= 2 ^ cexp y ->
  Z.abs (RN (RN (la + lb) + (x + y - RN (x + y)))) <= Z.abs (RN (x + y)) \/
  (2 ^ cexp (RN (RN (la + lb) + (x + y - RN (x + y)))) | RN (x + y)).
Proof.
  intros Fx Fy Cyx Na Nb.
  pose proof (cexp_nonneg x) as Cx. pose proof (cexp_nonneg y) as Cy.
  assert (PU : 0 < 2 ^ cexp x) by (now apply pow2_pos).
  assert (Pu : 0 < 2 ^ cexp y) by (now apply pow2_pos).
  pose proof (pow2_le _ _ Cyx) as LuU.
  assert (Dxy : (2 ^ cexp y | x + y)).
  { apply Z.divide_add_r; [|exact Fy].
    apply Z.divide_trans with (2 ^ cexp x); [|exact Fx].
    apply pow2_divide. lia. }
  assert (Ds : (2 ^ cexp y | RN (x + y))) by (now apply RN_divide).
  assert (Bw : Z.abs (RN (la + lb)) <= 2 ^ cexp x).
  { apply RN_abs_le_fmt; [now apply fmt_pow2|]. clear - Na Nb LuU. lia. }
  pose proof (RN_error (x + y)) as Er.
  pose proof (cexp_nonneg (x + y)) as Cc.
  set (w := RN (la + lb)) in *. set (s := RN (x + y)) in *.
  set (c := cexp (x + y)) in *.
  destruct (Z.eq_dec (x + y - s) 0) as [E0|NE].
  - rewrite E0, Z.add_0_r, (RN_id w) by apply RN_fmt.
    destruct (Z_le_gt_dec (cexp x) (cexp y + 1)) as [Near|Far].
    + right. apply Z.divide_trans with (2 ^ cexp y); [|exact Ds].
      apply pow2_divide. split; [apply cexp_nonneg|].
      apply cexp_le_of_lt; [exact Cy|].
      pose proof (pow2_le _ _ Near) as P1.
      pose proof (pow2_lt (cexp y + 1) (cexp y + 53) ltac:(lia) ltac:(lia)).
      lia.
    + left.
      pose proof (cexp_lower x ltac:(lia)) as Lx.
      pose proof (cexp_upper y) as Uy.
      pose proof (pow2_le (cexp y + 53) (cexp x + 51) ltac:(lia)) as P1.
      rewrite pow2_shift in Lx by lia.
      rewrite (pow2_shift (cexp x) 51) in P1 by lia.
      assert (Es : s = x + y) by lia.
      clear - Lx Uy P1 Es Bw PU. lia.
  - assert (Hc : cexp y < c).
    { destruct (Z_le_gt_dec c (cexp y)) as [L|G]; [exfalso|lia].
      apply NE. unfold s. rewrite RN_id; [ring|].
      unfold fmt. fold c. apply Z.divide_trans with (2 ^ cexp y); [|exact Dxy].
      apply pow2_divide. lia. }
    pose proof (cexp_lower (x + y) ltac:(fold c; lia)) as Lc. fold c in Lc.
    assert (Ls : 2 ^ (c + 52) <= Z.abs s).
    { apply RN_ge_pow2; [lia|exact Lc]. }
    assert (Hx : cexp x <= c + 1).
    { destruct (Z_le_gt_dec (cexp x) (c + 1)) as [L|G]; [exact L|exfalso].
      pose proof (cexp_lower x ltac:(lia)) as Lx.
      pose proof (cexp_upper y) as Uy.
      pose proof (pow2_le (cexp y + 53) (cexp x + 50) ltac:(lia)) as P1.
      rewrite pow2_shift in Lx by lia.
      rewrite (pow2_shift (cexp x) 50) in P1 by lia.
      assert (B : 2 ^ (cexp x - 1 + 52) <= Z.abs (x + y)).
      { replace (cexp x - 1 + 52) with (cexp x + 51) by lia.
        rewrite pow2_shift by lia. clear - Lx Uy P1 PU. lia. }
      apply cexp_ge_of_le in B. fold c in B. lia. }
    left.
    pose proof (pow2_le _ _ Hx) as P1. rewrite pow2_shift in P1 by lia.
    pose proof (pow2_pos c Cc) as Pc.
    apply Z.le_trans with (2 ^ (c + 2)).
    + apply RN_abs_le_fmt; [apply fmt_pow2; lia|].
      rewrite pow2_shift by lia. clear - Bw Er P1 Pc. lia.
    + apply Z.le_trans with (2 ^ (c + 52)); [|exact Ls].
      apply pow2_le. lia.
Qed.

(** The sum of two normalized pairs: the low-order sum is either below
    the rounded sum of the high parts, or that sum is a multiple of its
    unit in the last place. *)
Theorem add_order x y la lb :
  fmt x -> fmt y ->
  2 * Z.abs la <= 2 ^ cexp x -> 2 * Z.abs lb <= 2 ^ cexp y ->
  Z.abs (RN (RN (la + lb) + (x + y - RN (x + y)))) <= Z.abs (RN (x + y)) \/
  (2 ^ cexp (RN (RN (la + lb) + (x + y - RN (x + y)))) | RN (x + y)).
Proof.
  intros Fx Fy Na Nb.
  destruct (Z_le_gt_dec (cexp y) (cexp x)) as [L|G].
  - now apply add_order_aux.
  - rewrite (Z.add_comm x y), (Z.add_comm la lb).
    apply add_order_aux; auto. lia.
Qed.

End AddOrder.

(** *** Sums of normalized operands *)

Section NormalizedSums.

Lemma Zval_cexp x : valid x -> cexp (Zval x) <= 2045.
Proof.
  intros V. apply cexp_le_of_lt; [lia|].
  pose proof (Zval_lt_OVF x V) as B. unfold OVF in B. exact B.
Qed.

Lemma half_ulp_bound x l :
  valid x -> 2 * Z.abs l <= 2 ^ cexp (Zval x) -> Z.abs l <= 2 ^ 2044.
Proof.
  intros V N. pose proof (pow2_le _ _ (Zval_cexp x V)) as P.
  change (2 ^ 2045) with (2 * 2 ^ 2044) in P. lia.
Qed.

Lemma RN_below_OVF z : Z.abs z <= 2 ^ 2048 -> Z.abs (RN z) < OVF.
Proof.
  intros B. apply Z.le_lt_trans with (2 ^ 2048).
  - apply RN_abs_le_fmt; [apply fmt_pow2; lia|exact B].
  - unfold OVF. apply pow2_lt; lia.
Qed.

(** The low-order sum of [dd_add] and of [dd_add_d] stays finite. *)
Lemma low_sum_finite x y la lb :
  fmt x -> fmt y ->
  Z.abs la <= 2 ^ 2044 -> Z.abs lb <= 2 ^ 2044 ->
  Z.abs (RN (x + y)) < OVF ->
  Z.abs (RN (la + lb)) < OVF /\
  Z.abs (RN (RN (la + lb) + (x + y - RN (x + y)))) < OVF.
Proof.
  intros Fx Fy Ba Bb Bs.
  assert (P : 2 ^ 2045 = 2 * 2 ^ 2044) by reflexivity.
  assert (Q : 2 ^ 2048 = 16 * 2 ^ 2044) by reflexivity.
  assert (Bw : Z.abs (RN (la + lb)) <= 2 ^ 2045).
  { apply RN_abs_le_fmt; [apply fmt_pow2; lia|]. rewrite P. lia. }
  split.
  - apply Z.le_lt_trans with (2 ^ 2045); [exact Bw|].
    unfold OVF. apply pow2_lt; lia.
  - apply RN_below_OVF.
    pose proof (RN_error (x + y)) as Er.
    pose proof (pow2_le _ _ (RN_finite_cexp _ Bs)) as Pc.
    rewrite P in Pc, Bw. rewrite Q.
    set (w := RN (la + lb)) in *. set (s := RN (x + y)) in *.
    clear - Bw Er Pc. lia.
Qed.

Lemma dd_add_normalized A B :
  dd_valid A -> dd_valid B -> dd_normalized A -> dd_normalized B ->
  sum_safe (hi A) (hi B) (Benchmark.dd_add A B) ->
  dd_normalized (Benchmark.dd_add A B).
Proof.
  intros [VA1 VA2] [VB1 VB2] (FA1 & FA2 & NA) (FB1 & FB2 & NB) (Fs & Fv & Fr).
  pose proof (two_sum_sound (hi A) (hi B) VA1 VB1 FA1 FB1 Fs Fv) as S.
  cbv zeta in S. destruct S as (Vs & Ve & Fe & Zs & Ze).
  unfold Benchmark.dd_add in Fr |- *.
  set (s := Benchmark.two_sum (hi A) (hi B)) in *.
  assert (Fhs : is_finite (hi s) = true) by exact Fs.
  unfold normalized in NA, NB.
  pose proof (half_ulp_bound _ _ VA1 NA) as BA.
  pose proof (half_ulp_bound _ _ VB1 NB) as BB.
  pose proof (Zval_lt_OVF (hi s) Vs) as Bs. rewrite Zs in Bs.
  destruct (low_sum_finite (Zval (hi A)) (Zval (hi B)) (Zval (lo A))
              (Zval (lo B)) (Zval_fmt _ VA1) (Zval_fmt _ VB1) BA BB Bs)
    as [Bw Bt].
  pose proof (add_order (Zval (hi A)) (Zval (hi B)) (Zval (lo A))
                (Zval (lo B)) (Zval_fmt _ VA1) (Zval_fmt _ VB1) NA NB) as O.
  destruct (fadd_step (lo A) (lo B) VA2 VB2 FA2 FB2 Bw) as (Vw & Fw & Zw).
  rewrite <- Zw, <- Ze in Bt, O. rewrite <- Zs in O.
  destruct (fadd_step _ (lo s) Vw Ve Fw Fe Bt) as (Vt & Ft & Zt).
  rewrite <- Zt in O.
  apply quick_two_sum_unit_normalized; assumption.
Qed.

Lemma dd_add_d_normalized A b :
  dd_valid A -> valid b -> dd_normalized A -> is_finite b = true ->
  sum_safe (hi A) b (Benchmark.dd_add_d A b) ->
  dd_normalized (Benchmark.dd_add_d A b).
Proof.
  intros [VA1 VA2] Vb (FA1 & FA2 & NA) Fb (Fs & Fv & Fr).
  pose proof (two_sum_sound (hi A) b VA1 Vb FA1 Fb Fs Fv) as S.
  cbv zeta in S. destruct S as (Vs & Ve & Fe & Zs & Ze).
  unfold Benchmark.dd_add_d in Fr |- *.
  set (s := Benchmark.two_sum (hi A) b) in *.
  assert (Fhs : is_finite (hi s) = true) by exact Fs.
  unfold normalized in NA.
  pose proof (half_ulp_bound _ _ VA1 NA) as BA.
  pose proof (Zval_lt_OVF (hi s) Vs) as Bs. rewrite Zs in Bs.
  assert (N0 : 2 * Z.abs 0 <= 2 ^ cexp (Zval b)).
  { pose proof (pow2_pos _ (cexp_nonneg (Zval b))). cbn. lia. }
  destruct (low_sum_finite (Zval (hi A)) (Zval b) (Zval (lo A)) 0
              (Zval_fmt _ VA1) (Zval_fmt _ Vb) BA ltac:(cbn; lia) Bs)
    as [_ Bt].
  pose proof (add_order (Zval (hi A)) (Zval b) (Zval (lo A)) 0
                (Zval_fmt _ VA1) (Zval_fmt _ Vb) NA N0) as O.
  rewrite Z.add_0_r, (RN_id _ (Zval_fmt _ VA2)) in Bt, O.
  rewrite <- Ze in Bt, O. rewrite <- Zs in O.
  destruct (fadd_step (lo A) (lo s) VA2 Ve FA2 Fe Bt) as (Vt & Ft & Zt).
  rewrite <- Zt in O.
  apply quick_two_sum_unit_normalized; assumption.
Qed.

End NormalizedSums.

(** *** Exact products *)

Section NormalizedProducts.

Lemma RNdiv_abs_le m k f :
  0 <= k -> fmt f -> Z.abs m <= f * 2 ^ k -> Z.abs (RNdiv m k) <= f.
Proof.
  intros Hk F B. pose proof (pow2_pos k Hk) as Pk.
  assert (F0 : 0 <= f) by nia.
  destruct (Z.eq_dec m 0) as [->|NZ]; [rewrite RNdiv_0; cbn; lia|].
  assert (Pm : 0 < Z.abs m) by lia.
  unfold RNdiv. rewrite Z.abs_mul.
  replace (Z.abs (Z.sgn m)) with 1 by lia. rewrite Z.mul_1_l.
  destruct (rndE_fmt (Z.abs m) (- k) Pm) as [_ P0].
  rewrite Z.abs_eq by exact P0.
  set (c := Z.max 0 (Z.log2 (Z.abs m) + - k - 52)).
  rewrite (rndE_eq (Z.abs m) (- k) Pm) by lia. fold c.
  assert (Hc : 0 <= c) by (unfold c; lia).
  assert (Pf : 0 < f) by nia.
  assert (Cf : c <= cexp f).
  { unfold c, cexp. rewrite (Z.abs_eq f) by lia.
    assert (L : Z.log2 (Z.abs m) <= Z.log2 f + k).
    { replace (Z.log2 f + k) with (Z.log2 (f * 2 ^ k))
        by (rewrite Z.log2_mul_pow2; lia).
      apply Z.log2_le_mono. exact B. }
    lia. }
  assert (D : (2 ^ c | f)).
  { apply Z.divide_trans with (2 ^ cexp f); [|exact F].
    apply pow2_divide. lia. }
  destruct D as [j Ej]. pose proof (pow2_pos c Hc) as Pc.
  replace (c - - k) with (c + k) by lia.
  assert (Pck : 0 < 2 ^ (c + k)) by (apply pow2_pos; lia).
  assert (M : rne_q (Z.abs m) (2 ^ (c + k)) <= j).
  { rewrite <- (rne_q_exact (2 ^ (c + k)) Pck j).
    apply rne_q_mono; [exact Pck|].
    rewrite Z.pow_add_r by lia. rewrite Ej in B.
    rewrite Z.mul_assoc. exact B. }
  rewrite Ej. apply Z.mul_le_mono_nonneg_r; lia.
Qed.

Lemma exact_prod_normalized a b r :
  (2 ^ 1074 | Zval a * Zval b) -> exact_prod_pair a b r -> dd_normalized r.
Proof.
  intros [K EK] (Fh & Fl & Zh & Zs).
  split; [exact Fh|]. split; [exact Fl|].
  rewrite EK in Zh, Zs. rewrite RNdiv_exact in Zh by lia.
  apply Z.mul_cancel_r in Zs; [|lia].
  unfold normalized. rewrite Zh.
  replace (Zval (lo r)) with (K - RN K) by lia.
  pose proof (RN_error K) as E.
  pose proof (pow2_le _ _ (cexp_RN K)) as P. lia.
Qed.

(** What the exact product and its residual are on the grid. *)
Lemma exact_prod_values a b r K :
  Zval a * Zval b = K * 2 ^ 1074 -> exact_prod_pair a b r ->
  Zval (hi r) = RN K /\ Zval (lo r) = K - RN K.
Proof.
  intros EK (_ & _ & Zh & Zs).
  rewrite EK in Zh, Zs. rewrite RNdiv_exact in Zh by lia.
  apply Z.mul_cancel_r in Zs; [|lia]. split; [exact Zh|lia].
Qed.

End NormalizedProducts.

(** *** Products of normalized operands

    An underflow inside [two_prod] costs the exactness of the residual,
    not its order of magnitude, and the renormalization that ends every
    operator only needs the latter. *)

Import GridProd.

Section RoundedQuotients.

(** Rounding the quotient [m / 2^k] to the grid: for the exponent [c] of
    its last place, the magnitude of [m], the rounding error and the
    exponent of the result. *)
Lemma RNdiv_props m k :
  0 <= k ->
  exists c, 0 <= c /\ Z.abs m < 2 ^ (c + k + 53) /\
            (0 < c -> 2 ^ (c + k + 52) <= Z.abs m) /\
            2 * Z.abs (RNdiv m k * 2 ^ k - m) <= 2 ^ (c + k) /\
            c <= cexp (RNdiv m k).
Proof.
  intros Hk. destruct (Z.eq_dec m 0) as [->|NZ].
  - exists 0. rewrite RNdiv_0.
    pose proof (pow2_pos (0 + k + 53) ltac:(lia)) as P1.
    pose proof (pow2_pos (0 + k) ltac:(lia)) as P2.
    pose proof (cexp_nonneg 0) as C0.
    change (Z.abs 0) with 0. change (0 * 2 ^ k - 0) with (0 * 2 ^ k - 0).
    rewrite Z.mul_0_l. change (Z.abs (0 - 0)) with 0.
    repeat split; lia.
  - set (M := Z.abs m). assert (PM : 0 < M) by (unfold M; lia).
    set (c := Z.max 0 (Z.log2 M - k - 52)).
    assert (Hc : 0 <= c) by (unfold c; lia).
    pose proof (rndE_eq M (- k) PM) as E. cbv zeta in E.
    replace (Z.log2 M + - k - 52) with (Z.log2 M - k - 52) in E by lia.
    fold c in E. specialize (E ltac:(lia)).
    replace (c - - k) with (c + k) in E by lia.
    destruct (Z.log2_spec M PM) as [L1 L2].
    set (P := 2 ^ (c + k)) in *.
    assert (PP : 0 < P) by (apply pow2_pos; lia).
    assert (Sg : Z.abs (Z.sgn m) = 1) by lia.
    exists c. split; [exact Hc|]. split.
    { apply Z.lt_le_trans with (2 ^ Z.succ (Z.log2 M)); [exact L2|].
      apply pow2_le. unfold c. lia. }
    assert (Lo : 0 < c -> 2 ^ (c + k + 52) <= M).
    { intros Pc. apply Z.le_trans with (2 ^ Z.log2 M); [|exact L1].
      apply pow2_le. unfold c in *. lia. }
    split; [exact Lo|]. split.
    + unfold RNdiv. fold M. rewrite E.
      pose proof (rne_q_error P PP M) as Er.
      assert (X : Z.sgn m * (rne_q M P * 2 ^ c) * 2 ^ k - m
                  = Z.sgn m * (rne_q M P * P - M)).
      { assert (Em : m = Z.sgn m * M) by (unfold M; lia).
        replace (Z.sgn m * (rne_q M P * 2 ^ c) * 2 ^ k - m)
          with (Z.sgn m * (rne_q M P * 2 ^ c) * 2 ^ k - Z.sgn m * M)
          by (rewrite <- Em; reflexivity).
        unfold P. rewrite Z.pow_add_r by lia. ring. }
      rewrite X, Z.abs_mul, Sg, Z.mul_1_l. exact Er.
    + destruct (Z.eq_dec c 0) as [C0|C0]; [rewrite C0; apply cexp_nonneg|].
      apply cexp_ge_of_le. unfold RNdiv. fold M. rewrite E.
      rewrite Z.abs_mul, Sg, Z.mul_1_l.
      assert (Q : 2 ^ 52 <= rne_q M P).
      { rewrite <- (rne_q_exact P PP (2 ^ 52)).
        apply rne_q_mono; [exact PP|].
        specialize (Lo ltac:(lia)).
        replace (c + k + 52) with (52 + (c + k)) in Lo by lia.
        rewrite Z.pow_add_r in Lo by lia. exact Lo. }
      pose proof (pow2_pos c Hc) as Pc.
      rewrite Z.abs_eq by nia.
      replace (c + 52) with (52 + c) by lia. rewrite Z.pow_add_r by lia.
      apply Z.mul_le_mono_nonneg_r; lia.
Qed.

(** The error of a rounded quotient against a bound on the dividend. *)
Lemma RNdiv_error_le m k j :
  0 <= k -> 0 <= j -> Z.abs m < 2 ^ (j + k + 53) ->
  2 * Z.abs (RNdiv m k * 2 ^ k - m) <= 2 ^ (j + k).
Proof.
  intros Hk Hj B.
  destruct (RNdiv_props m k Hk) as (c & Hc & _ & Lo & Er & _).
  apply Z.le_trans with (2 ^ (c + k)); [exact Er|].
  apply pow2_le.
  destruct (Z_le_gt_dec c j) as [L|G]; [lia|exfalso].
  specialize (Lo ltac:(lia)).
  pose proof (pow2_le (j + k + 53) (c + k + 52) ltac:(lia)). lia.
Qed.

(** A rounded quotient below a power of two. *)
Lemma RNdiv_lt_pow2 m k j :
  0 <= k -> 0 <= j -> Z.abs m < 2 ^ (j + k) -> Z.abs (RNdiv m k) <= 2 ^ j.
Proof.
  intros Hk Hj B. apply RNdiv_abs_le; [exact Hk|now apply fmt_pow2|].
  rewrite <- Z.pow_add_r by lia. lia.
Qed.

End RoundedQuotients.

Section LooseProducts.

(** The halves of [split_double] against the operand, for every operand
    of the format. *)
Lemma split_halves a :
  fmt a ->
  sp_h (splitZ a) + sp_l (splitZ a) = a /\
  2 ^ 26 * Z.abs (sp_l (splitZ a)) <= Z.abs a /\
  Z.abs (sp_h (splitZ a)) <= 2 * Z.abs a.
Proof.
  intros F. destruct (Z.eq_dec a 0) as [->|N].
  - repeat split; vm_compute; congruence.
  - assert (F' : fmt (a * 2 ^ 52)) by (apply fmt_scale; [lia|exact F]).
    assert (N' : 2 ^ 52 <= Z.abs (a * 2 ^ 52)).
    { rewrite Z.abs_mul. change (Z.abs (2 ^ 52)) with (2 ^ 52). lia. }
    destruct (split_grid_norm _ F' N')
      as (H1 & _ & H3 & _ & H5 & H6 & _).
    assert (Eh : sp_h (splitZ (a * 2 ^ 52)) = sp_h (splitZ a) * 2 ^ 52)
      by (now rewrite splitZ_scale by lia).
    assert (El : sp_l (splitZ (a * 2 ^ 52)) = sp_l (splitZ a) * 2 ^ 52)
      by (now rewrite splitZ_scale by lia).
    rewrite Eh, El in H1. rewrite Eh in H3. rewrite El in H5.
    set (E := 2 ^ cexp (a * 2 ^ 52)) in *.
    rewrite Z.abs_mul in H6. change (Z.abs (2 ^ 52)) with (2 ^ 52) in H6.
    set (h := sp_h (splitZ a)) in *. set (l := sp_l (splitZ a)) in *.
    assert (Bl : Z.abs (l * 2 ^ 52) <= 2 ^ 26 * E) by lia.
    assert (Bh : Z.abs (h * 2 ^ 52) <= 2 ^ 53 * E) by lia.
    rewrite Z.abs_mul in Bl, Bh.
    change (Z.abs (2 ^ 52)) with (2 ^ 52) in Bl, Bh.
    clearbody h l E. clear - H1 H6 Bl Bh. lia.
Qed.

(** The partial products of the split-based product, without any
    assumption on the exactness of the products: against the unit
    [2^c] in the last place of the rounded product. *)
Lemma prod_loose a b ah al bh bl c :
  ah + al = a -> bh + bl = b ->
  2 ^ 26 * Z.abs al <= Z.abs a -> Z.abs ah <= 2 * Z.abs a ->
  2 ^ 26 * Z.abs bl <= Z.abs b -> Z.abs bh <= 2 * Z.abs b ->
  0 <= c -> Z.abs (a * b) < 2 ^ (c + 1074 + 53) ->
  2 * Z.abs (RNdiv (a * b) 1074 * 2 ^ 1074 - a * b) <= 2 ^ (c + 1074) ->
  Z.abs (RNdiv (ah * bh) 1074 - RNdiv (a * b) 1074) <= 2 ^ (c + 30) /\
  Z.abs (RNdiv (ah * bl) 1074) <= 2 ^ (c + 28) /\
  Z.abs (RNdiv (al * bh) 1074) <= 2 ^ (c + 28) /\
  Z.abs (RNdiv (al * bl) 1074) <= 2 ^ (c + 1).
Proof.
  intros Ea Eb La Ha Lb Hb Hc BY EY.
  set (W := 2 ^ (c + 1074)) in *.
  assert (PW : 0 < W) by (apply pow2_pos; lia).
  assert (P53 : 2 ^ (c + 1074 + 53) = 2 ^ 53 * W)
    by (unfold W; rewrite (Z.pow_add_r 2 (c + 1074) 53) by lia; ring).
  assert (Pj : forall j, 0 <= j -> 2 ^ (c + j + 1074) = 2 ^ j * W).
  { intros j Hj. unfold W. replace (c + j + 1074) with (j + (c + 1074)) by lia.
    now rewrite Z.pow_add_r by lia. }
  rewrite P53 in BY. rewrite Z.abs_mul in BY.
  pose proof (Z.abs_nonneg a) as Na. pose proof (Z.abs_nonneg b) as Nb.
  pose proof (Z.abs_nonneg ah) as Nah. pose proof (Z.abs_nonneg al) as Nal.
  pose proof (Z.abs_nonneg bh) as Nbh. pose proof (Z.abs_nonneg bl) as Nbl.
  assert (B1 : 2 ^ 25 * Z.abs (ah * bl) <= Z.abs a * Z.abs b).
  { rewrite Z.abs_mul.
    assert (X : Z.abs ah * (2 ^ 26 * Z.abs bl) <= 2 * Z.abs a * Z.abs b).
    { apply Z.mul_le_mono_nonneg; [exact Nah|exact Ha| |exact Lb].
      clear - Nbl. lia. }
    change (2 ^ 26) with (2 * 2 ^ 25) in X.
    clear - X. lia. }
  assert (B2 : 2 ^ 25 * Z.abs (al * bh) <= Z.abs a * Z.abs b).
  { rewrite Z.abs_mul.
    assert (X : 2 ^ 26 * Z.abs al * Z.abs bh <= Z.abs a * (2 * Z.abs b)).
    { apply Z.mul_le_mono_nonneg; [|exact La|exact Nbh|exact Hb].
      clear - Nal. lia. }
    change (2 ^ 26) with (2 * 2 ^ 25) in X.
    clear - X. lia. }
  assert (B3 : 2 ^ 52 * Z.abs (al * bl) <= Z.abs a * Z.abs b).
  { rewrite Z.abs_mul.
    assert (X : 2 ^ 26 * Z.abs al * (2 ^ 26 * Z.abs bl) <= Z.abs a * Z.abs b).
    { apply Z.mul_le_mono_nonneg; [|exact La| |exact Lb].
      - clear - Nal. lia.
      - clear - Nbl. lia. }
    change (2 ^ 52) with (2 ^ 26 * 2 ^ 26).
    clear - X. lia. }
  assert (ED : ah * bh - a * b = - (ah * bl + al * bh + al * bl))
    by (rewrite <- Ea, <- Eb; ring).
  assert (TD : Z.abs (ah * bh - a * b)
               <= Z.abs (ah * bl) + Z.abs (al * bh) + Z.abs (al * bl)).
  { rewrite ED, Z.abs_opp.
    generalize (ah * bl) (al * bh) (al * bl). clear. intros. lia. }
  assert (TY : Z.abs (ah * bh) <= Z.abs (ah * bh - a * b) + Z.abs a * Z.abs b).
  { rewrite <- (Z.abs_mul a b).
    generalize (ah * bh) (a * b). clear. intros. lia. }
  set (x1 := RNdiv (ah * bh) 1074 * 2 ^ 1074 - ah * bh).
  set (x0 := RNdiv (a * b) 1074 * 2 ^ 1074 - a * b) in *.
  assert (TX : Z.abs ((RNdiv (ah * bh) 1074 - RNdiv (a * b) 1074) * 2 ^ 1074)
               <= Z.abs x1 + Z.abs (ah * bh - a * b) + Z.abs x0).
  { replace ((RNdiv (ah * bh) 1074 - RNdiv (a * b) 1074) * 2 ^ 1074)
      with (x1 + (ah * bh - a * b) - x0) by (unfold x1, x0; ring).
    generalize x1 (ah * bh - a * b) x0. clear. intros. lia. }
  assert (E1 : 2 * Z.abs x1 <= 2 ^ 1 * W).
  { rewrite <- (Pj 1) by lia.
    apply (RNdiv_error_le (ah * bh) 1074 (c + 1)); [lia|lia|].
    replace (c + 1 + 1074 + 53) with (c + 54 + 1074) by lia.
    rewrite (Pj 54) by lia.
    revert TY TD B1 B2 B3 BY.
    generalize (Z.abs (ah * bh)) (Z.abs (ah * bh - a * b))
      (Z.abs (ah * bl)) (Z.abs (al * bh)) (Z.abs (al * bl))
      (Z.abs a * Z.abs b).
    clearbody W. clear - PW. intros. lia. }
  assert (Q2 : Z.abs (ah * bl) < 2 ^ 28 * W).
  { revert B1 BY. generalize (Z.abs (ah * bl)) (Z.abs a * Z.abs b).
    clearbody W. clear. intros. lia. }
  assert (Q3 : Z.abs (al * bh) < 2 ^ 28 * W).
  { revert B2 BY. generalize (Z.abs (al * bh)) (Z.abs a * Z.abs b).
    clearbody W. clear. intros. lia. }
  assert (Q4 : Z.abs (al * bl) < 2 ^ 1 * W).
  { revert B3 BY. generalize (Z.abs (al * bl)) (Z.abs a * Z.abs b).
    clearbody W. clear - PW. intros. lia. }
  split; [|split; [|split]].
  - assert (X : Z.abs ((RNdiv (ah * bh) 1074 - RNdiv (a * b) 1074) * 2 ^ 1074)
                <= 2 ^ 30 * W).
    { revert TX E1 EY TD Q2 Q3 Q4.
      generalize (Z.abs ((RNdiv (ah * bh) 1074 - RNdiv (a * b) 1074) * 2 ^ 1074))
        (Z.abs x1) (Z.abs x0) (Z.abs (ah * bh - a * b))
        (Z.abs (ah * bl)) (Z.abs (al * bh)) (Z.abs (al * bl)).
      clearbody W. clear - PW. intros. lia. }
    unfold W in X. rewrite Z.pow_add_r in X by lia.
    rewrite Z.abs_mul, (Z.abs_eq (2 ^ 1074)), Z.mul_assoc in X
      by (apply Z.pow_nonneg; lia).
    apply Z.mul_le_mono_pos_r in X; [|apply pow2_pos; lia].
    rewrite Z.pow_add_r by lia. rewrite (Z.mul_comm (2 ^ c)). exact X.
  - apply RNdiv_lt_pow2; [lia|lia|]. rewrite (Pj 28) by lia. exact Q2.
  - apply RNdiv_lt_pow2; [lia|lia|]. rewrite (Pj 28) by lia. exact Q3.
  - apply RNdiv_lt_pow2; [lia|lia|]. rewrite (Pj 1) by lia. exact Q4.
Qed.

Lemma RN_sum_pow2 x y k :
  0 <= k -> Z.abs x <= 2 ^ k -> Z.abs y <= 2 ^ k ->
  Z.abs (RN (x + y)) <= 2 ^ (k + 1).
Proof.
  intros Hk Bx By. apply RN_abs_le_fmt; [apply fmt_pow2; lia|].
  rewrite Z.pow_add_r by lia. change (2 ^ 1) with 2.
  revert Bx By. generalize (2 ^ k). clear. intros. lia.
Qed.

Lemma pow2_below_OVF k : k <= 2097 -> 2 ^ k < OVF.
Proof. intros H. unfold OVF. apply pow2_lt; lia. Qed.

(** The split-based product without any assumption of exactness: the
    residual is finite and at most [2^33] units in the last place of the
    product. *)
Lemma two_prod_split_loose a b :
  valid a -> valid b -> is_finite a = true -> is_finite b = true ->
  is_finite (fmul a b) = true -> split_safe a b ->
  exists c, 0 <= c <= cexp (Zval (fmul a b)) /\
    Z.abs (Zval a * Zval b) < 2 ^ (c + 1074 + 53) /\
    hi (Benchmark.two_prod a b) = fmul a b /\
    is_finite (lo (Benchmark.two_prod a b)) = true /\
    Z.abs (Zval (lo (Benchmark.two_prod a b))) <= 2 ^ (c + 33).
Proof.
  intros Va Vb Fa Fb Fp (Sa & Sb & Fq1).
  destruct (split_double_sound a Va Fa Sa) as (Vah & Val & Fah & Fal & Zah & Zal).
  destruct (split_double_sound b Vb Fb Sb) as (Vbh & Vbl & Fbh & Fbl & Zbh & Zbl).
  destruct (split_halves (Zval a) (Zval_fmt a Va)) as (A1 & A2 & A3).
  destruct (split_halves (Zval b) (Zval_fmt b Vb)) as (B1 & B2 & B3).
  rewrite <- Zah, <- Zal in A1. rewrite <- Zal in A2. rewrite <- Zah in A3.
  rewrite <- Zbh, <- Zbl in B1. rewrite <- Zbl in B2. rewrite <- Zbh in B3.
  destruct (fmul_spec a b Va Vb Fa Fb) as [_ Zp]. specialize (Zp Fp).
  destruct (RNdiv_props (Zval a * Zval b) 1074 ltac:(lia))
    as (c & Hc & BY & _ & EY & Cc).
  assert (Vp : valid (fmul a b)) by (now apply fmul_valid).
  pose proof (Zval_cexp (fmul a b) Vp) as C45.
  rewrite <- Zp in Cc.
  exists c. split; [split; [exact Hc|exact Cc]|]. split; [exact BY|].
  unfold Benchmark.two_prod.
  destruct (Benchmark.split_double a) as [a_hi a_lo].
  destruct (Benchmark.split_double b) as [b_hi b_lo].
  cbn [fst snd] in *. cbn [hi lo]. split; [reflexivity|].
  destruct (prod_loose (Zval a) (Zval b) (Zval a_hi) (Zval a_lo)
              (Zval b_hi) (Zval b_lo) c A1 B1 A2 A3 B2 B3 Hc BY EY)
    as (D1 & D2 & D3 & D4).
  clear A1 A2 A3 B1 B2 B3 EY BY Zah Zal Zbh Zbl.
  rewrite <- Zp in D1.
  set (p := fmul a b) in *.
  (* the first partial product and the subtraction of [p] *)
  destruct (fmul_spec a_hi b_hi Vah Vbh Fah Fbh) as [_ Zq1].
  specialize (Zq1 Fq1). rewrite <- Zq1 in D1.
  assert (Vq1 : valid (fmul a_hi b_hi)) by (now apply fmul_valid).
  set (q1 := fmul a_hi b_hi) in *.
  assert (R1 : Z.abs (RN (Zval q1 - Zval p)) <= 2 ^ (c + 30))
    by (apply RN_abs_le_fmt; [apply fmt_pow2; lia|exact D1]).
  destruct (fsub_step q1 p Vq1 Vp Fq1 Fp) as (Vr1 & Fr1 & Zr1).
  { apply Z.le_lt_trans with (2 ^ (c + 30)); [exact R1|].
    apply pow2_below_OVF. lia. }
  rewrite <- Zr1 in R1. set (r1 := fsub q1 p) in *.
  (* the cross products *)
  destruct (fmul_spec a_hi b_lo Vah Vbl Fah Fbl) as [Fi2 Zq2].
  assert (Fq2 : is_finite (fmul a_hi b_lo) = true).
  { apply Fi2. apply Z.le_lt_trans with (2 ^ (c + 28)); [exact D2|].
    apply pow2_below_OVF. lia. }
  rewrite <- (Zq2 Fq2) in D2.
  assert (Vq2 : valid (fmul a_hi b_lo)) by (now apply fmul_valid).
  set (q2 := fmul a_hi b_lo) in *.
  assert (R2 : Z.abs (RN (Zval r1 + Zval q2)) <= 2 ^ (c + 30 + 1)).
  { apply RN_sum_pow2; [lia|exact R1|].
    apply Z.le_trans with (2 ^ (c + 28)); [exact D2|apply pow2_le; lia]. }
  destruct (fadd_step r1 q2 Vr1 Vq2 Fr1 Fq2) as (Vr2 & Fr2 & Zr2).
  { apply Z.le_lt_trans with (2 ^ (c + 30 + 1)); [exact R2|].
    apply pow2_below_OVF. lia. }
  rewrite <- Zr2 in R2. set (r2 := fadd r1 q2) in *.
  destruct (fmul_spec a_lo b_hi Val Vbh Fal Fbh) as [Fi3 Zq3].
  assert (Fq3 : is_finite (fmul a_lo b_hi) = true).
  { apply Fi3. apply Z.le_lt_trans with (2 ^ (c + 28)); [exact D3|].
    apply pow2_below_OVF. lia. }
  rewrite <- (Zq3 Fq3) in D3.
  assert (Vq3 : valid (fmul a_lo b_hi)) by (now apply fmul_valid).
  set (q3 := fmul a_lo b_hi) in *.
  assert (R3 : Z.abs (RN (Zval r2 + Zval q3)) <= 2 ^ (c + 30 + 1 + 1)).
  { apply RN_sum_pow2; [lia|exact R2|].
    apply Z.le_trans with (2 ^ (c + 28)); [exact D3|apply pow2_le; lia]. }
  destruct (fadd_step r2 q3 Vr2 Vq3 Fr2 Fq3) as (Vr3 & Fr3 & Zr3).
  { apply Z.le_lt_trans with (2 ^ (c + 30 + 1 + 1)); [exact R3|].
    apply pow2_below_OVF. lia. }
  rewrite <- Zr3 in R3. set (r3 := fadd r2 q3) in *.
  (* the last product and the residual *)
  destruct (fmul_spec a_lo b_lo Val Vbl Fal Fbl) as [Fi4 Zq4].
  assert (Fq4 : is_finite (fmul a_lo b_lo) = true).
  { apply Fi4. apply Z.le_lt_trans with (2 ^ (c + 1)); [exact D4|].
    apply pow2_below_OVF. lia. }
  rewrite <- (Zq4 Fq4) in D4.
  assert (Vq4 : valid (fmul a_lo b_lo)) by (now apply fmul_valid).
  set (q4 := fmul a_lo b_lo) in *.
  assert (R4 : Z.abs (RN (Zval r3 + Zval q4)) <= 2 ^ (c + 30 + 1 + 1 + 1)).
  { apply RN_sum_pow2; [lia|exact R3|].
    apply Z.le_trans with (2 ^ (c + 1)); [exact D4|apply pow2_le; lia]. }
  destruct (fadd_step r3 q4 Vr3 Vq4 Fr3 Fq4) as (Ve & Fe & Ze).
  { apply Z.le_lt_trans with (2 ^ (c + 30 + 1 + 1 + 1)); [exact R4|].
    apply pow2_below_OVF. lia. }
  split; [exact Fe|]. rewrite Ze.
  replace (c + 33) with (c + 30 + 1 + 1 + 1) by lia. exact R4.
Qed.

End LooseProducts.

Section LooseSums.

Lemma add_order_loose_aux x y la lb :
  fmt x -> fmt y -> cexp y <= cexp x ->
  Z.abs la <= 2 ^ (cexp x + 33) -> Z.abs lb <= 2 ^ (cexp y + 33) ->
  Z.abs (RN (RN (la + lb) + (x + y - RN (x + y)))) <= Z.abs (RN (x + y)) \/
  (2 ^ cexp (RN (RN (la + lb) + (x + y - RN (x + y)))) | RN (x + y)).
Proof.
  intros Fx Fy Cyx Na Nb.
  pose proof (cexp_nonneg x) as Cx. pose proof (cexp_nonneg y) as Cy.
  assert (Dxy : (2 ^ cexp y | x + y)).
  { apply Z.divide_add_r; [|exact Fy].
    apply Z.divide_trans with (2 ^ cexp x); [|exact Fx].
    apply pow2_divide. lia. }
  assert (Ds : (2 ^ cexp y | RN (x + y))) by (now apply RN_divide).
  assert (Bw : Z.abs (RN (la + lb)) <= 2 ^ (cexp x + 33 + 1)).
  { apply RN_sum_pow2; [lia|exact Na|].
    apply Z.le_trans with (2 ^ (cexp y + 33)); [exact Nb|apply pow2_le; lia]. }
  pose proof (RN_error (x + y)) as Er.
  pose proof (cexp_nonneg (x + y)) as Cc.
  set (w := RN (la + lb)) in *. set (s := RN (x + y)) in *.
  set (c := cexp (x + y)) in *.
  destruct (Z.eq_dec (x + y - s) 0) as [E0|NE].
  - rewrite E0, Z.add_0_r, (RN_id w) by apply RN_fmt.
    destruct (Z_le_gt_dec (cexp x) (cexp y + 1)) as [Near|Far].
    + right. apply Z.divide_trans with (2 ^ cexp y); [|exact Ds].
      apply pow2_divide. split; [apply cexp_nonneg|].
      apply cexp_le_of_lt; [exact Cy|].
      apply Z.le_lt_trans with (2 ^ (cexp x + 33 + 1)); [exact Bw|].
      apply pow2_lt; lia.
    + left.
      pose proof (cexp_lower x ltac:(lia)) as Lx.
      pose proof (cexp_upper y) as Uy.
      pose proof (pow2_le (cexp y + 53) (cexp x + 51) ltac:(lia)) as P1.
      pose proof (pow2_le (cexp x + 33 + 1) (cexp x + 51) ltac:(lia)) as P2.
      replace (cexp x + 52) with (cexp x + 51 + 1) in Lx by lia.
      rewrite (Z.pow_add_r 2 (cexp x + 51) 1) in Lx by lia.
      change (2 ^ 1) with 2 in Lx.
      assert (Es : s = x + y) by lia.
      rewrite Es.
      revert Lx Uy P1 P2 Bw.
      generalize (2 ^ (cexp x + 51)) (2 ^ (cexp y + 53)) (2 ^ (cexp x + 33 + 1)).
      clearbody w. clear. intros. lia.
  - assert (Hc : cexp y < c).
    { destruct (Z_le_gt_dec c (cexp y)) as [L|G]; [exfalso|lia].
      apply NE. unfold s. rewrite RN_id; [ring|].
      unfold fmt. fold c. apply Z.divide_trans with (2 ^ cexp y); [|exact Dxy].
      apply pow2_divide. lia. }
    pose proof (cexp_lower (x + y) ltac:(fold c; lia)) as Lc. fold c in Lc.
    assert (Ls : 2 ^ (c + 52) <= Z.abs s).
    { apply RN_ge_pow2; [lia|exact Lc]. }
    assert (Hx : cexp x <= c + 1).
    { destruct (Z_le_gt_dec (cexp x) (c + 1)) as [L|G]; [exact L|exfalso].
      pose proof (cexp_lower x ltac:(lia)) as Lx.
      pose proof (cexp_upper y) as Uy.
      pose proof (pow2_le (cexp y + 53) (cexp x + 50) ltac:(lia)) as P1.
      assert (PU : 0 < 2 ^ cexp x) by (now apply pow2_pos).
      rewrite pow2_shift in Lx by lia.
      rewrite (pow2_shift (cexp x) 50) in P1 by lia.
      assert (B : 2 ^ (cexp x - 1 + 52) <= Z.abs (x + y)).
      { replace (cexp x - 1 + 52) with (cexp x + 51) by lia.
        rewrite pow2_shift by lia. clear - Lx Uy P1 PU. lia. }
      apply cexp_ge_of_le in B. fold c in B. lia. }
    left.
    apply Z.le_trans with (2 ^ (c + 35 + 1)).
    + apply RN_sum_pow2; [lia| |].
      * apply Z.le_trans with (2 ^ (cexp x + 33 + 1)); [exact Bw|].
        apply pow2_le; lia.
      * pose proof (pow2_le c (c + 35) ltac:(lia)) as P1.
        replace (s - (x + y)) with (- (x + y - s)) in Er by ring.
        rewrite Z.abs_opp in Er.
        pose proof (pow2_pos c Cc) as P0.
        revert Er P1 P0. generalize (Z.abs (x + y - s)) (2 ^ c) (2 ^ (c + 35)).
        clear. intros. lia.
    + apply Z.le_trans with (2 ^ (c + 52)); [|exact Ls].
      apply pow2_le. lia.
Qed.

(** The sum of two pairs whose low parts are at most [2^33] units in
    the last place of their high parts: the low-order sum is below the
    rounded sum of the high parts, or that sum is a multiple of its unit
    in the last place. *)
Lemma add_order_loose x y la lb :
  fmt x -> fmt y ->
  Z.abs la <= 2 ^ (cexp x + 33) -> Z.abs lb <= 2 ^ (cexp y + 33) ->
  Z.abs (RN (RN (la + lb) + (x + y - RN (x + y)))) <= Z.abs (RN (x + y)) \/
  (2 ^ cexp (RN (RN (la + lb) + (x + y - RN (x + y)))) | RN (x + y)).
Proof.
  intros Fx Fy Na Nb.
  destruct (Z_le_gt_dec (cexp y) (cexp x)) as [L|G].
  - now apply add_order_loose_aux.
  - rewrite (Z.add_comm x y), (Z.add_comm la lb).
    apply add_order_loose_aux; auto. lia.
Qed.

Lemma low_sum_finite_loose x y la lb :
  fmt x -> fmt y ->
  Z.abs la <= 2 ^ 2078 -> Z.abs lb <= 2 ^ 2078 ->
  Z.abs (RN (x + y)) < OVF ->
  Z.abs (RN (la + lb)) < OVF /\
  Z.abs (RN (RN (la + lb) + (x + y - RN (x + y)))) < OVF.
Proof.
  intros Fx Fy Ba Bb Bs.
  assert (Bw : Z.abs (RN (la + lb)) <= 2 ^ (2078 + 1))
    by (apply RN_sum_pow2; [lia|exact Ba|exact Bb]).
  split.
  - apply Z.le_lt_trans with (2 ^ (2078 + 1)); [exact Bw|].
    apply pow2_below_OVF. lia.
  - apply Z.le_lt_trans with (2 ^ (2078 + 1 + 1)); [|apply pow2_below_OVF; lia].
    apply RN_sum_pow2; [lia| |].
    + apply Z.le_trans with (2 ^ (2078 + 1)); [exact Bw|apply pow2_le; lia].
    + pose proof (RN_error (x + y)) as Er.
      pose proof (pow2_le _ _ (RN_finite_cexp _ Bs)) as Pc.
      pose proof (pow2_le 2045 (2078 + 1) ltac:(lia)) as P1.
      replace (RN (x + y) - (x + y)) with (- (x + y - RN (x + y))) in Er by ring.
      rewrite Z.abs_opp in Er.
      pose proof (pow2_pos _ (cexp_nonneg (x + y))) as P0.
      revert Er Pc P1 P0.
      generalize (Z.abs (x + y - RN (x + y))) (2 ^ cexp (x + y)) (2 ^ 2045)
        (2 ^ (2078 + 1)).
      clear. intros. lia.
Qed.

(** A pair whose low part is at most [2^33] units in the last place of
    its high part. *)
Lemma loose_bound x l :
  valid x -> Z.abs l <= 2 ^ (cexp (Zval x) + 33) -> Z.abs l <= 2 ^ 2078.
Proof.
  intros V N. apply Z.le_trans with (2 ^ (cexp (Zval x) + 33)); [exact N|].
  apply pow2_le. pose proof (Zval_cexp x V). lia.
Qed.

Lemma normalized_loose h l :
  normalized h l -> Z.abs (Zval l) <= 2 ^ (cexp (Zval h) + 33).
Proof.
  unfold normalized. intros N.
  pose proof (cexp_nonneg (Zval h)) as C.
  pose proof (pow2_le (cexp (Zval h)) (cexp (Zval h) + 33) ltac:(lia)) as P.
  pose proof (pow2_pos _ C) as P0.
  revert N P P0. generalize (Z.abs (Zval l)) (2 ^ cexp (Zval h))
    (2 ^ (cexp (Zval h) + 33)). clear. intros. lia.
Qed.

(** [dd_add] renormalizes: the operands need not be normalized, it is
    enough that their low parts are at most [2^33] units in the last
    place of their high parts. *)
Lemma dd_add_loose A B :
  dd_valid A -> dd_valid B -> dd_finite A = true -> dd_finite B = true ->
  Z.abs (Zval (lo A)) <= 2 ^ (cexp (Zval (hi A)) + 33) ->
  Z.abs (Zval (lo B)) <= 2 ^ (cexp (Zval (hi B)) + 33) ->
  sum_safe (hi A) (hi B) (Benchmark.dd_add A B) ->
  dd_normalized (Benchmark.dd_add A B).
Proof.
  intros [VA1 VA2] [VB1 VB2] FA FB NA NB (Fs & Fv & Fr).
  apply andb_prop in FA, FB. destruct FA as [FA1 FA2], FB as [FB1 FB2].
  pose proof (two_sum_sound (hi A) (hi B) VA1 VB1 FA1 FB1 Fs Fv) as S.
  cbv zeta in S. destruct S as (Vs & Ve & Fe & Zs & Ze).
  unfold Benchmark.dd_add in Fr |- *.
  set (s := Benchmark.two_sum (hi A) (hi B)) in *.
  assert (Fhs : is_finite (hi s) = true) by exact Fs.
  pose proof (loose_bound (hi A) (Zval (lo A)) VA1 NA) as BA.
  pose proof (loose_bound (hi B) (Zval (lo B)) VB1 NB) as BB.
  pose proof (Zval_lt_OVF (hi s) Vs) as Bs. rewrite Zs in Bs.
  destruct (low_sum_finite_loose (Zval (hi A)) (Zval (hi B)) (Zval (lo A))
              (Zval (lo B)) (Zval_fmt (hi A) VA1) (Zval_fmt (hi B) VB1)
              BA BB Bs)
    as [Bw Bt].
  pose proof (add_order_loose (Zval (hi A)) (Zval (hi B)) (Zval (lo A))
                (Zval (lo B)) (Zval_fmt (hi A) VA1) (Zval_fmt (hi B) VB1)
                NA NB) as O.
  destruct (fadd_step (lo A) (lo B) VA2 VB2 FA2 FB2 Bw) as (Vw & Fw & Zw).
  rewrite <- Zw, <- Ze in Bt, O. rewrite <- Zs in O.
  destruct (fadd_step _ (lo s) Vw Ve Fw Fe Bt) as (Vt & Ft & Zt).
  rewrite <- Zt in O.
  apply quick_two_sum_unit_normalized; assumption.
Qed.

End LooseSums.

Section RenormalizedProducts.

(** A cross product with the low part of a normalized operand is at
    most one unit in the last place of the main product. *)
Lemma cross_loose x l y c :
  2 * Z.abs l <= 2 ^ cexp x -> 0 <= c ->
  Z.abs (x * y) < 2 ^ (c + 1074 + 53) ->
  Z.abs (RNdiv (l * y) 1074) <= 2 ^ c.
Proof.
  intros N Hc B.
  apply RNdiv_lt_pow2; [lia|exact Hc|].
  assert (L : 2 ^ 53 * Z.abs l <= Z.abs x).
  { pose proof (cexp_nonneg x) as Cx.
    destruct (Z.eq_dec (cexp x) 0) as [C0|C0].
    - rewrite C0 in N. change (2 ^ 0) with 1 in N.
      assert (E : Z.abs l = 0) by (clear - N; lia).
      rewrite E. clear. lia.
    - pose proof (cexp_lower x ltac:(lia)) as Lx.
      rewrite pow2_shift in Lx by lia.
      change (2 ^ 53) with (2 ^ 52 * 2).
      revert N Lx. generalize (Z.abs l) (2 ^ cexp x) (Z.abs x).
      clear. intros. lia. }
  rewrite (Z.pow_add_r 2 (c + 1074) 53) in B by lia.
  rewrite Z.abs_mul in B |- *.
  assert (M : 2 ^ 53 * Z.abs l * Z.abs y <= Z.abs x * Z.abs y).
  { apply Z.mul_le_mono_nonneg_r; [apply Z.abs_nonneg|exact L]. }
  revert M B. generalize (Z.abs x * Z.abs y) (2 ^ (c + 1074)).
  rewrite <- Z.mul_assoc. generalize (Z.abs l * Z.abs y).
  clear. intros. lia.
Qed.

(** The renormalization at the end of a product is exact as soon as the
    low-order term is below [2^53] units in the last place of the
    rounded product. *)
Lemma renorm_small p t :
  valid p -> valid t -> is_finite p = true -> is_finite t = true ->
  Z.abs (Zval t) < 2 ^ (cexp (Zval p) + 53) ->
  is_finite (fadd p t) = true ->
  dd_normalized (Benchmark.quick_two_sum p t).
Proof.
  intros Vp Vt Fp Ft B Fr.
  apply quick_two_sum_unit_normalized; try assumption.
  right. apply fmt_divide_cexp; [now apply Zval_fmt|].
  apply cexp_le_of_lt; [apply cexp_nonneg|exact B].
Qed.

Lemma dd_mul_d_renormalized A b :
  dd_valid A -> valid b -> dd_normalized A -> is_finite b = true ->
  prod_finite (hi A) b ->
  is_finite (hi (Benchmark.dd_mul_d A b)) = true ->
  dd_normalized (Benchmark.dd_mul_d A b).
Proof.
  intros [VA1 VA2] Vb (FA1 & FA2 & NA) Fb (Fp & S) Fr.
  destruct (two_prod_split_loose (hi A) b VA1 Vb FA1 Fb Fp S)
    as (c & [Hc Cc] & BY & Eh & Fl & Bl).
  destruct (two_prod_valid (hi A) b VA1 Vb) as [Vh Vl].
  unfold Benchmark.dd_mul_d in Fr |- *.
  set (p := Benchmark.two_prod (hi A) b) in *.
  assert (Fh : is_finite (hi p) = true) by (rewrite Eh; exact Fp).
  rewrite <- Eh in Cc.
  pose proof (Zval_cexp (hi p) Vh) as C45.
  unfold normalized in NA.
  pose proof (cross_loose (Zval (hi A)) (Zval (lo A)) (Zval b) c NA Hc BY) as Bq.
  destruct (fmul_spec (lo A) b VA2 Vb FA2 Fb) as [Fi Zv].
  assert (Fm : is_finite (fmul (lo A) b) = true).
  { apply Fi. apply Z.le_lt_trans with (2 ^ c); [exact Bq|].
    apply pow2_below_OVF. clear - Cc C45. lia. }
  rewrite <- (Zv Fm) in Bq.
  assert (Vq : valid (fmul (lo A) b)) by (now apply fmul_valid).
  assert (Bt : Z.abs (RN (Zval (fmul (lo A) b) + Zval (lo p)))
               <= 2 ^ (c + 33 + 1)).
  { apply RN_sum_pow2; [lia| |exact Bl].
    apply Z.le_trans with (2 ^ c); [exact Bq|apply pow2_le; clear; lia]. }
  destruct (fadd_step (fmul (lo A) b) (lo p) Vq Vl Fm Fl) as (Vt & Ft & Zt).
  { apply Z.le_lt_trans with (2 ^ (c + 33 + 1)); [exact Bt|].
    apply pow2_below_OVF. clear - Cc C45. lia. }
  rewrite <- Zt in Bt.
  apply renorm_small; try assumption.
  apply Z.le_lt_trans with (2 ^ (c + 33 + 1)); [exact Bt|].
  apply pow2_lt; clear - Cc Hc; lia.
Qed.

Lemma two_prod_loose_pair a b :
  valid a -> valid b -> is_finite a = true -> is_finite b = true ->
  prod_finite a b ->
  dd_finite (Benchmark.two_prod a b) = true /\
  Z.abs (Zval (lo (Benchmark.two_prod a b)))
  <= 2 ^ (cexp (Zval (hi (Benchmark.two_prod a b))) + 33).
Proof.
  intros Va Vb Fa Fb (Fp & S).
  destruct (two_prod_split_loose a b Va Vb Fa Fb Fp S)
    as (c & [Hc Cc] & _ & Eh & Fl & Bl).
  split.
  - unfold dd_finite. now rewrite Eh, Fp, Fl.
  - rewrite Eh. apply Z.le_trans with (2 ^ (c + 33)); [exact Bl|].
    apply pow2_le. lia.
Qed.

Lemma dd_normalized_loose r :
  dd_normalized r ->
  dd_finite r = true /\
  Z.abs (Zval (lo r)) <= 2 ^ (cexp (Zval (hi r)) + 33).
Proof.
  intros (F1 & F2 & N). split.
  - unfold dd_finite. now rewrite F1, F2.
  - now apply normalized_loose.
Qed.

Lemma dd_mul_renormalized A B :
  dd_valid A -> dd_valid B -> dd_finite A = true -> dd_finite B = true ->
  mul_finite A B -> dd_normalized (Benchmark.dd_mul A B).
Proof.
  intros [VA1 VA2] [VB1 VB2] FA FB M.
  apply andb_prop in FA, FB. destruct FA as [FA1 FA2], FB as [FB1 FB2].
  unfold mul_finite in M. cbv zeta in M.
  destruct M as (P0 & P1 & P2 & P3 & S1 & S2 & S3).
  unfold Benchmark.dd_mul.
  destruct (two_prod_loose_pair _ _ VA1 VB1 FA1 FB1 P0) as [F0 N0].
  destruct (two_prod_loose_pair _ _ VA1 VB2 FA1 FB2 P1) as [F1 N1].
  destruct (two_prod_loose_pair _ _ VA2 VB1 FA2 FB1 P2) as [F2 N2].
  destruct (two_prod_loose_pair _ _ VA2 VB2 FA2 FB2 P3) as [F3 N3].
  pose proof (two_prod_valid _ _ VA1 VB1) as W0.
  pose proof (two_prod_valid _ _ VA1 VB2) as W1.
  pose proof (two_prod_valid _ _ VA2 VB1) as W2.
  pose proof (two_prod_valid _ _ VA2 VB2) as W3.
  pose proof (dd_add_loose _ _ W0 W1 F0 F1 N0 N1 S1) as R1.
  pose proof (dd_add_valid _ _ W0 W1) as V1.
  destruct (dd_normalized_loose _ R1) as [G1 L1].
  pose proof (dd_add_loose _ _ V1 W2 G1 F2 L1 N2 S2) as R2.
  pose proof (dd_add_valid _ _ V1 W2) as V2.
  destruct (dd_normalized_loose _ R2) as [G2 L2].
  exact (dd_add_loose _ _ V2 W3 G2 F3 L2 N3 S3).
Qed.

Lemma dd_mul_fma_renormalized A B :
  dd_valid A -> dd_valid B -> dd_normalized A -> dd_normalized B ->
  is_finite (fmul (hi A) (hi B)) = true ->
  is_finite (hi (Bitcompare.dd_mul A B)) = true ->
  dd_normalized (Bitcompare.dd_mul A B).
Proof.
  intros [VA1 VA2] [VB1 VB2] (FA1 & FA2 & NA) (FB1 & FB2 & NB) Fp Fr.
  destruct (fmul_spec (hi A) (hi B) VA1 VB1 FA1 FB1) as [_ Zp].
  specialize (Zp Fp).
  destruct (RNdiv_props (Zval (hi A) * Zval (hi B)) 1074 ltac:(lia))
    as (c & Hc & BY & _ & EY & Cc).
  rewrite <- Zp in EY, Cc.
  assert (Vp : valid (fmul (hi A) (hi B))) by (now apply fmul_valid).
  pose proof (Zval_cexp _ Vp) as C45.
  assert (Vn : valid (fneg (fmul (hi A) (hi B)))) by (now apply valid_fneg).
  assert (Fn : is_finite (fneg (fmul (hi A) (hi B))) = true)
    by (now rewrite is_finite_fneg).
  pose proof (ffma_spec (hi A) (hi B) _ VA1 VB1 Vn FA1 FB1 Fn) as X.
  cbv zeta in X. destruct X as [Fi Zv].
  assert (Bl : Z.abs (RNdiv (Zval (hi A) * Zval (hi B)
                              + Zval (fneg (fmul (hi A) (hi B))) * 2 ^ 1074)
                        1074) <= 2 ^ c).
  { apply RNdiv_lt_pow2; [lia|exact Hc|].
    rewrite Zval_fneg.
    replace (Zval (hi A) * Zval (hi B)
             + - Zval (fmul (hi A) (hi B)) * 2 ^ 1074)
      with (- (Zval (fmul (hi A) (hi B)) * 2 ^ 1074
               - Zval (hi A) * Zval (hi B))) by ring.
    rewrite Z.abs_opp.
    pose proof (pow2_pos (c + 1074) ltac:(lia)) as P0.
    revert EY P0.
    generalize (Z.abs (Zval (fmul (hi A) (hi B)) * 2 ^ 1074
                       - Zval (hi A) * Zval (hi B))) (2 ^ (c + 1074)).
    clear. intros. lia. }
  assert (Fl : is_finite (ffma (hi A) (hi B) (fneg (fmul (hi A) (hi B)))) = true).
  { apply Fi. apply Z.le_lt_trans with (2 ^ c); [exact Bl|].
    apply pow2_below_OVF. clear - Cc C45. lia. }
  rewrite <- (Zv Fl) in Bl.
  assert (Vl : valid (ffma (hi A) (hi B) (fneg (fmul (hi A) (hi B)))))
    by (now apply ffma_valid).
  unfold Bitcompare.dd_mul in Fr |- *.
  unfold Bitcompare.two_prod in Fr |- *. cbn [hi lo] in Fr |- *.
  change (Bitcompare.quick_two_sum ?x ?y)
    with (Benchmark.quick_two_sum x y) in Fr |- *.
  set (p := fmul (hi A) (hi B)) in *.
  set (e := ffma (hi A) (hi B) (fneg p)) in *.
  unfold normalized in NA, NB.
  (* the two cross products *)
  assert (BY' : Z.abs (Zval (hi B) * Zval (hi A)) < 2 ^ (c + 1074 + 53))
    by (rewrite Z.mul_comm; exact BY).
  pose proof (cross_loose (Zval (hi B)) (Zval (lo B)) (Zval (hi A)) c NB Hc BY')
    as Bq1.
  rewrite (Z.mul_comm (Zval (lo B))) in Bq1.
  pose proof (cross_loose (Zval (hi A)) (Zval (lo A)) (Zval (hi B)) c NA Hc BY)
    as Bq2.
  destruct (fmul_spec (hi A) (lo B) VA1 VB2 FA1 FB2) as [Fi1 Zv1].
  assert (Fm1 : is_finite (fmul (hi A) (lo B)) = true).
  { apply Fi1. apply Z.le_lt_trans with (2 ^ c); [exact Bq1|].
    apply pow2_below_OVF. clear - Cc C45. lia. }
  rewrite <- (Zv1 Fm1) in Bq1.
  assert (Vq1 : valid (fmul (hi A) (lo B))) by (now apply fmul_valid).
  destruct (fmul_spec (lo A) (hi B) VA2 VB1 FA2 FB1) as [Fi2 Zv2].
  assert (Fm2 : is_finite (fmul (lo A) (hi B)) = true).
  { apply Fi2. apply Z.le_lt_trans with (2 ^ c); [exact Bq2|].
    apply pow2_below_OVF. clear - Cc C45. lia. }
  rewrite <- (Zv2 Fm2) in Bq2.
  assert (Vq2 : valid (fmul (lo A) (hi B))) by (now apply fmul_valid).
  assert (Bc : Z.abs (RN (Zval (fmul (hi A) (lo B)) + Zval (fmul (lo A) (hi B))))
               <= 2 ^ (c + 1))
    by (apply RN_sum_pow2; [exact Hc|exact Bq1|exact Bq2]).
  destruct (fadd_step _ _ Vq1 Vq2 Fm1 Fm2) as (Vc & Fc & Zc).
  { apply Z.le_lt_trans with (2 ^ (c + 1)); [exact Bc|].
    apply pow2_below_OVF. clear - Cc C45. lia. }
  rewrite <- Zc in Bc.
  assert (Bt : Z.abs (RN (Zval e + Zval (fadd (fmul (hi A) (lo B))
                                              (fmul (lo A) (hi B)))))
               <= 2 ^ (c + 1 + 1)).
  { apply RN_sum_pow2; [lia| |exact Bc].
    apply Z.le_trans with (2 ^ c); [exact Bl|apply pow2_le; clear; lia]. }
  destruct (fadd_step e _ Vl Vc Fl Fc) as (Vt & Ft & Zt).
  { apply Z.le_lt_trans with (2 ^ (c + 1 + 1)); [exact Bt|].
    apply pow2_below_OVF. clear - Cc C45. lia. }
  rewrite <- Zt in Bt.
  apply renorm_small; try assumption.
  apply Z.le_lt_trans with (2 ^ (c + 1 + 1)); [exact Bt|].
  apply pow2_lt; clear - Cc Hc; lia.
Qed.

End RenormalizedProducts.

(** C3, as stated, fails: the operands [(0, 1 + 2^-52)] and [2^-53] are
    finite and nothing overflows, but [dd_add_d] hands
    [quick_two_sum] a first operand smaller than the second and returns
    [(1 + 2^-51, -2^-52)], whose low part is a whole unit in the last
    place of the high part.  With normalized operands the invariant is
    lost to an intermediate overflow: [(-3 * 2^970, 0)] and
    [(DBL_MAX, 0)] have a finite sum, and [dd_add] returns
    [(NaN, NaN)].  Products lose it the same way: [2^1000 * 2^-1000] is
    [1], but the split of [2^1000] overflows and [dd_mul_d] returns
    [(NaN, NaN)]; the square of [(2^53 - 1) * 2^459] is finite and so are
    its halves, but the product of the two high halves overflows and
    [dd_mul_d] returns [(+inf, NaN)]. *)
Lemma C3_unnormalized_result :
  dd_finite (mk_dd pzero one_ulp) = true /\ is_finite half_ulp = true /\
  Benchmark.dd_add_d (mk_dd pzero one_ulp) half_ulp =
    mk_dd (S754_finite false 4503599627370498 (-52))
          (S754_finite true 4503599627370496 (-104)) /\
  ~ normalized (S754_finite false 4503599627370498 (-52))
               (S754_finite true 4503599627370496 (-104)) /\
  dd_normalized (mk_dd m3p970 pzero) /\ dd_normalized (mk_dd dbl_max pzero) /\
  is_finite (fadd m3p970 dbl_max) = true /\
  ~ dd_normalized (Benchmark.dd_add (mk_dd m3p970 pzero) (mk_dd dbl_max pzero)) /\
  dd_normalized (mk_dd p2p1000 pzero) /\
  fmul p2p1000 p2m1000 = one /\
  Benchmark.dd_mul_d (mk_dd p2p1000 pzero) p2m1000 = mk_dd S754_nan S754_nan /\
  dd_normalized (mk_dd sqrt_max pzero) /\
  is_finite (fmul sqrt_max sqrt_max) = true /\
  is_finite (fmul Benchmark.SPLIT_CONST sqrt_max) = true /\
  Benchmark.dd_mul_d (mk_dd sqrt_max pzero) sqrt_max
    = mk_dd (S754_infinity false) S754_nan.
Proof.
  repeat split; try reflexivity.
  - vm_compute. intros H. now apply H.
  - vm_compute. discriminate.
  - vm_compute. discriminate.
  - intros (H & _). vm_compute in H. discriminate H.
  - vm_compute. discriminate.
  - vm_compute. discriminate.
Qed.

(** C3 (amended): for finite operands that are themselves normalized,
    every result of [dd_add], [dd_add_d], [dd_mul_d] and [dd_mul] is
    finite and satisfies [|lo| <= ulp(hi) / 2], provided that no
    intermediate operation overflows: the sum of the high parts, the
    difference [s - a] inside [two_sum] and the final sum; for the
    products the product itself, the splitting of the operands and
    [a_hi * b_hi].  The products need not be exact: where a product
    underflows, [two_prod] may return an unnormalized pair, but the
    operators still return a normalized one. *)
Theorem C3_normalization A B b :
  dd_valid A -> dd_valid B -> valid b ->
  dd_normalized A -> dd_normalized B -> is_finite b = true ->
  (sum_safe (hi A) (hi B) (Benchmark.dd_add A B) ->
   dd_normalized (Benchmark.dd_add A B)) /\
  (sum_safe (hi A) b (Benchmark.dd_add_d A b) ->
   dd_normalized (Benchmark.dd_add_d A b)) /\
  (prod_finite (hi A) b ->
   is_finite (hi (Benchmark.dd_mul_d A b)) = true ->
   dd_normalized (Benchmark.dd_mul_d A b)) /\
  (mul_finite A B -> dd_normalized (Benchmark.dd_mul A B)) /\
  (is_finite (fmul (hi A) (hi B)) = true ->
   is_finite (hi (Bitcompare.dd_mul A B)) = true ->
   dd_normalized (Bitcompare.dd_mul A B)).
Proof.
  intros VA VB Vb NA NB Fb.
  split; [now apply dd_add_normalized|].
  split; [now apply dd_add_d_normalized|].
  split; [now apply dd_mul_d_renormalized|].
  split; [|now apply dd_mul_fma_renormalized].
  destruct NA as (FA1 & FA2 & _), NB as (FB1 & FB2 & _).
  apply dd_mul_renormalized; auto; unfold dd_finite.
  - now rewrite FA1, FA2.
  - now rewrite FB1, FB2.
Qed.

Lemma C3_normalization_witness :
  dd_normalized (mk_dd tiny_a pzero) /\ dd_normalized (mk_dd tiny_b pzero) /\
  ~ (2 ^ 1074 | Zval tiny_a * Zval tiny_b) /\
  ~ dd_normalized (Benchmark.two_prod tiny_a tiny_b) /\
  dd_normalized (Benchmark.dd_add (mk_dd tiny_a pzero) (mk_dd tiny_b pzero)) /\
  dd_normalized (Benchmark.dd_add_d (mk_dd tiny_a pzero) tiny_b) /\
  dd_normalized (Benchmark.dd_mul_d (mk_dd tiny_a pzero) tiny_b) /\
  dd_normalized (Benchmark.dd_mul (mk_dd tiny_a pzero) (mk_dd tiny_b pzero)) /\
  dd_normalized (Bitcompare.dd_mul (mk_dd tiny_a pzero) (mk_dd tiny_b pzero)).
Proof.
  assert (V1 : dd_valid (mk_dd tiny_a pzero)) by (split; reflexivity).
  assert (V2 : dd_valid (mk_dd tiny_b pzero)) by (split; reflexivity).
  assert (N1 : dd_normalized (mk_dd tiny_a pzero)).
  { repeat split; try reflexivity. vm_compute. discriminate. }
  assert (N2 : dd_normalized (mk_dd tiny_b pzero)).
  { repeat split; try reflexivity. vm_compute. discriminate. }
  assert (S1 : sum_safe tiny_a tiny_b
                 (Benchmark.dd_add (mk_dd tiny_a pzero) (mk_dd tiny_b pzero)))
    by (repeat split; reflexivity).
  assert (S2 : sum_safe tiny_a tiny_b
                 (Benchmark.dd_add_d (mk_dd tiny_a pzero) tiny_b))
    by (repeat split; reflexivity).
  assert (P1 : prod_finite tiny_a tiny_b) by (repeat split; reflexivity).
  assert (M : mul_finite (mk_dd tiny_a pzero) (mk_dd tiny_b pzero)).
  { unfold mul_finite. cbv zeta. cbn [hi lo]. repeat split; reflexivity. }
  destruct (C3_normalization (mk_dd tiny_a pzero) (mk_dd tiny_b pzero) tiny_b
              V1 V2 eq_refl N1 N2 eq_refl) as (H1 & H2 & H3 & H4 & H5).
  split; [exact N1|]. split; [exact N2|].
  split.
  { intros [k Hk]. apply (f_equal (fun z => z mod 2 ^ 1074)) in Hk.
    rewrite Z.mod_mul in Hk by (vm_compute; discriminate).
    vm_compute in Hk. discriminate Hk. }
  split.
  { intros (_ & _ & H). vm_compute in H. now apply H. }
  split; [exact (H1 S1)|]. split; [exact (H2 S2)|].
  split; [exact (H3 P1 eq_refl)|]. split; [exact (H4 M)|].
  exact (H5 eq_refl eq_refl).
Defined.

(** * Further properties of the sources *)

(** ** Infinities and NaN *)

Section SpecialValues.

Lemma fadd_nan_l y : fadd S754_nan y = S754_nan.
Proof. destruct y; reflexivity. Qed.

Lemma fadd_nan_r x : fadd x S754_nan = S754_nan.
Proof. destruct x; reflexivity. Qed.

Lemma fsub_nan_l y : fsub S754_nan y = S754_nan.
Proof. destruct y; reflexivity. Qed.

Lemma fsub_nan_r x : fsub x S754_nan = S754_nan.
Proof. destruct x; reflexivity. Qed.

Lemma fmul_nan_l y : fmul S754_nan y = S754_nan.
Proof. destruct y; reflexivity. Qed.

Lemma fmul_nan_r x : fmul x S754_nan = S754_nan.
Proof. destruct x; reflexivity. Qed.

Lemma fsub_inf_same s : fsub (S754_infinity s) (S754_infinity s) = S754_nan.
Proof. destruct s; reflexivity. Qed.

Lemma fsub_inf_finite s y :
  is_finite y = true -> fsub (S754_infinity s) y = S754_infinity s.
Proof. destruct y; try discriminate; reflexivity. Qed.

(** A sum of two doubles that is not finite is an infinity that one of
    the operands already is, or comes from two finite operands. *)
Lemma not_finite_cases x :
  is_finite x = false -> x = S754_nan \/ exists s, x = S754_infinity s.
Proof. destruct x; try discriminate; eauto. Qed.

Lemma fadd_inf_operand a b s :
  fadd a b = S754_infinity s ->
  is_finite a = true \/ a = S754_infinity s.
Proof.
  destruct a as [sa|sa| |sa ma ea];
    [now left| |now rewrite fadd_nan_l|now left].
  destruct b as [sb|sb| |sb mb eb]; cbn; try discriminate;
    try (intros H; now right).
  destruct sa, sb; try discriminate; intros H; now right.
Qed.

(** The third operation of [two_sum] and the second of [quick_two_sum]
    compute [s - (s - a)] and [s - a]: when [s] is not finite the first
    is NaN. *)
Lemma sub_sub_not_finite a b :
  is_finite (fadd a b) = false ->
  fsub (fadd a b) (fsub (fadd a b) a) = S754_nan.
Proof.
  intros H. destruct (not_finite_cases _ H) as [E|[s E]]; rewrite E.
  - apply fsub_nan_l.
  - destruct (fadd_inf_operand a b s E) as [F| ->].
    + rewrite (fsub_inf_finite s a F). apply fsub_inf_same.
    + rewrite fsub_inf_same. apply fsub_nan_r.
Qed.

Lemma two_sum_not_finite a b :
  is_finite (fadd a b) = false -> lo (Benchmark.two_sum a b) = S754_nan.
Proof.
  intros H. unfold Benchmark.two_sum. cbn [lo].
  rewrite (sub_sub_not_finite a b H), fsub_nan_r. apply fadd_nan_l.
Qed.

Lemma quick_two_sum_nan_r x : 
  Benchmark.quick_two_sum x S754_nan = mk_dd S754_nan S754_nan.
Proof.
  unfold Benchmark.quick_two_sum. now rewrite fadd_nan_r, fsub_nan_l.
Qed.

Lemma quick_two_sum_not_finite a b :
  is_finite (fadd a b) = false ->
  is_finite (lo (Benchmark.quick_two_sum a b)) = false.
Proof.
  intros H. unfold Benchmark.quick_two_sum. cbn [lo].
  destruct (not_finite_cases _ H) as [E|[s E]]; rewrite E.
  - now rewrite fsub_nan_l, fsub_nan_r.
  - destruct (fadd_inf_operand a b s E) as [F| ->].
    + rewrite (fsub_inf_finite s a F).
      destruct b as [sb|sb| |sb mb eb]; try reflexivity.
      destruct sb, s; reflexivity.
    + rewrite fsub_inf_same. now rewrite fsub_nan_r.
Qed.

End SpecialValues.

(** When the rounded sum [a + b] is not finite, because it overflows or
    because an operand is an infinity or a NaN, the residual returned by
    [two_sum] is NaN, in both programs. *)
Theorem two_sum_residual_nan a b :
  is_finite (fadd a b) = false ->
  lo (Benchmark.two_sum a b) = S754_nan /\
  lo (Bitcompare.two_sum a b) = S754_nan.
Proof.
  intros H. split; [|rewrite two_sum_same]; now apply two_sum_not_finite.
Qed.

Lemma two_sum_residual_nan_witness :
  lo (Benchmark.two_sum dbl_max dbl_max) = S754_nan /\
  lo (Bitcompare.two_sum dbl_max dbl_max) = S754_nan.
Proof. apply (two_sum_residual_nan dbl_max dbl_max). reflexivity. Defined.

(** A double-double sum whose high parts do not add up to a finite
    double is the pair [(NaN, NaN)]: [dd_add], in both programs, and
    [dd_add_d] do not return an infinity even where the sum of the high
    parts is one. *)
Theorem dd_add_not_finite A B b :
  (is_finite (fadd (hi A) (hi B)) = false ->
   Benchmark.dd_add A B = mk_dd S754_nan S754_nan /\
   Bitcompare.dd_add A B = mk_dd S754_nan S754_nan) /\
  (is_finite (fadd (hi A) b) = false ->
   Benchmark.dd_add_d A b = mk_dd S754_nan S754_nan).
Proof.
  split; intros H.
  - assert (E : Benchmark.dd_add A B = mk_dd S754_nan S754_nan).
    { unfold Benchmark.dd_add.
      rewrite (two_sum_not_finite _ _ H), fadd_nan_r.
      apply quick_two_sum_nan_r. }
    split; [exact E|]. rewrite dd_add_same. exact E.
  - unfold Benchmark.dd_add_d.
    rewrite (two_sum_not_finite _ _ H), fadd_nan_r.
    apply quick_two_sum_nan_r.
Qed.

Lemma dd_add_not_finite_witness :
  Benchmark.dd_add (mk_dd (S754_infinity false) pzero) (mk_dd one pzero)
    = mk_dd S754_nan S754_nan /\
  Benchmark.dd_add_d (mk_dd dbl_max pzero) dbl_max = mk_dd S754_nan S754_nan.
Proof.
  destruct (dd_add_not_finite (mk_dd (S754_infinity false) pzero)
              (mk_dd one pzero) one) as [H1 _].
  destruct (dd_add_not_finite (mk_dd dbl_max pzero)
              (mk_dd one pzero) dbl_max) as [_ H2].
  split; [apply H1; reflexivity|apply H2; reflexivity].
Defined.

(** When [a + b] is not finite, the residual returned by
    [quick_two_sum] is not finite either, in both programs. *)
Theorem quick_two_sum_residual_not_finite a b :
  is_finite (fadd a b) = false ->
  is_finite (lo (Benchmark.quick_two_sum a b)) = false /\
  is_finite (lo (Bitcompare.quick_two_sum a b)) = false.
Proof.
  intros H. split; [|rewrite quick_two_sum_same];
    now apply quick_two_sum_not_finite.
Qed.

Lemma quick_two_sum_residual_not_finite_witness :
  is_finite (lo (Benchmark.quick_two_sum dbl_max dbl_max)) = false /\
  is_finite (lo (Bitcompare.quick_two_sum dbl_max dbl_max)) = false.
Proof.
  apply (quick_two_sum_residual_not_finite dbl_max dbl_max). reflexivity.
Defined.

(** ** Signed zeros in the results *)

Section NoNegativeZero.

Lemma renorm_no_neg_zero x y :
  valid x -> valid y -> y <> nzero ->
  hi (Benchmark.quick_two_sum x y) <> nzero /\
  lo (Benchmark.quick_two_sum x y) <> nzero.
Proof.
  intros Vx Vy N. unfold Benchmark.quick_two_sum. cbn [hi lo]. split; intros H.
  - apply fadd_neg_zero in H; auto. now destruct H.
  - apply fsub_neg_zero in H; auto.
    + now destruct H.
    + apply fsub_valid; auto. now apply fadd_valid.
Qed.

Lemma dd_add_no_neg_zero A B :
  dd_valid A -> dd_valid B ->
  hi (Benchmark.dd_add A B) <> nzero /\ lo (Benchmark.dd_add A B) <> nzero.
Proof.
  intros [VA1 VA2] [VB1 VB2]. unfold Benchmark.dd_add.
  destruct (two_sum_valid _ _ VA1 VB1) as [Vs Ve].
  apply renorm_no_neg_zero; auto.
  - repeat first [assumption | apply fadd_valid].
  - intros H. apply fadd_neg_zero in H; auto.
    + destruct H as [_ H]. revert H. now apply two_sum_lo_not_neg_zero.
    + now apply fadd_valid.
Qed.

End NoNegativeZero.

(** No result of [dd_add] (in either program), of [dd_add_d] or of
    [dd_mul] has a negative zero as its high or as its low part, whatever
    the operands are; the sum of two pairs of negative zeros, for one, has
    no negative zero left. *)
Theorem sums_never_negative_zero A B b :
  dd_valid A -> dd_valid B -> valid b ->
  (hi (Benchmark.dd_add A B) <> nzero /\ lo (Benchmark.dd_add A B) <> nzero) /\
  (hi (Bitcompare.dd_add A B) <> nzero /\ lo (Bitcompare.dd_add A B) <> nzero) /\
  (hi (Benchmark.dd_add_d A b) <> nzero /\
   lo (Benchmark.dd_add_d A b) <> nzero) /\
  (hi (Benchmark.dd_mul A B) <> nzero /\ lo (Benchmark.dd_mul A B) <> nzero).
Proof.
  intros VA VB Vb.
  split; [now apply dd_add_no_neg_zero|].
  split; [rewrite dd_add_same; now apply dd_add_no_neg_zero|].
  split.
  - destruct VA as [VA1 VA2]. unfold Benchmark.dd_add_d.
    destruct (two_sum_valid _ _ VA1 Vb) as [Vs Ve].
    apply renorm_no_neg_zero; auto.
    + now apply fadd_valid.
    + intros H. apply fadd_neg_zero in H; auto.
      destruct H as [_ H]. revert H. now apply two_sum_lo_not_neg_zero.
  - destruct VA as [VA1 VA2], VB as [VB1 VB2]. unfold Benchmark.dd_mul.
    apply dd_add_no_neg_zero; [|now apply two_prod_valid].
    apply dd_add_valid; [|now apply two_prod_valid].
    apply dd_add_valid; now apply two_prod_valid.
Qed.

Lemma sums_never_negative_zero_witness :
  hi (Benchmark.dd_add (mk_dd nzero nzero) (mk_dd nzero nzero)) <> nzero /\
  lo (Benchmark.dd_add (mk_dd nzero nzero) (mk_dd nzero nzero)) <> nzero.
Proof.
  assert (V : dd_valid (mk_dd nzero nzero)) by (split; reflexivity).
  exact (proj1 (sums_never_negative_zero (mk_dd nzero nzero)
                  (mk_dd nzero nzero) nzero V V eq_refl)).
Defined.

(** ** The split and the split-based product at the edges *)

Section SplitEdges.

Lemma split_double_not_finite a :
  is_finite a = true ->
  is_finite (fmul Benchmark.SPLIT_CONST a) = false ->
  Benchmark.split_double a = (S754_nan, S754_nan).
Proof.
  intros Fa H. unfold Benchmark.split_double.
  destruct (not_finite_cases _ H) as [E|[s E]]; rewrite E.
  - now rewrite !fsub_nan_l, fsub_nan_r.
  - rewrite (fsub_inf_finite s a Fa), fsub_inf_same. now rewrite fsub_nan_r.
Qed.

Lemma two_prod_nan_half a_hi a_lo b_hi b_lo p :
  a_hi = S754_nan \/ b_hi = S754_nan ->
  fadd (fadd (fadd (fsub (fmul a_hi b_hi) p) (fmul a_hi b_lo))
             (fmul a_lo b_hi))
       (fmul a_lo b_lo) = S754_nan.
Proof.
  intros [-> | ->].
  - now rewrite fmul_nan_l, fsub_nan_l, !fadd_nan_l.
  - now rewrite fmul_nan_r, fsub_nan_l, !fadd_nan_l.
Qed.

Lemma fmul_comm x y : fmul x y = fmul y x.
Proof.
  destruct x as [sx|sx| |sx mx ex], y as [sy|sy| |sy my ey];
    try reflexivity; unfold fmul, SFmul;
    rewrite (xorb_comm sx sy); try reflexivity.
  now rewrite (Pos.mul_comm mx my), (Z.add_comm ex ey).
Qed.

Lemma ffma_comm x y z : ffma x y z = ffma y x z.
Proof.
  destruct x as [sx|sx| |sx mx ex], y as [sy|sy| |sy my ey];
    try reflexivity; unfold ffma;
    rewrite (xorb_comm sx sy); try reflexivity.
  now rewrite (Pos.mul_comm mx my), (Z.add_comm ex ey).
Qed.

End SplitEdges.

(** [split_double] is exact whenever [SPLIT_CONST * a] does not
    overflow: both halves are finite, they add up to [a] exactly and the
    high half has the sign of [a].  For a normal [a], with [u] its unit in
    the last place, the high half is a multiple of [2^27 * u] of magnitude
    at most [2^53 * u] and the low half a multiple of [u] of magnitude at
    most [2^26 * u]: each half has at most 26 significant bits. *)
Theorem split_double_exact a :
  valid a -> is_finite a = true ->
  is_finite (fmul Benchmark.SPLIT_CONST a) = true ->
  is_finite (fst (Benchmark.split_double a)) = true /\
  is_finite (snd (Benchmark.split_double a)) = true /\
  Zval (fst (Benchmark.split_double a)) + Zval (snd (Benchmark.split_double a))
    = Zval a /\
  Z.sgn (Zval (fst (Benchmark.split_double a))) = Z.sgn (Zval a) /\
  (2 ^ 52 <= Z.abs (Zval a) ->
   (2 ^ 27 * 2 ^ cexp (Zval a) | Zval (fst (Benchmark.split_double a))) /\
   Z.abs (Zval (fst (Benchmark.split_double a))) <= 2 ^ 53 * 2 ^ cexp (Zval a) /\
   (2 ^ cexp (Zval a) | Zval (snd (Benchmark.split_double a))) /\
   Z.abs (Zval (snd (Benchmark.split_double a))) <= 2 ^ 26 * 2 ^ cexp (Zval a)).
Proof.
  intros Va Fa Ft.
  destruct (split_double_sound a Va Fa Ft) as (_ & _ & Fh & Fl & Zh & Zl).
  destruct (split_grid (Zval a) (Zval_fmt a Va)) as (S & _ & _ & _ & Sg).
  rewrite Zh, Zl.
  split; [exact Fh|]. split; [exact Fl|]. split; [exact S|].
  split; [exact Sg|]. intros N.
  destruct (split_grid_norm (Zval a) (Zval_fmt a Va) N)
    as (_ & D1 & B1 & D2 & B2 & _).
  split; [exact D1|]. split; [apply Z.abs_le; exact B1|].
  split; [exact D2|]. apply Z.abs_le; exact B2.
Qed.

Lemma split_double_exact_witness :
  Zval (fst (Benchmark.split_double tenth))
    + Zval (snd (Benchmark.split_double tenth)) = Zval tenth /\
  (2 ^ 27 * 2 ^ cexp (Zval tenth) | Zval (fst (Benchmark.split_double tenth))).
Proof.
  destruct (split_double_exact tenth eq_refl eq_refl eq_refl)
    as (_ & _ & S & _ & N).
  split; [exact S|]. apply N. vm_compute. discriminate.
Defined.

(** The split-based product breaks down long before the product
    overflows: for finite [a] and [b], as soon as [SPLIT_CONST * a] or
    [SPLIT_CONST * b] overflows, the residual returned by the benchmark's
    [two_prod] is NaN, however small the product [a * b] is. *)
Theorem two_prod_split_overflow a b :
  is_finite a = true -> is_finite b = true ->
  is_finite (fmul Benchmark.SPLIT_CONST a) = false \/
  is_finite (fmul Benchmark.SPLIT_CONST b) = false ->
  lo (Benchmark.two_prod a b) = S754_nan.
Proof.
  intros Fa Fb [H|H]; unfold Benchmark.two_prod.
  - rewrite (split_double_not_finite a Fa H).
    destruct (Benchmark.split_double b) as [b_hi b_lo]. cbn [lo].
    apply two_prod_nan_half. now left.
  - rewrite (split_double_not_finite b Fb H).
    destruct (Benchmark.split_double a) as [a_hi a_lo]. cbn [lo].
    apply two_prod_nan_half. now right.
Qed.

Lemma two_prod_split_overflow_witness :
  hi (Benchmark.two_prod p2p1000 p2m1000) = one /\
  lo (Benchmark.two_prod p2p1000 p2m1000) = S754_nan /\
  Bitcompare.two_prod p2p1000 p2m1000 = mk_dd one pzero.
Proof.
  split; [reflexivity|]. split; [|reflexivity].
  apply (two_prod_split_overflow p2p1000 p2m1000); try reflexivity.
  left. reflexivity.
Defined.

(** The error-free product does not depend on the order of its
    operands: the product by a fused multiply-add for all doubles, the
    split-based product whenever [a * b] is finite with an error on the
    grid and no split overflows. *)
Theorem two_prod_commutative a b :
  Bitcompare.two_prod a b = Bitcompare.two_prod b a /\
  (valid a -> valid b -> is_finite a = true -> is_finite b = true ->
   prod_safe a b -> Benchmark.two_prod a b = Benchmark.two_prod b a).
Proof.
  split.
  - unfold Bitcompare.two_prod. now rewrite (fmul_comm a b), (ffma_comm a b).
  - intros Va Vb Fa Fb ((Fp & D) & (S1 & S2 & S3)).
    assert (Fp' : is_finite (fmul b a) = true) by (now rewrite fmul_comm).
    assert (D' : (2 ^ 1074 | Zval b * Zval a)) by (now rewrite Z.mul_comm).
    assert (S' : split_safe b a).
    { split; [exact S2|]. split; [exact S1|]. now rewrite fmul_comm. }
    destruct (two_prod_split_sound a b Va Vb Fa Fb Fp D (conj S1 (conj S2 S3)))
      as [(_ & F1 & _ & X1) N1].
    destruct (two_prod_split_sound b a Vb Va Fb Fa Fp' D' S')
      as [(_ & F2 & _ & X2) N2].
    destruct (two_prod_valid a b Va Vb) as [_ V1].
    destruct (two_prod_valid b a Vb Va) as [_ V2].
    assert (Eh : hi (Benchmark.two_prod a b) = hi (Benchmark.two_prod b a)).
    { unfold Benchmark.two_prod.
      destruct (Benchmark.split_double a), (Benchmark.split_double b).
      cbn [hi]. apply fmul_comm. }
    assert (El : lo (Benchmark.two_prod a b) = lo (Benchmark.two_prod b a)).
    { apply Zval_inj; try assumption.
      rewrite Eh in X1. rewrite (Z.mul_comm (Zval b)), <- X1 in X2.
      apply Z.mul_cancel_r in X2; lia. }
    destruct (Benchmark.two_prod a b) as [h1 l1].
    destruct (Benchmark.two_prod b a) as [h2 l2].
    cbn [hi lo] in Eh, El. now subst.
Qed.

Lemma two_prod_commutative_witness :
  Bitcompare.two_prod tenth one_ulp = Bitcompare.two_prod one_ulp tenth /\
  Benchmark.two_prod tenth one_ulp = Benchmark.two_prod one_ulp tenth.
Proof.
  destruct (two_prod_commutative tenth one_ulp) as [H1 H2].
  split; [exact H1|]. apply H2; try reflexivity.
  repeat split; try reflexivity. divide_by_eval.
Defined.

(** ** The primitives return normalized pairs *)

(** [two_sum] returns a normalized pair: when neither [a + b] nor the
    difference [s - a] overflows, both parts are finite and the residual
    is at most half a unit in the last place of the sum, in both
    programs. *)
Theorem two_sum_normalized a b :
  valid a -> valid b -> is_finite a = true -> is_finite b = true ->
  is_finite (fadd a b) = true ->
  is_finite (fsub (fadd a b) a) = true ->
  dd_normalized (Benchmark.two_sum a b) /\
  dd_normalized (Bitcompare.two_sum a b).
Proof.
  intros Va Vb Fa Fb Fs Fv.
  assert (N : dd_normalized (Benchmark.two_sum a b)).
  { destruct (two_sum_sound a b Va Vb Fa Fb Fs Fv) as (_ & _ & Fl & Zh & Zl).
    split; [exact Fs|]. split; [exact Fl|].
    unfold normalized. rewrite Zh, Zl.
    pose proof (RN_error (Zval a + Zval b)) as E.
    pose proof (pow2_le _ _ (cexp_RN (Zval a + Zval b))) as P. lia. }
  split; [exact N|]. rewrite two_sum_same. exact N.
Qed.

Lemma two_sum_normalized_witness :
  dd_normalized (Benchmark.two_sum one eps16) /\
  dd_normalized (Bitcompare.two_sum one eps16).
Proof. apply (two_sum_normalized one eps16); reflexivity. Defined.

(** [two_prod] returns a normalized pair: when [a * b] is finite with
    an error on the grid, both parts are finite and the residual is at
    most half a unit in the last place of the product; for the
    split-based product when, in addition, no split overflows. *)
Theorem two_prod_normalized_pair a b :
  valid a -> valid b -> is_finite a = true -> is_finite b = true ->
  product_fits a b ->
  dd_normalized (Bitcompare.two_prod a b) /\
  (split_safe a b -> dd_normalized (Benchmark.two_prod a b)).
Proof.
  intros Va Vb Fa Fb (Fp & D). split.
  - apply (exact_prod_normalized a b); [exact D|].
    now apply two_prod_fma_sound.
  - intros S. apply (exact_prod_normalized a b); [exact D|].
    now apply two_prod_split_sound.
Qed.

Lemma two_prod_normalized_pair_witness :
  dd_normalized (Bitcompare.two_prod tenth tenth) /\
  dd_normalized (Benchmark.two_prod tenth tenth).
Proof.
  assert (P : product_fits tenth tenth).
  { split; [reflexivity|]. divide_by_eval. }
  destruct (two_prod_normalized_pair tenth tenth eq_refl eq_refl eq_refl
              eq_refl P) as [H1 H2].
  split; [exact H1|]. apply H2. repeat split; reflexivity.
Defined.

(** ** The renormalization beyond its stated precondition *)

(** [quick_two_sum] is exact beyond the precondition its comment
    states, [|a| >= |b|]: it is enough that [a] is a multiple of the unit
    in the last place of [b], even where [a] is the smaller operand. *)
Theorem quick_two_sum_exact_unit a b :
  valid a -> valid b -> is_finite a = true -> is_finite b = true ->
  (2 ^ cexp (Zval b) | Zval a) ->
  is_finite (fadd a b) = true ->
  exact_sum_pair a b (Benchmark.quick_two_sum a b) /\
  exact_sum_pair a b (Bitcompare.quick_two_sum a b).
Proof.
  intros Va Vb Fa Fb D Fs.
  destruct (quick_two_sum_unit_sound a b Va Vb Fa Fb (or_intror D) Fs)
    as (_ & _ & F & Zh & Zl).
  assert (E : exact_sum_pair a b (Benchmark.quick_two_sum a b))
    by (apply exact_sum_pair_intro; auto).
  split; [exact E|]. rewrite quick_two_sum_same. exact E.
Qed.

Lemma quick_two_sum_exact_unit_witness :
  Z.abs (Zval one) < Z.abs (Zval (S754_finite false 6755399441055744 (-51))) /\
  exact_sum_pair one (S754_finite false 6755399441055744 (-51))
    (Benchmark.quick_two_sum one (S754_finite false 6755399441055744 (-51))).
Proof.
  split; [vm_compute; reflexivity|].
  apply (quick_two_sum_exact_unit one (S754_finite false 6755399441055744 (-51)));
    try reflexivity.
  divide_by_eval.
Defined.

(** ** Value and accuracy of the sum *)

Section SumValue.

(** Rounding error against a power-of-two bound on the operand. *)
Lemma RN_error_pow2 z j :
  0 <= j -> Z.abs z <= 2 ^ j -> 2 ^ 53 * Z.abs (RN z - z) <= 2 ^ j.
Proof.
  intros Hj B. pose proof (pow2_pos j Hj) as Pj.
  destruct (Z_le_gt_dec (Z.abs z) (2 ^ 53)) as [S|L].
  - rewrite (RN_id z) by (now apply fmt_small).
    replace (z - z) with 0 by ring. cbn. lia.
  - assert (J : 53 < j).
    { destruct (Z_le_gt_dec j 53) as [Le|]; [|lia].
      pose proof (pow2_le _ _ Le). lia. }
    assert (C : cexp z <= j - 52).
    { apply cexp_le_of_lt; [lia|].
      replace (j - 52 + 53) with (j + 1) by lia.
      pose proof (pow2_lt j (j + 1) ltac:(lia) ltac:(lia)). lia. }
    pose proof (pow2_le _ _ C) as P. pose proof (RN_error z) as E.
    assert (Q : 2 ^ j = 2 ^ 52 * 2 ^ (j - 52)).
    { rewrite <- Z.pow_add_r by lia. f_equal. lia. }
    rewrite Q. clear - P E. lia.
Qed.

Lemma dd_add_sound A B :
  dd_valid A -> dd_valid B -> dd_normalized A -> dd_normalized B ->
  sum_safe (hi A) (hi B) (Benchmark.dd_add A B) ->
  is_finite (lo (Benchmark.dd_add A B)) = true /\
  Zval (hi (Benchmark.dd_add A B)) + Zval (lo (Benchmark.dd_add A B)) =
    RN (Zval (hi A) + Zval (hi B)) +
    RN (RN (Zval (lo A) + Zval (lo B)) +
        (Zval (hi A) + Zval (hi B) - RN (Zval (hi A) + Zval (hi B)))) /\
  RN (Zval (hi (Benchmark.dd_add A B)) + Zval (lo (Benchmark.dd_add A B)))
    = Zval (hi (Benchmark.dd_add A B)).
Proof.
  intros [VA1 VA2] [VB1 VB2] (FA1 & FA2 & NA) (FB1 & FB2 & NB) (Fs & Fv & Fr).
  pose proof (two_sum_sound (hi A) (hi B) VA1 VB1 FA1 FB1 Fs Fv) as S.
  cbv zeta in S. destruct S as (Vs & Ve & Fe & Zs & Ze).
  unfold Benchmark.dd_add in Fr |- *.
  set (s := Benchmark.two_sum (hi A) (hi B)) in *.
  assert (Fhs : is_finite (hi s) = true) by exact Fs.
  unfold normalized in NA, NB.
  pose proof (half_ulp_bound _ _ VA1 NA) as BA.
  pose proof (half_ulp_bound _ _ VB1 NB) as BB.
  pose proof (Zval_lt_OVF (hi s) Vs) as Bs. rewrite Zs in Bs.
  destruct (low_sum_finite (Zval (hi A)) (Zval (hi B)) (Zval (lo A))
              (Zval (lo B)) (Zval_fmt _ VA1) (Zval_fmt _ VB1) BA BB Bs)
    as [Bw Bt].
  pose proof (add_order (Zval (hi A)) (Zval (hi B)) (Zval (lo A))
                (Zval (lo B)) (Zval_fmt _ VA1) (Zval_fmt _ VB1) NA NB) as O.
  destruct (fadd_step (lo A) (lo B) VA2 VB2 FA2 FB2 Bw) as (Vw & Fw & Zw).
  rewrite <- Zw, <- Ze in Bt, O |- *. rewrite <- Zs in O |- *.
  destruct (fadd_step _ (lo s) Vw Ve Fw Fe Bt) as (Vt & Ft & Zt).
  rewrite <- Zt in O |- *.
  destruct (quick_two_sum_unit_sound _ _ Vs Vt Fhs Ft O Fr)
    as (_ & _ & Fl & Zh & Zl).
  split; [exact Fl|]. rewrite Zl, Zh. split; [ring|]. f_equal. ring.
Qed.

End SumValue.

(** Accuracy of [dd_add]: for normalized operands and no overflow, the
    value [hi + lo] of the result differs from the exact sum of the four
    parts by at most [3 * 2^-53] units in the last place of the larger
    high part.  The sum is not exact, its low parts are added with
    rounding, but the error is of the order of the second double. *)
Theorem dd_add_accuracy A B :
  dd_valid A -> dd_valid B -> dd_normalized A -> dd_normalized B ->
  sum_safe (hi A) (hi B) (Benchmark.dd_add A B) ->
  2 ^ 53 * Z.abs (Zval (hi (Benchmark.dd_add A B))
                  + Zval (lo (Benchmark.dd_add A B))
                  - (Zval (hi A) + Zval (lo A) + (Zval (hi B) + Zval (lo B))))
    <= 3 * 2 ^ Z.max (cexp (Zval (hi A))) (cexp (Zval (hi B))).
Proof.
  intros VA VB NA NB S.
  destruct (dd_add_sound A B VA VB NA NB S) as (_ & E & _). rewrite E.
  destruct VA as [VA1 _], VB as [VB1 _].
  destruct NA as (_ & _ & NA), NB as (_ & _ & NB). unfold normalized in NA, NB.
  set (x := Zval (hi A)) in *. set (y := Zval (hi B)) in *.
  set (la := Zval (lo A)) in *. set (lb := Zval (lo B)) in *.
  set (M := Z.max (cexp x) (cexp y)).
  pose proof (cexp_nonneg x) as Cx. pose proof (cexp_nonneg y) as Cy.
  assert (HM : 0 <= M) by (unfold M; lia).
  pose proof (pow2_pos M HM) as PM.
  pose proof (pow2_le (cexp x) M ltac:(unfold M; lia)) as Px.
  pose proof (pow2_le (cexp y) M ltac:(unfold M; lia)) as Py.
  assert (Bl : Z.abs (la + lb) <= 2 ^ M) by lia.
  pose proof (RN_error_pow2 (la + lb) M HM Bl) as E1.
  assert (Bw : Z.abs (RN (la + lb)) <= 2 ^ M)
    by (apply RN_abs_le_fmt; [now apply fmt_pow2|exact Bl]).
  assert (Cc : cexp (x + y) <= M + 1).
  { apply cexp_le_of_lt; [lia|].
    pose proof (cexp_upper x) as Ux. pose proof (cexp_upper y) as Uy.
    pose proof (pow2_le (cexp x + 53) (M + 53) ltac:(unfold M; lia)).
    pose proof (pow2_le (cexp y + 53) (M + 53) ltac:(unfold M; lia)).
    replace (M + 1 + 53) with (M + 53 + 1) by lia.
    rewrite Z.pow_add_r by lia. change (2 ^ 1) with 2. lia. }
  pose proof (pow2_le _ _ Cc) as Pc. rewrite pow2_shift in Pc by lia.
  change (2 ^ 1) with 2 in Pc.
  pose proof (RN_error (x + y)) as Er.
  set (w := RN (la + lb)) in *. set (s := RN (x + y)) in *.
  assert (Bt : Z.abs (w + (x + y - s)) <= 2 ^ (M + 1)).
  { rewrite pow2_shift by lia. change (2 ^ 1) with 2. lia. }
  pose proof (RN_error_pow2 _ (M + 1) ltac:(lia) Bt) as E2.
  rewrite pow2_shift in E2 by lia. change (2 ^ 1) with 2 in E2.
  set (t := RN (w + (x + y - s))) in *.
  clear - E1 E2 PM. lia.
Qed.

Lemma dd_add_accuracy_witness :
  2 ^ 53 * Z.abs (Zval (hi (Benchmark.dd_add (mk_dd one eps16) (mk_dd tenth pzero)))
                  + Zval (lo (Benchmark.dd_add (mk_dd one eps16) (mk_dd tenth pzero)))
                  - (Zval one + Zval eps16 + (Zval tenth + Zval pzero)))
    <= 3 * 2 ^ Z.max (cexp (Zval one)) (cexp (Zval tenth)).
Proof.
  apply (dd_add_accuracy (mk_dd one eps16) (mk_dd tenth pzero)).
  - split; reflexivity.
  - split; reflexivity.
  - repeat split; try reflexivity. vm_compute. discriminate.
  - repeat split; try reflexivity. vm_compute. discriminate.
  - repeat split; reflexivity.
Defined.

(** ** How the operators compose *)

Section Composition.

Lemma zero_of_value x :
  valid x -> is_finite x = true -> Zval x = 0 -> x <> nzero -> x = pzero.
Proof.
  intros V F Z N. apply Zval_inj; auto; try reflexivity. discriminate.
Qed.

Lemma fadd_fneg x : valid x -> is_finite x = true -> fadd x (fneg x) = pzero.
Proof.
  intros V F.
  assert (V' : valid (fneg x)) by (now apply valid_fneg).
  assert (F' : is_finite (fneg x) = true) by (now rewrite is_finite_fneg).
  assert (Z0 : Zval x + Zval (fneg x) = 0) by (rewrite Zval_fneg; ring).
  destruct (fadd_step x (fneg x) V V' F F') as (Vs & Fs & Zs).
  { rewrite Z0, RN_0. reflexivity. }
  apply zero_of_value; auto.
  - now rewrite Zs, Z0, RN_0.
  - intros H. apply fadd_neg_zero in H; auto. destruct H as [-> H].
    discriminate H.
Qed.

Lemma two_sum_opposite x :
  valid x -> is_finite x = true ->
  Benchmark.two_sum x (fneg x) = mk_dd pzero pzero.
Proof.
  intros V F.
  assert (V' : valid (fneg x)) by (now apply valid_fneg).
  assert (F' : is_finite (fneg x) = true) by (now rewrite is_finite_fneg).
  pose proof (fadd_fneg x V F) as Es.
  assert (Fv : is_finite (fsub (fadd x (fneg x)) x) = true).
  { rewrite Es. apply fsub_finite_iff; auto; try reflexivity.
    change (Zval pzero) with 0. rewrite Z.sub_0_l, RN_opp.
    rewrite (RN_id _ (Zval_fmt x V)), Z.abs_opp. now apply Zval_lt_OVF. }
  assert (Fs : is_finite (fadd x (fneg x)) = true) by (now rewrite Es).
  destruct (two_sum_sound x (fneg x) V V' F F' Fs Fv) as (_ & Ve & Fe & _ & Ze).
  pose proof (two_sum_lo_not_neg_zero x (fneg x) V V') as Ne.
  assert (El : lo (Benchmark.two_sum x (fneg x)) = pzero).
  { apply zero_of_value; auto. rewrite Ze, Zval_fneg.
    replace (Zval x + - Zval x) with 0 by ring. reflexivity. }
  unfold Benchmark.two_sum in El |- *. cbn [lo] in El. now rewrite El, Es.
Qed.

(** The value of a pair whose high part is the rounded sum of both
    parts: the low part is below the high part. *)
Lemma rounded_pair_order x l :
  fmt x -> fmt l -> RN (x + l) = x -> Z.abs l <= Z.abs x.
Proof.
  intros Fx Fl E. pose proof (RN_nearest (x + l) l Fl) as N.
  rewrite E in N. lia.
Qed.

Lemma fadd_fixed_not_neg_zero h l :
  valid h -> valid l -> fadd h l = h -> l <> nzero -> h <> nzero.
Proof.
  intros Vh Vl E N H. subst h.
  apply fadd_neg_zero in E; auto. now destruct E.
Qed.

End Composition.

(** Converting a sum back to a double returns its high part: for
    normalized operands and no overflow, [dd_to_double (dd_add A B)] is
    [hi (dd_add A B)]. *)
Theorem dd_to_double_of_sum A B :
  dd_valid A -> dd_valid B -> dd_normalized A -> dd_normalized B ->
  sum_safe (hi A) (hi B) (Benchmark.dd_add A B) ->
  Benchmark.dd_to_double (Benchmark.dd_add A B) = hi (Benchmark.dd_add A B).
Proof.
  intros VA VB NA NB S.
  destruct (dd_add_sound A B VA VB NA NB S) as (Fl & _ & R).
  destruct (dd_add_valid A B VA VB) as [Vh Vl].
  destruct (dd_add_no_neg_zero A B VA VB) as [Nh _].
  destruct S as (_ & _ & Fh).
  unfold Benchmark.dd_to_double.
  set (r := Benchmark.dd_add A B) in *.
  pose proof (Zval_lt_OVF _ Vh) as B0.
  destruct (fadd_step (hi r) (lo r) Vh Vl Fh Fl) as (Vs & Fs & Zs).
  { now rewrite R. }
  apply Zval_inj; auto.
  - intros H. apply fadd_neg_zero in H; auto. now destruct H.
  - now rewrite Zs, R.
Qed.

Lemma dd_to_double_of_sum_witness :
  Benchmark.dd_to_double (Benchmark.dd_add (mk_dd one eps16) (mk_dd tenth pzero))
  = hi (Benchmark.dd_add (mk_dd one eps16) (mk_dd tenth pzero)).
Proof.
  apply (dd_to_double_of_sum (mk_dd one eps16) (mk_dd tenth pzero)).
  - split; reflexivity.
  - split; reflexivity.
  - repeat split; try reflexivity. vm_compute. discriminate.
  - repeat split; try reflexivity. vm_compute. discriminate.
  - repeat split; reflexivity.
Defined.

(** A finite pair plus its negation, which [main] of the bit comparison
    builds as [(dd_real){-hi, -lo}], is exactly [(+0, +0)], in both
    programs. *)
Theorem dd_add_opposite A :
  dd_valid A -> dd_finite A = true ->
  Benchmark.dd_add A (mk_dd (fneg (hi A)) (fneg (lo A))) = mk_dd pzero pzero /\
  Bitcompare.dd_add A (mk_dd (fneg (hi A)) (fneg (lo A))) = mk_dd pzero pzero.
Proof.
  intros [V1 V2] F. apply andb_prop in F. destruct F as [F1 F2].
  assert (E : Benchmark.dd_add A (mk_dd (fneg (hi A)) (fneg (lo A)))
              = mk_dd pzero pzero).
  { unfold Benchmark.dd_add. cbn [hi lo].
    rewrite (two_sum_opposite (hi A) V1 F1). cbn [hi lo].
    rewrite (fadd_fneg (lo A) V2 F2). reflexivity. }
  split; [exact E|]. rewrite dd_add_same. exact E.
Qed.

Lemma dd_add_opposite_witness :
  Benchmark.dd_add (mk_dd tenth eps16) (mk_dd (fneg tenth) (fneg eps16))
  = mk_dd pzero pzero.
Proof.
  apply (dd_add_opposite (mk_dd tenth eps16)); [split|]; reflexivity.
Defined.

(** Doubling: for a finite pair with [|lo| <= |hi|] and no overflow,
    [dd_add A A] is finite and has exactly twice the value of [A], and
    both programs return the same pair. *)
Theorem dd_add_twice A :
  dd_valid A -> dd_finite A = true ->
  Z.abs (Zval (lo A)) <= Z.abs (Zval (hi A)) ->
  is_finite (fadd (hi A) (hi A)) = true ->
  is_finite (hi (Benchmark.dd_add A A)) = true ->
  is_finite (lo (Benchmark.dd_add A A)) = true /\
  Zval (hi (Benchmark.dd_add A A)) + Zval (lo (Benchmark.dd_add A A))
    = 2 * (Zval (hi A) + Zval (lo A)) /\
  Bitcompare.dd_add A A = Benchmark.dd_add A A.
Proof.
  intros [V1 V2] F O Fs Fr. apply andb_prop in F. destruct F as [F1 F2].
  pose proof (dd_add_same A A) as Same.
  pose proof (Zval_fmt _ V1) as Fx. pose proof (Zval_fmt _ V2) as Fl.
  assert (Zs : Zval (fadd (hi A) (hi A)) = 2 * Zval (hi A)).
  { rewrite fadd_Zval by auto.
    replace (Zval (hi A) + Zval (hi A)) with (2 * Zval (hi A)) by ring.
    apply RN_id. now apply fmt_double. }
  assert (Vs : valid (fadd (hi A) (hi A))) by (now apply fadd_valid).
  pose proof (Zval_lt_OVF _ Vs) as Bs. rewrite Zs in Bs.
  assert (Fv : is_finite (fsub (fadd (hi A) (hi A)) (hi A)) = true).
  { apply fsub_finite_iff; auto. rewrite Zs.
    replace (2 * Zval (hi A) - Zval (hi A)) with (Zval (hi A)) by ring.
    rewrite (RN_id _ Fx). now apply Zval_lt_OVF. }
  destruct (two_sum_sound (hi A) (hi A) V1 V1 F1 F1 Fs Fv)
    as (_ & Ve & Fe & Zh & Ze).
  unfold Benchmark.dd_add in Fr |- *.
  set (s := Benchmark.two_sum (hi A) (hi A)) in *.
  assert (Fhs : is_finite (hi s) = true) by exact Fs.
  assert (Zhs : Zval (hi s) = 2 * Zval (hi A)) by exact Zs.
  assert (Ze0 : Zval (lo s) = 0).
  { rewrite Ze.
    replace (Zval (hi A) + Zval (hi A)) with (2 * Zval (hi A)) by ring.
    rewrite (RN_id _ (fmt_double _ Fx)). ring. }
  assert (R2 : RN (Zval (lo A) + Zval (lo A)) = 2 * Zval (lo A)).
  { replace (Zval (lo A) + Zval (lo A)) with (2 * Zval (lo A)) by ring.
    apply RN_id. now apply fmt_double. }
  destruct (fadd_step (lo A) (lo A) V2 V2 F2 F2) as (Vw & Fw & Zw);
    [rewrite R2; lia|].
  rewrite R2 in Zw.
  assert (R3 : RN (Zval (fadd (lo A) (lo A)) + Zval (lo s)) = 2 * Zval (lo A)).
  { rewrite Zw, Ze0, Z.add_0_r. apply RN_id. now apply fmt_double. }
  destruct (fadd_step _ (lo s) Vw Ve Fw Fe) as (Vt & Ft & Zt);
    [rewrite R3; lia|].
  rewrite R3 in Zt.
  destruct (quick_two_sum_sound (hi s) _ Vs Vt Fhs Ft
              ltac:(rewrite Zhs, Zt; lia) Fr) as (_ & _ & Fq & Zq1 & Zq2).
  split; [exact Fq|]. split; [|exact Same].
  rewrite Zq1, Zq2, Zhs, Zt. ring.
Qed.

Lemma dd_add_twice_witness :
  Zval (hi (Benchmark.dd_add (mk_dd tenth eps16) (mk_dd tenth eps16)))
  + Zval (lo (Benchmark.dd_add (mk_dd tenth eps16) (mk_dd tenth eps16)))
  = 2 * (Zval tenth + Zval eps16).
Proof.
  apply (dd_add_twice (mk_dd tenth eps16)); try reflexivity.
  - split; reflexivity.
  - vm_compute. discriminate.
Defined.

(** Zero is a right identity: adding the embedded scalar [0.0] by
    [dd_add], or the scalar [0.0] by [dd_add_d], returns a finite pair
    unchanged when its high part is the rounded sum of its two parts and
    its low part is not [-0]. *)
Theorem dd_add_zero A :
  dd_valid A -> dd_finite A = true ->
  fadd (hi A) (lo A) = hi A -> lo A <> nzero ->
  Benchmark.dd_add A (Benchmark.dd_from_double pzero) = A /\
  Benchmark.dd_add_d A pzero = A.
Proof.
  intros [V1 V2] F E N. apply andb_prop in F. destruct F as [F1 F2].
  pose proof (fadd_fixed_not_neg_zero _ _ V1 V2 E N) as Nh.
  assert (Ed : Benchmark.dd_add_d A pzero = A).
  { pose proof (Zval_fmt _ V1) as Fx. pose proof (Zval_fmt _ V2) as Fl.
    assert (Fs : is_finite (fadd (hi A) pzero) = true)
      by (now rewrite fadd_pzero_r).
    assert (Fv : is_finite (fsub (fadd (hi A) pzero) (hi A)) = true).
    { rewrite fadd_pzero_r by exact Nh. apply fsub_finite_iff; auto.
      rewrite Z.sub_diag, RN_0. reflexivity. }
    destruct (two_sum_sound (hi A) pzero V1 eq_refl F1 eq_refl Fs Fv)
      as (Vs & Ve & Fe & _ & Ze).
    pose proof (two_sum_lo_not_neg_zero (hi A) pzero V1 eq_refl) as Ne.
    assert (El : lo (Benchmark.two_sum (hi A) pzero) = pzero).
    { apply zero_of_value; auto. rewrite Ze. change (Zval pzero) with 0.
      rewrite Z.add_0_r, (RN_id _ Fx). ring. }
    assert (Eh : hi (Benchmark.two_sum (hi A) pzero) = hi A)
      by (apply fadd_pzero_r; exact Nh).
    unfold Benchmark.dd_add_d. rewrite El, Eh, (fadd_pzero_r _ N).
    unfold Benchmark.quick_two_sum. rewrite E.
    rewrite (fsub_zero_value (hi A) (hi A)) by auto.
    rewrite fsub_pzero_r. destruct A; reflexivity. }
  split; [|exact Ed].
  rewrite <- Ed at 2. unfold Benchmark.dd_add, Benchmark.dd_add_d.
  unfold Benchmark.dd_from_double. cbn [hi lo]. fold pzero.
  now rewrite (fadd_pzero_r _ N).
Qed.

Lemma dd_add_zero_witness :
  Benchmark.dd_add (mk_dd one eps16) (Benchmark.dd_from_double pzero)
    = mk_dd one eps16 /\
  Benchmark.dd_add_d (mk_dd one eps16) pzero = mk_dd one eps16.
Proof.
  apply (dd_add_zero (mk_dd one eps16)); try reflexivity.
  - split; reflexivity.
  - discriminate.
Defined.

(** The functions exported for Kotlin, on scalars:
    [compute_double_double_sum a 0 b 0] returns the rounded sum [a + b]
    and the residual of [two_sum a b], and
    [compute_double_double_to_double] of these two is the double
    [a + b]. *)
Theorem interop_sum_of_scalars a b :
  valid a -> valid b -> is_finite a = true -> is_finite b = true ->
  is_finite (fadd a b) = true ->
  is_finite (fsub (fadd a b) a) = true ->
  fadd a b <> nzero ->
  compute_double_double_sum a pzero b pzero
    = (fadd a b, lo (Benchmark.two_sum a b)) /\
  compute_double_double_to_double
    (fst (compute_double_double_sum a pzero b pzero))
    (snd (compute_double_double_sum a pzero b pzero)) = fadd a b.
Proof.
  intros Va Vb Fa Fb Fs Fv N.
  pose proof (dd_add_embedded a b Va Vb Fa Fb Fs Fv) as D. cbv zeta in D.
  destruct D as (Vh & Fh & Zh & Nh & El).
  destruct (two_sum_sound a b Va Vb Fa Fb Fs Fv) as (Vs & Ve & Fe & Zs & Ze).
  assert (Eh : hi (Benchmark.dd_add (Benchmark.dd_from_double a)
                     (Benchmark.dd_from_double b)) = fadd a b).
  { apply Zval_inj; auto. }
  unfold compute_double_double_sum, compute_double_double_to_double.
  cbn [fst snd].
  change (mk_dd a pzero) with (Benchmark.dd_from_double a).
  change (mk_dd b pzero) with (Benchmark.dd_from_double b).
  rewrite Eh, El. split; [reflexivity|].
  unfold Benchmark.dd_to_double. cbn [hi lo].
  assert (R : RN (Zval (fadd a b) + Zval (lo (Benchmark.two_sum a b)))
              = Zval (fadd a b)).
  { change (fadd a b) with (hi (Benchmark.two_sum a b)). rewrite Zs, Ze.
    f_equal. ring. }
  destruct (fadd_step (fadd a b) (lo (Benchmark.two_sum a b)) Vs Ve Fs Fe)
    as (Vr & Fr & Zr).
  { rewrite R. now apply Zval_lt_OVF. }
  apply Zval_inj; auto.
  - intros H. apply fadd_neg_zero in H; auto. now destruct H.
  - now rewrite Zr, R.
Qed.

Lemma interop_sum_of_scalars_witness :
  compute_double_double_to_double
    (fst (compute_double_double_sum one pzero eps16 pzero))
    (snd (compute_double_double_sum one pzero eps16 pzero)) = fadd one eps16.
Proof.
  apply (interop_sum_of_scalars one eps16); try reflexivity. discriminate.
Defined.

Section ZeroOperands.

(** Adding a pair of zeros, of either sign in the high part, to a pair
    whose high part is the rounded sum of its parts. *)
Lemma dd_add_zero_pair A z :
  dd_valid A -> dd_finite A = true ->
  fadd (hi A) (lo A) = hi A -> lo A <> nzero ->
  valid z -> is_finite z = true -> Zval z = 0 ->
  Benchmark.dd_add A (mk_dd z pzero) = A.
Proof.
  intros [V1 V2] F E N Vz Fz Zz. apply andb_prop in F. destruct F as [F1 F2].
  pose proof (fadd_fixed_not_neg_zero _ _ V1 V2 E N) as Nh.
  pose proof (Zval_fmt _ V1) as Fx.
  assert (R : RN (Zval (hi A) + Zval z) = Zval (hi A))
    by (rewrite Zz, Z.add_0_r; now apply RN_id).
  destruct (fadd_step (hi A) z V1 Vz F1 Fz) as (Vs & Fs & Zs).
  { rewrite R. now apply Zval_lt_OVF. }
  rewrite R in Zs.
  assert (Eh : fadd (hi A) z = hi A).
  { apply Zval_inj; auto. intros H. apply fadd_neg_zero in H; auto.
    now destruct H. }
  assert (Fv : is_finite (fsub (fadd (hi A) z) (hi A)) = true).
  { rewrite Eh. apply fsub_finite_iff; auto.
    rewrite Z.sub_diag, RN_0. reflexivity. }
  destruct (two_sum_sound (hi A) z V1 Vz F1 Fz Fs Fv) as (_ & Ve & Fe & _ & Ze).
  pose proof (two_sum_lo_not_neg_zero (hi A) z V1 Vz) as Ne.
  assert (El : lo (Benchmark.two_sum (hi A) z) = pzero).
  { apply zero_of_value; auto. rewrite Ze, R, Zz. ring. }
  assert (Eh' : hi (Benchmark.two_sum (hi A) z) = hi A) by exact Eh.
  unfold Benchmark.dd_add. cbn [hi lo].
  rewrite El, Eh', !(fadd_pzero_r _ N).
  unfold Benchmark.quick_two_sum. rewrite E.
  rewrite (fsub_zero_value (hi A) (hi A)) by auto.
  rewrite fsub_pzero_r. destruct A; reflexivity.
Qed.

Lemma dd_eta r z : lo r = z -> r = mk_dd (hi r) z.
Proof. intros <-. destruct r; reflexivity. Qed.

Lemma split_double_pzero : Benchmark.split_double pzero = (pzero, pzero).
Proof. reflexivity. Qed.

(** The product of a double by [+0], in either order: a pair of
    zeros. *)
Lemma two_prod_zero a :
  valid a -> is_finite a = true ->
  is_finite (fmul Benchmark.SPLIT_CONST a) = true ->
  (exists z, valid z /\ is_finite z = true /\ Zval z = 0 /\
             Benchmark.two_prod a pzero = mk_dd z pzero) /\
  (exists z, valid z /\ is_finite z = true /\ Zval z = 0 /\
             Benchmark.two_prod pzero a = mk_dd z pzero).
Proof.
  intros Va Fa Sa.
  destruct (split_double_sound a Va Fa Sa) as (Vh & _ & Fh & _).
  assert (Z0 : forall x, valid x -> is_finite x = true ->
                 is_finite (fmul x pzero) = true /\
                 is_finite (fmul pzero x) = true).
  { intros [s|s| |s m e] _ F; try discriminate; split; reflexivity. }
  assert (P1 : (2 ^ 1074 | Zval a * Zval pzero))
    by (change (Zval pzero) with 0; rewrite Z.mul_0_r; apply Z.divide_0_r).
  assert (P2 : (2 ^ 1074 | Zval pzero * Zval a))
    by (change (Zval pzero) with 0; rewrite Z.mul_0_l; apply Z.divide_0_r).
  assert (S1 : split_safe a pzero).
  { split; [exact Sa|]. split; [reflexivity|].
    rewrite split_double_pzero. cbn [fst]. now apply Z0. }
  assert (S2 : split_safe pzero a).
  { split; [reflexivity|]. split; [exact Sa|].
    rewrite split_double_pzero. cbn [fst]. now apply Z0. }
  destruct (Z0 a Va Fa) as [Fp1 Fp2].
  destruct (two_prod_split_sound a pzero Va eq_refl Fa eq_refl Fp1 P1 S1)
    as [(F1 & F2 & Zh1 & Zs1) N1].
  destruct (two_prod_split_sound pzero a eq_refl Va eq_refl Fa Fp2 P2 S2)
    as [(F3 & F4 & Zh2 & Zs2) N2].
  destruct (two_prod_valid a pzero Va eq_refl) as [W1 W2].
  destruct (two_prod_valid pzero a eq_refl Va) as [W3 W4].
  change (Zval pzero) with 0 in Zh1, Zs1, Zh2, Zs2.
  rewrite Z.mul_0_r in Zh1, Zs1. rewrite Z.mul_0_l in Zh2, Zs2.
  rewrite RNdiv_0 in Zh1, Zh2.
  rewrite Zh1, Z.add_0_l in Zs1. rewrite Zh2, Z.add_0_l in Zs2.
  apply Z.eq_mul_0_l in Zs1; [|lia]. apply Z.eq_mul_0_l in Zs2; [|lia].
  pose proof (zero_of_value _ W2 F2 Zs1 N1) as E1.
  pose proof (zero_of_value _ W4 F4 Zs2 N2) as E2.
  split.
  - exists (hi (Benchmark.two_prod a pzero)). repeat split; auto.
    now apply dd_eta.
  - exists (hi (Benchmark.two_prod pzero a)). repeat split; auto.
    now apply dd_eta.
Qed.

End ZeroOperands.



Section EmbeddedProduct.

Lemma fadd_signed_zero x s : x <> nzero -> fadd x (S754_zero s) = x.
Proof.
  intros N. destruct x as [[]|[]| |sx mx ex], s; try reflexivity; now elim N.
Qed.

Lemma cross_terms_zero a b :
  is_finite a = true -> is_finite b = true ->
  exists s, fadd (fmul a pzero) (fmul pzero b) = S754_zero s.
Proof.
  intros Fa Fb.
  destruct a as [[]|[]| |[] ma ea], b as [[]|[]| |[] mb eb];
    try discriminate; eexists; reflexivity.
Qed.

(** A pair whose high part is the rounded sum of its parts is left
    unchanged by [quick_two_sum]. *)
Lemma quick_two_sum_fixed h l :
  valid h -> is_finite h = true -> h <> nzero ->
  fadd h l = h -> Benchmark.quick_two_sum h l = mk_dd h l.
Proof.
  intros V F N E. unfold Benchmark.quick_two_sum. rewrite E.
  rewrite (fsub_zero_value h h) by auto. now rewrite fsub_pzero_r.
Qed.

Lemma exact_prod_fixed a b r :
  dd_valid r -> (2 ^ 1074 | Zval a * Zval b) ->
  exact_prod_pair a b r -> hi r <> nzero -> lo r <> nzero ->
  fadd (hi r) (lo r) = hi r.
Proof.
  intros [Wh Wl] [K EK] X Nh Nl.
  destruct (exact_prod_values _ _ _ K EK X) as [Zh Zl].
  destruct X as (Fh & Fl & _).
  assert (R : RN (Zval (hi r) + Zval (lo r)) = Zval (hi r)).
  { rewrite Zh, Zl. f_equal. ring. }
  destruct (fadd_step (hi r) (lo r) Wh Wl Fh Fl) as (Vs & Fs & Zs).
  { rewrite R. now apply Zval_lt_OVF. }
  apply Zval_inj; [exact Vs|exact Wh|exact Fs|exact Fh| |exact Nh|].
  - intros H. apply fadd_neg_zero in H; [|exact Wh|exact Wl].
    destruct H as [H _]. exact (Nh H).
  - rewrite Zs. exact R.
Qed.

End EmbeddedProduct.

(** On embedded scalars the two programs multiply alike.  For finite
    [a] and [b] whose product is finite, has its error on the grid (no
    underflow) and is not [-0], the product of the bit comparison is the
    pair of its [two_prod]; and the product of the benchmark, four
    split-based products and three sums, is that same pair when, in
    addition, neither a split nor the product of the two high halves
    overflows. *)
Theorem dd_mul_of_scalars_agree a b :
  valid a -> valid b -> is_finite a = true -> is_finite b = true ->
  product_fits a b -> fmul a b <> nzero ->
  Bitcompare.dd_mul (Bitcompare.dd_from_double a) (Bitcompare.dd_from_double b)
    = Bitcompare.two_prod a b /\
  (split_safe a b ->
   Benchmark.dd_mul (Benchmark.dd_from_double a) (Benchmark.dd_from_double b)
   = Bitcompare.dd_mul (Bitcompare.dd_from_double a)
                       (Bitcompare.dd_from_double b)).
Proof.
  intros Va Vb Fa Fb (Fp & D) N.
  destruct (two_prod_fma_sound a b Va Vb Fa Fb Fp D) as [X Nl].
  pose proof (two_prod_fma_valid a b Va Vb) as W.
  assert (Nh : hi (Bitcompare.two_prod a b) <> nzero) by exact N.
  pose proof (exact_prod_fixed a b _ W D X Nh Nl) as E.
  assert (E1 : Bitcompare.dd_mul (Bitcompare.dd_from_double a)
                 (Bitcompare.dd_from_double b) = Bitcompare.two_prod a b).
  { unfold Bitcompare.dd_mul, Bitcompare.dd_from_double. cbn [hi lo].
    fold pzero. destruct (cross_terms_zero a b Fa Fb) as [s ->].
    rewrite (fadd_signed_zero _ s Nl).
    change (Bitcompare.quick_two_sum ?x ?y)
      with (Benchmark.quick_two_sum x y).
    destruct W as [Wh _]. destruct X as (Fh & _).
    rewrite (quick_two_sum_fixed _ _ Wh Fh Nh E).
    destruct (Bitcompare.two_prod a b); reflexivity. }
  split; [exact E1|]. intros S. rewrite E1.
  destruct (two_prod_split_sound a b Va Vb Fa Fb Fp D S) as [X' Nl'].
  pose proof (two_prod_valid a b Va Vb) as W'.
  assert (Eh : hi (Benchmark.two_prod a b) = hi (Bitcompare.two_prod a b)).
  { unfold Benchmark.two_prod, Bitcompare.two_prod.
    destruct (Benchmark.split_double a), (Benchmark.split_double b).
    reflexivity. }
  assert (El : lo (Benchmark.two_prod a b) = lo (Bitcompare.two_prod a b)).
  { destruct X as (_ & F2 & _ & X2), X' as (_ & F1 & _ & X1).
    destruct W as [_ V2], W' as [_ V1].
    apply Zval_inj; try assumption.
    rewrite Eh in X1. rewrite <- X2 in X1.
    apply Z.mul_cancel_r in X1; lia. }
  assert (EP : Benchmark.two_prod a b = Bitcompare.two_prod a b).
  { destruct (Benchmark.two_prod a b) as [h1 l1].
    destruct (Bitcompare.two_prod a b) as [h2 l2].
    cbn [hi lo] in Eh, El. now subst. }
  assert (Nh' : hi (Benchmark.two_prod a b) <> nzero) by (now rewrite Eh).
  pose proof (exact_prod_fixed a b _ W' D X' Nh' Nl') as E'.
  assert (FP : dd_finite (Benchmark.two_prod a b) = true).
  { destruct X' as (F1 & F2 & _). unfold dd_finite. now rewrite F1, F2. }
  destruct S as (Sa & Sb & _).
  destruct (two_prod_zero a Va Fa Sa) as [(z1 & Vz1 & Fz1 & Zz1 & T1) _].
  destruct (two_prod_zero b Vb Fb Sb) as [_ (z2 & Vz2 & Fz2 & Zz2 & T2)].
  unfold Benchmark.dd_mul, Benchmark.dd_from_double. cbn [hi lo]. fold pzero.
  rewrite T1, T2.
  change (Benchmark.two_prod pzero pzero) with (mk_dd pzero pzero).
  rewrite (dd_add_zero_pair _ z1 W' FP E' Nl' Vz1 Fz1 Zz1).
  rewrite (dd_add_zero_pair _ z2 W' FP E' Nl' Vz2 Fz2 Zz2).
  rewrite (dd_add_zero_pair _ pzero W' FP E' Nl' eq_refl eq_refl eq_refl).
  exact EP.
Qed.

Lemma dd_mul_of_scalars_agree_witness :
  Bitcompare.dd_mul (Bitcompare.dd_from_double tenth)
    (Bitcompare.dd_from_double tenth) = Bitcompare.two_prod tenth tenth /\
  Benchmark.dd_mul (Benchmark.dd_from_double tenth)
    (Benchmark.dd_from_double tenth)
  = Bitcompare.dd_mul (Bitcompare.dd_from_double tenth)
      (Bitcompare.dd_from_double tenth).
Proof.
  assert (P : product_fits tenth tenth).
  { split; [reflexivity|]. divide_by_eval. }
  destruct (dd_mul_of_scalars_agree tenth tenth eq_refl eq_refl eq_refl
              eq_refl P ltac:(discriminate)) as [H1 H2].
  split; [exact H1|]. apply H2. repeat split; reflexivity.
Defined.

Section ScalarProduct.



End ScalarProduct.



(** The cancellation test of the benchmark, for any operands: adding a
    scalar [b] to a scalar [a] that is at least as large and then taking
    [a] away gives back [b] exactly, as the pair [(b, +0)], while the same
    two operations on plain doubles lose the rounding error of [a + b]. *)
Theorem cancellation_recovers a b :
  valid a -> valid b -> is_finite a = true -> is_finite b = true ->
  Z.abs (Zval b) <= Z.abs (Zval a) ->
  is_finite (fadd a b) = true -> b <> nzero ->
  Benchmark.dd_add_d
    (Benchmark.dd_add (Benchmark.dd_from_double a) (Benchmark.dd_from_double b))
    (fneg a) = mk_dd b pzero /\
  Zval (fsub (fadd a b) a) = Zval b - Zval (lo (Benchmark.two_sum a b)).
Proof.
  intros Va Vb Fa Fb O Fs Nb.
  pose proof (Zval_fmt a Va) as Ga. pose proof (Zval_fmt b Vb) as Gb.
  pose proof (Zval_lt_OVF a Va) as La.
  assert (Vs : valid (fadd a b)) by (now apply fadd_valid).
  assert (Zs : Zval (fadd a b) = RN (Zval a + Zval b)) by (now apply fadd_Zval).
  pose proof (Zval_lt_OVF _ Vs) as Ls.
  pose proof (fast_exact _ _ Ga Gb O) as Ex. rewrite <- Zs in Ex.
  pose proof (quick_two_sum_grid _ _ Ga Gb O) as G. cbv zeta in G.
  rewrite <- Zs in G. destruct G as (_ & Bt & _).
  rewrite (RN_id _ Ex) in Bt.
  destruct (fsub_step (fadd a b) a Vs Va Fs Fa) as (Vv & Fv & Zv).
  { rewrite (RN_id _ Ex). lia. }
  rewrite (RN_id _ Ex) in Zv.
  destruct (dd_add_embedded a b Va Vb Fa Fb Fs Fv) as (Vh & Fh & Zh & Nh & El).
  destruct (two_sum_sound a b Va Vb Fa Fb Fs Fv) as (_ & Ve & Fe & _ & Ze).
  pose proof (two_sum_lo_not_neg_zero a b Va Vb) as Ne.
  rewrite <- Zs in Ze.
  set (e := lo (Benchmark.two_sum a b)) in *.
  set (r := Benchmark.dd_add (Benchmark.dd_from_double a)
                             (Benchmark.dd_from_double b)) in *.
  assert (Zh' : Zval (hi r) = Zval (fadd a b)) by exact Zh.
  clear Zh.
  assert (Vn : valid (fneg a)) by (now apply valid_fneg).
  assert (Fn : is_finite (fneg a) = true) by (now rewrite is_finite_fneg).
  destruct (fadd_step (hi r) (fneg a) Vh Vn Fh Fn) as (V2 & F2 & Z2).
  { rewrite Zh', Zval_fneg, Z.add_opp_r, (RN_id _ Ex). lia. }
  rewrite Zh', Zval_fneg, Z.add_opp_r, (RN_id _ Ex) in Z2.
  assert (Fv2 : is_finite (fsub (fadd (hi r) (fneg a)) (hi r)) = true).
  { apply fsub_finite_iff; auto. rewrite Z2, Zh'.
    replace (Zval (fadd a b) - Zval a - Zval (fadd a b)) with (- Zval a)
      by ring.
    rewrite RN_opp, (RN_id _ Ga). lia. }
  destruct (two_sum_sound (hi r) (fneg a) Vh Vn Fh Fn F2 Fv2)
    as (_ & Vl2 & Fl2 & _ & Zl2).
  pose proof (two_sum_lo_not_neg_zero (hi r) (fneg a) Vh Vn) as Nl2.
  assert (El2 : lo (Benchmark.two_sum (hi r) (fneg a)) = pzero).
  { apply zero_of_value; auto.
    rewrite Zl2, Zh', Zval_fneg, Z.add_opp_r, (RN_id _ Ex). ring. }
  assert (Zsum : Zval (fadd (hi r) (fneg a)) + Zval e = Zval b)
    by (rewrite Z2, Ze; ring).
  destruct (fadd_step _ e V2 Ve F2 Fe) as (V3 & F3 & Z3).
  { rewrite Zsum, (RN_id _ Gb). now apply Zval_lt_OVF. }
  rewrite Zsum, (RN_id _ Gb) in Z3.
  assert (E3 : fadd (fadd (hi r) (fneg a)) e = b).
  { apply Zval_inj; auto.
    intros H. apply fadd_neg_zero in H; auto. destruct H as [_ H].
    exact (Ne H). }
  assert (Zd : Zval b - Zval (fadd (hi r) (fneg a)) = Zval e) by lia.
  pose proof (Zval_fmt e Ve) as Ge.
  destruct (fsub_step b _ Vb V2 Fb F2) as (V4 & F4 & Z4).
  { rewrite Zd, (RN_id _ Ge). now apply Zval_lt_OVF. }
  rewrite Zd, (RN_id _ Ge) in Z4.
  split; [|rewrite Zv, Ze; ring].
  unfold Benchmark.dd_add_d. cbn [hi lo]. rewrite El.
  fold e. rewrite El2, (fadd_pzero_r _ Ne).
  change (hi (Benchmark.two_sum (hi r) (fneg a)))
    with (fadd (hi r) (fneg a)).
  unfold Benchmark.quick_two_sum. rewrite E3. f_equal.
  apply fsub_zero_value; auto.
Qed.

Lemma cancellation_recovers_witness :
  Benchmark.dd_add_d
    (Benchmark.dd_add (Benchmark.dd_from_double one)
                      (Benchmark.dd_from_double eps16))
    (fneg one) = mk_dd eps16 pzero /\
  Zval (fsub (fadd one eps16) one)
  = Zval eps16 - Zval (lo (Benchmark.two_sum one eps16)).
Proof.
  apply (cancellation_recovers one eps16); try reflexivity.
  - vm_compute. discriminate.
  - discriminate.
Defined.

(** One step of the compensated summation loses nothing: when the
    corrected term [y = small - k_c] is not larger than the running sum,
    or the running sum is a multiple of the unit in the last place of
    [y] (as in the first iteration, where the sum is zero), the new sum
    minus the new compensation is exactly the old sum plus [y], and the
    new compensation is at most half a unit in the last place of the new
    sum. *)
Theorem kahan_step_exact small k_sum k_c :
  valid small -> valid k_sum -> valid k_c ->
  is_finite small = true -> is_finite k_sum = true -> is_finite k_c = true ->
  is_finite (fsub small k_c) = true ->
  Z.abs (Zval (fsub small k_c)) <= Z.abs (Zval k_sum) \/
    (2 ^ cexp (Zval (fsub small k_c)) | Zval k_sum) ->
  is_finite (fadd k_sum (fsub small k_c)) = true ->
  fst (kahan_step small (k_sum, k_c)) = fadd k_sum (fsub small k_c) /\
  is_finite (snd (kahan_step small (k_sum, k_c))) = true /\
  Zval (fst (kahan_step small (k_sum, k_c)))
    - Zval (snd (kahan_step small (k_sum, k_c)))
  = Zval k_sum + Zval (fsub small k_c) /\
  2 * Z.abs (Zval (snd (kahan_step small (k_sum, k_c))))
  <= 2 ^ cexp (Zval (fst (kahan_step small (k_sum, k_c)))).
Proof.
  intros Vs Vk Vc Fs Fk Fc Fy H Ft.
  cbn [kahan_step fst snd].
  assert (Vy : valid (fsub small k_c)) by (now apply fsub_valid).
  remember (fsub small k_c) as y eqn:Ey. clear Ey.
  assert (Vt : valid (fadd k_sum y)) by (now apply fadd_valid).
  remember (fadd k_sum y) as t eqn:Et.
  assert (Zt : Zval t = RN (Zval k_sum + Zval y))
    by (rewrite Et; apply fadd_Zval; auto; now rewrite <- Et).
  destruct (quick_two_sum_unit_grid (Zval k_sum) (Zval y) (Zval_fmt _ Vk)
              (Zval_fmt _ Vy) H) as (Ge & Bt & Be).
  rewrite <- Zt in Ge, Bt, Be.
  pose proof (Zval_lt_OVF k_sum Vk) as Lk.
  pose proof (Zval_lt_OVF y Vy) as Ly.
  pose proof (Zval_lt_OVF t Vt) as Lt'.
  destruct (fsub_step t k_sum Vt Vk Ft Fk) as (Vu & Fu & Zu).
  { clear - Bt Lk Ly Lt'. lia. }
  rewrite <- Zu in Ge.
  assert (R : RN (Zval (fsub t k_sum) - Zval y)
              = - (Zval k_sum + Zval y - Zval t)).
  { rewrite <- Ge, <- RN_opp. f_equal. ring. }
  destruct (fsub_step _ y Vu Vy Fu Fy) as (Vc' & Fc' & Zc').
  { rewrite R. clear - Be Ly. lia. }
  rewrite R in Zc'.
  split; [reflexivity|]. split; [exact Fc'|].
  split; [rewrite Zc'; ring|].
  rewrite Zc', Z.abs_opp, Zt.
  pose proof (RN_error (Zval k_sum + Zval y)) as E.
  pose proof (pow2_le _ _ (cexp_RN (Zval k_sum + Zval y))) as P.
  clear - E P. lia.
Qed.

Lemma kahan_step_exact_witness :
  Zval (fst (kahan_step eps16 (one, pzero)))
    - Zval (snd (kahan_step eps16 (one, pzero)))
  = Zval one + Zval (fsub eps16 pzero).
Proof.
  apply (kahan_step_exact eps16 one pzero); try reflexivity.
  left. vm_compute. discriminate.
Defined.

(** ** Half precision: [f16_to_f32] and [f32_to_f16] *)

Section BitFields.

Lemma u32_small z : 0 <= z < 2 ^ 32 -> Float16.u32 z = z.
Proof. intros H. unfold Float16.u32. now apply Z.mod_small. Qed.

Lemma u16_small z : 0 <= z < 2 ^ 16 -> Float16.u16 z = z.
Proof. intros H. unfold Float16.u16. now apply Z.mod_small. Qed.

Lemma land_low z k : 0 <= k -> Z.land z (2 ^ k - 1) = z mod 2 ^ k.
Proof.
  intros Hk. rewrite <- Z.land_ones by exact Hk. now rewrite Z.ones_equiv, Z.sub_1_r.
Qed.

(** Two bit fields that do not overlap are added by [|]. *)
Lemma lor_add a b n :
  0 <= n -> 0 <= b < 2 ^ n -> Z.lor (a * 2 ^ n) b = a * 2 ^ n + b.
Proof.
  intros Hn Hb.
  assert (L0 : Z.land (a * 2 ^ n) b = 0); [|now rewrite <- Z.lxor_lor, Z.add_nocarry_lxor].
  apply Z.bits_inj'. intros i Hi.
  rewrite Z.land_spec, Z.bits_0.
  destruct (Z_lt_le_dec i n) as [L|G].
  - rewrite <- Z.shiftl_mul_pow2 by exact Hn.
    now rewrite Z.shiftl_spec_low.
  - apply andb_false_intro2. apply Z.testbit_false; [exact Hi|].
    rewrite Z.div_small; [reflexivity|].
    split; [lia|]. apply Z.lt_le_trans with (2 ^ n); [lia|].
    apply Z.pow_le_mono_r; lia.
Qed.

Lemma pack16 s e m :
  0 <= s <= 1 -> 0 <= e < 32 -> 0 <= m < 1024 ->
  Float16.u16 (Z.lor (Z.lor (Float16.u32 (Z.shiftl s 15))
                            (Float16.u32 (Z.shiftl e 10))) m)
  = s * 32768 + e * 1024 + m.
Proof.
  intros Hs He Hm. rewrite !Z.shiftl_mul_pow2 by lia.
  rewrite !u32_small by (change (2 ^ 32) with 4294967296; lia).
  rewrite (lor_add s (e * 2 ^ 10) 15) by (change (2 ^ 15) with 32768; lia).
  replace (s * 2 ^ 15 + e * 2 ^ 10) with ((s * 32 + e) * 2 ^ 10)
    by (change (2 ^ 15) with (32 * 2 ^ 10); ring).
  rewrite lor_add by (change (2 ^ 10) with 1024; lia).
  rewrite u16_small by (change (2 ^ 16) with 65536; lia). ring.
Qed.

Lemma pack16_top s v :
  0 <= s <= 1 -> 0 <= v < 32768 ->
  Float16.u16 (Z.lor (Float16.u32 (Z.shiftl s 15)) v) = s * 32768 + v.
Proof.
  intros Hs Hv. rewrite !Z.shiftl_mul_pow2 by lia.
  rewrite !u32_small by (change (2 ^ 32) with 4294967296; lia).
  rewrite lor_add by (change (2 ^ 15) with 32768; lia).
  rewrite u16_small by (change (2 ^ 16) with 65536; lia). reflexivity.
Qed.

Lemma pack16_sign s :
  0 <= s <= 1 -> Float16.u16 (Float16.u32 (Z.shiftl s 15)) = s * 32768.
Proof.
  intros Hs. rewrite !Z.shiftl_mul_pow2 by lia.
  rewrite !u32_small by (change (2 ^ 32) with 4294967296; lia).
  rewrite u16_small by (change (2 ^ 16) with 65536; lia). reflexivity.
Qed.

Lemma pack32 s e m :
  0 <= s <= 1 -> 0 <= e < 256 -> 0 <= m < 8388608 ->
  Z.lor (Z.lor (Float16.u32 (Z.shiftl s 31)) (Float16.u32 (Z.shiftl e 23))) m
  = s * 2147483648 + e * 8388608 + m.
Proof.
  intros Hs He Hm. rewrite !Z.shiftl_mul_pow2 by lia.
  rewrite !u32_small by (change (2 ^ 32) with 4294967296; lia).
  rewrite (lor_add s (e * 2 ^ 23) 31) by (change (2 ^ 31) with 2147483648; lia).
  replace (s * 2 ^ 31 + e * 2 ^ 23) with ((s * 256 + e) * 2 ^ 23)
    by (change (2 ^ 31) with (256 * 2 ^ 23); ring).
  rewrite lor_add by (change (2 ^ 23) with 8388608; lia). ring.
Qed.

(** The fields of a 32-bit pattern and of a 16-bit pattern. *)
Lemma fields32 s e m :
  0 <= s <= 1 -> 0 <= e < 256 -> 0 <= m < 8388608 ->
  Z.land (Z.shiftr (s * 2147483648 + e * 8388608 + m) 31) 1 = s /\
  Z.land (Z.shiftr (s * 2147483648 + e * 8388608 + m) 23) 255 = e /\
  Z.land (s * 2147483648 + e * 8388608 + m) 8388607 = m.
Proof.
  intros Hs He Hm. rewrite !Z.shiftr_div_pow2 by lia.
  change 1 with (2 ^ 1 - 1) at 1. change 255 with (2 ^ 8 - 1).
  change 8388607 with (2 ^ 23 - 1). rewrite !land_low by lia.
  change (2 ^ 31) with 2147483648. change (2 ^ 23) with 8388608.
  change (2 ^ 1) with 2. change (2 ^ 8) with 256.
  repeat split; dm.
Qed.

Lemma fields16 s e m :
  0 <= s <= 1 -> 0 <= e < 32 -> 0 <= m < 1024 ->
  Z.land (Z.shiftr (s * 32768 + e * 1024 + m) 15) 1 = s /\
  Z.land (Z.shiftr (s * 32768 + e * 1024 + m) 10) 31 = e /\
  Z.land (s * 32768 + e * 1024 + m) 1023 = m.
Proof.
  intros Hs He Hm. rewrite !Z.shiftr_div_pow2 by lia.
  change 1 with (2 ^ 1 - 1) at 1. change 31 with (2 ^ 5 - 1).
  change 1023 with (2 ^ 10 - 1). rewrite !land_low by lia.
  change (2 ^ 15) with 32768. change (2 ^ 10) with 1024.
  change (2 ^ 1) with 2. change (2 ^ 5) with 32.
  repeat split; dm.
Qed.

End BitFields.

Section Narrowing.

(** The rounding decision of [f32_to_f16] is round to nearest, ties to
    even, of the 24-bit significand to 11 bits. *)
Lemma round_decision m :
  0 <= m < 8388608 ->
  rne_q (8388608 + m) 8192 =
  1024 + m / 8192 +
  (if negb ((m / 4096) mod 2 =? 0)
      && (negb (m mod 4096 =? 0) || negb ((m / 8192) mod 2 =? 0))
   then 1 else 0).
Proof.
  intros Hm. unfold rne_q.
  assert (Hq : (8388608 + m) / 8192 = 1024 + m / 8192) by dm.
  assert (Hr : (8388608 + m) mod 8192 = m mod 8192) by dm.
  rewrite Hq, Hr.
  assert (Ev : Z.even (1024 + m / 8192) = ((m / 8192) mod 2 =? 0)).
  { rewrite Z.even_add. change (Z.even 1024) with true.
    rewrite (Zmod_even (m / 8192)).
    destruct (Z.even (m / 8192)); reflexivity. }
  rewrite Ev.
  destruct (Z.compare_spec (2 * (m mod 8192)) 8192) as [C|C|C];
    destruct (Z.eqb_spec ((m / 4096) mod 2) 0) as [R|R];
    destruct (Z.eqb_spec (m mod 4096) 0) as [S|S];
    destruct (Z.eqb_spec ((m / 8192) mod 2) 0) as [P|P];
    cbn [negb andb orb]; try lia; exfalso; dm.
Qed.

Lemma round_decision_bounds m :
  0 <= m < 8388608 -> 1024 <= rne_q (8388608 + m) 8192 <= 2048.
Proof.
  intros Hm. rewrite round_decision by exact Hm.
  destruct (_ && _); dm.
Qed.



Lemma round_exact k : 0 <= k < 1024 -> rne_q (8388608 + k * 8192) 8192 = 1024 + k.
Proof.
  intros Hk. rewrite round_decision by lia.
  replace (k * 8192 / 4096) with (k * 2) by dm.
  replace (k * 2 mod 2) with 0 by dm.
  cbn [Z.eqb negb andb]. dm.
Qed.

Lemma narrow_normal s e m :
  0 <= s <= 1 -> 113 <= e <= 142 -> 0 <= m < 8388608 ->
  Float16.f32_to_f16 (s * 2147483648 + e * 8388608 + m)
  = s * 32768 + (e - 113) * 1024 + rne_q (8388608 + m) 8192.
Proof.
  intros Hs He Hm.
  destruct (fields32 s e m Hs ltac:(lia) Hm) as (Fs & Fe & Fm).
  unfold Float16.f32_to_f16. cbv zeta. rewrite Fs, Fe, Fm.
  rewrite (proj2 (Z.eqb_neq e 255)) by lia.
  rewrite (proj2 (Z.eqb_neq e 0)) by lia. cbn [andb].
  destruct (Z.geb_spec (e - 127 + 15) 31) as [G|G]; [lia|].
  destruct (Z.leb_spec (e - 127 + 15) 0) as [L|L]; [lia|].
  rewrite (round_decision m Hm).
  rewrite !Z.shiftr_div_pow2 by lia.
  change (2 ^ 13) with 8192. change (2 ^ 12) with 4096.
  change 1 with (2 ^ 1 - 1) at 1 2. change 4095 with (2 ^ 12 - 1).
  rewrite !land_low by lia. change (2 ^ 1) with 2. change (2 ^ 12) with 4096.
  assert (Bn : 0 <= m / 8192 < 1024) by dm.
  destruct (negb ((m / 4096) mod 2 =? 0)
            && (negb (m mod 4096 =? 0) || negb ((m / 8192) mod 2 =? 0))).
  - rewrite u32_small by (change (2 ^ 32) with 4294967296; lia).
    destruct (Z.gtb_spec (m / 8192 + 1) 1023) as [C|C].
    + destruct (Z.geb_spec (e - 127 + 15 + 1) 31) as [O|O].
      * rewrite pack16_top by lia. lia.
      * rewrite pack16 by lia. lia.
    + rewrite pack16 by lia. lia.
  - rewrite pack16 by lia. lia.
Qed.

Lemma narrow_low s e m :
  0 <= s <= 1 -> 0 <= e <= 112 -> 0 <= m < 8388608 ->
  Float16.f32_to_f16 (s * 2147483648 + e * 8388608 + m) = s * 32768.
Proof.
  intros Hs He Hm.
  destruct (fields32 s e m Hs ltac:(lia) Hm) as (Fs & Fe & Fm).
  unfold Float16.f32_to_f16. cbv zeta. rewrite Fs, Fe, Fm.
  rewrite (proj2 (Z.eqb_neq e 255)) by lia.
  destruct ((e =? 0) && (m =? 0)); [now apply pack16_sign|].
  destruct (Z.geb_spec (e - 127 + 15) 31) as [G|G]; [lia|].
  destruct (Z.leb_spec (e - 127 + 15) 0) as [L'|L']; [|lia].
  now apply pack16_sign.
Qed.

Lemma narrow_high s e m :
  0 <= s <= 1 -> 143 <= e <= 254 -> 0 <= m < 8388608 ->
  Float16.f32_to_f16 (s * 2147483648 + e * 8388608 + m) = s * 32768 + 31744.
Proof.
  intros Hs He Hm.
  destruct (fields32 s e m Hs ltac:(lia) Hm) as (Fs & Fe & Fm).
  unfold Float16.f32_to_f16. cbv zeta. rewrite Fs, Fe, Fm.
  rewrite (proj2 (Z.eqb_neq e 255)) by lia.
  rewrite (proj2 (Z.eqb_neq e 0)) by lia. cbn [andb].
  destruct (Z.geb_spec (e - 127 + 15) 31) as [G|G]; [|lia].
  apply pack16_top; lia.
Qed.

Lemma narrow_special s m :
  0 <= s <= 1 -> 0 <= m < 8388608 ->
  Float16.f32_to_f16 (s * 2147483648 + 255 * 8388608 + m)
  = s * 32768 + 31744 + (if m =? 0 then 0 else 512).
Proof.
  intros Hs Hm.
  destruct (fields32 s 255 m Hs ltac:(lia) Hm) as (Fs & Fe & Fm).
  unfold Float16.f32_to_f16. cbv zeta. rewrite Fs, Fe, Fm.
  rewrite Z.eqb_refl.
  rewrite Z.shiftl_mul_pow2 by lia.
  rewrite u32_small by (change (2 ^ 32) with 4294967296; lia).
  rewrite (lor_add s 31744 15) by (change (2 ^ 15) with 32768; lia).
  replace (s * 2 ^ 15 + 31744) with ((s * 32 + 31) * 2 ^ 10)
    by (change (2 ^ 15) with (32 * 2 ^ 10); change (2 ^ 10) with 1024; ring).
  assert (B : 0 <= (if negb (m =? 0) then 512 else 0) < 2 ^ 10)
    by (destruct (m =? 0); cbn; lia).
  rewrite lor_add by (lia || exact B).
  rewrite u16_small
    by (change (2 ^ 16) with 65536; change (2 ^ 10) with 1024;
        destruct (m =? 0); cbn [negb]; lia).
  change (2 ^ 10) with 1024. destruct (m =? 0); cbn [negb]; ring.
Qed.

End Narrowing.

Section Widening.

Lemma forall_range_spec f n a :
  forall_range f n a = true ->
  forall z, a <= z < a + Z.of_nat n -> f z = true.
Proof.
  revert a. induction n as [|n IH]; intros a H z Hz; [lia|].
  cbn [forall_range] in H. apply andb_prop in H. destruct H as [H1 H2].
  destruct (Z.eq_dec z a) as [->|N]; [exact H1|].
  apply (IH (a + 1) H2). lia.
Qed.

Lemma normalize_more fuel m e r :
  Float16.normalize fuel m e = Some r ->
  Float16.normalize (S fuel) m e = Some r.
Proof.
  revert m e. induction fuel as [|fuel IH]; intros m e H; [discriminate|].
  cbn [Float16.normalize] in H |- *.
  destruct (Z.land m 1024 =? 0); [|exact H].
  apply IH in H. exact H.
Qed.

Lemma normalize_fuel fuel m e r :
  (11 <= fuel)%nat ->
  Float16.normalize 11 m e = Some r -> Float16.normalize fuel m e = Some r.
Proof.
  intros L H. induction L as [|fuel L IH]; [exact H|].
  now apply normalize_more.
Qed.

Lemma normalize_all : forall_range check_normalize 1023 1 = true.
Proof. vm_compute. reflexivity. Qed.

(** The loop ends within ten shifts on every nonzero 10-bit mantissa,
    with the leading bit at position 10 and the value unchanged. *)
Lemma normalize_spec fuel m :
  (11 <= fuel)%nat -> 0 < m < 1024 ->
  exists m' e',
    Float16.normalize fuel m (-14) = Some (m', e') /\
    1024 <= m' < 2048 /\ -24 <= e' <= -15 /\ m' = m * 2 ^ (-14 - e').
Proof.
  intros L Hm.
  pose proof (forall_range_spec _ _ _ normalize_all m ltac:(lia)) as C.
  unfold check_normalize in C.
  destruct (Float16.normalize 11 m (-14)) as [[m' e']|] eqn:E; [|discriminate].
  exists m', e'. split; [now apply normalize_fuel|].
  repeat (apply andb_prop in C; destruct C as [C ?]).
  repeat split; lia.
Qed.


Lemma float_value_fields s E M :
  0 <= s <= 1 -> 0 <= E < 256 -> 0 <= M < 8388608 ->
  float_value (s * 2147483648 + E * 8388608 + M)
  = (if s =? 0 then 1 else -1)
    * (if E =? 0 then M else (8388608 + M) * 2 ^ (E - 1)).
Proof.
  intros Hs HE HM.
  destruct (fields32 s E M Hs HE HM) as (Gs & Ge & Gm).
  unfold float_value. cbv zeta. rewrite Gs, Ge, Gm.
  destruct (s =? 0); ring.
Qed.

Lemma half_value_fields s E M :
  0 <= s <= 1 -> 0 <= E < 32 -> 0 <= M < 1024 ->
  half_value (s * 32768 + E * 1024 + M)
  = (if s =? 0 then 1 else -1)
    * (if E =? 0 then M else (1024 + M) * 2 ^ (E - 1)).
Proof.
  intros Hs HE HM.
  destruct (fields16 s E M Hs HE HM) as (Gs & Ge & Gm).
  unfold half_value. cbv zeta. rewrite Gs, Ge, Gm.
  destruct (s =? 0); ring.
Qed.

Lemma widen_special fuel s m :
  0 <= s <= 1 -> 0 <= m < 1024 ->
  Float16.f16_to_f32 fuel (s * 32768 + 31 * 1024 + m)
  = Some (s * 2147483648 + 255 * 8388608 + (if m =? 0 then 0 else 4194304)).
Proof.
  intros Hs Hm.
  destruct (fields16 s 31 m Hs ltac:(lia) Hm) as (Fs & Fe & Fm).
  unfold Float16.f16_to_f32. cbv zeta. rewrite Fs, Fe, Fm.
  rewrite (u32_small s), (u32_small 31), (u32_small m)
    by (change (2 ^ 32) with 4294967296; lia).
  rewrite Z.eqb_refl. apply f_equal.
  change (Z.shiftl 1 22) with 4194304.
  rewrite pack32 by (destruct (m =? 0); cbn [negb]; lia).
  destruct (m =? 0); reflexivity.
Qed.

Lemma widen_zero fuel s :
  0 <= s <= 1 ->
  Float16.f16_to_f32 fuel (s * 32768 + 0 * 1024 + 0) = Some (s * 2147483648).
Proof.
  intros Hs.
  destruct (fields16 s 0 0 Hs ltac:(lia) ltac:(lia)) as (Fs & Fe & Fm).
  unfold Float16.f16_to_f32. cbv zeta. rewrite Fs, Fe, Fm.
  rewrite (u32_small s), (u32_small 0)
    by (change (2 ^ 32) with 4294967296; lia).
  cbn [Z.eqb]. rewrite Z.shiftl_mul_pow2 by lia.
  change (2 ^ 31) with 2147483648.
  rewrite u32_small by (change (2 ^ 32) with 4294967296; lia).
  reflexivity.
Qed.

Lemma widen_subnormal fuel s m :
  (11 <= fuel)%nat -> 0 <= s <= 1 -> 0 < m < 1024 ->
  exists m' e',
    Float16.f16_to_f32 fuel (s * 32768 + 0 * 1024 + m)
    = Some (s * 2147483648 + (e' + 127) * 8388608 + (m' - 1024) * 8192) /\
    1024 <= m' < 2048 /\ -24 <= e' <= -15 /\ m' = m * 2 ^ (-14 - e').
Proof.
  intros L Hs Hm.
  destruct (fields16 s 0 m Hs ltac:(lia) ltac:(lia)) as (Fs & Fe & Fm).
  destruct (normalize_spec fuel m L Hm) as (m' & e' & N & Bm & Be & Em).
  exists m', e'. split; [|repeat split; lia].
  unfold Float16.f16_to_f32. cbv zeta. rewrite Fs, Fe, Fm.
  rewrite (u32_small s), (u32_small 0), (u32_small m)
    by (change (2 ^ 32) with 4294967296; lia).
  cbn [Z.eqb]. rewrite (proj2 (Z.eqb_neq m 0)) by lia.
  rewrite N.
  assert (Lm : Z.land m' 1023 = m' - 1024).
  { change 1023 with (2 ^ 10 - 1). rewrite land_low by lia.
    change (2 ^ 10) with 1024. Z.div_mod_to_equations; lia. }
  rewrite Lm.
  rewrite (Z.shiftl_mul_pow2 (m' - 1024) 13) by lia.
  change (2 ^ 13) with 8192.
  rewrite (u32_small (e' + 127)), (u32_small ((m' - 1024) * 8192))
    by (change (2 ^ 32) with 4294967296; lia).
  rewrite pack32 by lia. reflexivity.
Qed.

Lemma widen_normal fuel s e m :
  0 <= s <= 1 -> 1 <= e <= 30 -> 0 <= m < 1024 ->
  Float16.f16_to_f32 fuel (s * 32768 + e * 1024 + m)
  = Some (s * 2147483648 + (e + 112) * 8388608 + m * 8192).
Proof.
  intros Hs He Hm.
  destruct (fields16 s e m Hs ltac:(lia) Hm) as (Fs & Fe & Fm).
  unfold Float16.f16_to_f32. cbv zeta. rewrite Fs, Fe, Fm.
  rewrite (u32_small s), (u32_small e), (u32_small m)
    by (change (2 ^ 32) with 4294967296; lia).
  rewrite (proj2 (Z.eqb_neq e 31)), (proj2 (Z.eqb_neq e 0)) by lia.
  rewrite (Z.shiftl_mul_pow2 m 13) by lia. change (2 ^ 13) with 8192.
  rewrite (u32_small (e - 15 + 127)), (u32_small (m * 8192))
    by (change (2 ^ 32) with 4294967296; lia).
  rewrite pack32 by lia. apply f_equal. ring.
Qed.

End Widening.


(** A float in the normal range of a half is rounded to nearest, ties to
    even: the 24-bit significand [2^23 + m] is rounded to 11 bits and a
    carry out of the mantissa runs into the exponent field.  The result is
    a finite normal half with that rounded value, except at the top of the
    largest binade, where the carry gives the infinity pattern. *)
Theorem f32_to_f16_rounds s e m :
  0 <= s <= 1 -> 113 <= e <= 142 -> 0 <= m < 8388608 ->
  Float16.f32_to_f16 (s * 2147483648 + e * 8388608 + m)
  = s * 32768 + (e - 113) * 1024 + rne_q (8388608 + m) 8192 /\
  (e = 142 /\ 8384512 <= m ->
   Float16.f32_to_f16 (s * 2147483648 + e * 8388608 + m) = s * 32768 + 31744) /\
  (e < 142 \/ m < 8384512 ->
   1024 <= Float16.f32_to_f16 (s * 2147483648 + e * 8388608 + m) mod 32768
        < 31744 /\
   half_value (Float16.f32_to_f16 (s * 2147483648 + e * 8388608 + m))
   = (if s =? 0 then 1 else -1) * rne_q (8388608 + m) 8192 * 2 ^ (e - 113)).
Proof.
  intros Hs He Hm. rewrite narrow_normal by assumption.
  pose proof (round_decision_bounds m Hm) as B.
  split; [reflexivity|]. split.
  - intros [E M].
    assert (R : rne_q (8388608 + m) 8192 = 2048).
    { rewrite round_decision in B |- * by exact Hm.
      destruct (Z.eqb_spec ((m / 4096) mod 2) 0) as [P|P];
        destruct (Z.eqb_spec (m mod 4096) 0) as [Q|Q];
        destruct (Z.eqb_spec ((m / 8192) mod 2) 0) as [T|T];
        cbn [negb andb orb] in B |- *; Z.div_mod_to_equations; lia. }
    rewrite R. lia.
  - intros D.
    assert (R : e = 142 -> rne_q (8388608 + m) 8192 < 2048).
    { intros E. rewrite round_decision by exact Hm.
      destruct (Z.eqb_spec ((m / 4096) mod 2) 0) as [P|P];
        destruct (Z.eqb_spec (m mod 4096) 0) as [Q|Q];
        destruct (Z.eqb_spec ((m / 8192) mod 2) 0) as [T|T];
        cbn [negb andb orb]; Z.div_mod_to_equations; lia. }
    destruct (Z.eq_dec (rne_q (8388608 + m) 8192) 2048) as [F|F].
    + rewrite F.
      replace (s * 32768 + (e - 113) * 1024 + 2048)
        with (s * 32768 + (e - 111) * 1024 + 0) by ring.
      split; [Z.div_mod_to_equations; lia|].
      rewrite half_value_fields by lia.
      rewrite (proj2 (Z.eqb_neq (e - 111) 0)) by lia.
      replace (2 ^ (e - 111 - 1)) with (2 * 2 ^ (e - 113))
        by (rewrite <- (Z.pow_succ_r 2) by lia; f_equal; lia).
      destruct (s =? 0); ring.
    + replace (s * 32768 + (e - 113) * 1024 + rne_q (8388608 + m) 8192)
        with (s * 32768 + (e - 112) * 1024 + (rne_q (8388608 + m) 8192 - 1024))
        by ring.
      split; [Z.div_mod_to_equations; lia|].
      rewrite half_value_fields by lia.
      rewrite (proj2 (Z.eqb_neq (e - 112) 0)) by lia.
      replace (e - 112 - 1) with (e - 113) by ring.
      destruct (s =? 0); ring.
Qed.

Lemma f32_to_f16_rounds_witness :
  (0 <= 0 <= 1 /\ 113 <= 127 <= 142 /\ 0 <= 4096 < 8388608) /\
  Float16.f32_to_f16 (0 * 2147483648 + 127 * 8388608 + 4096)
  = 0 * 32768 + (127 - 113) * 1024 + rne_q (8388608 + 4096) 8192 /\
  rne_q (8388608 + 4096) 8192 = 1024.
Proof.
  split; [lia|]. split; [|reflexivity].
  apply (f32_to_f16_rounds 0 127 4096); lia.
Defined.

(** Outside the normal range of a half the conversion does not round:
    every float below [2^-14] in magnitude, subnormal halves included, is
    flushed to a signed zero; every finite float of [2^16] or more becomes
    a signed infinity; an infinity stays one and a NaN becomes the quiet
    NaN [0x7E00] with the sign kept and its payload dropped.  In
    particular the function never returns a subnormal half. *)
Theorem f32_to_f16_edges s e m :
  0 <= s <= 1 -> 0 <= e < 256 -> 0 <= m < 8388608 ->
  (e <= 112 ->
   Float16.f32_to_f16 (s * 2147483648 + e * 8388608 + m) = s * 32768) /\
  (143 <= e <= 254 ->
   Float16.f32_to_f16 (s * 2147483648 + e * 8388608 + m) = s * 32768 + 31744) /\
  (e = 255 ->
   Float16.f32_to_f16 (s * 2147483648 + e * 8388608 + m)
   = s * 32768 + 31744 + (if m =? 0 then 0 else 512)) /\
  (Float16.f32_to_f16 (s * 2147483648 + e * 8388608 + m) mod 32768 = 0 \/
   1024 <= Float16.f32_to_f16 (s * 2147483648 + e * 8388608 + m) mod 32768).
Proof.
  intros Hs He Hm.
  split; [intros L; apply narrow_low; lia|].
  split; [intros L; apply narrow_high; lia|].
  split; [intros ->; apply narrow_special; lia|].
  destruct (Z_le_gt_dec e 112) as [A|A].
  { left. rewrite narrow_low by lia. Z.div_mod_to_equations; lia. }
  destruct (Z_le_gt_dec 143 e) as [B|B].
  { right. destruct (Z.eq_dec e 255) as [E|E].
    - rewrite E, narrow_special by lia.
      destruct (m =? 0); Z.div_mod_to_equations; lia.
    - rewrite narrow_high by lia. Z.div_mod_to_equations; lia. }
  right. rewrite narrow_normal by lia.
  pose proof (round_decision_bounds m Hm). Z.div_mod_to_equations; lia.
Qed.

Lemma f32_to_f16_edges_witness :
  (0 <= 1 <= 1 /\ 0 <= 112 < 256 /\ 0 <= 8388607 < 8388608) /\
  Float16.f32_to_f16 (1 * 2147483648 + 112 * 8388608 + 8388607) = 1 * 32768.
Proof.
  split; [lia|].
  apply (f32_to_f16_edges 1 112 8388607); lia.
Defined.

(** Widening is total and exact: on every half the normalization loop
    ends (eleven iterations are enough) and a 32-bit pattern is returned.
    For a half that is not an infinity or a NaN the float has exactly the
    value of the half, subnormal halves included; an infinity becomes the
    infinity of its sign, and a NaN the quiet NaN [0x7FC00000] with its
    sign, its payload dropped. *)
Theorem f16_to_f32_exact fuel s e m :
  (11 <= fuel)%nat -> 0 <= s <= 1 -> 0 <= e < 32 -> 0 <= m < 1024 ->
  exists b,
    Float16.f16_to_f32 fuel (s * 32768 + e * 1024 + m) = Some b /\
    0 <= b < 2 ^ 32 /\
    (e < 31 ->
     float_value b = half_value (s * 32768 + e * 1024 + m) * 2 ^ 125) /\
    (e = 31 ->
     b = s * 2147483648 + 255 * 8388608 + (if m =? 0 then 0 else 4194304)).
Proof.
  intros L Hs He Hm. rewrite half_value_fields by lia.
  change (2 ^ 32) with 4294967296.
  destruct (Z.eq_dec e 31) as [E1|E1].
  { subst e. rewrite widen_special by lia.
    eexists. split; [reflexivity|].
    split; [destruct (m =? 0); lia|]. split; [lia|reflexivity]. }
  destruct (Z.eqb_spec e 0) as [E0|E0].
  - subst e. destruct (Z.eq_dec m 0) as [M0|M0].
    + subst m. rewrite widen_zero by exact Hs.
      exists (s * 2147483648). split; [reflexivity|]. split; [lia|].
      split; [intros _|lia].
      replace (s * 2147483648) with (s * 2147483648 + 0 * 8388608 + 0) by ring.
      rewrite float_value_fields by lia. cbn [Z.eqb]. ring.
    + destruct (widen_subnormal fuel s m L Hs ltac:(lia))
        as (m' & e' & W & Bm & Be & Em).
      rewrite W. eexists. split; [reflexivity|]. split; [lia|].
      split; [intros _|lia].
      rewrite float_value_fields by lia.
      rewrite (proj2 (Z.eqb_neq (e' + 127) 0)) by lia.
      replace (8388608 + (m' - 1024) * 8192) with (m' * 2 ^ 13)
        by (change (2 ^ 13) with 8192; ring).
      rewrite Em.
      replace (2 ^ 125) with (2 ^ (-14 - e') * 2 ^ 13 * 2 ^ (e' + 127 - 1))
        by (rewrite <- !Z.pow_add_r by lia; f_equal; lia).
      destruct (s =? 0); ring.
  - rewrite widen_normal by lia.
    eexists. split; [reflexivity|]. split; [lia|].
    split; [intros _|lia].
    rewrite float_value_fields by lia.
    rewrite (proj2 (Z.eqb_neq (e + 112) 0)) by lia.
    replace (8388608 + m * 8192) with ((1024 + m) * 2 ^ 13)
      by (change (2 ^ 13) with 8192; ring).
    replace (2 ^ (e + 112 - 1)) with (2 ^ (e - 1) * 2 ^ 112)
      by (rewrite <- Z.pow_add_r by lia; f_equal; lia).
    replace (2 ^ 125) with (2 ^ 13 * 2 ^ 112) by reflexivity.
    destruct (s =? 0); ring.
Qed.

Lemma f16_to_f32_exact_witness :
  ((11 <= 11)%nat /\ 0 <= 1 <= 1 /\ 0 <= 0 < 32 /\ 0 <= 1 < 1024) /\
  exists b,
    Float16.f16_to_f32 11 (1 * 32768 + 0 * 1024 + 1) = Some b /\
    0 <= b < 2 ^ 32 /\
    (0 < 31 ->
     float_value b = half_value (1 * 32768 + 0 * 1024 + 1) * 2 ^ 125) /\
    (0 = 31 ->
     b = 1 * 2147483648 + 255 * 8388608 + (if 1 =? 0 then 0 else 4194304)).
Proof.
  split; [lia|].
  apply (f16_to_f32_exact 11 1 0 1); lia.
Defined.

(** Round trip of a half through float: zeros, normal halves and
    infinities come back bit for bit; a subnormal half does not, it comes
    back as the zero of its sign; a NaN comes back as the quiet NaN
    [0x7E00] with its sign, whatever its payload. *)
Theorem f16_round_trip fuel s e m :
  (11 <= fuel)%nat -> 0 <= s <= 1 -> 0 <= e < 32 -> 0 <= m < 1024 ->
  exists b,
    Float16.f16_to_f32 fuel (s * 32768 + e * 1024 + m) = Some b /\
    Float16.f32_to_f16 b
    = if e =? 0 then s * 32768
      else if e =? 31 then s * 32768 + 31744 + (if m =? 0 then 0 else 512)
      else s * 32768 + e * 1024 + m.
Proof.
  intros L Hs He Hm.
  destruct (Z.eqb_spec e 0) as [E0|E0].
  - subst e. destruct (Z.eq_dec m 0) as [M0|M0].
    + subst m. rewrite widen_zero by exact Hs.
      eexists. split; [reflexivity|].
      replace (s * 2147483648) with (s * 2147483648 + 0 * 8388608 + 0) by ring.
      apply narrow_low; lia.
    + destruct (widen_subnormal fuel s m L Hs ltac:(lia))
        as (m' & e' & W & Bm & Be & Em).
      rewrite W. eexists. split; [reflexivity|].
      apply narrow_low; lia.
  - destruct (Z.eqb_spec e 31) as [E1|E1].
    + subst e. rewrite widen_special by lia.
      eexists. split; [reflexivity|].
      rewrite narrow_special by (destruct (m =? 0); lia).
      destruct (Z.eqb_spec m 0) as [M0|M0]; reflexivity.
    + rewrite widen_normal by lia.
      eexists. split; [reflexivity|].
      rewrite narrow_normal by lia.
      rewrite round_exact by lia. ring.
Qed.

Lemma f16_round_trip_witness :
  ((11 <= 11)%nat /\ 0 <= 0 <= 1 /\ 0 <= 0 < 32 /\ 0 <= 1023 < 1024) /\
  exists b,
    Float16.f16_to_f32 11 (0 * 32768 + 0 * 1024 + 1023) = Some b /\
    Float16.f32_to_f16 b = 0 * 32768.
Proof.
  split; [lia|].
  apply (f16_round_trip 11 0 0 1023); lia.
Defined.
